(** * llmjs: the fallback and racing engine, the model roster, the history store

  A shallow embedding of the library's source (the classes [AiMemoryStore],
  [Ai], [AiWithHistory], [GroqAi], [GroqAiWithHistory], [MistralAi],
  [MistralAiWithHistory], [MultiProviderAi], [MultiProviderAiWithHistory])
  and the properties of its request-resolution engine.

  Conventions of the embedding.
  - A JavaScript string is the list of its UTF-16 code units; a JavaScript
    value is a [jsval]; [truthy] is the language's ToBoolean.
  - An [Error] object is the record of its message; the template strings
    of the source are spelled out with [to_String]. What an SDK rejects
    with is such an object, so it is truthy.
  - Methods take the object and the world and return them: the world holds
    the console, the requests sent to the providers, the Mongo collection
    and the operations it received, and the clock.
  - An awaited promise is modelled by what it settles to and when. The
    event loop of racing mode is the chronological list of the attempts'
    completions, each handled to its end before the next.
  - The shaping of payloads ([buildMessages], [buildUserMessagePayload],
    [formatStoredContent] and the constructors of the LangChain messages)
    runs before any model is tried, outside every [try]. The embedding does
    not follow it: the world says, class by class and for the options of
    the call, which lines it prints and whether it throws; what it hands to
    the SDK is left to the network, a function of the options of the call.
  - A number is an integer within the safe range of JavaScript (below 2^53
    in absolute value), on which [String] gives the decimal numeral.
  - The operations of the Mongo driver are taken to succeed (the source
    only prints their failures). *)

From Stdlib Require Import String Ascii DecimalString.
From Stdlib Require Import List ZArith NArith Bool Lia Permutation Sorted.
Import ListNotations.

Set Implicit Arguments.
Set Warnings "-register-all".

(* ===================================================================== *)
(** * JavaScript values                                                    *)
(* ===================================================================== *)

Module Js.

(** UTF-16 code units. *)
Definition jsstring := list N.

(** A string literal of the source (ASCII only). *)
Definition js (s : string) : jsstring :=
  map N_of_ascii (list_ascii_of_string s).

Inductive jsval : Type :=
| JUndefined
| JNull
| JBool (b : bool)
| JNum (n : Z)
| JNaN
| JStr (s : jsstring)
| JArr (items : list jsval)
| JObj (fields : list (string * jsval)).

(** ToBoolean. *)
Definition truthy (v : jsval) : bool :=
  match v with
  | JUndefined | JNull | JNaN => false
  | JBool b => b
  | JNum n => negb (n =? 0)%Z
  | JStr s => match s with [] => false | _ :: _ => true end
  | JArr _ | JObj _ => true
  end.

(** [v.name]: reading a property of a non-object yields undefined here
    (the source never reads a property of null or undefined without a
    guard in the functions embedded below). *)
Fixpoint assoc (name : string) (fields : list (string * jsval)) : jsval :=
  match fields with
  | [] => JUndefined
  | (k, v) :: rest => if String.eqb k name then v else assoc name rest
  end.

Definition get (v : jsval) (name : string) : jsval :=
  match v with
  | JObj fields => assoc name fields
  | _ => JUndefined
  end.

(** An argument was passed: it is not undefined. *)
Definition given (x : jsval) : bool :=
  match x with JUndefined => false | _ => true end.

(** A default parameter value [x = d]: used when the argument is undefined. *)
Definition default_arg (x d : jsval) : jsval := if given x then x else d.

(** [a || b] *)
Definition or_else (a b : jsval) : jsval := if truthy a then a else b.

(** [Array.isArray] *)
Definition isArray (v : jsval) : bool :=
  match v with JArr _ => true | _ => false end.

(** [arr.join(sep)] on strings. *)
Fixpoint join (sep : jsstring) (l : list jsstring) : jsstring :=
  match l with
  | [] => []
  | [s] => s
  | s :: rest => s ++ sep ++ join sep rest
  end.

(** The integers every JavaScript number type holds exactly, and which
    [String] prints digit by digit: [Number.isSafeInteger]. *)
Definition safe_integer (n : Z) : Prop :=
  (- 9007199254740991 <= n <= 9007199254740991)%Z.

(** [String(v)]. The numeral of a number is the decimal one, which is what
    the language prints for a safe integer (beyond, it rounds the digits,
    and from 1e21 on it uses an exponent). *)
Fixpoint to_String (v : jsval) : jsstring :=
  match v with
  | JUndefined => js "undefined"
  | JNull => js "null"
  | JBool true => js "true"
  | JBool false => js "false"
  | JNum n => js (NilZero.string_of_int (Z.to_int n))
  | JNaN => js "NaN"
  | JStr s => s
  | JArr items =>
      join (js ",")
           ((fix each (l : list jsval) : list jsstring :=
               match l with
               | [] => []
               | x :: r =>
                   match x with
                   | JUndefined | JNull => []
                   | _ => to_String x
                   end :: each r
               end) items)
  | JObj _ => js "[object Object]"
  end.

(** WhiteSpace and LineTerminator code points of ECMAScript, the ones
    [String.prototype.trim] strips. *)
Definition is_space (c : N) : bool :=
  ((9 <=? c) && (c <=? 13) || (c =? 32) || (c =? 160) || (c =? 5760)
   || ((8192 <=? c) && (c <=? 8202)) || (c =? 8232) || (c =? 8233)
   || (c =? 8239) || (c =? 8287) || (c =? 12288) || (c =? 65279))%N.

Fixpoint trimStart (s : jsstring) : jsstring :=
  match s with
  | [] => []
  | c :: rest => if is_space c then trimStart rest else s
  end.

Definition trimEnd (s : jsstring) : jsstring := rev (trimStart (rev s)).

(** [s.trim()] *)
Definition trim (s : jsstring) : jsstring := trimEnd (trimStart s).

(** A string made of white space only (the empty string included). *)
Definition blank (s : jsstring) : bool := forallb is_space s.

End Js.
Export Js.

(* ===================================================================== *)
(** * The environment: errors, promises, the console, the network, Mongo  *)
(* ===================================================================== *)

Module Env.

(** [new Error(message)] *)
Record error := Error { message : jsstring }.

(** What an [async] call gives its caller: the promise is fulfilled, it is
    rejected, or it never settles. *)
Inductive outcome (A : Type) :=
| Returned (a : A)
| Thrown (e : error)
| Pending.
Arguments Returned {A} a.
Arguments Thrown {A} e.
Arguments Pending {A}.

(** The promise returned by one call of an SDK: it is fulfilled with a
    response or rejected with an error some milliseconds after the call, or
    it stays pending. *)
Inductive reply :=
| Fulfils (latency : Z) (response : jsval)
| Rejects (latency : Z) (err : error)
| Silent.

(** What an awaited promise settled to, and when (in milliseconds after the
    attempt was started). *)
Inductive settlement (A : Type) :=
| Settles (time : Z) (result : error + A)
| Hangs.
Arguments Settles {A} time result.
Arguments Hangs {A}.

Definition plain (r : reply) : settlement jsval :=
  match r with
  | Fulfils t resp => Settles t (inr resp)
  | Rejects t e => Settles t (inl e)
  | Silent => Hangs
  end.

(** The largest delay of a timer, 2^31 - 1 milliseconds. *)
Definition TIMEOUT_MAX : Z := 2147483647.

(** When [setTimeout(f, ms)] fires for a positive whole [ms]: a delay above
    [TIMEOUT_MAX] is set to one millisecond. *)
Definition timer_delay (ms : Z) : Z :=
  if (TIMEOUT_MAX <? ms)%Z then 1%Z else ms.

(** [requestTimeoutMs > 0 ? await Promise.race([work, timer]) : await work],
    where the timer rejects with [expired] when [setTimeout(...,
    timeoutMs)] fires. A reply that is due at the very instant the timer
    fires loses to the timer. *)
Definition await_within (timeoutMs : Z) (expired : error) (r : reply)
  : settlement jsval :=
  if (0 <? timeoutMs)%Z then
    let delay := timer_delay timeoutMs in
    match r with
    | Fulfils t resp =>
        if (t <? delay)%Z then Settles t (inr resp)
        else Settles delay (inl expired)
    | Rejects t e =>
        if (t <? delay)%Z then Settles t (inl e)
        else Settles delay (inl expired)
    | Silent => Settles delay (inl expired)
    end
  else plain r.

(** One line of [console.error] / [console.log]: the label and the value
    printed after it. *)
Record log_line := Log { label : jsstring; detail : jsstring }.

(** One request sent to a provider: the endpoint (SDK and service) and the
    model asked. *)
Record request := Request { endpoint : string; target : jsval }.

(** A document of the Mongo collection. *)
Record doc := Doc {
  _id : nat;
  doc_chatId : jsstring;
  doc_scope : jsstring;
  doc_role : jsval;
  doc_content : jsval;
  createdAt : Z
}.

(** Operations received by the Mongo collection. *)
Inductive db_op :=
| OpFind (chatId scope : jsstring) (limit : nat)
| OpInsertMany (count : nat)
| OpAggregate (chatId scope : jsstring)
| OpDeleteMany (count : nat).

(** What the code that runs before the first attempt of a chat call does:
    the lines it prints ([console.warn]) and the error it throws, if it
    throws. *)
Record composed := Composed {
  warned : list log_line;
  refused : option error
}.

(** Everything outside the objects of the library. [clock] is the wall
    clock: the [n]-th evaluation of [new Date()] yields [clock n].
    [newest_first] is what the database makes of [{ createdAt: -1 }] as a
    sort order, documents with equal dates included. [composing] is what
    shaping the payload of a chat call does, for the class whose method runs
    and the values of [system], [user], [messages] and [attachments]:
    [buildMessages] with the constructors of the LangChain messages in
    [Ai], the loops over [messages] and [attachments] with
    [buildUserMessagePayload] in [GroqAi] and [MistralAi], the rebuilding
    of the stored turns and [buildUserMessagePayload] in the history-bound
    classes. *)
Record world := World {
  console : list log_line;
  requests : list request;
  collection : list doc;
  next_id : nat;
  db_ops : list db_op;
  clock : nat -> Z;
  dates_read : nat;
  newest_first : list doc -> list doc;
  composing : string -> jsval -> jsval -> list jsval -> jsval -> composed
}.

Definition say (l : log_line) (w : world) : world :=
  World (console w ++ [l]) (requests w) (collection w) (next_id w)
        (db_ops w) (clock w) (dates_read w) (newest_first w) (composing w).

Definition send (r : request) (w : world) : world :=
  World (console w) (requests w ++ [r]) (collection w) (next_id w)
        (db_ops w) (clock w) (dates_read w) (newest_first w) (composing w).

Definition db_note (op : db_op) (w : world) : world :=
  World (console w) (requests w) (collection w) (next_id w)
        (db_ops w ++ [op]) (clock w) (dates_read w) (newest_first w)
        (composing w).

Definition with_collection (docs : list doc) (w : world) : world :=
  World (console w) (requests w) docs (next_id w)
        (db_ops w) (clock w) (dates_read w) (newest_first w) (composing w).

(** A document enters the collection: the driver gives it a fresh [_id]. *)
Definition store (chatId scope : jsstring) (role content : jsval)
  (date : Z) (w : world) : world :=
  World (console w) (requests w)
        (collection w ++ [Doc (next_id w) chatId scope role content date])
        (S (next_id w)) (db_ops w) (clock w) (dates_read w) (newest_first w)
        (composing w).

(** [new Date()] *)
Definition new_Date (w : world) : Z * world :=
  (clock w (dates_read w),
   World (console w) (requests w) (collection w) (next_id w)
         (db_ops w) (clock w) (S (dates_read w)) (newest_first w)
         (composing w)).

(** Positions of a list, counted from [k]. *)
Fixpoint indexed {A : Type} (k : nat) (l : list A) : list (nat * A) :=
  match l with
  | [] => []
  | x :: rest => (k, x) :: indexed (S k) rest
  end.

(** Stable insertion sort; [leb a b] says that [a] may stand before [b]. *)
Fixpoint insert_sorted {A : Type} (leb : A -> A -> bool) (x : A) (l : list A)
  : list A :=
  match l with
  | [] => [x]
  | h :: t => if leb x h then x :: l else h :: insert_sorted leb x t
  end.

Fixpoint sort_by {A : Type} (leb : A -> A -> bool) (l : list A) : list A :=
  match l with
  | [] => []
  | x :: rest => insert_sorted leb x (sort_by leb rest)
  end.

(** Several lines printed one after the other. *)
Definition print_all (lines : list log_line) (w : world) : world :=
  fold_left (fun w l => say l w) lines w.

(** An empty database whose sort breaks ties by insertion order, in a world
    where every payload is shaped without a line and without an error. *)
Definition empty_world (clock : nat -> Z) : world :=
  World [] [] [] 0 [] clock 0
        (sort_by (fun a b => (createdAt b <=? createdAt a)%Z))
        (fun _ _ _ _ _ => Composed [] None).

End Env.
Export Env.

(* ===================================================================== *)
(** * The resolution engine shared by every [ask] and [transcribe]        *)
(* ===================================================================== *)

Module Engine.

(** The object whose method runs ([this.lastUsedModel]) and the world. *)
Record ctx := Ctx { lastUsedModel : jsval; env : world }.

(** Forgetting when an awaited call settled. *)
Definition forget {A : Type} (s : settlement A) : outcome A :=
  match s with
  | Settles _ (inr a) => Returned a
  | Settles _ (inl e) => Thrown e
  | Hangs => Pending
  end.

(** [lastError || fallback] *)
Definition last_or (lastError : option error) (fallback : error) : error :=
  match lastError with Some e => e | None => fallback end.

(** The completion of one attempt: when, of which model, with what. *)
Definition completion := (Z * (jsval * (error + jsstring)))%type.

(** The state of the promise built by racing mode: the closure variables
    [settled], [remaining] and [lastError], the promise itself, and how
    many times [resolve] or [reject] has been called on it. *)
Record race := Race {
  settled : bool;
  remaining : Z;
  lastError : option error;
  promise : settlement jsstring;
  settle_calls : nat;
  self : ctx
}.

(** [resolve(v)] / [reject(e)] on a promise: only the first one counts. *)
Definition settle (p now : settlement jsstring) : settlement jsstring :=
  match p with Hangs => now | _ => p end.

Section Strategy.

(** The body of the [try] block up to its verdict, for the [k]-th attempt of
    the call and its model: the text to return, or the error thrown. *)
Variable run : nat -> jsval -> settlement jsstring.
(** The endpoint the attempts are sent to. *)
Variable api : string.
(** [console.error(...)] of the [catch] block. *)
Variable failure_line : jsval -> error -> log_line.
(** The error of [throw lastError || new Error("All ... failed")]. *)
Variable all_failed : error.

(** The [catch] block. *)
Definition caught (model : jsval) (e : error) (c : ctx) : ctx :=
  Ctx (lastUsedModel c) (say (failure_line model e) (env c)).

(** The request of one attempt leaves. *)
Definition started (model : jsval) (c : ctx) : ctx :=
  Ctx (lastUsedModel c) (send (Request api model) (env c)).

(** [let lastError;
     for (const model of models) { try { ...; this.lastUsedModel = model;
     return text } catch (error) { lastError = error; console.error(...) } }
     throw lastError || new Error(...)]; [elapsed] is the time spent in the
    attempts made so far. *)
Fixpoint sequential (k : nat) (models : list jsval) (lastErr : option error)
  (elapsed : Z) (c : ctx) : ctx * settlement jsstring :=
  match models with
  | [] => (c, Settles elapsed (inl (last_or lastErr all_failed)))
  | model :: rest =>
      match run k model with
      | Hangs => (started model c, Hangs)
      | Settles t (inr text) =>
          (Ctx model (env (started model c)), Settles (elapsed + t) (inr text))
      | Settles t (inl e) =>
          sequential (S k) rest (Some e) (elapsed + t)
                     (caught model e (started model c))
      end
  end.

(** What one racing attempt does once its awaited call has settled: the end
    of the [try] block or the [catch] block, then the [finally] block. *)
Definition complete (st : race) (ev : completion) : race :=
  let '(now, (model, result)) := ev in
  let st :=
    match result with
    | inr text =>
        if settled st then st
        else Race true (remaining st) (lastError st)
                  (settle (promise st) (Settles now (inr text)))
                  (S (settle_calls st))
                  (Ctx model (env (self st)))
    | inl e =>
        Race (settled st) (remaining st) (Some e) (promise st)
             (settle_calls st) (caught model e (self st))
    end in
  let st := Race (settled st) (remaining st - 1) (lastError st) (promise st)
                 (settle_calls st) (self st) in
  if negb (settled st) && (remaining st =? 0)%Z then
    Race true (remaining st) (lastError st)
         (settle (promise st)
                 (Settles now (inl (last_or (lastError st) all_failed))))
         (S (settle_calls st)) (self st)
  else st.

Definition completions (st : race) (evs : list completion) : race :=
  fold_left complete evs st.

(** The loop of racing mode starts every attempt at once, in roster order:
    [let settled = false; let remaining = models.length; let lastError]. *)
Definition launch (models : list jsval) (c : ctx) : race :=
  Race false (Z.of_nat (length models)) None Hangs 0
       (fold_left (fun c m => started m c) models c).

(** The attempts that settle, with their time. *)
Fixpoint settling (l : list (nat * jsval)) : list completion :=
  match l with
  | [] => []
  | (k, model) :: rest =>
      match run k model with
      | Settles t result => (t, (model, result)) :: settling rest
      | Hangs => settling rest
      end
  end.

(** The completions in chronological order (attempts settling at the same
    instant are taken in roster order). *)
Definition chronological (models : list jsval) : list completion :=
  sort_by (fun a b => (fst a <=? fst b)%Z) (settling (indexed 0 models)).

(** [return new Promise((resolve, reject) => { ... })] *)
Definition racing (models : list jsval) (c : ctx)
  : ctx * settlement jsstring :=
  let st := completions (launch models c) (chronological models) in
  (self st, promise st).

(** [if (!this.firstToFinish || models.length === 1) { sequential mode }
     return new Promise(racing mode)] *)
Definition resolve (firstToFinish : jsval) (models : list jsval) (c : ctx)
  : ctx * settlement jsstring :=
  if negb (truthy firstToFinish) || (length models =? 1)%nat
  then sequential 0 models None 0 c
  else racing models c.

End Strategy.

End Engine.
Export Engine.

(* ===================================================================== *)
(** * What the classes Ai, GroqAi and MistralAi share                      *)
(* ===================================================================== *)

Module Client.

(** The argument of [ask({ system, user, messages, attachments })]. *)
Record ask_options := AskOptions {
  system : jsval;
  user : jsval;
  messages : list jsval;
  attachments : jsval
}.

(** The models behind a provider: what the [k]-th request of a call, sent
    with the given prompt to the given model, is answered. *)
Definition network (Prompt : Type) := Prompt -> nat -> jsval -> reply.

(** [`Model ${model} timed out after ${ms}ms`] *)
Definition timed_out (model : jsval) (ms : Z) : error :=
  Error (js "Model " ++ to_String model ++ js " timed out after "
         ++ to_String (JNum ms) ++ js "ms").

(** [`Empty response from ${model}`] *)
Definition empty_response (model : jsval) : error :=
  Error (js "Empty response from " ++ to_String model).

(** [[model, ...fallbackModels].filter(Boolean)], after the defaults
    [model = default_model] and [fallbackModels = []] have replaced omitted
    (undefined) arguments. *)
Definition build_models (default_model model : jsval)
  (fallbackModels : option (list jsval)) : list jsval :=
  let model := default_arg model default_model in
  let fallbackModels :=
    match fallbackModels with None => [] | Some l => l end in
  filter truthy (model :: fallbackModels).

(** The fields of an [Ai], [GroqAi] or [MistralAi] object that decide what
    [ask] and [transcribe] do. The others are not represented:
    [temperature], [maxTokens], [defaultHeaders] and the SDK client only
    shape the requests, and [clientCache], which [getClient] fills with one
    LangChain client for each model tried, only saves building them
    again. *)
Record client := Client {
  models : list jsval;
  requestTimeoutMs : Z;
  firstToFinish : jsval;
  lastUsedModel : jsval
}.

(** The argument of their constructors; an omitted option is undefined
    (for the two typed ones, [None]). *)
Record options := Options {
  opt_apiKey : jsval;
  opt_model : jsval;
  opt_fallbackModels : option (list jsval);
  opt_requestTimeoutMs : option Z;
  opt_firstToFinish : jsval
}.

(** [constructor({ apiKey, model = ..., fallbackModels = [], ...,
    requestTimeoutMs = 20000, firstToFinish = false } = {})] *)
Definition construct (class : string) (default_model : jsval) (o : options)
  : error + client :=
  if negb (truthy (opt_apiKey o)) then
    inl (Error (js "apiKey is required for " ++ js class))
  else
    inr (Client
           (build_models default_model (opt_model o) (opt_fallbackModels o))
           (match opt_requestTimeoutMs o with None => 20000 | Some t => t end)
           (default_arg (opt_firstToFinish o) (JBool false))
           JNull).

(** What shaping the payload of a chat call does in the given class. *)
Definition compose (class : string) (o : ask_options) (w : world)
  : composed :=
  composing w class (system o) (user o) (messages o) (attachments o).

(** Writing back what a strategy did to [this.lastUsedModel]. *)
Definition finish {A : Type} (this : client) (r : ctx * settlement A)
  : client * world * settlement A :=
  (Client (models this) (requestTimeoutMs this) (firstToFinish this)
          (Engine.lastUsedModel (fst r)),
   env (fst r), snd r).

Definition untimed {S A : Type} (r : S * world * settlement A)
  : S * world * outcome A :=
  (fst r, forget (snd r)).

End Client.
Export Client.

(* ===================================================================== *)
(** * class Ai (OpenRouter through LangChain)                              *)
(* ===================================================================== *)

Module OpenRouter.

Definition DEFAULT_MODEL : jsval :=
  JStr (js "meta-llama/llama-3.3-70b-instruct:free").

Definition new : options -> error + client := construct "Ai" DEFAULT_MODEL.

(** One chunk of an array content: a string, or an object with a string
    [text] or a string [content]. *)
Definition chunk_text (chunk : jsval) : jsstring :=
  match chunk with
  | JStr s => s
  | _ =>
      match get chunk "text" with
      | JStr s => s
      | _ => match get chunk "content" with JStr s => s | _ => [] end
      end
  end.

Definition newline : jsstring := [10%N].

(** [extractText(aiMessage)] *)
Definition extractText (aiMessage : jsval) : jsstring :=
  if negb (truthy aiMessage) then []
  else
    match get aiMessage "content" with
    | JStr s => s
    | JArr chunks => trim (join newline (map chunk_text chunks))
    | _ => []
    end.

(** The [try] block of [ask] for one model, up to [if (!text) throw]. *)
Definition attempt (timeoutMs : Z) (net : nat -> jsval -> reply)
  (k : nat) (model : jsval) : settlement jsstring :=
  match await_within timeoutMs (timed_out model timeoutMs) (net k model) with
  | Hangs => Hangs
  | Settles t (inl e) => Settles t (inl e)
  | Settles t (inr response) =>
      match trim (extractText response) with
      | [] => Settles t (inl (empty_response model))
      | text => Settles t (inr text)
      end
  end.

(** [console.error(`[AI] ${model} failed:`, error?.message || error)] *)
Definition failure_line (model : jsval) (e : error) : log_line :=
  Log (js "[AI] " ++ to_String model ++ js " failed:") (message e).

Definition all_failed : error := Error (js "All AI models failed").

(** [async ask({ system, user, messages = [], attachments = [] } = {})],
    with the time at which its promise settles:
    [if (!this.models.length) throw ...;
     const builtMessages = this.buildMessages({ ... });], which is outside
    any [try], and then one of the two strategies. *)
Definition ask_timed (this : client) (net : network ask_options)
  (o : ask_options) (w : world) : client * world * settlement jsstring :=
  match models this with
  | [] => (this, w, Settles 0 (inl (Error (js "No AI models configured"))))
  | _ :: _ =>
      let builtMessages := compose "Ai" o w in
      let w := print_all (warned builtMessages) w in
      match refused builtMessages with
      | Some e => (this, w, Settles 0 (inl e))
      | None =>
          finish this
            (resolve (attempt (requestTimeoutMs this) (net o))
                     "openrouter:chat" failure_line all_failed
                     (firstToFinish this) (models this)
                     (Ctx (lastUsedModel this) w))
      end
  end.

Definition ask (this : client) (net : network ask_options)
  (o : ask_options) (w : world) : client * world * outcome jsstring :=
  untimed (ask_timed this net o w).

End OpenRouter.

(* ===================================================================== *)
(** * class AiMemoryStore                                                  *)
(* ===================================================================== *)

Module Memory.

(** Equality of strings, as the query [{ chatId, scope }] tests it. *)
Fixpoint str_eqb (a b : jsstring) : bool :=
  match a, b with
  | [], [] => true
  | x :: a', y :: b' => (x =? y)%N && str_eqb a' b'
  | _, _ => false
  end.

(** [{ chatId: normalizedChatId, scope }] as a filter. *)
Definition matches (chatId scope : jsstring) (d : doc) : bool :=
  str_eqb (doc_chatId d) chatId && str_eqb (doc_scope d) scope.

(** The documents of one chat in one scope, in insertion order. *)
Definition partition (chatId scope : jsstring) (w : world) : list doc :=
  filter (matches chatId scope) (collection w).

(** [cursor.limit(n)]: a limit of 0 is no limit. *)
Definition limited {A : Type} (limit : nat) (l : list A) : list A :=
  match limit with O => l | S _ => firstn limit l end.

(** A stored turn as [getHistory] returns it. *)
Record turn := Turn { role : jsval; content : jsval }.

(** [async getHistory(chatId, scope, limit = 10)] *)
Definition getHistory (chatId : jsval) (scope : jsstring) (limit : nat)
  (w : world) : world * list turn :=
  if negb (truthy chatId) || negb (truthy (JStr scope)) then (w, [])
  else
    let normalizedChatId := to_String chatId in
    let docs :=
      limited limit (newest_first w (partition normalizedChatId scope w)) in
    (db_note (OpFind normalizedChatId scope limit) w,
     filter (fun entry => truthy (role entry) && truthy (content entry))
            (map (fun d => Turn (doc_role d) (doc_content d)) (rev docs))).

(** [(msg) => msg && msg.role && msg.content] *)
Definition valid (msg : jsval) : bool :=
  truthy msg && truthy (get msg "role") && truthy (get msg "content").

(** [collection.insertMany(docs)], each document built by
    [{ chatId, scope, role: msg.role, content: msg.content,
       createdAt: new Date() }]. *)
Fixpoint insertMany (chatId scope : jsstring) (msgs : list jsval) (w : world)
  : world :=
  match msgs with
  | [] => w
  | msg :: rest =>
      let '(date, w) := new_Date w in
      insertMany chatId scope rest
        (store chatId scope (get msg "role") (get msg "content") date w)
  end.

Definition maxEntries : nat := 80.

(** The pipeline [$match, $sort: { createdAt: -1 }, $skip: maxEntries,
    $project: { _id: 1 }] and [staleDocs.map((doc) => doc._id)]. *)
Definition stale_ids (chatId scope : jsstring) (w : world) : list nat :=
  map _id (skipn maxEntries (newest_first w (partition chatId scope w))).

(** [collection.deleteMany({ _id: { $in: ids } })] *)
Definition deleteMany_in (ids : list nat) (docs : list doc) : list doc :=
  filter (fun d => negb (existsb (Nat.eqb (_id d)) ids)) docs.

(** The chain [aggregate(...).toArray().then((staleDocs) => ...)] that
    [appendMessages] starts and does not await. *)
Definition trimHistory (chatId scope : jsstring) (w : world) : world :=
  let ids := stale_ids chatId scope w in
  let w := db_note (OpAggregate chatId scope) w in
  match ids with
  | [] => w
  | _ :: _ =>
      db_note (OpDeleteMany (length ids))
              (with_collection (deleteMany_in ids (collection w)) w)
  end.

(** [async appendMessages(chatId, scope, messages = [])], once the trim it
    schedules has run. Connecting, inserting and deleting are taken to
    succeed (their failures are only printed). *)
Definition appendMessages (chatId : jsval) (scope : jsstring)
  (messages : jsval) (w : world) : world :=
  match messages with
  | JArr ((_ :: _) as items) =>
      if negb (truthy chatId) || negb (truthy (JStr scope)) then w
      else
        let normalizedChatId := to_String chatId in
        match filter valid items with
        | [] => w
        | docs =>
            let w := insertMany normalizedChatId scope docs w in
            let w := db_note (OpInsertMany (length docs)) w in
            trimHistory normalizedChatId scope w
        end
  | _ => w
  end.

(** [`[AI Memory] History cleared for ${chatId} in scope ${scope}`] *)
Definition cleared_line (chatId : jsval) (scope : jsstring) : log_line :=
  Log (js "[AI Memory] History cleared for " ++ to_String chatId
       ++ js " in scope " ++ scope) [].

(** [async clearHistory(chatId, scope)] *)
Definition clearHistory (chatId : jsval) (scope : jsstring) (w : world)
  : world :=
  if negb (truthy chatId) || negb (truthy (JStr scope)) then w
  else
    let kept :=
      filter (fun d => negb (matches (to_String chatId) scope d))
             (collection w) in
    say (cleared_line chatId scope)
        (db_note (OpDeleteMany (length (collection w) - length kept))
                 (with_collection kept w)).

End Memory.

(* ===================================================================== *)
(** * The history-bound classes                                            *)
(* ===================================================================== *)

Module History.

(** The fields the four [...WithHistory] classes add to their base. *)
Record bound (Base : Type) := Bound {
  base : Base;
  memoryScope : jsstring;
  historyLimit : nat
}.

Section Bridge.

(** The base class: its name, its objects and its [ask]. *)
Variable class : string.
Variable Base : Type.
Variable super_ask
  : Base -> ask_options -> world -> Base * world * outcome jsstring.
(** [formatStoredContent] and the message built around it, for one stored
    turn; [buildUserMessagePayload({ user, attachments }).contentForHistory].
    Both give what they give when the shaping goes through; whether it
    does is for the world to say. *)
Variable formatEntry : Memory.turn -> jsval.
Variable contentForHistory : jsval -> jsval -> jsval.

(** A stored turn as a value. *)
Definition entry_value (entry : Memory.turn) : jsval :=
  JObj [("role"%string, Memory.role entry);
        ("content"%string, Memory.content entry)].

(** [constructor({ memoryStore, memoryScope = "default", historyLimit = 10,
    ...options } = {})] *)
Definition construct_bound (memoryStore : jsval) (scope : option jsstring)
  (limit : option nat) (super : error + Base) : error + bound Base :=
  if negb (truthy memoryStore) then
    inl (Error (js "memoryStore is required for " ++ js class))
  else
    match super with
    | inl e => inl e
    | inr b =>
        inr (Bound b
                   (match scope with None => js "default" | Some s => s end)
                   (match limit with None => 10 | Some n => n end))
    end.

(** The turns to persist after an answer. *)
Definition toPersist (contentForHistory : jsval) (response : jsstring)
  : list jsval :=
  (match contentForHistory with
   | JNull | JUndefined => []
   | c => [JObj [("role"%string, JStr (js "user")); ("content"%string, c)]]
   end)
  ++ (if truthy (JStr response)
      then [JObj [("role"%string, JStr (js "assistant"));
                 ("content"%string, JStr response)]]
      else []).

(** [async ask(chatId, { system, user, attachments = [] } = {})]. The stored
    turns are rebuilt as messages and [buildUserMessagePayload] is called
    before [super.ask], outside any [try]: when that throws, so does [ask].
    The world returned is the one in which the persistence that [ask]
    starts without awaiting it has run. *)
Definition ask (this : bound Base) (chatId : jsval)
  (system user attachments : jsval) (w : world)
  : bound Base * world * outcome jsstring :=
  if negb (truthy chatId) then
    (this, w, Thrown (Error (js "chatId is required for " ++ js class)))
  else
    let '(w, historyEntries) :=
      Memory.getHistory chatId (memoryScope this) (historyLimit this) w in
    let shaped :=
      composing w class system user (map entry_value historyEntries)
                attachments in
    let w := print_all (warned shaped) w in
    match refused shaped with
    | Some e => (this, w, Thrown e)
    | None =>
        let formattedHistory := map formatEntry historyEntries in
        let forHistory := contentForHistory user attachments in
        let '(b, w, response) :=
          super_ask (base this)
                    (AskOptions system user formattedHistory attachments) w in
        let this := Bound b (memoryScope this) (historyLimit this) in
        match response with
        | Returned text =>
            match toPersist forHistory text with
            | [] => (this, w, Returned text)
            | turns =>
                (this,
                 Memory.appendMessages chatId (memoryScope this) (JArr turns) w,
                 Returned text)
            end
        | failure => (this, w, failure)
        end
    end.

(** [async clear(chatId)] *)
Definition clear (this : bound Base) (chatId : jsval) (w : world) : world :=
  Memory.clearHistory chatId (memoryScope this) w.

End Bridge.

End History.

(* ===================================================================== *)
(** * classes GroqAi and MistralAi                                         *)
(* ===================================================================== *)

(** An audio input of [transcribe]: a plain value (a path or a URL when it
    is a string), a [Buffer], or a readable stream with what reading it to
    its end gives. *)
Inductive audio :=
| Plain (v : jsval)
| Buffer (bytes : list N)
| Stream (read : settlement (list N)).

(** [!file] is false for every object. *)
Definition audio_given (file : audio) : bool :=
  match file with Plain v => truthy v | _ => true end.

(** The argument of [transcribe]; Groq reads [file], [model] and
    [temperature], Mistral [file], [model], [language] and
    [timestamp_granularities]. *)
Record transcribe_options := TranscribeOptions {
  file : audio;
  model : jsval;
  temperature : jsval;
  language : jsval;
  timestamp_granularities : jsval
}.

(** An awaited call that started [t0] milliseconds into the method. *)
Definition later {A : Type} (t0 : Z) (s : settlement A) : settlement A :=
  match s with
  | Settles t r => Settles (t0 + t) r
  | Hangs => Hangs
  end.

Definition later3 {S A : Type} (t0 : Z) (r : S * world * settlement A)
  : S * world * settlement A :=
  (fst r, later t0 (snd r)).

(** What a method of an SDK wrapper throws when it calls a property that is
    not a function or reads a property of null or undefined. *)
Definition TypeError : error := Error (js "TypeError").

Module Sdk.

(** What differs between the two classes. *)
Record brand := Brand {
  sdk : string;                (* groq, mistral *)
  class : string;              (* GroqAi, MistralAi *)
  tag : string;                (* [GroqAI], [MistralAI] *)
  noun : string;               (* Groq, Mistral *)
  default_chat : string;
  default_transcription : string
}.

(** [x[0]] *)
Definition first_of (v : jsval) : jsval :=
  match v with
  | JArr (x :: _) => x
  | JObj fields => assoc "0" fields
  | _ => JUndefined
  end.

(** [extractText(resp)]:
    [try { return resp.choices?.[0]?.message?.content?.trim() || "" }
     catch { return "" }] *)
Definition extractText (resp : jsval) : jsstring :=
  match get (get (first_of (get resp "choices")) "message") "content" with
  | JStr s => trim s
  | _ => []
  end.

Section Class.

Variable b : brand.

Definition new : options -> error + client :=
  construct (class b) (JStr (js (default_chat b))).

(** The [try] block of [ask] for one model, up to [if (!text) throw]. *)
Definition attempt (timeoutMs : Z) (net : nat -> jsval -> reply)
  (k : nat) (model : jsval) : settlement jsstring :=
  match await_within timeoutMs (timed_out model timeoutMs) (net k model) with
  | Hangs => Hangs
  | Settles t (inl e) => Settles t (inl e)
  | Settles t (inr resp) =>
      match extractText resp with
      | [] => Settles t (inl (empty_response model))
      | text => Settles t (inr text)
      end
  end.

(** [console.error(`[GroqAI] ${model} failed:`, err?.message || err)] *)
Definition failure_line (model : jsval) (e : error) : log_line :=
  Log (js (tag b) ++ js " " ++ to_String model ++ js " failed:") (message e).

Definition all_failed : error :=
  Error (js "All " ++ js (noun b) ++ js " models failed").

(** [async ask({ system, user, messages = [], attachments = [] } = {})]:
    the test of the roster, the building of the messages (the loop over
    [messages], and [buildUserMessagePayload], whose [normalizeAttachment]
    prints a warning for each video), which is outside any [try], and then
    one of the two strategies. *)
Definition ask_timed (this : client) (net : network ask_options)
  (o : ask_options) (w : world) : client * world * settlement jsstring :=
  match models this with
  | [] =>
      (this, w,
       Settles 0 (inl (Error (js "No " ++ js (noun b)
                              ++ js " models configured"))))
  | _ :: _ =>
      let built := compose (class b) o w in
      let w := print_all (warned built) w in
      match refused built with
      | Some e => (this, w, Settles 0 (inl e))
      | None =>
          finish this
            (resolve (attempt (requestTimeoutMs this) (net o))
                     (sdk b ++ ":chat")%string
                     failure_line all_failed
                     (firstToFinish this) (models this)
                     (Ctx (lastUsedModel this) w))
      end
  end.

Definition ask (this : client) (net : network ask_options)
  (o : ask_options) (w : world) : client * world * outcome jsstring :=
  untimed (ask_timed this net o w).

(** [`Groq transcription model ${targetModel} timed out after ${ms}ms`] *)
Definition transcription_timed_out (targetModel : jsval) (ms : Z) : error :=
  Error (js (noun b) ++ js " transcription model " ++ to_String targetModel
         ++ js " timed out after " ++ to_String (JNum ms) ++ js "ms").

(** [`Groq transcription returned empty text for ${targetModel}`] *)
Definition empty_transcription (targetModel : jsval) : error :=
  Error (js (noun b) ++ js " transcription returned empty text for "
         ++ to_String targetModel).

(** [const runOnce = async (targetModel) => { ...;
      const text = resp?.text || "";
      if (!text) throw new Error(...);
      return text.trim() }] *)
Definition runOnce (timeoutMs : Z) (net : nat -> jsval -> reply)
  (k : nat) (targetModel : jsval) : settlement jsstring :=
  match await_within timeoutMs (transcription_timed_out targetModel timeoutMs)
                     (net k targetModel) with
  | Hangs => Hangs
  | Settles t (inl e) => Settles t (inl e)
  | Settles t (inr resp) =>
      let text := or_else (get resp "text") (JStr []) in
      if negb (truthy text) then Settles t (inl (empty_transcription targetModel))
      else
        match text with
        | JStr s => Settles t (inr (trim s))
        | _ => Settles t (inl TypeError)
        end
  end.

(** [console.error("[GroqAI] transcription failed:", err?.message || err)] *)
Definition transcription_line (e : error) : log_line :=
  Log (js (tag b) ++ js " transcription failed:") (message e).

Definition all_transcriptions_failed : error :=
  Error (js "All " ++ js (noun b) ++ js " transcription models failed").

(** [const models = model ? [model] : this.models.length ? this.models
                                     : ["whisper-large-v3-turbo"]],
    [model] being the parameter after its default. *)
Definition candidates (this : client) (model : jsval) : list jsval :=
  if truthy model then [model]
  else
    match models this with
    | [] => [JStr (js (default_transcription b))]
    | roster => roster
    end.

(** The two strategies of [transcribe] over its candidates. *)
Definition transcribe_over (this : client) (net : network transcribe_options)
  (o : transcribe_options) (w : world)
  : client * world * settlement jsstring :=
  let model := default_arg (model o) (JStr (js (default_transcription b))) in
  finish this
    (resolve (runOnce (requestTimeoutMs this) (net o))
             (sdk b ++ ":transcription")%string
             (fun _ => transcription_line) all_transcriptions_failed
             (firstToFinish this) (candidates this model)
             (Ctx (lastUsedModel this) w)).

Definition file_required : error :=
  Error (js "file is required for " ++ js (class b) ++ js ".transcribe").

End Class.

End Sdk.

Module Groq.

Definition brand : Sdk.brand :=
  Sdk.Brand "groq" "GroqAi" "[GroqAI]" "Groq" "llama-3.1-70b-versatile"
            "whisper-large-v3-turbo".

Definition new := Sdk.new brand.
Definition ask_timed := Sdk.ask_timed brand.
Definition ask := Sdk.ask brand.

(** [async transcribe({ file, model = "whisper-large-v3-turbo",
    temperature = 0 } = {})]; a string [file] is opened as a read stream,
    which the request then consumes. *)
Definition transcribe_timed (this : client) (net : network transcribe_options)
  (o : transcribe_options) (w : world)
  : client * world * settlement jsstring :=
  if negb (audio_given (file o)) then
    (this, w, Settles 0 (inl (Sdk.file_required brand)))
  else Sdk.transcribe_over brand this net o w.

Definition transcribe (this : client) (net : network transcribe_options)
  (o : transcribe_options) (w : world) : client * world * outcome jsstring :=
  untimed (transcribe_timed this net o w).

End Groq.

Module Mistral.

Definition brand : Sdk.brand :=
  Sdk.Brand "mistral" "MistralAi" "[MistralAI]" "Mistral" "mistral-small-latest"
            "voxtral-mini-latest".

Definition new := Sdk.new brand.
Definition ask_timed := Sdk.ask_timed brand.
Definition ask := Sdk.ask brand.

(** [s.startsWith("http")] *)
Definition startsWith_http (s : jsstring) : bool :=
  Memory.str_eqb (firstn 4 s) (js "http").

Definition bad_file : error :=
  Error (js "file must be a string (path or URL), Buffer, or ReadableStream").

(** The [catch] around the strategies of [transcribe]: print and rethrow. *)
Definition rethrown (r : client * world * settlement jsstring)
  : client * world * settlement jsstring :=
  match r with
  | (this, w, Settles t (inl e)) =>
      (this, say (Sdk.transcription_line brand e) w, Settles t (inl e))
  | _ => r
  end.

(** The beginning of [transcribe], which turns [file] into the [file] or
    [fileUrl] parameter of the request: a stream is read to its end, a
    string that is not a URL is a path read with [readFileSync], a [Buffer]
    is sent as it is, and anything else is refused. *)
Definition prepare (readFileSync : jsstring -> error + list N) (file : audio)
  : settlement unit :=
  match file with
  | Stream Hangs => Hangs
  | Stream (Settles t (inl e)) => Settles t (inl e)
  | Stream (Settles t (inr _)) => Settles t (inr tt)
  | Buffer _ => Settles 0 (inr tt)
  | Plain (JStr path) =>
      if startsWith_http path then Settles 0 (inr tt)
      else
        match readFileSync path with
        | inl e => Settles 0 (inl e)
        | inr _ => Settles 0 (inr tt)
        end
  | Plain _ => Settles 0 (inl bad_file)
  end.

(** [async transcribe({ file, model = "voxtral-mini-latest", language,
    timestamp_granularities } = {})]; [readFileSync] is the file system. *)
Definition transcribe_timed (readFileSync : jsstring -> error + list N)
  (this : client) (net : network transcribe_options)
  (o : transcribe_options) (w : world)
  : client * world * settlement jsstring :=
  if negb (audio_given (file o)) then
    (this, w, Settles 0 (inl (Sdk.file_required brand)))
  else
    match prepare readFileSync (file o) with
    | Hangs => (this, w, Hangs)
    | Settles t (inl e) => (this, w, Settles t (inl e))
    | Settles t (inr _) =>
        later3 t (rethrown (Sdk.transcribe_over brand this net o w))
    end.

Definition transcribe (readFileSync : jsstring -> error + list N)
  (this : client) (net : network transcribe_options)
  (o : transcribe_options) (w : world) : client * world * outcome jsstring :=
  untimed (transcribe_timed readFileSync this net o w).

(** The argument [{ model = "mistral-moderation-latest", requestTimeoutMs }]
    of [classify]. *)
Record classify_options := ClassifyOptions {
  moderation_model : jsval;
  moderation_timeout : option Z
}.

Definition inputs_required : error :=
  Error (js "inputs is required for classify()").

(** [inputs == null || (Array.isArray(inputs) && inputs.length === 0)] *)
Definition no_inputs (inputs : jsval) : bool :=
  match inputs with
  | JNull | JUndefined | JArr [] => true
  | _ => false
  end.

Definition empty_object : jsval := JObj [].

(** [(r) => ({ categories: r.categories || {},
               scores: r.category_scores || {} })] *)
Definition mapped_result (r : jsval) : error + jsval :=
  match r with
  | JNull | JUndefined => inl TypeError
  | _ =>
      inr (JObj [("categories"%string,
                  or_else (get r "categories") empty_object);
                 ("scores"%string,
                  or_else (get r "category_scores") empty_object)])
  end.

Fixpoint mapped_results (rs : list jsval) : error + list jsval :=
  match rs with
  | [] => inr []
  | r :: rest =>
      match mapped_result r, mapped_results rest with
      | inl e, _ => inl e
      | _, inl e => inl e
      | inr x, inr xs => inr (x :: xs)
      end
  end.

(** [const mapped = (resp.results || []).map(...);
     return isArrayInput ? mapped : mapped[0] || { categories: {}, scores: {} }] *)
Definition moderation (isArrayInput : bool) (resp : jsval) : error + jsval :=
  match resp with
  | JNull | JUndefined => inl TypeError
  | _ =>
      match or_else (get resp "results") (JArr []) with
      | JArr rs =>
          match mapped_results rs with
          | inl e => inl e
          | inr mapped =>
              if isArrayInput then inr (JArr mapped)
              else
                match mapped with
                | first :: _ => inr first
                | [] =>
                    inr (JObj [("categories"%string, empty_object);
                               ("scores"%string, empty_object)])
                end
          end
      | _ => inl TypeError
      end
  end.

(** [`Moderation model ${model} timed out after ${timeout}ms`] *)
Definition moderation_timed_out (model : jsval) (ms : Z) : error :=
  Error (js "Moderation model " ++ to_String model ++ js " timed out after "
         ++ to_String (JNum ms) ++ js "ms").

(** [async classify(inputs, { model = "mistral-moderation-latest",
    requestTimeoutMs } = {})]; [moderate] is the moderation endpoint. *)
Definition classify_timed (this : client) (moderate : jsval -> jsval -> reply)
  (inputs : jsval) (o : classify_options) (w : world)
  : world * settlement jsval :=
  if no_inputs inputs then (w, Settles 0 (inl inputs_required))
  else
    let model :=
      default_arg (moderation_model o) (JStr (js "mistral-moderation-latest")) in
    let isArrayInput := isArray inputs in
    let normalizedInputs := if isArrayInput then inputs else JArr [inputs] in
    let timeout :=
      match moderation_timeout o with
      | Some t => t
      | None => requestTimeoutMs this
      end in
    let w := send (Request "mistral:moderation" model) w in
    match await_within timeout (moderation_timed_out model timeout)
                       (moderate model normalizedInputs) with
    | Hangs => (w, Hangs)
    | Settles t (inl e) => (w, Settles t (inl e))
    | Settles t (inr resp) =>
        match moderation isArrayInput resp with
        | inl e => (w, Settles t (inl e))
        | inr result => (w, Settles t (inr result))
        end
    end.

End Mistral.

(* ===================================================================== *)
(** * class MultiProviderAi                                                *)
(* ===================================================================== *)

Module Multi.

(** The keys of [providerConfigs]. *)
Inductive provider := openrouter | mistral | groq.

Definition key (p : provider) : string :=
  match p with
  | openrouter => "openrouter"
  | mistral => "mistral"
  | groq => "groq"
  end.

Definition provider_eqb (p q : provider) : bool :=
  match p, q with
  | openrouter, openrouter | mistral, mistral | groq, groq => true
  | _, _ => false
  end.

(** The own properties of [providerConfigs]. *)
Definition config_of (k : string) : option provider :=
  if String.eqb k "openrouter" then Some openrouter
  else if String.eqb k "mistral" then Some mistral
  else if String.eqb k "groq" then Some groq
  else None.

(** The properties every object literal inherits from [Object.prototype]:
    [providerConfigs[k]] finds them too, and what it finds is truthy but
    has no [classRef]. *)
Definition inherited_names : list string :=
  ["constructor"; "hasOwnProperty"; "isPrototypeOf"; "propertyIsEnumerable";
   "toLocaleString"; "toString"; "valueOf"; "__proto__";
   "__defineGetter__"; "__defineSetter__"; "__lookupGetter__";
   "__lookupSetter__"]%string.

Definition inherited (k : string) : bool :=
  existsb (String.eqb k) inherited_names.

(** The provider a value names, if it is one of the three keys. *)
Definition named (v : jsval) : option provider :=
  match v with
  | JStr s =>
      if Memory.str_eqb s (js "openrouter") then Some openrouter
      else if Memory.str_eqb s (js "mistral") then Some mistral
      else if Memory.str_eqb s (js "groq") then Some groq
      else None
  | _ => None
  end.

Record MultiProviderAi := Make {
  requestTimeoutMs : Z;
  firstToFinish : jsval;
  primaryProvider : jsval;
  clients : list (provider * client);
  lastUsedModel : jsval
}.

(** [this.clients[provider]] *)
Fixpoint client_of (p : provider) (cs : list (provider * client))
  : option client :=
  match cs with
  | [] => None
  | (q, c) :: rest => if provider_eqb q p then Some c else client_of p rest
  end.

(** [this.clients[provider] = c]: a new key comes last. *)
Fixpoint set_client (p : provider) (c : client) (cs : list (provider * client))
  : list (provider * client) :=
  match cs with
  | [] => [(p, c)]
  | (q, old) :: rest =>
      if provider_eqb q p then (q, c) :: rest
      else (q, old) :: set_client p c rest
  end.

(** [typeof v === "object"] for a truthy [v]. *)
Definition is_object (v : jsval) : bool :=
  match v with JObj _ | JArr _ => true | _ => false end.

(** [Object.entries(apiKeys)] restricted to the keys that can name a
    provider (the indices of an array cannot). *)
Definition entries (v : jsval) : list (string * jsval) :=
  match v with JObj fields => fields | _ => [] end.

Definition default_class_model (p : provider) : jsval :=
  match p with
  | openrouter => OpenRouter.DEFAULT_MODEL
  | mistral => JStr (js (Sdk.default_chat Mistral.brand))
  | groq => JStr (js (Sdk.default_chat Groq.brand))
  end.

Definition class_name (p : provider) : string :=
  match p with
  | openrouter => "Ai"
  | mistral => Sdk.class Mistral.brand
  | groq => Sdk.class Groq.brand
  end.

(** One turn of [for (const [provider, key] of Object.entries(apiKeys))]:
    [if (!key) continue; const cfg = providerConfigs[provider];
     if (!cfg) continue; ...; this.clients[provider] = new cfg.classRef(...)],
    where [new] throws a [TypeError] when [cfg] is an inherited property. *)
Definition configure (model fallbackModels : jsval) (timeout : Z)
  (flag : jsval) (cs : list (provider * client)) (entry : string * jsval)
  : error + list (provider * client) :=
  let '(name, apiKey) := entry in
  if negb (truthy apiKey) then inr cs
  else
    match config_of name with
    | None => if inherited name then inl TypeError else inr cs
    | Some p =>
        let isPrimary :=
          is_object model
          && match get model "provider" with
             | JStr s => Memory.str_eqb s (js name)
             | _ => false
             end
          && match get model "name" with
             | JStr (_ :: _) => true
             | _ => false
             end in
        let fallbacks :=
          match get fallbackModels name with
          | JArr ((_ :: _) as l) => Some l
          | _ => None
          end in
        match construct (class_name p) (default_class_model p)
                (Options apiKey
                         (if isPrimary then get model "name" else JUndefined)
                         fallbacks (Some timeout) flag) with
        | inl e => inl e
        | inr c => inr (set_client p c cs)
        end
    end.

(** The loop over the entries, which the first error ends. *)
Fixpoint configure_each (model fallbackModels : jsval) (timeout : Z)
  (flag : jsval) (entries : list (string * jsval))
  (cs : list (provider * client)) : error + list (provider * client) :=
  match entries with
  | [] => inr cs
  | entry :: rest =>
      match configure model fallbackModels timeout flag cs entry with
      | inl e => inl e
      | inr cs => configure_each model fallbackModels timeout flag rest cs
      end
  end.

(** [constructor({ apiKeys, model, fallbackModels, ..., requestTimeoutMs,
    firstToFinish } = {})] *)
Definition new (apiKeys model fallbackModels : jsval)
  (timeoutMs : option Z) (flag : jsval) : error + MultiProviderAi :=
  let apiKeys :=
    default_arg apiKeys
      (JObj [("openrouter"%string, JStr []); ("mistral"%string, JStr []);
             ("groq"%string, JStr [])]) in
  let model :=
    default_arg model
      (JObj [("provider"%string, JStr (js "mistral"));
             ("name"%string, JStr (js "mistral-small-latest"))]) in
  let fallbackModels :=
    default_arg fallbackModels
      (JObj [("openrouter"%string, JArr []); ("mistral"%string, JArr []);
             ("groq"%string, JArr [])]) in
  let flag := default_arg flag (JBool false) in
  if negb (truthy apiKeys) || negb (is_object apiKeys) then
    inl (Error (js "apiKeys must be a non-null object with provider keys"))
  else
    let timeout :=
      match timeoutMs with None => 20000%Z | Some t => t end in
    match configure_each model fallbackModels timeout flag
                         (entries apiKeys) [] with
    | inl e => inl e
    | inr clients =>
        inr (Make timeout flag
                  (if is_object model then get model "provider"
                   else JUndefined)
                  clients JNull)
    end.

(** [getOrderedProviders()] *)
Definition getOrderedProviders (this : MultiProviderAi) : list provider :=
  let available := map fst (clients this) in
  match available with
  | [] => []
  | first :: _ =>
      let preferred :=
        match named (primaryProvider this) with
        | Some p => if existsb (provider_eqb p) available then p else first
        | None => first
        end in
      preferred :: filter (fun p => negb (provider_eqb p preferred)) available
  end.

(** [{ provider, model: client.lastUsedModel || null }] *)
Definition used (p : provider) (c : client) : jsval :=
  JObj [("provider"%string, JStr (js (key p)));
        ("model"%string, or_else (Client.lastUsedModel c) JNull)].

Definition with_lastUsed (v : jsval) (this : MultiProviderAi)
  : MultiProviderAi :=
  Make (requestTimeoutMs this) (firstToFinish this) (primaryProvider this)
       (clients this) v.

Definition with_client (p : provider) (c : client) (this : MultiProviderAi)
  : MultiProviderAi :=
  Make (requestTimeoutMs this) (firstToFinish this) (primaryProvider this)
       (set_client p c (clients this)) (lastUsedModel this).

(** [typeof this.clients[p]?.classify === "function"]: of the three
    classes only [MistralAi] has a [classify]. *)
Definition can_classify (this : MultiProviderAi) (p : provider) : bool :=
  match client_of p (clients this), p with
  | Some _, mistral => true
  | _, _ => false
  end.

Definition no_classifier : error :=
  Error (js "No providers with classify() configured for MultiProviderAi").

(** [client.classify(inputs, options)] *)
Definition client_classify (p : provider) (c : client)
  (moderate : jsval -> jsval -> reply) (inputs : jsval)
  (o : Mistral.classify_options) (w : world) : world * settlement jsval :=
  match p with
  | mistral => Mistral.classify_timed c moderate inputs o w
  | _ => (w, Settles 0 (inl TypeError))
  end.

(** [async classify(inputs, options = {})] *)
Definition classify_timed (this : MultiProviderAi)
  (moderate : jsval -> jsval -> reply) (inputs : jsval)
  (o : Mistral.classify_options) (w : world)
  : MultiProviderAi * world * settlement jsval :=
  if Mistral.no_inputs inputs then
    (this, w, Settles 0 (inl Mistral.inputs_required))
  else
    match filter (can_classify this) (getOrderedProviders this) with
    | [] => (this, w, Settles 0 (inl no_classifier))
    | provider :: _ =>
        match client_of provider (clients this) with
        | None => (this, w, Settles 0 (inl TypeError))
        | Some c =>
            let '(w, result) := client_classify provider c moderate inputs o w in
            match result with
            | Settles _ (inr _) =>
                (with_lastUsed (used provider c) this, w, result)
            | _ => (this, w, result)
            end
        end
    end.

Definition classify (this : MultiProviderAi)
  (moderate : jsval -> jsval -> reply) (inputs : jsval)
  (o : Mistral.classify_options) (w : world)
  : MultiProviderAi * world * outcome jsval :=
  untimed (classify_timed this moderate inputs o w).

(** [client.ask({ system, user, messages, attachments })], by the class of
    the provider's client. *)
Definition client_ask (nets : provider -> network ask_options) (p : provider)
  (c : client) (o : ask_options) (w : world)
  : client * world * settlement jsstring :=
  match p with
  | openrouter => OpenRouter.ask_timed c (nets p) o w
  | mistral => Mistral.ask_timed c (nets p) o w
  | groq => Groq.ask_timed c (nets p) o w
  end.

(** [console.error(`[MultiProviderAI] ${provider} failed:`, ...)]; the
    provider is read from the value [used] builds. *)
Definition failure_line (who : jsval) (e : error) : log_line :=
  Log (js "[MultiProviderAI] " ++ to_String (get who "provider")
       ++ js " failed:") (message e).

Definition all_failed : error := Error (js "All AI providers failed").

Definition no_providers : error :=
  Error (js "No AI providers configured for MultiProviderAi").

Section Ask.

Variable nets : provider -> network ask_options.
Variable o : ask_options.

(** The sequential loop of [ask] over the providers. *)
Fixpoint ask_sequential (providers : list provider) (lastErr : option error)
  (elapsed : Z) (this : MultiProviderAi) (w : world)
  : MultiProviderAi * world * settlement jsstring :=
  match providers with
  | [] => (this, w, Settles elapsed (inl (last_or lastErr all_failed)))
  | provider :: rest =>
      match client_of provider (clients this) with
      | None => ask_sequential rest lastErr elapsed this w
      | Some c =>
          let '(c, w, result) := client_ask nets provider c o w in
          let this := with_client provider c this in
          match result with
          | Hangs => (this, w, Hangs)
          | Settles t (inr resp) =>
              (with_lastUsed (used provider c) this, w,
               Settles (elapsed + t) (inr resp))
          | Settles t (inl e) =>
              ask_sequential rest (Some e) (elapsed + t) this
                (say (failure_line (used provider c) e) w)
          end
      end
  end.

(** The loop of racing mode: every provider's [ask] is started; a missing
    client only counts down. The requests and console lines of one
    provider's own attempts are kept together, provider after provider. *)
Fixpoint ask_launch (providers : list provider) (this : MultiProviderAi)
  (st : race) (started : list completion)
  : MultiProviderAi * race * list completion :=
  match providers with
  | [] => (this, st, started)
  | provider :: rest =>
      match client_of provider (clients this) with
      | None =>
          let left := (remaining st - 1)%Z in
          let st :=
            if negb (settled st) && (left =? 0)%Z then
              Race (settled st) left (lastError st)
                   (settle (promise st)
                           (Settles 0 (inl (last_or (lastError st) all_failed))))
                   (S (settle_calls st)) (self st)
            else
              Race (settled st) left (lastError st) (promise st)
                   (settle_calls st) (self st) in
          ask_launch rest this st started
      | Some c =>
          let '(c, w, result) := client_ask nets provider c o (env (self st)) in
          let this := with_client provider c this in
          let st :=
            Race (settled st) (remaining st) (lastError st) (promise st)
                 (settle_calls st) (Ctx (Engine.lastUsedModel (self st)) w) in
          ask_launch rest this st
            (match result with
             | Settles t r => started ++ [(t, (used provider c, r))]
             | Hangs => started
             end)
      end
  end.

Definition ask_racing (providers : list provider) (this : MultiProviderAi)
  (w : world) : MultiProviderAi * world * settlement jsstring :=
  let '(this, st, started) :=
    ask_launch providers this
      (Race false (Z.of_nat (length providers)) None Hangs 0
            (Ctx (lastUsedModel this) w)) [] in
  let st :=
    completions failure_line all_failed st
      (sort_by (fun a b => (fst a <=? fst b)%Z) started) in
  (with_lastUsed (Engine.lastUsedModel (self st)) this,
   env (self st), promise st).

(** [async ask({ system, user, messages = [], attachments = [] } = {})] *)
Definition ask_timed (this : MultiProviderAi) (w : world)
  : MultiProviderAi * world * settlement jsstring :=
  match getOrderedProviders this with
  | [] => (this, w, Settles 0 (inl no_providers))
  | providers =>
      if negb (truthy (firstToFinish this)) || (length providers =? 1)%nat
      then ask_sequential providers None 0 this w
      else ask_racing providers this w
  end.

End Ask.

Definition ask (this : MultiProviderAi) (nets : provider -> network ask_options)
  (o : ask_options) (w : world)
  : MultiProviderAi * world * outcome jsstring :=
  untimed (ask_timed nets o this w).

End Multi.

(* ===================================================================== *)
(** * The four history-bound classes                                       *)
(* ===================================================================== *)

Module AiWithHistory.

Definition ask (net : network ask_options) :=
  History.ask "AiWithHistory" (fun b o w => OpenRouter.ask b net o w).

End AiWithHistory.

Module GroqAiWithHistory.

Definition ask (net : network ask_options) :=
  History.ask "GroqAiWithHistory" (fun b o w => Groq.ask b net o w).

End GroqAiWithHistory.

Module MistralAiWithHistory.

Definition ask (net : network ask_options) :=
  History.ask "MistralAiWithHistory" (fun b o w => Mistral.ask b net o w).

End MistralAiWithHistory.

Module MultiProviderAiWithHistory.

Definition ask (nets : Multi.provider -> network ask_options) :=
  History.ask "MultiProviderAiWithHistory"
              (fun b o w => Multi.ask b nets o w).

End MultiProviderAiWithHistory.

(* ===================================================================== *)
(** * Attachments of class Ai                                              *)
(* ===================================================================== *)

Module Attachment.

(** The [data] of an attachment: a [Buffer] (its bytes) or any other
    value. *)
Inductive payload :=
| Bytes (b : list N)
| Value (v : jsval).

(** [!data] is false for a [Buffer], an object. *)
Definition provided (data : payload) : bool :=
  match data with Bytes _ => true | Value v => truthy v end.

(** The character of a 6-bit group in the base64 alphabet. *)
Definition b64_char (n : N) : N :=
  (if n <? 26 then 65 + n
   else if n <? 52 then 97 + (n - 26)
   else if n <? 62 then 48 + (n - 52)
   else if n =? 62 then 43
   else 47)%N.

Definition equals_sign : N := 61%N.

(** [buffer.toString("base64")] *)
Fixpoint base64 (bytes : list N) : jsstring :=
  match bytes with
  | [] => []
  | [a] =>
      [b64_char (a / 4); b64_char ((a mod 4) * 16); equals_sign; equals_sign]%N
  | [a; b] =>
      [b64_char (a / 4); b64_char ((a mod 4) * 16 + b / 16);
       b64_char ((b mod 16) * 4); equals_sign]%N
  | a :: b :: c :: rest =>
      ([b64_char (a / 4); b64_char ((a mod 4) * 16 + b / 16);
        b64_char ((b mod 16) * 4 + c / 64); b64_char (c mod 64)]
       ++ base64 rest)%N
  end.

(** The three bytes of U+FFFD, which replaces a surrogate without its
    pair. *)
Definition replacement : list N := [239; 191; 189]%N.

(** [Buffer.from(s)]: the UTF-8 encoding of a string of UTF-16 code
    units. *)
Fixpoint utf8 (s : jsstring) : list N :=
  match s with
  | [] => []
  | c :: rest =>
      (if c <? 128 then c :: utf8 rest
       else if c <? 2048 then [192 + c / 64; 128 + c mod 64] ++ utf8 rest
       else if (55296 <=? c) && (c <? 56320) then
         match rest with
         | d :: rest' =>
             if (56320 <=? d) && (d <? 57344) then
               let cp := 65536 + (c - 55296) * 1024 + (d - 56320) in
               [240 + cp / 262144; 128 + (cp / 4096) mod 64;
                128 + (cp / 64) mod 64; 128 + cp mod 64] ++ utf8 rest'
             else replacement ++ utf8 rest
         | [] => replacement
         end
       else if (56320 <=? c) && (c <? 57344) then replacement ++ utf8 rest
       else [224 + c / 4096; 128 + (c / 64) mod 64; 128 + c mod 64]
            ++ utf8 rest)%N
  end.

(** [[A-Za-z0-9+/]] *)
Definition is_base64_char (c : N) : bool :=
  ((65 <=? c) && (c <=? 90) || (97 <=? c) && (c <=? 122)
   || (48 <=? c) && (c <=? 57) || (c =? 43) || (c =? 47))%N.

(** What follows the longest run of base64 characters at the start. *)
Fixpoint after_body (s : jsstring) : jsstring :=
  match s with
  | [] => []
  | c :: rest => if is_base64_char c then after_body rest else s
  end.

(** [/^[A-Za-z0-9+/]+={0,2}$/.test(s)] *)
Definition base64_like (s : jsstring) : bool :=
  match s with
  | [] => false
  | c :: _ =>
      is_base64_char c
      && match after_body s with
         | [] => true
         | [p] => (p =? equals_sign)%N
         | [p; q] => (p =? equals_sign)%N && (q =? equals_sign)%N
         | _ => false
         end
  end.

(** [s.replace(/\s+/g, empty)], [empty] being the empty string. *)
Definition without_spaces (s : jsstring) : jsstring :=
  filter (fun c => negb (is_space c)) s.

(** [s.startsWith("data:")] *)
Definition startsWith_data (s : jsstring) : bool :=
  Memory.str_eqb (firstn 5 s) (js "data:").

Definition comma : N := 44%N.

(** [s.substring(s.indexOf(",") + 1)]: what follows the first comma, or, as
    [indexOf] then yields -1, the whole string. *)
Fixpoint after_first_comma (s : jsstring) : option jsstring :=
  match s with
  | [] => None
  | c :: rest => if (c =? comma)%N then Some rest else after_first_comma rest
  end.

Definition substring_after_comma (s : jsstring) : jsstring :=
  match after_first_comma s with Some rest => rest | None => s end.

(** [toBase64(data)]; [None] is null. *)
Definition toBase64 (data : payload) : option jsstring :=
  if negb (provided data) then None
  else
    match data with
    | Bytes b => Some (base64 b)
    | Value (JStr s) =>
        let trimmed := trim s in
        match trimmed with
        | [] => None
        | _ :: _ =>
            if startsWith_data trimmed then
              match substring_after_comma trimmed with
              | [] => None
              | base64Part => Some (trim base64Part)
              end
            else
              let base64Like := without_spaces trimmed in
              if base64_like base64Like then Some base64Like
              else Some (base64 (utf8 trimmed))
        end
    | Value _ => None
    end.

(** [toDataUri(data, mimeType)] *)
Definition toDataUri (data : payload) (mimeType : jsval) : option jsstring :=
  if negb (provided data) then None
  else
    match data with
    | Value (JStr s) =>
        if startsWith_data (trim s) then Some (trim s)
        else
          match toBase64 data with
          | None | Some [] => None
          | Some encoded =>
              Some (js "data:" ++ to_String mimeType ++ js ";base64,"
                    ++ encoded)
          end
    | _ =>
        match toBase64 data with
        | None | Some [] => None
        | Some encoded =>
            Some (js "data:" ++ to_String mimeType ++ js ";base64,"
                  ++ encoded)
        end
    end.

(** The part of [s] before the first [sep] (all of it when there is
    none): [s.split(sep)[0]]. *)
Fixpoint before_first (sep : N) (s : jsstring) : jsstring :=
  match s with
  | [] => []
  | c :: rest => if (c =? sep)%N then [] else c :: before_first sep rest
  end.

(** What follows the first [sep], if there is one. *)
Fixpoint after_first (sep : N) (s : jsstring) : option jsstring :=
  match s with
  | [] => None
  | c :: rest => if (c =? sep)%N then Some rest else after_first sep rest
  end.

Definition slash : N := 47%N.
Definition semicolon : N := 59%N.

(** [mimeTypeToFormat(mimeType)]; [None] is undefined. A truthy value that
    is not a string has no [split]. *)
Definition mimeTypeToFormat (mimeType : jsval) : error + option jsstring :=
  if negb (truthy mimeType) then inr None
  else
    match mimeType with
    | JStr s =>
        match after_first slash s with
        | None => inr None
        | Some rest =>
            match before_first slash rest with
            | [] => inr None
            | subtype =>
                match before_first semicolon subtype with
                | [] => inr None
                | format => inr (Some format)
                end
            end
        end
    | _ => inl TypeError
    end.

(** The properties of an attachment that [normalizeAttachment] reads; a
    value that is not an object has none of them ([type] is undefined). *)
Record attachment := Attach {
  type : jsval;
  url : jsval;
  data : payload;
  mimeType : jsval;
  format : jsval
}.

(** [c.toLowerCase()] on the letters A to Z; no other character becomes a
    letter of [image] or [video]. *)
Definition lower (c : N) : N :=
  (if (65 <=? c) && (c <=? 90) then c + 32 else c)%N.

(** [String(attachment.type).toLowerCase() === name] for [image] and
    [video]. *)
Definition type_is (a : attachment) (name : string) : bool :=
  Memory.str_eqb (map lower (to_String (type a))) (js name).

(** [normalizeAttachment(attachment)]; [JNull] is null. *)
Definition normalizeAttachment (a : attachment) : error + jsval :=
  if negb (truthy (type a)) then inr JNull
  else if type_is a "image" then
    if truthy (url a) then
      inr (JObj [("type"%string, JStr (js "image_url"));
                 ("image_url"%string, JObj [("url"%string, url a)])])
    else
      match toDataUri (data a) (or_else (mimeType a) (JStr (js "image/png"))) with
      | None | Some [] => inr JNull
      | Some dataUri =>
          inr (JObj [("type"%string, JStr (js "image_url"));
                     ("image_url"%string,
                      JObj [("url"%string, JStr dataUri)])])
      end
  else if type_is a "video" then
    if truthy (url a) then
      inr (JObj [("type"%string, JStr (js "input_video"));
                 ("video"%string, JObj [("url"%string, url a)])])
    else
      match toBase64 (data a) with
      | None | Some [] => inr JNull
      | Some encoded =>
          let resolvedFormat :=
            if truthy (format a) then inr (format a)
            else if truthy (mimeType a) then
              match mimeTypeToFormat (mimeType a) with
              | inl e => inl e
              | inr None => inr JUndefined
              | inr (Some f) => inr (JStr f)
              end
            else inr JUndefined in
          match resolvedFormat with
          | inl e => inl e
          | inr f =>
              inr (JObj [("type"%string, JStr (js "input_video"));
                         ("video"%string,
                          JObj (("data"%string, JStr encoded)
                                :: if truthy f then [("format"%string, f)]
                                   else []))])
          end
      end
  else inr JNull.

End Attachment.

(* ===================================================================== *)
(** * The connection of class AiMemoryStore                                *)
(* ===================================================================== *)

Module Connection.

(** Calls received by the MongoDB driver. *)
Inductive driver_op :=
| NewMongoClient
| ClientConnect
| CreateIndex
| ClientClose.

(** The driver: the calls it has received, and whether its [n]-th call
    fails ([None]: it succeeds). *)
Record driver := Driver {
  received : list driver_op;
  verdicts : nat -> option error
}.

(** One call of the driver, awaited. *)
Definition call (op : driver_op) (d : driver) : option error * driver :=
  (verdicts d (length (received d)),
   Driver (received d ++ [op]) (verdicts d)).

(** The fields of the store that [connect] and [disconnect] use:
    [connectionPromise] is true when a promise is cached, [client] and
    [collection] when the field is not null. Calls are awaited one after
    the other, so a cached promise is a fulfilled one. *)
Record AiMemoryStore := Store {
  connectionPromise : bool;
  client : bool;
  collection : bool;
  indexEnsured : bool
}.

(** [constructor({ collectionName = "ai_memory", uri, dbName } = {})] *)
Definition new (uri dbName : jsval) : error + AiMemoryStore :=
  if negb (truthy uri) || negb (truthy dbName) then
    inl (Error (js "uri and dbName are required for AiMemoryStore"))
  else inr (Store false false false false).

(** [async connect()]: [None] when it returns the collection, the error
    when it throws. The [catch] resets [connectionPromise] and rethrows. *)
Definition connect (this : AiMemoryStore) (d : driver)
  : AiMemoryStore * driver * option error :=
  if connectionPromise this then (this, d, None)
  else
    match call NewMongoClient d with
    | (Some e, d) =>
        (Store false (client this) (collection this) (indexEnsured this),
         d, Some e)
    | (None, d) =>
        match call ClientConnect d with
        | (Some e, d) =>
            (Store false true (collection this) (indexEnsured this), d, Some e)
        | (None, d) =>
            if indexEnsured this then (Store true true true true, d, None)
            else
              match call CreateIndex d with
              | (Some e, d) => (Store false true true false, d, Some e)
              | (None, d) => (Store true true true true, d, None)
              end
        end
    end.

(** [async disconnect()] *)
Definition disconnect (this : AiMemoryStore) (d : driver)
  : AiMemoryStore * driver * option error :=
  if client this then
    match call ClientClose d with
    | (Some e, d) => (this, d, Some e)
    | (None, d) => (Store false false false false, d, None)
    end
  else (this, d, None).

(** A caller's use of the store. *)
Inductive action := Connects | Disconnects.

Definition perform (a : action) (s : AiMemoryStore * driver)
  : AiMemoryStore * driver :=
  fst (match a with
       | Connects => connect (fst s) (snd s)
       | Disconnects => disconnect (fst s) (snd s)
       end).

(** Any sequence of calls, each awaited, whatever they throw. *)
Definition after (actions : list action) (s : AiMemoryStore * driver)
  : AiMemoryStore * driver :=
  fold_left (fun s a => perform a s) actions s.

End Connection.

(* ===================================================================== *)
(** * MultiProviderAi.transcribe                                           *)
(* ===================================================================== *)

Module MultiTranscribe.

(** [typeof this.clients[p]?.transcribe === "function"]: of the three
    classes [GroqAi] and [MistralAi] have a [transcribe]. *)
Definition can_transcribe (this : Multi.MultiProviderAi) (p : Multi.provider)
  : bool :=
  match Multi.client_of p (Multi.clients this), p with
  | Some _, Multi.groq | Some _, Multi.mistral => true
  | _, _ => false
  end.

Definition no_transcriber : error :=
  Error (js "No providers with transcribe() configured for MultiProviderAi").

(** [client.transcribe(options)], by the class of the provider's client. *)
Definition client_transcribe (readFileSync : jsstring -> error + list N)
  (nets : Multi.provider -> network transcribe_options) (p : Multi.provider)
  (c : client) (o : transcribe_options) (w : world)
  : client * world * settlement jsstring :=
  match p with
  | Multi.groq => Groq.transcribe_timed c (nets p) o w
  | Multi.mistral => Mistral.transcribe_timed readFileSync c (nets p) o w
  | Multi.openrouter => (c, w, Settles 0 (inl TypeError))
  end.

(** [console.error(`[MultiProviderAI] transcription via ${provider}
    failed:`, ...)]; the provider is read from the value [Multi.used]
    builds. *)
Definition failure_line (who : jsval) (e : error) : log_line :=
  Log (js "[MultiProviderAI] transcription via "
       ++ to_String (get who "provider") ++ js " failed:") (message e).

Definition all_failed : error :=
  Error (js "All transcription providers failed").

(** A provider whose client is missing: calling its [transcribe] throws
    inside the [try]. *)
Definition nobody (p : Multi.provider) : jsval :=
  JObj [("provider"%string, JStr (js (Multi.key p)));
        ("model"%string, JNull)].

Section Transcribe.

Variable readFileSync : jsstring -> error + list N.
Variable nets : Multi.provider -> network transcribe_options.
Variable o : transcribe_options.

(** The sequential loop of [transcribe] over the providers. *)
Fixpoint transcribe_sequential (providers : list Multi.provider)
  (lastErr : option error) (elapsed : Z) (this : Multi.MultiProviderAi)
  (w : world) : Multi.MultiProviderAi * world * settlement jsstring :=
  match providers with
  | [] => (this, w, Settles elapsed (inl (last_or lastErr all_failed)))
  | provider :: rest =>
      match Multi.client_of provider (Multi.clients this) with
      | None =>
          transcribe_sequential rest (Some TypeError) elapsed this
            (say (failure_line (nobody provider) TypeError) w)
      | Some c =>
          let '(c, w, result) :=
            client_transcribe readFileSync nets provider c o w in
          let this := Multi.with_client provider c this in
          match result with
          | Hangs => (this, w, Hangs)
          | Settles t (inr text) =>
              (Multi.with_lastUsed (Multi.used provider c) this, w,
               Settles (elapsed + t) (inr text))
          | Settles t (inl e) =>
              transcribe_sequential rest (Some e) (elapsed + t) this
                (say (failure_line (Multi.used provider c) e) w)
          end
      end
  end.

(** The loop of racing mode: every provider's [transcribe] is started. The
    requests and console lines of one provider's own attempts are kept
    together, provider after provider. *)
Fixpoint transcribe_launch (providers : list Multi.provider)
  (this : Multi.MultiProviderAi) (w : world) (started : list completion)
  : Multi.MultiProviderAi * world * list completion :=
  match providers with
  | [] => (this, w, started)
  | provider :: rest =>
      match Multi.client_of provider (Multi.clients this) with
      | None =>
          transcribe_launch rest this w
            (started ++ [(0%Z, (nobody provider, inl TypeError))])
      | Some c =>
          let '(c, w, result) :=
            client_transcribe readFileSync nets provider c o w in
          transcribe_launch rest (Multi.with_client provider c this) w
            (match result with
             | Settles t r => started ++ [(t, (Multi.used provider c, r))]
             | Hangs => started
             end)
      end
  end.

Definition transcribe_racing (providers : list Multi.provider)
  (this : Multi.MultiProviderAi) (w : world)
  : Multi.MultiProviderAi * world * settlement jsstring :=
  let '(this, w, started) := transcribe_launch providers this w [] in
  let st :=
    completions failure_line all_failed
      (Race false (Z.of_nat (length providers)) None Hangs 0
            (Ctx (Multi.lastUsedModel this) w))
      (sort_by (fun a b => (fst a <=? fst b)%Z) started) in
  (Multi.with_lastUsed (Engine.lastUsedModel (self st)) this,
   env (self st), promise st).

(** [async transcribe(options = {})] *)
Definition transcribe_timed (this : Multi.MultiProviderAi) (w : world)
  : Multi.MultiProviderAi * world * settlement jsstring :=
  match filter (can_transcribe this) (Multi.getOrderedProviders this) with
  | [] => (this, w, Settles 0 (inl no_transcriber))
  | providers =>
      if negb (truthy (Multi.firstToFinish this))
         || (length providers =? 1)%nat
      then transcribe_sequential providers None 0 this w
      else transcribe_racing providers this w
  end.

End Transcribe.

Definition transcribe (readFileSync : jsstring -> error + list N)
  (this : Multi.MultiProviderAi)
  (nets : Multi.provider -> network transcribe_options)
  (o : transcribe_options) (w : world)
  : Multi.MultiProviderAi * world * outcome jsstring :=
  untimed (transcribe_timed readFileSync nets o this w).

End MultiTranscribe.

(* ===================================================================== *)
(** * Vocabulary of the statements                                         *)
(* ===================================================================== *)

Module Vocabulary.

(** The world after some lines were printed and some requests sent. *)
Definition after_attempts (lines : list log_line) (sent : list request)
  (w : world) : world :=
  World (console w ++ lines) (requests w ++ sent) (collection w) (next_id w)
        (db_ops w) (clock w) (dates_read w) (newest_first w) (composing w).

Section Attempts.

Variable run : nat -> jsval -> settlement jsstring.
Variable failure_line : jsval -> error -> log_line.

(** [failing k ms errs]: the attempts on the models [ms], which are the
    [k]-th and following of the call, all fail, with the errors [errs] in
    order. *)
Inductive failing : nat -> list jsval -> list error -> Prop :=
| failing_nil (k : nat) : failing k [] []
| failing_cons (k : nat) (m : jsval) (ms : list jsval) (t : Z) (e : error)
    (errs : list error) :
    run k m = Settles t (inl e) ->
    failing (S k) ms errs ->
    failing k (m :: ms) (e :: errs).

(** The lines the [catch] block prints for these failures. *)
Definition lines_for (ms : list jsval) (errs : list error) : list log_line :=
  map (fun p => failure_line (fst p) (snd p)) (combine ms errs).

(** [lastError] after these failures. *)
Definition last_error (errs : list error) (lastErr : option error)
  : option error :=
  fold_left (fun _ e => Some e) errs lastErr.

End Attempts.

(** A completion that is a failure. *)
Definition is_failure (ev : completion) : bool :=
  match ev with (_, (_, inl _)) => true | _ => false end.

(** The errors of a run of completions. *)
Definition errors_of (evs : list completion) : list error :=
  flat_map (fun ev => match ev with (_, (_, inl e)) => [e] | _ => [] end) evs.

(** The flag, the counter of calls and the promise of a race agree. *)
Definition coherent (st : race) : Prop :=
  if settled st then settle_calls st = 1%nat /\ promise st <> Hangs
  else settle_calls st = 0%nat /\ promise st = Hangs.

(** [a] was stored no earlier than [b]. *)
Definition no_older (a b : doc) : Prop := (createdAt b <= createdAt a)%Z.

(** The database sorts: the result of [{ $sort: { createdAt: -1 } }] holds
    the same documents, newest first. Nothing is said of documents with the
    same date. *)
Definition sorts_newest_first (w : world) : Prop :=
  forall l : list doc,
    Permutation (newest_first w l) l
    /\ StronglySorted no_older (newest_first w l).

(** The driver hands out identifiers that are new. *)
Definition unique_ids (w : world) : Prop :=
  NoDup (map _id (collection w))
  /\ Forall (fun d => (_id d < next_id w)%nat) (collection w).

(** The documents [insertMany] adds for the given turns, when the next
    identifier is [next] and [reads] dates have been read so far. *)
Fixpoint fresh_docs (chatId scope : jsstring) (msgs : list jsval)
  (next : nat) (clock : nat -> Z) (reads : nat) : list doc :=
  match msgs with
  | [] => []
  | msg :: rest =>
      Doc next chatId scope (get msg "role") (get msg "content") (clock reads)
      :: fresh_docs chatId scope rest (S next) clock (S reads)
  end.

(** A content that is null or empty: null, undefined, the empty string or
    the empty sequence of parts. *)
Definition empty_content (v : jsval) : bool :=
  match v with
  | JUndefined | JNull | JStr [] | JArr [] => true
  | _ => false
  end.

(** The request of [MistralAi.classify]. *)
Definition moderation_request (o : Mistral.classify_options) : request :=
  Request "mistral:moderation"
          (default_arg (Mistral.moderation_model o)
                       (JStr (js "mistral-moderation-latest"))).

End Vocabulary.
Export Vocabulary.

(* ===================================================================== *)
(** * The scenarios of the specification                                   *)
(* ===================================================================== *)

Module Scenario.

Definition A : jsval := JStr (js "A").
Definition B : jsval := JStr (js "B").
Definition C : jsval := JStr (js "C").

(** A LangChain message with a string content. *)
Definition says (s : string) : jsval := JObj [("content"%string, JStr (js s))].

Definition prompt : ask_options :=
  AskOptions JUndefined (JStr (js "hello")) [] JUndefined.

Definition quiet : world := empty_world (fun n => Z.of_nat n).

(** Sequential fallback: A is refused, B answers blanks, C answers. *)
Definition fallback : client := Client [A; B; C] 20000 (JBool false) JNull.

Definition third_answers : network ask_options :=
  fun _ k _ =>
    match k with
    | 0%nat => Rejects 5 (Error (js "x"))
    | 1%nat => Fulfils 7 (says "   ")
    | _ => Fulfils 3 (says " hi ")
    end.

(** Racing: C fails first, then B answers, and A answers later still. *)
Definition racers : client := Client [A; B; C] 20000 (JBool true) JNull.

Definition second_is_fastest : network ask_options :=
  fun _ k _ =>
    match k with
    | 0%nat => Fulfils 9 (says "a")
    | 1%nat => Fulfils 2 (says "b")
    | _ => Rejects 1 (Error (js "x"))
    end.

(** Exhaustion: A is refused, B never answers and times out. *)
Definition pair : client := Client [A; B] 20000 (JBool false) JNull.

Definition none_answers : network ask_options :=
  fun _ k _ =>
    match k with
    | 0%nat => Rejects 5 (Error (js "x"))
    | _ => Silent
    end.

(** Exhaustion in a race: the three refuse, A the last of them. *)
Definition all_refuse : network ask_options :=
  fun _ k _ =>
    match k with
    | 0%nat => Rejects 9 (Error (js "a"))
    | 1%nat => Rejects 2 (Error (js "b"))
    | _ => Rejects 5 (Error (js "c"))
    end.

(** History: single turns appended to one chat, one after the other, the
    clock advancing at each. *)
Definition chat : jsval := JStr (js "chat-1").

Definition scope : jsstring := js "default".

Definition one_turn (n : nat) : jsval :=
  JArr [JObj [("role"%string, JStr (js "user"));
              ("content"%string, JNum (Z.of_nat n))]].

Definition after_appends (n : nat) : world :=
  fold_left (fun w k => Memory.appendMessages chat scope (one_turn (S k)) w)
            (seq 0 n) quiet.

(** A turn whose content is an empty sequence of parts. *)
Definition hollow_turn : jsval :=
  JObj [("role"%string, JStr (js "user")); ("content"%string, JArr [])].

(** A turn with text, a turn without content, and no turn at all. *)
Definition mixed_turns : jsval :=
  JArr [JObj [("role"%string, JStr (js "user"));
              ("content"%string, JStr (js "hi"))];
        JObj [("role"%string, JStr (js "assistant"))];
        JNull].

(** Moderation: Groq and Mistral are configured, the flag is set. *)
Definition moderator : Multi.MultiProviderAi :=
  Multi.Make 20000 (JBool true) (JStr (js "mistral"))
    [(Multi.groq,
      Client [JStr (js "llama-3.1-70b-versatile")] 20000 (JBool true) JNull);
     (Multi.mistral,
      Client [JStr (js "mistral-small-latest")] 20000 (JBool true) JNull)]
    JNull.

Definition moderator_keys : jsval :=
  JObj [("groq"%string, JStr (js "key-1")); ("mistral"%string, JStr (js "key-2"))].

(** A moderation endpoint that answers one result for any input. *)
Definition flags_nothing : jsval -> jsval -> reply :=
  fun _ _ => Fulfils 4 (JObj [("results"%string, JArr [JObj []])]).

Definition moderation_defaults : Mistral.classify_options :=
  Mistral.ClassifyOptions JUndefined None.

(** Transcription: an endpoint that transcribes anything. *)
Definition transcribes : network transcribe_options :=
  fun _ _ _ => Fulfils 6 (JObj [("text"%string, JStr (js "words"))]).

(** A call of [transcribe] with a buffer and the given [model] option. *)
Definition recording (model : jsval) : transcribe_options :=
  TranscribeOptions (Buffer [1%N; 2%N]) model JUndefined JUndefined JUndefined.

(** A history-bound [Ai] and the two payload shapers, here the simplest. *)
Definition remembering : History.bound client :=
  History.Bound fallback (js "default") 10.

Definition stored_content : Memory.turn -> jsval := Memory.content.

Definition user_content : jsval -> jsval -> jsval := fun user _ => user.

(** A chat completion of an SDK with one choice. *)
Definition chooses (s : string) : jsval :=
  JObj [("choices"%string,
         JArr [JObj [("message"%string,
                      JObj [("content"%string, JStr (js s))])]])].

(** A refuses, B answers. *)
Definition second_chooses : network ask_options :=
  fun _ k _ =>
    match k with
    | 0%nat => Rejects 5 (Error (js "x"))
    | _ => Fulfils 7 (chooses " hi ")
    end.

(** A transcription endpoint that hears nothing but a pause. *)
Definition hears_a_pause : network transcribe_options :=
  fun _ _ _ => Fulfils 6 (JObj [("text"%string, JStr (js "  "))]).

End Scenario.

(* ===================================================================== *)
(** * Vocabulary of the further statements                                 *)
(* ===================================================================== *)

Module Reading.

(** The turn [getHistory] makes of a document:
    [{ role: doc.role, content: doc.content }]. *)
Definition turn_of (d : doc) : Memory.turn :=
  Memory.Turn (doc_role d) (doc_content d).

(** [(entry) => entry.role && entry.content] on the document. *)
Definition readable (d : doc) : bool :=
  truthy (doc_role d) && truthy (doc_content d).



(** The requests of one call: one to each of the first [n] models of the
    roster, in roster order. *)
Definition asked (api : string) (roster : list jsval) (n : nat)
  : list request :=
  map (Request api) (firstn n roster).

(** The reply is a response that arrives before the timer fires (or there
    is no timer). *)
Definition answers (timeoutMs : Z) (r : reply) (resp : jsval) : Prop :=
  exists latency : Z,
    r = Fulfils latency resp
    /\ (timeoutMs <= 0 \/ latency < timer_delay timeoutMs)%Z.

(** The candidates of a transcription whose [model] is falsy: the roster
    of the object, or the built-in model when the roster is empty. *)
Definition transcription_roster (this : client) (builtin : string)
  : list jsval :=
  match models this with
  | [] => [JStr (js builtin)]
  | roster => roster
  end.

(** The requests a call sends over its candidates, in the mode the flag
    asks for: when racing, one to every candidate; in sequence, one to each
    candidate up to the first whose attempt does not fail (to all of them
    when every attempt fails). *)
Definition tried (run : nat -> jsval -> settlement jsstring) (api : string)
  (flag : jsval) (candidates : list jsval) (sent : list request) : Prop :=
  if negb (truthy flag) || (length candidates =? 1)%nat then
    exists (before : list jsval) (m : jsval) (after : list jsval)
           (errs : list error),
      candidates = before ++ m :: after
      /\ failing run 0 before errs
      /\ (after = []
          \/ forall t e, run (length before) m <> Settles t (inl e))
      /\ sent = map (Request api) (before ++ [m])
  else sent = map (Request api) candidates.

(** A string with no white space at either end. *)
Definition trimmed (s : jsstring) : Prop := trim s = s.

(** What the constructor of [MultiProviderAi] gives every client it
    builds: a roster that is not empty, its own timeout and flag, and no
    model used yet. *)
Definition configured (timeout : Z) (flag : jsval) (c : client) : Prop :=
  models c <> []
  /\ requestTimeoutMs c = timeout
  /\ firstToFinish c = flag
  /\ Client.lastUsedModel c = JNull.

(** An entry of [apiKeys] on which the constructor of [MultiProviderAi]
    stumbles: a truthy key under a name that every object inherits. *)
Definition stumbles (entry : string * jsval) : bool :=
  truthy (snd entry) && Multi.inherited (fst entry).

(** A moderation verdict as [classify] returns it: its [categories] and
    its [scores] are both truthy. *)
Definition verdict (r : jsval) : Prop :=
  truthy (get r "categories") = true /\ truthy (get r "scores") = true.

(** The verdict on one result of a moderation response: the [categories]
    and the [category_scores] of the result, an empty object standing for
    one that is falsy. *)
Definition verdict_of (r : jsval) : jsval :=
  JObj [("categories"%string, or_else (get r "categories") (JObj []));
        ("scores"%string, or_else (get r "category_scores") (JObj []))].

(** The verdict when the response has no result. *)
Definition no_verdict : jsval :=
  JObj [("categories"%string, JObj []); ("scores"%string, JObj [])].

(** The text was returned by the own [ask] of the client that [this] held
    for the provider; the call left that client as [c'], which is the
    client [this'] holds for the provider. *)
Definition answered_by (nets : Multi.provider -> network ask_options)
  (o : ask_options) (this this' : Multi.MultiProviderAi) (text : jsstring)
  (p : Multi.provider) (c' : client) : Prop :=
  exists (c : client) (w0 w1 : world) (t : Z),
    Multi.client_of p (Multi.clients this) = Some c
    /\ Multi.client_ask nets p c o w0 = (c', w1, Settles t (inr text))
    /\ Multi.client_of p (Multi.clients this') = Some c'.

(** The padding a base64 string may end with: nothing, or one or two
    equals signs. *)
Definition padding_ok (s : jsstring) : bool :=
  match s with
  | [] => true
  | [p] => (p =? Attachment.equals_sign)%N
  | [p; q] => (p =? Attachment.equals_sign)%N && (q =? Attachment.equals_sign)%N
  | _ => false
  end.

(** A character of the base64 alphabet, or the equals sign. *)
Definition plain_char (c : N) : bool :=
  Attachment.is_base64_char c || (c =? Attachment.equals_sign)%N.

(** A payload that is not a string starting, once trimmed, with
    [data:]. *)
Definition not_a_data_uri (data : Attachment.payload) : Prop :=
  match data with
  | Attachment.Value (JStr s) =>
      Attachment.startsWith_data (trim s) = false
  | _ => True
  end.

(** [`data:${mimeType};base64,${encoded}`] *)
Definition data_uri (mimeType : jsval) (encoded : jsstring) : jsstring :=
  js "data:" ++ to_String mimeType ++ js ";base64," ++ encoded.

(** A chunk that carries something to show: a truthy [url], or, for a
    video, a truthy [data]. *)
Definition has_source (chunk : jsval) : Prop :=
  (get chunk "type" = JStr (js "image_url")
   /\ truthy (get (get chunk "image_url") "url") = true)
  \/ (get chunk "type" = JStr (js "input_video")
      /\ (truthy (get (get chunk "video") "url") = true
          \/ truthy (get (get chunk "video") "data") = true)).

(** The fields of a store agree: with a cached connection the client and
    the collection are there and the index has been created; without one
    the index is not marked as created. *)
Definition consistent (this : Connection.AiMemoryStore) : Prop :=
  if Connection.connectionPromise this
  then Connection.client this = true
       /\ Connection.collection this = true
       /\ Connection.indexEnsured this = true
  else Connection.indexEnsured this = false.

(** The driver accepts its next [n] calls. *)
Definition accepts (d : Connection.driver) (n : nat) : Prop :=
  forall k, (k < n)%nat ->
            Connection.verdicts d (length (Connection.received d) + k) = None.

(** A transcription request of [MultiProviderAi.transcribe] for the
    options [o]: it goes to Groq or to Mistral, and to the model the caller
    named, if any. *)
Definition transcription_request (o : transcribe_options) (r : request)
  : Prop :=
  (endpoint r = "groq:transcription"%string
   \/ endpoint r = "mistral:transcription"%string)
  /\ (truthy (model o) = true -> target r = model o).

(** From [w] to [w'] only transcription requests for [o] were sent, and
    none at all when [o] has no file. *)
Definition transcribing (o : transcribe_options) (w w' : world) : Prop :=
  exists sent : list request,
    requests w' = requests w ++ sent
    /\ Forall (transcription_request o) sent
    /\ (audio_given (file o) = false -> sent = []).

(** From [w] to [w'] lines were printed and requests sent, and nothing
    else happened. *)
Definition chatting (w w' : world) : Prop :=
  exists (lines : list log_line) (sent : list request),
    w' = after_attempts lines sent w.

End Reading.
Export Reading.

(* ===================================================================== *)
(** * Properties                                                           *)
(* ===================================================================== *)

Unset Implicit Arguments.

(** ** Strings *)

Module JsFacts.

Lemma trimStart_blank (s : jsstring) : blank s = true -> trimStart s = [].
Proof.
  induction s as [|c s IH]; simpl; [reflexivity|].
  intros H. apply andb_true_iff in H as [Hc Hs]. rewrite Hc. auto.
Qed.

Lemma trimStart_nil_blank (s : jsstring) : trimStart s = [] -> blank s = true.
Proof.
  induction s as [|c s IH]; simpl; [reflexivity|].
  destruct (is_space c); [auto | discriminate].
Qed.

Lemma blank_rev (s : jsstring) : blank (rev s) = blank s.
Proof.
  unfold blank. induction s as [|c s IH]; simpl; [reflexivity|].
  rewrite forallb_app, IH. simpl. rewrite andb_true_r. apply andb_comm.
Qed.

Lemma trimStart_head (s : jsstring) :
  match trimStart s with [] => True | c :: _ => is_space c = false end.
Proof.
  induction s as [|c s IH]; simpl; [exact I|].
  destruct (is_space c) eqn:E; [exact IH | exact E].
Qed.

(** [s.trim()] is empty exactly for the strings made of white space. *)
Lemma trim_nil_iff (s : jsstring) : trim s = [] <-> blank s = true.
Proof.
  unfold trim, trimEnd. split.
  - intros H.
    assert (H1 : trimStart (rev (trimStart s)) = []).
    { destruct (trimStart (rev (trimStart s))) as [|c r]; [reflexivity|].
      simpl in H. destruct (rev r); discriminate. }
    apply trimStart_nil_blank in H1. rewrite blank_rev in H1.
    pose proof (trimStart_head s) as Hh.
    destruct (trimStart s) as [|c r] eqn:E.
    + now apply trimStart_nil_blank.
    + simpl in H1. rewrite Hh in H1. discriminate.
  - intros H. rewrite (trimStart_blank s H). reflexivity.
Qed.

End JsFacts.

(** ** The roster *)

Module RosterFacts.

Lemma filter_split {A : Type} (f : A -> bool) (x : A) (l1 l2 l3 : list A) :
  f x = true ->
  filter f (l1 ++ x :: l2 ++ x :: l3)
  = filter f l1 ++ x :: filter f l2 ++ x :: filter f l3.
Proof.
  intros Hx. rewrite filter_app. simpl. rewrite Hx.
  rewrite filter_app. simpl. rewrite Hx. reflexivity.
Qed.

(** C5. For every primary model identifier passed to the constructor of
    [Ai] and every list of fallback identifiers, the roster [this.models]
    is the primary followed by the fallbacks, in their order, with exactly
    the falsy entries removed; an entry listed twice stays listed twice. *)
Theorem roster_keeps_order_and_duplicates :
  forall (apiKey primary : jsval) (fallbacks : list jsval)
         (timeout : option Z) (flag : jsval),
    truthy apiKey = true ->
    given primary = true ->
    exists this,
      OpenRouter.new (Options apiKey primary (Some fallbacks) timeout flag)
      = inr this
      /\ models this = filter truthy (primary :: fallbacks)
      /\ (forall x l1 l2 l3,
             truthy x = true ->
             primary :: fallbacks = l1 ++ x :: l2 ++ x :: l3 ->
             models this
             = filter truthy l1 ++ x :: filter truthy l2
                                ++ x :: filter truthy l3).
Proof.
  intros apiKey primary fallbacks timeout flag Hkey Hgiven.
  unfold OpenRouter.new, construct. simpl. rewrite Hkey. simpl.
  eexists. split; [reflexivity|]. simpl.
  assert (E : default_arg primary OpenRouter.DEFAULT_MODEL = primary).
  { destruct primary; try reflexivity. discriminate. }
  unfold build_models. rewrite E. split; [reflexivity|].
  intros x l1 l2 l3 Hx Hl. rewrite Hl. now apply filter_split.
Qed.

(** The example of the specification:
    [buildRoster("m1", ["", "m2", null, "m3"]) = ["m1", "m2", "m3"]]. *)
Lemma roster_example :
  truthy (JStr (js "key")) = true
  /\ given (JStr (js "m1")) = true
  /\ exists this,
      OpenRouter.new
        (Options (JStr (js "key")) (JStr (js "m1"))
                 (Some [JStr []; JStr (js "m2"); JNull; JStr (js "m3")])
                 None JUndefined)
      = inr this
      /\ models this = [JStr (js "m1"); JStr (js "m2"); JStr (js "m3")].
Proof.
  split; [reflexivity|]. split; [reflexivity|].
  destruct (roster_keeps_order_and_duplicates
              (JStr (js "key")) (JStr (js "m1"))
              [JStr []; JStr (js "m2"); JNull; JStr (js "m3")]
              None JUndefined eq_refl eq_refl) as [this [Hnew [Hmodels _]]].
  exists this. split; [exact Hnew | exact Hmodels].
Defined.

End RosterFacts.

(** ** The two strategies *)

Module EngineFacts.

Lemma after_say (l : log_line) (lines : list log_line) (sent : list request)
  (w : world) :
  say l (after_attempts lines sent w) = after_attempts (lines ++ [l]) sent w.
Proof. unfold say, after_attempts. simpl. now rewrite app_assoc. Qed.

Lemma after_send (r : request) (lines : list log_line) (sent : list request)
  (w : world) :
  send r (after_attempts lines sent w) = after_attempts lines (sent ++ [r]) w.
Proof. unfold send, after_attempts. simpl. now rewrite app_assoc. Qed.

Lemma after_nothing (w : world) : after_attempts [] [] w = w.
Proof. destruct w. unfold after_attempts. simpl. now rewrite !app_nil_r. Qed.

Lemma after_after (l1 l2 : list log_line) (s1 s2 : list request) (w : world) :
  after_attempts l2 s2 (after_attempts l1 s1 w)
  = after_attempts (l1 ++ l2) (s1 ++ s2) w.
Proof. unfold after_attempts. simpl. now rewrite !app_assoc. Qed.

Lemma print_all_after (lines : list log_line) (w : world) :
  print_all lines w = after_attempts lines [] w.
Proof.
  unfold print_all. revert w.
  induction lines as [|l lines IH]; intros w; simpl.
  - now rewrite after_nothing.
  - rewrite IH. unfold say, after_attempts. simpl.
    now rewrite <- app_assoc.
Qed.

Lemma failing_length run k ms errs :
  failing run k ms errs -> length errs = length ms.
Proof. induction 1; simpl; congruence. Qed.

Lemma last_error_app (errs : list error) (e : error) (d : option error) :
  last_error (errs ++ [e]) d = Some e.
Proof. unfold last_error. now rewrite fold_left_app. Qed.

Section Sequential.

Variable run : nat -> jsval -> settlement jsstring.
Variable api : string.
Variable failure_line : jsval -> error -> log_line.
Variable all_failed : error.

(** Sequential mode goes through a run of failures: one request and one
    printed line for each, in order, and on to the next model. *)
Lemma sequential_skips_failures (before : list jsval) :
  forall (k : nat) (errs : list error),
    failing run k before errs ->
    forall (rest : list jsval) (lastErr : option error) (elapsed : Z) (c : ctx),
    exists (elapsed' : Z),
      sequential run api failure_line all_failed k (before ++ rest)
                 lastErr elapsed c
      = sequential run api failure_line all_failed (k + length before) rest
                   (last_error errs lastErr) elapsed'
                   (Ctx (Engine.lastUsedModel c)
                        (after_attempts (lines_for failure_line before errs)
                                        (map (Request api) before)
                                        (env c))).
Proof.
  intros k errs H. induction H as [k | k m ms t e errs Hrun Hrest IH];
    intros rest lastErr elapsed c.
  - exists elapsed. simpl. rewrite Nat.add_0_r.
    unfold lines_for. simpl. rewrite after_nothing.
    destruct c. reflexivity.
  - simpl. rewrite Hrun.
    destruct (IH rest (Some e) (elapsed + t)%Z
                 (caught failure_line m e (started api m c)))
      as [elapsed' Heq].
    exists elapsed'. rewrite Heq.
    f_equal; [lia|]. unfold caught, started. simpl. f_equal.
    rewrite <- (after_nothing (env c)) at 1.
    rewrite after_send, after_say, after_after. reflexivity.
Qed.

End Sequential.

End EngineFacts.

(** ** Racing mode, for every order in which the attempts complete *)

Module RaceFacts.

Section Racing.

Variable failure_line : jsval -> error -> log_line.
Variable all_failed : error.

Local Abbreviation complete := (complete failure_line all_failed).
Local Abbreviation completions := (completions failure_line all_failed).

Lemma complete_success_open (st : race) now m text :
  settled st = false ->
  complete st (now, (m, inr text))
  = Race true (remaining st - 1) (lastError st)
         (settle (promise st) (Settles now (inr text)))
         (S (settle_calls st)) (Ctx m (env (self st))).
Proof. intros H. unfold Engine.complete. rewrite H. reflexivity. Qed.

Lemma complete_failure_open (st : race) now m e :
  settled st = false -> (remaining st - 1 <> 0)%Z ->
  complete st (now, (m, inl e))
  = Race false (remaining st - 1) (Some e) (promise st) (settle_calls st)
         (caught failure_line m e (self st)).
Proof.
  intros H Hr. unfold Engine.complete. simpl. rewrite H. simpl.
  destruct (Z.eqb_spec (remaining st - 1) 0); [contradiction | reflexivity].
Qed.

Lemma complete_failure_last (st : race) now m e :
  settled st = false -> (remaining st - 1 = 0)%Z ->
  complete st (now, (m, inl e))
  = Race true (remaining st - 1) (Some e)
         (settle (promise st) (Settles now (inl e)))
         (S (settle_calls st)) (caught failure_line m e (self st)).
Proof.
  intros H Hr. unfold Engine.complete. simpl. rewrite H. simpl.
  destruct (Z.eqb_spec (remaining st - 1) 0); [reflexivity | contradiction].
Qed.

Lemma complete_closed (st : race) now m result :
  settled st = true ->
  complete st (now, (m, result))
  = Race true (remaining st - 1)
         (match result with inl e => Some e | inr _ => lastError st end)
         (promise st) (settle_calls st)
         (match result with
          | inl e => caught failure_line m e (self st)
          | inr _ => self st
          end).
Proof.
  intros H. unfold Engine.complete.
  destruct result; simpl; rewrite ?H; simpl; rewrite ?H; reflexivity.
Qed.

(** A settled race stays as it is: neither the promise, nor the number of
    calls to [resolve] and [reject], nor the winner changes. *)
Lemma complete_stable (st : race) (ev : completion) :
  settled st = true ->
  let st' := complete st ev in
  settled st' = true
  /\ promise st' = promise st
  /\ settle_calls st' = settle_calls st
  /\ Engine.lastUsedModel (self st') = Engine.lastUsedModel (self st).
Proof.
  intros H. destruct ev as [now [m result]]. cbv zeta.
  rewrite (complete_closed _ _ _ _ H). simpl.
  destruct result; simpl; auto.
Qed.

Lemma completions_stable (evs : list completion) :
  forall st : race,
    settled st = true ->
    let st' := completions st evs in
    settled st' = true
    /\ promise st' = promise st
    /\ settle_calls st' = settle_calls st
    /\ Engine.lastUsedModel (self st') = Engine.lastUsedModel (self st).
Proof.
  induction evs as [|ev evs IH]; intros st H; simpl; [auto|].
  destruct (complete_stable st ev H) as [H1 [H2 [H3 H4]]].
  destruct (IH _ H1) as [G1 [G2 [G3 G4]]]. simpl in *.
  repeat split; congruence.
Qed.

Lemma complete_coherent (st : race) (ev : completion) :
  coherent st -> coherent (complete st ev).
Proof.
  destruct ev as [now [m result]]. unfold coherent.
  destruct (settled st) eqn:Hs; intros [Hc Hp].
  - rewrite (complete_closed _ _ _ _ Hs). simpl. auto.
  - destruct result as [e | text].
    + destruct (Z.eq_dec (remaining st - 1) 0) as [Hr | Hr].
      * rewrite (complete_failure_last _ _ _ _ Hs Hr). simpl.
        rewrite Hc, Hp. simpl. split; [reflexivity | discriminate].
      * rewrite (complete_failure_open _ _ _ _ Hs Hr). simpl. auto.
    + rewrite (complete_success_open _ _ _ _ Hs). simpl.
      rewrite Hc, Hp. simpl. split; [reflexivity | discriminate].
Qed.

Lemma completions_coherent (evs : list completion) :
  forall st : race, coherent st -> coherent (completions st evs).
Proof.
  induction evs as [|ev evs IH]; intros st H; simpl; [exact H|].
  apply IH, complete_coherent, H.
Qed.

Lemma coherent_calls (st : race) : coherent st -> (settle_calls st <= 1)%nat.
Proof. unfold coherent. destruct (settled st); intros [H _]; lia. Qed.

Lemma coherent_settled (st : race) :
  coherent st -> promise st <> Hangs -> settled st = true.
Proof.
  unfold coherent. destruct (settled st); [reflexivity|].
  intros [_ H] Hn. contradiction.
Qed.

Lemma launch_coherent api (models : list jsval) (c : ctx) :
  coherent (launch api models c)
  /\ settled (launch api models c) = false
  /\ remaining (launch api models c) = Z.of_nat (length models)
  /\ promise (launch api models c) = Hangs.
Proof. unfold coherent, launch. simpl. auto. Qed.

Lemma launch_lastUsedModel api (models : list jsval) (c : ctx) :
  Engine.lastUsedModel (self (launch api models c)) = Engine.lastUsedModel c.
Proof.
  unfold launch. simpl. revert c.
  induction models as [|x l IH]; intros c; simpl; [reflexivity|].
  now rewrite IH.
Qed.

(** While the attempts that complete are failures and some attempt is
    still under way, nothing is settled. *)
Lemma completions_failures (evs : list completion) :
  forall st : race,
    settled st = false ->
    forallb is_failure evs = true ->
    (Z.of_nat (length evs) < remaining st)%Z ->
    let st' := completions st evs in
    settled st' = false
    /\ remaining st' = (remaining st - Z.of_nat (length evs))%Z
    /\ promise st' = promise st
    /\ settle_calls st' = settle_calls st
    /\ Engine.lastUsedModel (self st') = Engine.lastUsedModel (self st)
    /\ lastError st' = last_error (errors_of evs) (lastError st).
Proof.
  induction evs as [|[now [m [e | text]]] evs IH]; intros st Hs Hf Hlen.
  - simpl. repeat split; auto. lia.
  - simpl in Hf, Hlen. cbn [Engine.completions fold_left].
    assert (Hr : (remaining st - 1 <> 0)%Z) by lia.
    rewrite (complete_failure_open _ _ _ _ Hs Hr).
    edestruct (IH (Race false (remaining st - 1) (Some e) (promise st)
                       (settle_calls st) (caught failure_line m e (self st))))
      as [G1 [G2 [G3 [G4 [G5 G6]]]]]; [reflexivity | exact Hf | simpl; lia |].
    simpl in *. unfold Engine.completions in *.
    repeat split; try assumption. lia.
  - simpl in Hf. discriminate.
Qed.

(** The first success settles the race, whatever completes afterwards. *)
Lemma completions_first_success (before after : list completion)
  (now : Z) (m : jsval) (text : jsstring) (st : race) :
  settled st = false -> promise st = Hangs ->
  forallb is_failure before = true ->
  (Z.of_nat (length before) < remaining st)%Z ->
  let st' := completions st (before ++ (now, (m, inr text)) :: after) in
  promise st' = Settles now (inr text)
  /\ Engine.lastUsedModel (self st') = m
  /\ settle_calls st' = S (settle_calls st).
Proof.
  intros Hs Hp Hf Hlen. unfold Engine.completions.
  rewrite fold_left_app. cbn [fold_left].
  destruct (completions_failures before st Hs Hf Hlen)
    as [G1 [G2 [G3 [G4 [G5 G6]]]]].
  unfold Engine.completions in *.
  set (st1 := fold_left complete before st) in *.
  rewrite (complete_success_open _ _ _ _ G1).
  match goal with |- context [fold_left _ after ?s] =>
    destruct (completions_stable after s eq_refl) as [_ [F2 [F3 F4]]]
  end.
  unfold Engine.completions in *. simpl in *.
  rewrite F2, F3, F4, G3, G4, Hp. auto.
Qed.

(** When every attempt has failed, the race is rejected with the error of
    the attempt that failed last. *)
Lemma completions_exhausted (init : list completion)
  (now : Z) (m : jsval) (e : error) (st : race) :
  settled st = false -> promise st = Hangs ->
  forallb is_failure init = true ->
  remaining st = Z.of_nat (S (length init)) ->
  let st' := completions st (init ++ [(now, (m, inl e))]) in
  promise st' = Settles now (inl e)
  /\ Engine.lastUsedModel (self st') = Engine.lastUsedModel (self st)
  /\ settle_calls st' = S (settle_calls st).
Proof.
  intros Hs Hp Hf Hlen. unfold Engine.completions.
  rewrite fold_left_app. cbn [fold_left].
  destruct (completions_failures init st Hs Hf) as [G1 [G2 [G3 [G4 [G5 G6]]]]];
    [lia|].
  unfold Engine.completions in *.
  set (st1 := fold_left complete init st) in *.
  assert (Hr : (remaining st1 - 1 = 0)%Z) by lia.
  rewrite (complete_failure_last _ _ _ _ G1 Hr). simpl.
  rewrite G3, G4, G5, Hp. auto.
Qed.

End Racing.

End RaceFacts.

(** ** The chronological order of the completions *)

Module ChronoFacts.

Lemma insert_sorted_perm {A : Type} (leb : A -> A -> bool) (x : A) (l : list A) :
  Permutation (insert_sorted leb x l) (x :: l).
Proof.
  induction l as [|h t IH]; simpl; [apply Permutation_refl|].
  destruct (leb x h); [apply Permutation_refl|].
  eapply perm_trans; [apply perm_skip, IH | apply perm_swap].
Qed.

Lemma sort_by_perm {A : Type} (leb : A -> A -> bool) (l : list A) :
  Permutation (sort_by leb l) l.
Proof.
  induction l as [|x l IH]; simpl; [apply perm_nil|].
  eapply perm_trans; [apply insert_sorted_perm | apply perm_skip, IH].
Qed.

Lemma forallb_perm {A : Type} (f : A -> bool) (l l' : list A) :
  Permutation l l' -> forallb f l = forallb f l'.
Proof.
  induction 1; simpl; try congruence.
  destruct (f x), (f y); reflexivity.
Qed.

Lemma indexed_length {A : Type} (l : list A) :
  forall k, length (indexed k l) = length l.
Proof. induction l as [|x l IH]; intros k; simpl; [reflexivity | now rewrite IH]. Qed.

Lemma settling_In run (l : list jsval) :
  forall (k : nat) (ev : completion),
    In ev (settling run (indexed k l)) ->
    exists i, nth_error l i = Some (fst (snd ev))
              /\ run (k + i)%nat (fst (snd ev)) = Settles (fst ev) (snd (snd ev)).
Proof.
  induction l as [|m l IH]; intros k ev; simpl; [contradiction|].
  destruct (run k m) as [t r |] eqn:E.
  - intros [<- | H].
    + exists 0%nat. simpl. now rewrite Nat.add_0_r.
    + destruct (IH _ _ H) as [i [Hi Hr]]. exists (S i). simpl.
      now rewrite Nat.add_succ_r.
  - intros H. destruct (IH _ _ H) as [i [Hi Hr]]. exists (S i). simpl.
    now rewrite Nat.add_succ_r.
Qed.

Lemma In_settling run (l : list jsval) :
  forall (k i : nat) (m : jsval) (t : Z) (r : error + jsstring),
    nth_error l i = Some m ->
    run (k + i)%nat m = Settles t r ->
    In (t, (m, r)) (settling run (indexed k l)).
Proof.
  induction l as [|m0 l IH]; intros k i m t r Hi Hr; [destruct i; discriminate|].
  destruct i as [|i]; simpl in Hi.
  - injection Hi as ->. rewrite Nat.add_0_r in Hr. simpl. rewrite Hr. now left.
  - rewrite Nat.add_succ_r in Hr. simpl.
    destruct (run k m0); [right|]; now apply (IH (S k) i).
Qed.

Lemma insert_sorted_time (x : completion) (l : list completion) :
  StronglySorted (fun a b : completion => (fst a <= fst b)%Z) l ->
  StronglySorted (fun a b : completion => (fst a <= fst b)%Z)
    (insert_sorted (fun a b : completion => (fst a <=? fst b)%Z) x l).
Proof.
  induction 1 as [| h t Hs IH Hall]; simpl.
  - constructor; constructor.
  - destruct (Z.leb_spec (fst x) (fst h)) as [Hle | Hgt].
    + constructor; [constructor; assumption|].
      constructor; [exact Hle|].
      eapply Forall_impl; [| exact Hall]. intros a Ha. simpl in *. lia.
    + constructor; [exact IH|].
      apply Forall_forall. intros y Hy.
      apply (Permutation_in _ (insert_sorted_perm _ x t)) in Hy.
      destruct Hy as [<- | Hy]; [lia|].
      rewrite Forall_forall in Hall. now apply Hall.
Qed.

Lemma sort_by_time (l : list completion) :
  StronglySorted (fun a b : completion => (fst a <= fst b)%Z)
    (sort_by (fun a b : completion => (fst a <=? fst b)%Z) l).
Proof.
  induction l as [|x l IH]; simpl; [constructor|].
  now apply insert_sorted_time.
Qed.

Lemma sorted_last (init : list completion) (ev : completion) :
  StronglySorted (fun a b : completion => (fst a <= fst b)%Z) (init ++ [ev]) ->
  forall a, In a (init ++ [ev]) -> (fst a <= fst ev)%Z.
Proof.
  induction init as [|x init IH]; simpl; intros H a Ha.
  - destruct Ha as [<- | []]. lia.
  - inversion H as [| y ys Hs Hall]; subst.
    destruct Ha as [<- | Ha].
    + rewrite Forall_forall in Hall. apply Hall.
      apply in_or_app. right. now left.
    + now apply IH.
Qed.

Section Order.

Variable run : nat -> jsval -> settlement jsstring.

Lemma settling_length (l : list (nat * jsval)) :
  (length (settling run l) <= length l)%nat.
Proof.
  induction l as [|[k m] l IH]; simpl; [lia|].
  destruct (run k m); simpl; lia.
Qed.

Lemma chronological_length (models : list jsval) :
  (length (chronological run models) <= length models)%nat.
Proof.
  unfold chronological.
  rewrite (Permutation_length (sort_by_perm _ _)).
  rewrite <- (indexed_length models 0). apply settling_length.
Qed.

Lemma settling_failing (k : nat) (ms : list jsval) (errs : list error) :
  failing run k ms errs ->
  forallb is_failure (settling run (indexed k ms)) = true
  /\ length (settling run (indexed k ms)) = length ms.
Proof.
  induction 1 as [k | k m ms t e errs Hrun Hrest [IH1 IH2]]; simpl; [auto|].
  rewrite Hrun. simpl. auto.
Qed.

(** When every attempt fails, every attempt completes, and the last
    completion is a failure. *)
Lemma chronological_failing (m0 : jsval) (ms : list jsval) (errs : list error) :
  failing run 0 (m0 :: ms) errs ->
  exists init now m e,
    chronological run (m0 :: ms) = init ++ [(now, (m, inl e))]
    /\ forallb is_failure init = true
    /\ length init = length ms.
Proof.
  intros H. destruct (settling_failing _ _ _ H) as [Hf Hlen].
  assert (Hf' : forallb is_failure (chronological run (m0 :: ms)) = true).
  { unfold chronological. now rewrite (forallb_perm _ _ _ (sort_by_perm _ _)). }
  assert (Hlen' : length (chronological run (m0 :: ms)) = S (length ms)).
  { unfold chronological. now rewrite (Permutation_length (sort_by_perm _ _)). }
  destruct (chronological run (m0 :: ms)) as [|ev evs] eqn:E; [discriminate|].
  destruct (exists_last (l := ev :: evs)) as [init [[now [m result]] Hl]];
    [discriminate|].
  rewrite Hl in Hf', Hlen'. rewrite forallb_app in Hf'.
  apply andb_true_iff in Hf' as [Hinit Hlast].
  rewrite length_app in Hlen'. simpl in Hlen'.
  destruct result as [e | text]; [| simpl in Hlast; discriminate].
  exists init, now, m, e. rewrite Hl.
  split; [reflexivity|]. split; [assumption|].
  unfold completion in *. lia.
Qed.

(** The completions come in the order of their instants: the last one
    belongs to an attempt of the roster, and no attempt settles after it. *)
Lemma chronological_latest (models : list jsval) (init : list completion)
  (now : Z) (m : jsval) (r : error + jsstring) :
  chronological run models = init ++ [(now, (m, r))] ->
  (exists k, nth_error models k = Some m /\ run k m = Settles now r)
  /\ forall (j : nat) (mj : jsval) (tj : Z) (rj : error + jsstring),
      nth_error models j = Some mj ->
      run j mj = Settles tj rj ->
      (tj <= now)%Z.
Proof.
  intros Hchr.
  assert (Hperm : forall ev, In ev (settling run (indexed 0 models)) <->
                             In ev (init ++ [(now, (m, r))])).
  { intros ev. rewrite <- Hchr. unfold chronological. split; intros H.
    - eapply Permutation_in; [apply Permutation_sym, sort_by_perm | exact H].
    - eapply Permutation_in; [apply sort_by_perm | exact H]. }
  split.
  - assert (Hin : In (now, (m, r)) (settling run (indexed 0 models))).
    { apply Hperm, in_or_app. right. now left. }
    apply settling_In in Hin as [k [Hk Hr]]. exists k. auto.
  - intros j mj tj rj Hj Hr.
    pose proof (In_settling run models 0 j mj tj rj Hj Hr) as Hin.
    apply Hperm in Hin.
    pose proof (sort_by_time (settling run (indexed 0 models))) as Hs.
    change (sort_by _ _) with (chronological run models) in Hs.
    rewrite Hchr in Hs.
    apply (sorted_last _ _ Hs) in Hin. exact Hin.
Qed.

End Order.

End ChronoFacts.

(** ** [Ai.ask] *)

Module AskFacts.

Lemma client_eta (this : client) :
  Client (models this) (requestTimeoutMs this) (firstToFinish this)
         (Client.lastUsedModel this) = this.
Proof. destruct this. reflexivity. Qed.

Lemma ask_timed_cases (this : client) net o w :
  models this <> [] ->
  OpenRouter.ask_timed this net o w
  = match refused (compose "Ai" o w) with
    | Some e => (this, print_all (warned (compose "Ai" o w)) w,
                 Settles 0 (inl e))
    | None =>
        finish this
          (resolve (OpenRouter.attempt (requestTimeoutMs this) (net o))
                   "openrouter:chat" OpenRouter.failure_line
                   OpenRouter.all_failed
                   (firstToFinish this) (models this)
                   (Ctx (Client.lastUsedModel this)
                        (print_all (warned (compose "Ai" o w)) w)))
    end.
Proof.
  intros H. unfold OpenRouter.ask_timed.
  destruct (models this); [contradiction | reflexivity].
Qed.

Lemma ask_timed_unfold (this : client) net o w printed :
  models this <> [] ->
  compose "Ai" o w = Composed printed None ->
  OpenRouter.ask_timed this net o w
  = finish this
      (resolve (OpenRouter.attempt (requestTimeoutMs this) (net o))
               "openrouter:chat" OpenRouter.failure_line OpenRouter.all_failed
               (firstToFinish this) (models this)
               (Ctx (Client.lastUsedModel this)
                    (after_attempts printed [] w))).
Proof.
  intros H Hc. rewrite ask_timed_cases by exact H. rewrite Hc. simpl.
  now rewrite EngineFacts.print_all_after.
Qed.

(** When the payload cannot be built, the call fails before any request. *)
Lemma ask_timed_refused (this : client) net o w printed e :
  models this <> [] ->
  compose "Ai" o w = Composed printed (Some e) ->
  OpenRouter.ask_timed this net o w
  = (this, after_attempts printed [] w, Settles 0 (inl e)).
Proof.
  intros H Hc. rewrite ask_timed_cases by exact H. rewrite Hc. simpl.
  now rewrite EngineFacts.print_all_after.
Qed.

Lemma resolve_sequential run api line failed flag roster c :
  truthy flag = false \/ length roster = 1%nat ->
  resolve run api line failed flag roster c
  = sequential run api line failed 0 roster None 0 c.
Proof.
  intros [H | H]; unfold resolve.
  - now rewrite H.
  - rewrite H. simpl. now rewrite orb_true_r.
Qed.

Lemma resolve_racing run api line failed flag roster c :
  truthy flag = true -> length roster <> 1%nat ->
  resolve run api line failed flag roster c
  = racing run api line failed roster c.
Proof.
  intros H1 H2. unfold resolve. rewrite H1. simpl.
  destruct (Nat.eqb_spec (length roster) 1); [contradiction | reflexivity].
Qed.

Lemma lines_for_length run line k ms errs :
  failing run k ms errs -> length (lines_for line ms errs) = length ms.
Proof.
  intros H. unfold lines_for. rewrite length_map, length_combine.
  rewrite (EngineFacts.failing_length _ _ _ _ H). apply Nat.min_id.
Qed.

(** C1. In sequential mode (the flag [firstToFinish] is falsy, or the
    roster has one entry), once the messages of the call are built, [ask]
    tries the models in roster order and stops at the first whose attempt
    succeeds: it returns that text, records that model in [lastUsedModel],
    has sent one request to each model up to the winner and none to a later
    one, and has printed, after the warnings of the payload, exactly one
    failure line for each model before the winner. *)
Theorem ask_stops_at_first_success :
  forall (this : client) (net : network ask_options) (o : ask_options)
         (w : world) (before after : list jsval) (winner : jsval)
         (errs : list error) (t : Z) (text : jsstring)
         (printed : list log_line),
    models this = before ++ winner :: after ->
    truthy (firstToFinish this) = false \/ length (models this) = 1%nat ->
    compose "Ai" o w = Composed printed None ->
    failing (OpenRouter.attempt (requestTimeoutMs this) (net o)) 0 before errs ->
    OpenRouter.attempt (requestTimeoutMs this) (net o) (length before) winner
    = Settles t (inr text) ->
    OpenRouter.ask this net o w
    = (Client (models this) (requestTimeoutMs this) (firstToFinish this) winner,
       after_attempts
         (printed ++ lines_for OpenRouter.failure_line before errs)
         (map (Request "openrouter:chat") (before ++ [winner])) w,
       Returned text)
    /\ length (lines_for OpenRouter.failure_line before errs) = length before.
Proof.
  intros this net o w before after winner errs t text printed
         Hm Hmode Hc Hfail Hwin.
  split; [| exact (lines_for_length _ _ _ _ _ Hfail)].
  unfold OpenRouter.ask. rewrite (ask_timed_unfold this net o w printed).
  2:{ rewrite Hm. destruct before; discriminate. }
  2:{ exact Hc. }
  rewrite resolve_sequential by exact Hmode. rewrite Hm.
  destruct (EngineFacts.sequential_skips_failures
              _ "openrouter:chat" OpenRouter.failure_line OpenRouter.all_failed
              before 0 errs Hfail
              (winner :: after) None 0%Z
              (Ctx (Client.lastUsedModel this) (after_attempts printed [] w)))
    as [elapsed Heq].
  rewrite Heq. simpl. rewrite Hwin. unfold untimed, finish. simpl.
  rewrite EngineFacts.after_after, EngineFacts.after_send.
  rewrite map_app. simpl. rewrite <- Hm. reflexivity.
Qed.

Lemma ask_timed_racing (this : client) net o w printed :
  truthy (firstToFinish this) = true ->
  (1 < length (models this))%nat ->
  compose "Ai" o w = Composed printed None ->
  OpenRouter.ask_timed this net o w
  = finish this
      (racing (OpenRouter.attempt (requestTimeoutMs this) (net o))
              "openrouter:chat" OpenRouter.failure_line OpenRouter.all_failed
              (models this)
              (Ctx (Client.lastUsedModel this) (after_attempts printed [] w))).
Proof.
  intros Hflag Hlen Hc. rewrite (ask_timed_unfold this net o w printed).
  - rewrite resolve_racing; [reflexivity | assumption | lia].
  - intros E. rewrite E in Hlen. simpl in Hlen. lia.
  - exact Hc.
Qed.

(** C2. In racing mode (the flag is truthy and the roster has more than
    one entry) [ask] either fails while it builds the messages, before any
    attempt, or its promise is the one the completions of the attempts
    build; and for every order in which attempts complete: [resolve] and
    [reject] are called at most once in all; once the promise is settled,
    no later completion changes it, the winner or the number of calls; and
    the first success, which comes while some attempt is still under way,
    fulfils the promise with its text and records its model. *)
Theorem race_settles_once :
  forall (this : client) (net : network ask_options) (o : ask_options)
         (w : world),
    truthy (firstToFinish this) = true ->
    (1 < length (models this))%nat ->
    let run := OpenRouter.attempt (requestTimeoutMs this) (net o) in
    let race_after := fun w0 : world =>
      completions OpenRouter.failure_line OpenRouter.all_failed
        (launch "openrouter:chat" (models this)
                (Ctx (Client.lastUsedModel this) w0)) in
    let built := compose "Ai" o w in
    OpenRouter.ask_timed this net o w
    = match refused built with
      | Some e => (this, print_all (warned built) w, Settles 0 (inl e))
      | None =>
          finish this
            (self (race_after (print_all (warned built) w)
                              (chronological run (models this))),
             promise (race_after (print_all (warned built) w)
                                 (chronological run (models this))))
      end
    /\ (forall (w0 : world) (evs more : list completion),
           (settle_calls (race_after w0 (evs ++ more)) <= 1)%nat
           /\ (promise (race_after w0 evs) <> Hangs ->
               promise (race_after w0 (evs ++ more))
               = promise (race_after w0 evs)
               /\ Engine.lastUsedModel (self (race_after w0 (evs ++ more)))
                  = Engine.lastUsedModel (self (race_after w0 evs))
               /\ settle_calls (race_after w0 (evs ++ more))
                  = settle_calls (race_after w0 evs)))
    /\ (forall (w0 : world) (before later : list completion) (now : Z)
               (m : jsval) (text : jsstring),
           forallb is_failure before = true ->
           (length before < length (models this))%nat ->
           let st := race_after w0 (before ++ (now, (m, inr text)) :: later) in
           promise st = Settles now (inr text)
           /\ Engine.lastUsedModel (self st) = m
           /\ settle_calls st = 1%nat)
    /\ (forall (before later : list completion) (now : Z) (m : jsval)
               (text : jsstring),
           refused built = None ->
           chronological run (models this)
           = before ++ (now, (m, inr text)) :: later ->
           forallb is_failure before = true ->
           exists w',
             OpenRouter.ask_timed this net o w
             = (Client (models this) (requestTimeoutMs this)
                       (firstToFinish this) m,
                w', Settles now (inr text))).
Proof.
  intros this net o w Hflag Hlen run race_after built.
  assert (Hne : models this <> []).
  { intros E. rewrite E in Hlen. simpl in Hlen. lia. }
  assert (Hfirst :
    forall w0 before later now m text,
      forallb is_failure before = true ->
      (length before < length (models this))%nat ->
      let st := race_after w0 (before ++ (now, (m, inr text)) :: later) in
      promise st = Settles now (inr text)
      /\ Engine.lastUsedModel (self st) = m
      /\ settle_calls st = 1%nat).
  { intros w0 before later now m text Hf Hb.
    pose proof (RaceFacts.launch_coherent "openrouter:chat" (models this)
                  (Ctx (Client.lastUsedModel this) w0)) as [Hco [Hs [Hr Hp]]].
    apply (RaceFacts.completions_first_success
             OpenRouter.failure_line OpenRouter.all_failed
             before later now m text _ Hs Hp Hf).
    rewrite Hr. unfold completion in *. lia. }
  assert (Hcases :
    OpenRouter.ask_timed this net o w
    = match refused built with
      | Some e => (this, print_all (warned built) w, Settles 0 (inl e))
      | None =>
          finish this
            (self (race_after (print_all (warned built) w)
                              (chronological run (models this))),
             promise (race_after (print_all (warned built) w)
                                 (chronological run (models this))))
      end).
  { rewrite ask_timed_cases by exact Hne. fold built.
    destruct (refused built); [reflexivity|].
    rewrite resolve_racing; [reflexivity | assumption | lia]. }
  split; [exact Hcases |]. split; [| split].
  - intros w0 evs more.
    pose proof (RaceFacts.launch_coherent "openrouter:chat" (models this)
                  (Ctx (Client.lastUsedModel this) w0)) as [Hco [Hs [Hr Hp]]].
    unfold race_after, completions.
    rewrite fold_left_app.
    fold (completions OpenRouter.failure_line OpenRouter.all_failed).
    fold (race_after w0).
    assert (Hco1 : coherent (race_after w0 evs))
      by (apply RaceFacts.completions_coherent, Hco).
    split.
    + apply RaceFacts.coherent_calls, RaceFacts.completions_coherent, Hco1.
    + intros Hset.
      pose proof (RaceFacts.coherent_settled _ Hco1 Hset) as Hs1.
      destruct (RaceFacts.completions_stable
                  OpenRouter.failure_line OpenRouter.all_failed
                  more _ Hs1) as [_ [H2 [H3 H4]]].
      auto.
  - exact Hfirst.
  - intros before later now m text Hbuilt Hchr Hf.
    rewrite Hcases, Hbuilt, Hchr.
    pose proof (ChronoFacts.chronological_length run (models this)) as Hle.
    rewrite Hchr, length_app in Hle. simpl in Hle.
    destruct (Hfirst (print_all (warned built) w) before later now m text Hf)
      as [H1 [H2 _]]; [unfold completion in *; lia|].
    unfold finish. simpl. rewrite H1, H2. eexists. reflexivity.
Qed.

(** C3. When the messages of the call are built and the attempt on every
    model of a non-empty roster fails, [ask] throws the error of the attempt
    that failed last: in sequential mode the error of the last roster
    entry; in racing mode, for every order of completion, the error of the
    attempt that completed last, which is an attempt of the roster after
    which no other attempt settles. *)
Theorem exhaustion_throws_last_error :
  forall (this : client) (net : network ask_options) (o : ask_options)
         (w : world) (errs : list error) (e : error)
         (printed : list log_line),
    let run := OpenRouter.attempt (requestTimeoutMs this) (net o) in
    compose "Ai" o w = Composed printed None ->
    failing run 0 (models this) (errs ++ [e]) ->
    (truthy (firstToFinish this) = false \/ length (models this) = 1%nat ->
     OpenRouter.ask this net o w
     = (this,
        after_attempts
          (printed
           ++ lines_for OpenRouter.failure_line (models this) (errs ++ [e]))
          (map (Request "openrouter:chat") (models this)) w,
        Thrown e))
    /\ (truthy (firstToFinish this) = true ->
        length (models this) <> 1%nat ->
        (forall (w0 : world) (init : list completion) (now : Z) (m : jsval)
                (e' : error),
            forallb is_failure init = true ->
            S (length init) = length (models this) ->
            promise
              (completions OpenRouter.failure_line OpenRouter.all_failed
                 (launch "openrouter:chat" (models this)
                         (Ctx (Client.lastUsedModel this) w0))
                 (init ++ [(now, (m, inl e'))]))
            = Settles now (inl e'))
        /\ exists (k : nat) (m : jsval) (now : Z) (e' : error) (w' : world),
            nth_error (models this) k = Some m
            /\ run k m = Settles now (inl e')
            /\ (forall (j : nat) (mj : jsval) (tj : Z)
                       (rj : error + jsstring),
                   nth_error (models this) j = Some mj ->
                   run j mj = Settles tj rj ->
                   (tj <= now)%Z)
            /\ OpenRouter.ask this net o w = (this, w', Thrown e')).
Proof.
  intros this net o w errs e printed run Hc Hfail.
  assert (Hne : models this <> []).
  { intros E. rewrite E in Hfail. inversion Hfail as [k Hk Herr |].
    destruct errs; discriminate. }
  assert (Hlast :
    forall w0 init now m e',
      forallb is_failure init = true ->
      S (length init) = length (models this) ->
      let st := completions OpenRouter.failure_line OpenRouter.all_failed
                  (launch "openrouter:chat" (models this)
                          (Ctx (Client.lastUsedModel this) w0))
                  (init ++ [(now, (m, inl e'))]) in
      promise st = Settles now (inl e')
      /\ Engine.lastUsedModel (self st) = Client.lastUsedModel this).
  { intros w0 init now m e' Hf Hlen.
    pose proof (RaceFacts.launch_coherent "openrouter:chat" (models this)
                  (Ctx (Client.lastUsedModel this) w0)) as [Hco [Hs [Hr Hp]]].
    destruct (RaceFacts.completions_exhausted
                OpenRouter.failure_line OpenRouter.all_failed
                init now m e' _ Hs Hp Hf) as [H1 [H2 _]].
    - rewrite Hr. unfold completion in *. now rewrite Hlen.
    - split; [exact H1|]. rewrite H2.
      apply RaceFacts.launch_lastUsedModel. }
  split.
  - intros Hmode. unfold OpenRouter.ask.
    rewrite (ask_timed_unfold this net o w printed Hne Hc).
    rewrite resolve_sequential by exact Hmode.
    destruct (EngineFacts.sequential_skips_failures
                run "openrouter:chat" OpenRouter.failure_line
                OpenRouter.all_failed (models this) 0 (errs ++ [e]) Hfail
                [] None 0%Z
                (Ctx (Client.lastUsedModel this) (after_attempts printed [] w)))
      as [elapsed Heq].
    rewrite app_nil_r in Heq. fold run. rewrite Heq. simpl.
    rewrite EngineFacts.last_error_app. unfold untimed, finish. simpl.
    rewrite client_eta, EngineFacts.after_after. reflexivity.
  - intros Hflag Hlen. split.
    + intros w0 init now m e' Hf Hl. apply (Hlast w0 init now m e' Hf Hl).
    + destruct (models this) as [|m0 ms] eqn:Em; [contradiction|].
      destruct (ChronoFacts.chronological_failing run m0 ms _ Hfail)
        as [init [now [m [e' [Hchr [Hf Hl]]]]]].
      destruct (ChronoFacts.chronological_latest run _ _ _ _ _ Hchr)
        as [[k [Hk Hrun]] Hmax].
      exists k, m, now, e'.
      unfold OpenRouter.ask.
      rewrite (ask_timed_unfold this net o w printed)
        by (rewrite ?Em; first [discriminate | exact Hc]).
      rewrite resolve_racing; [| assumption | now rewrite Em].
      rewrite Em. unfold racing. fold run. rewrite Hchr.
      destruct (Hlast (after_attempts printed [] w) init now m e' Hf)
        as [H1 H2].
      { simpl. f_equal. exact Hl. }
      eexists. split; [exact Hk|]. split; [exact Hrun|].
      split; [exact Hmax|].
      unfold untimed, finish. cbv zeta. cbn [fst snd]. cbv zeta in H1, H2.
      unfold completion in *. rewrite H1, H2. simpl.
      rewrite client_eta. reflexivity.
Qed.

(** C4. An attempt whose call succeeds but whose extracted text is empty
    or made of white space only is a failure, with the error
    [Empty response from <model>]; and a failed attempt, whatever its error
    (this one, a provider's or a timeout), never becomes the winner: in
    sequential mode the loop prints its line and goes on to the next
    model, in racing mode its completion only updates [lastError], the
    console and the count of remaining attempts, and rejects the promise
    when it was the last attempt still under way. *)
Theorem blank_text_is_a_failure :
  forall (timeoutMs : Z) (net : nat -> jsval -> reply) (k : nat)
         (model : jsval) (t : Z) (response : jsval),
    await_within timeoutMs (timed_out model timeoutMs) (net k model)
    = Settles t (inr response) ->
    blank (OpenRouter.extractText response) = true ->
    OpenRouter.attempt timeoutMs net k model
    = Settles t (inl (empty_response model))
    /\ forall (run : nat -> jsval -> settlement jsstring) (e : error),
        run k model = Settles t (inl e) ->
        (forall rest lastErr elapsed c,
            sequential run "openrouter:chat" OpenRouter.failure_line
                       OpenRouter.all_failed k (model :: rest)
                       lastErr elapsed c
            = sequential run "openrouter:chat" OpenRouter.failure_line
                         OpenRouter.all_failed (S k) rest (Some e)
                         (elapsed + t)
                         (caught OpenRouter.failure_line model e
                                 (started "openrouter:chat" model c)))
        /\ (forall rest,
               settling run ((k, model) :: rest)
               = (t, (model, inl e)) :: settling run rest)
        /\ (forall st : race,
               let st' :=
                 complete OpenRouter.failure_line OpenRouter.all_failed st
                          (t, (model, inl e)) in
               lastError st' = Some e
               /\ Engine.lastUsedModel (self st')
                  = Engine.lastUsedModel (self st)
               /\ remaining st' = (remaining st - 1)%Z
               /\ console (env (self st'))
                  = console (env (self st)) ++ [OpenRouter.failure_line model e]
               /\ (promise st' = promise st
                   \/ (settled st = false /\ remaining st = 1%Z
                       /\ promise st'
                          = settle (promise st) (Settles t (inl e))))).
Proof.
  intros timeoutMs net k model t response Hawait Hblank. split.
  - unfold OpenRouter.attempt. rewrite Hawait.
    apply JsFacts.trim_nil_iff in Hblank. now rewrite Hblank.
  - intros run e Hrun. split; [| split].
    + intros rest lastErr elapsed c. simpl. now rewrite Hrun.
    + intros rest. simpl. now rewrite Hrun.
    + intros st. cbv zeta.
      destruct (settled st) eqn:Hs.
      * rewrite (RaceFacts.complete_closed _ _ _ _ _ _ Hs). simpl. auto 6.
      * destruct (Z.eq_dec (remaining st - 1) 0) as [Hr | Hr].
        -- rewrite (RaceFacts.complete_failure_last _ _ _ _ _ _ Hs Hr). simpl.
           repeat split; auto. right. repeat split; auto. lia.
        -- rewrite (RaceFacts.complete_failure_open _ _ _ _ _ _ Hs Hr). simpl.
           auto 6.
Qed.

(** The sequential scenario of the specification: A and B fail, C answers
    ["hi"]; two lines are printed and nothing is sent after C. *)
Lemma fallback_example :
  models Scenario.fallback = [Scenario.A; Scenario.B] ++ Scenario.C :: []
  /\ (truthy (firstToFinish Scenario.fallback) = false
      \/ length (models Scenario.fallback) = 1%nat)
  /\ failing (OpenRouter.attempt 20000 (Scenario.third_answers Scenario.prompt))
             0 [Scenario.A; Scenario.B]
             [Error (js "x"); empty_response Scenario.B]
  /\ compose "Ai" Scenario.prompt Scenario.quiet = Composed [] None
  /\ OpenRouter.attempt 20000 (Scenario.third_answers Scenario.prompt)
                        2 Scenario.C
     = Settles 3 (inr (js "hi"))
  /\ OpenRouter.ask Scenario.fallback Scenario.third_answers Scenario.prompt
                    Scenario.quiet
     = (Client [Scenario.A; Scenario.B; Scenario.C] 20000 (JBool false)
               Scenario.C,
        after_attempts
          [OpenRouter.failure_line Scenario.A (Error (js "x"));
           OpenRouter.failure_line Scenario.B (empty_response Scenario.B)]
          (map (Request "openrouter:chat")
               [Scenario.A; Scenario.B; Scenario.C])
          Scenario.quiet,
        Returned (js "hi")).
Proof.
  assert (Hfail :
    failing (OpenRouter.attempt 20000 (Scenario.third_answers Scenario.prompt))
            0 [Scenario.A; Scenario.B]
            [Error (js "x"); empty_response Scenario.B]).
  { apply failing_cons with (t := 5%Z); [reflexivity|].
    apply failing_cons with (t := 7%Z); [reflexivity|].
    apply failing_nil. }
  split; [reflexivity|]. split; [left; reflexivity|].
  split; [exact Hfail|]. split; [reflexivity|]. split; [reflexivity|].
  exact (proj1 (ask_stops_at_first_success
                  Scenario.fallback Scenario.third_answers Scenario.prompt
                  Scenario.quiet [Scenario.A; Scenario.B] [] Scenario.C
                  [Error (js "x"); empty_response Scenario.B] 3 (js "hi") []
                  eq_refl (or_introl eq_refl) eq_refl Hfail eq_refl)).
Defined.

(** The racing scenario of the specification: B is the first to succeed
    and wins, although A succeeds too, later. *)
Lemma racing_example :
  truthy (firstToFinish Scenario.racers) = true
  /\ (1 < length (models Scenario.racers))%nat
  /\ exists w',
      OpenRouter.ask_timed Scenario.racers Scenario.second_is_fastest
                           Scenario.prompt Scenario.quiet
      = (Client [Scenario.A; Scenario.B; Scenario.C] 20000 (JBool true)
                Scenario.B,
         w', Settles 2 (inr (js "b"))).
Proof.
  assert (H1 : truthy (firstToFinish Scenario.racers) = true) by reflexivity.
  assert (H2 : (1 < length (models Scenario.racers))%nat) by (simpl; lia).
  split; [exact H1|]. split; [exact H2|].
  destruct (race_settles_once Scenario.racers Scenario.second_is_fastest
              Scenario.prompt Scenario.quiet H1 H2) as [_ [_ [_ H]]].
  apply (H [(1%Z, (Scenario.C, inl (Error (js "x"))))]
           [(9%Z, (Scenario.A, inr (js "a")))] 2%Z Scenario.B (js "b"));
    reflexivity.
Defined.

(** The exhaustion scenario of the specification: A fails with a provider
    error, B with a timeout; the error thrown is B's.  And in a race that
    the three models lose, A at 9, B at 2 and C at 5, the error thrown is
    A's, the last to come. *)
Lemma exhaustion_example :
  compose "Ai" Scenario.prompt Scenario.quiet = Composed [] None
  /\ failing (OpenRouter.attempt 20000 (Scenario.none_answers Scenario.prompt))
          0 (models Scenario.pair)
          ([Error (js "x")] ++ [timed_out Scenario.B 20000])
  /\ OpenRouter.ask Scenario.pair Scenario.none_answers Scenario.prompt
                    Scenario.quiet
     = (Scenario.pair,
        after_attempts
          [OpenRouter.failure_line Scenario.A (Error (js "x"));
           OpenRouter.failure_line Scenario.B (timed_out Scenario.B 20000)]
          (map (Request "openrouter:chat") [Scenario.A; Scenario.B])
          Scenario.quiet,
        Thrown (timed_out Scenario.B 20000))
  /\ failing (OpenRouter.attempt 20000 (Scenario.all_refuse Scenario.prompt))
          0 (models Scenario.racers)
          ([Error (js "a"); Error (js "b")] ++ [Error (js "c")])
  /\ exists w',
      OpenRouter.ask Scenario.racers Scenario.all_refuse Scenario.prompt
                     Scenario.quiet
      = (Scenario.racers, w', Thrown (Error (js "a"))).
Proof.
  assert (Hfail :
    failing (OpenRouter.attempt 20000 (Scenario.none_answers Scenario.prompt))
            0 (models Scenario.pair)
            ([Error (js "x")] ++ [timed_out Scenario.B 20000])).
  { apply failing_cons with (t := 5%Z); [reflexivity|].
    apply failing_cons with (t := 20000%Z); [reflexivity|].
    apply failing_nil. }
  assert (Hrace :
    failing (OpenRouter.attempt 20000 (Scenario.all_refuse Scenario.prompt))
            0 (models Scenario.racers)
            ([Error (js "a"); Error (js "b")] ++ [Error (js "c")])).
  { apply failing_cons with (t := 9%Z); [reflexivity|].
    apply failing_cons with (t := 2%Z); [reflexivity|].
    apply failing_cons with (t := 5%Z); [reflexivity|].
    apply failing_nil. }
  split; [reflexivity|]. split; [exact Hfail|].
  split.
  { exact (proj1 (exhaustion_throws_last_error
                    Scenario.pair Scenario.none_answers Scenario.prompt
                    Scenario.quiet [Error (js "x")]
                    (timed_out Scenario.B 20000) [] eq_refl Hfail)
                 (or_introl eq_refl)). }
  split; [exact Hrace|].
  destruct (proj2 (exhaustion_throws_last_error
                     Scenario.racers Scenario.all_refuse Scenario.prompt
                     Scenario.quiet [Error (js "a"); Error (js "b")]
                     (Error (js "c")) [] eq_refl Hrace)
                  eq_refl
                  (fun E : length (models Scenario.racers) = 1%nat =>
                     match E in _ = n
                           return match n with 1%nat => False | _ => True end
                     with eq_refl => I end))
    as [_ [k [m [now [e' [w' [Hk [Hrun [Hmax Hask]]]]]]]]].
  exists w'. rewrite Hask. do 2 f_equal.
  pose proof (Hmax 0%nat Scenario.A 9%Z (inl (Error (js "a")))
                   eq_refl eq_refl) as Hle.
  destruct k as [|[|[|k]]]; simpl in Hk; [| | | destruct k; discriminate];
    injection Hk as <-; vm_compute in Hrun;
    injection Hrun as Hnow He; subst; first [reflexivity | lia].
Defined.

(** A reply of three spaces is an empty response. *)
Lemma blank_example :
  await_within 20000 (timed_out Scenario.B 20000)
               (Scenario.third_answers Scenario.prompt 1 Scenario.B)
  = Settles 7 (inr (Scenario.says "   "))
  /\ blank (OpenRouter.extractText (Scenario.says "   ")) = true
  /\ OpenRouter.attempt 20000 (Scenario.third_answers Scenario.prompt)
                        1 Scenario.B
     = Settles 7 (inl (empty_response Scenario.B)).
Proof.
  split; [reflexivity|]. split; [reflexivity|].
  exact (proj1 (blank_text_is_a_failure
                  20000 (Scenario.third_answers Scenario.prompt) 1 Scenario.B
                  7 (Scenario.says "   ") eq_refl eq_refl)).
Defined.

End AskFacts.

(** ** [AiMemoryStore] *)

Module MemoryFacts.

Lemma str_eqb_refl (a : jsstring) : Memory.str_eqb a a = true.
Proof.
  induction a as [|x a IH]; simpl; [reflexivity|].
  now rewrite N.eqb_refl, IH.
Qed.

Lemma Permutation_filter {A : Type} (f : A -> bool) (l l' : list A) :
  Permutation l l' -> Permutation (filter f l) (filter f l').
Proof.
  induction 1 as [| x l l' H IH | x y l | l l' l'' H1 IH1 H2 IH2]; simpl.
  - apply perm_nil.
  - destruct (f x); [apply perm_skip|]; exact IH.
  - destruct (f x), (f y); try apply Permutation_refl. apply perm_swap.
  - eapply perm_trans; eassumption.
Qed.

Lemma filter_comm {A : Type} (f g : A -> bool) (l : list A) :
  filter f (filter g l) = filter g (filter f l).
Proof.
  induction l as [|x l IH]; simpl; [reflexivity|].
  destruct (f x) eqn:Ef, (g x) eqn:Eg; simpl; rewrite ?Ef, ?Eg, IH; reflexivity.
Qed.

Lemma filter_all {A : Type} (f : A -> bool) (l : list A) :
  (forall x, In x l -> f x = true) -> filter f l = l.
Proof.
  induction l as [|x l IH]; simpl; intros H; [reflexivity|].
  rewrite (H x (or_introl eq_refl)). f_equal. apply IH. auto.
Qed.

Lemma filter_none {A : Type} (f : A -> bool) (l : list A) :
  (forall x, In x l -> f x = false) -> filter f l = [].
Proof.
  induction l as [|x l IH]; simpl; intros H; [reflexivity|].
  rewrite (H x (or_introl eq_refl)). apply IH. auto.
Qed.

Lemma NoDup_map_filter {A B : Type} (f : A -> B) (g : A -> bool) (l : list A) :
  NoDup (map f l) -> NoDup (map f (filter g l)).
Proof.
  induction l as [|x l IH]; simpl; intros H; [constructor|].
  inversion H as [| y ys Hnot Hrest]; subst.
  destruct (g x); simpl; [constructor|]; auto.
  intros Hin. apply Hnot. apply in_map_iff in Hin as [z [Hz Hin]].
  apply in_map_iff. exists z. split; [exact Hz|].
  apply filter_In in Hin. tauto.
Qed.

Lemma NoDup_map_inj {A B : Type} (f : A -> B) (l : list A) (a b : A) :
  NoDup (map f l) -> In a l -> In b l -> f a = f b -> a = b.
Proof.
  induction l as [|x l IH]; simpl; intros H Ha Hb E; [contradiction|].
  inversion H as [| y ys Hnot Hrest]; subst.
  destruct Ha as [-> | Ha], Hb as [-> | Hb]; auto.
  - exfalso. apply Hnot. rewrite E. now apply in_map.
  - exfalso. apply Hnot. rewrite <- E. now apply in_map.
Qed.

Lemma sorted_app_order {A : Type} (R : A -> A -> Prop) (l1 l2 : list A) :
  StronglySorted R (l1 ++ l2) ->
  forall a b, In a l1 -> In b l2 -> R a b.
Proof.
  induction l1 as [|x l1 IH]; simpl; intros H a b Ha Hb; [contradiction|].
  inversion H as [| y ys Hs Hall]; subst.
  destruct Ha as [<- | Ha].
  - rewrite Forall_forall in Hall. apply Hall, in_or_app. now right.
  - now apply IH.
Qed.

Lemma existsb_eqb_In (n : nat) (ids : list nat) :
  existsb (Nat.eqb n) ids = true <-> In n ids.
Proof.
  rewrite existsb_exists. split.
  - intros [x [Hin Hx]]. apply Nat.eqb_eq in Hx. now subst.
  - intros H. exists n. split; [exact H | apply Nat.eqb_refl].
Qed.

Lemma NoDup_map_app_disjoint {A B : Type} (f : A -> B) (l1 l2 : list A)
  (a b : A) :
  NoDup (map f (l1 ++ l2)) -> In a l1 -> In b l2 -> f a <> f b.
Proof.
  induction l1 as [|x l1 IH]; simpl; intros H Ha Hb E; [contradiction|].
  inversion H as [| y ys Hnot Hrest]; subst.
  destruct Ha as [-> | Ha].
  - apply Hnot. rewrite E. apply in_map, in_or_app. now right.
  - now apply (IH Hrest Ha Hb).
Qed.

Local Opaque Memory.maxEntries.

(** What is in the collection once the trim has run. *)
Lemma trim_collection (chatId scope : jsstring) (w : world) :
  collection (Memory.trimHistory chatId scope w)
  = Memory.deleteMany_in (Memory.stale_ids chatId scope w) (collection w).
Proof.
  unfold Memory.trimHistory.
  destruct (Memory.stale_ids chatId scope w) as [|i ids] eqn:E; simpl.
  - unfold Memory.deleteMany_in. simpl. symmetry. now apply filter_all.
  - reflexivity.
Qed.

Lemma trim_other_fields (chatId scope : jsstring) (w : world) :
  next_id (Memory.trimHistory chatId scope w) = next_id w
  /\ newest_first (Memory.trimHistory chatId scope w) = newest_first w
  /\ console (Memory.trimHistory chatId scope w) = console w
  /\ requests (Memory.trimHistory chatId scope w) = requests w.
Proof.
  unfold Memory.trimHistory.
  destruct (Memory.stale_ids chatId scope w); simpl; auto.
Qed.

Section Trim.

Variable w : world.
Variables chatId scope : jsstring.
Hypothesis Hsort : sorts_newest_first w.
Hypothesis Hids : NoDup (map _id (collection w)).

Let P := Memory.partition chatId scope w.
Let S := newest_first w P.
Let ids := Memory.stale_ids chatId scope w.
Let keep := fun d : doc => negb (existsb (Nat.eqb (_id d)) ids).

Lemma sorted_ids : NoDup (map _id S).
Proof.
  apply (Permutation_NoDup (l := map _id P)).
  - apply Permutation_map, Permutation_sym, Hsort.
  - apply NoDup_map_filter, Hids.
Qed.

Lemma keep_head (d : doc) : In d (firstn Memory.maxEntries S) -> keep d = true.
Proof.
  intros Hd. unfold keep. apply negb_true_iff.
  destruct (existsb (Nat.eqb (_id d)) ids) eqn:E; [| reflexivity].
  exfalso. apply existsb_eqb_In in E. unfold ids, Memory.stale_ids in E.
  fold P in E. fold S in E. apply in_map_iff in E as [d' [Hid Hd']].
  pose proof sorted_ids as Hn.
  rewrite <- (firstn_skipn Memory.maxEntries S) in Hn.
  apply (NoDup_map_app_disjoint _ _ _ d d' Hn Hd Hd'). now symmetry.
Qed.

Lemma keep_tail (d : doc) : In d (skipn Memory.maxEntries S) -> keep d = false.
Proof.
  intros Hd. unfold keep. apply negb_false_iff, existsb_eqb_In.
  unfold ids, Memory.stale_ids. fold P. fold S. now apply in_map.
Qed.

(** After the trim the partition holds the first [maxEntries] documents of
    the newest-first order, and no other. *)
Lemma trim_keeps_newest :
  Permutation (Memory.partition chatId scope (Memory.trimHistory chatId scope w))
              (firstn Memory.maxEntries S).
Proof.
  unfold Memory.partition. rewrite trim_collection.
  unfold Memory.deleteMany_in. fold ids. fold keep.
  rewrite filter_comm. fold (Memory.partition chatId scope w). fold P.
  eapply perm_trans.
  - apply Permutation_filter, Permutation_sym, Hsort.
  - fold S. rewrite <- (firstn_skipn Memory.maxEntries S) at 1.
    rewrite filter_app.
    rewrite (filter_all keep (firstn Memory.maxEntries S) keep_head).
    rewrite (filter_none keep (skipn Memory.maxEntries S) keep_tail).
    rewrite app_nil_r. apply Permutation_refl.
Qed.

(** The documents of the other chats and scopes are left alone. *)
Lemma trim_spares_others :
  filter (fun d => negb (Memory.matches chatId scope d))
         (collection (Memory.trimHistory chatId scope w))
  = filter (fun d => negb (Memory.matches chatId scope d)) (collection w).
Proof.
  rewrite trim_collection. unfold Memory.deleteMany_in. fold ids. fold keep.
  rewrite filter_comm. apply filter_all.
  intros d Hd. apply filter_In in Hd as [Hin Hno].
  unfold keep. apply negb_true_iff.
  destruct (existsb (Nat.eqb (_id d)) ids) eqn:E; [| reflexivity].
  exfalso. apply existsb_eqb_In in E. unfold ids, Memory.stale_ids in E.
  fold P in E. fold S in E. apply in_map_iff in E as [d' [Hid Hd']].
  assert (HdS : In d' S).
  { rewrite <- (firstn_skipn Memory.maxEntries S). apply in_or_app. now right. }
  assert (HdP : In d' P) by (apply (Permutation_in _ (proj1 (Hsort P))); exact HdS).
  unfold P, Memory.partition in HdP. apply filter_In in HdP as [Hin' Hyes].
  assert (d' = d) by (apply (NoDup_map_inj _id (collection w)); assumption).
  subst d'. rewrite Hyes in Hno. discriminate.
Qed.

(** A document that leaves the partition is no newer than one that stays. *)
Lemma trim_drops_oldest (kept gone : doc) :
  In kept (Memory.partition chatId scope (Memory.trimHistory chatId scope w)) ->
  In gone P ->
  ~ In gone (Memory.partition chatId scope (Memory.trimHistory chatId scope w)) ->
  no_older kept gone.
Proof.
  intros Hk Hg Hn.
  assert (Hk' : In kept (firstn Memory.maxEntries S))
    by (apply (Permutation_in _ trim_keeps_newest), Hk).
  assert (HgS : In gone S)
    by (apply (Permutation_in _ (Permutation_sym (proj1 (Hsort P)))), Hg).
  rewrite <- (firstn_skipn Memory.maxEntries S) in HgS.
  apply in_app_or in HgS as [Hh | Ht].
  - exfalso. apply Hn.
    apply (Permutation_in _ (Permutation_sym trim_keeps_newest)), Hh.
  - pose proof (proj2 (Hsort P)) as Hs. fold S in Hs.
    rewrite <- (firstn_skipn Memory.maxEntries S) in Hs.
    apply (sorted_app_order _ _ _ Hs kept gone Hk' Ht).
Qed.

End Trim.

(** What [insertMany] does to the world. *)
Lemma insertMany_spec (chatId scope : jsstring) (msgs : list jsval) :
  forall w : world,
    Memory.insertMany chatId scope msgs w
    = World (console w) (requests w)
            (collection w
             ++ fresh_docs chatId scope msgs (next_id w) (clock w) (dates_read w))
            (next_id w + length msgs) (db_ops w) (clock w)
            (dates_read w + length msgs) (newest_first w) (composing w).
Proof.
  induction msgs as [|msg rest IH]; intros w; simpl.
  - rewrite app_nil_r, !Nat.add_0_r. destruct w; reflexivity.
  - rewrite IH. simpl. rewrite <- app_assoc. simpl.
    rewrite !Nat.add_succ_r. reflexivity.
Qed.

Lemma fresh_ids (chatId scope : jsstring) (msgs : list jsval) clock :
  forall next reads,
    map _id (fresh_docs chatId scope msgs next clock reads)
    = seq next (length msgs).
Proof.
  induction msgs as [|msg rest IH]; intros next reads; simpl;
    [reflexivity | now rewrite IH].
Qed.

Lemma fresh_match (chatId scope : jsstring) (msgs : list jsval) clock :
  forall next reads d,
    In d (fresh_docs chatId scope msgs next clock reads) ->
    Memory.matches chatId scope d = true.
Proof.
  induction msgs as [|msg rest IH]; intros next reads d; simpl;
    [contradiction|].
  intros [<- | H]; [| eapply IH; exact H].
  unfold Memory.matches. simpl. now rewrite !str_eqb_refl.
Qed.

Lemma fresh_source (chatId scope : jsstring) (msgs : list jsval) clock :
  forall next reads d,
    In d (fresh_docs chatId scope msgs next clock reads) ->
    exists msg,
      In msg msgs
      /\ doc_role d = get msg "role" /\ doc_content d = get msg "content".
Proof.
  induction msgs as [|msg rest IH]; intros next reads d; simpl;
    [contradiction|].
  intros [<- | H].
  - exists msg. simpl. auto.
  - destruct (IH _ _ _ H) as [m [Hm Hd]]. exists m. auto.
Qed.

Lemma fresh_length (chatId scope : jsstring) (msgs : list jsval) clock :
  forall next reads,
    length (fresh_docs chatId scope msgs next clock reads) = length msgs.
Proof.
  induction msgs as [|msg rest IH]; intros next reads; simpl;
    [reflexivity | now rewrite IH].
Qed.

Lemma insert_unique (chatId scope : jsstring) (msgs : list jsval) (w : world) :
  unique_ids w -> unique_ids (Memory.insertMany chatId scope msgs w).
Proof.
  intros [Hn Hlt]. rewrite insertMany_spec. unfold unique_ids. simpl.
  rewrite Forall_forall in Hlt. split.
  - rewrite map_app, fresh_ids. apply NoDup_app; [exact Hn | apply seq_NoDup |].
    intros i Hi Hs. apply in_map_iff in Hi as [d [<- Hd]].
    apply in_seq in Hs. specialize (Hlt d Hd). lia.
  - apply Forall_forall. intros d Hd. apply in_app_or in Hd as [Hd | Hd].
    + specialize (Hlt d Hd). lia.
    + assert (Hi : In (_id d) (seq (next_id w) (length msgs))).
      { rewrite <- (fresh_ids chatId scope msgs (clock w) (next_id w)
                              (dates_read w)). now apply in_map. }
      apply in_seq in Hi. lia.
Qed.

Lemma trim_unique (chatId scope : jsstring) (w : world) :
  unique_ids w -> unique_ids (Memory.trimHistory chatId scope w).
Proof.
  intros [Hn Hlt]. unfold unique_ids.
  destruct (trim_other_fields chatId scope w) as [Hnext _].
  rewrite Hnext, trim_collection. unfold Memory.deleteMany_in. split.
  - now apply NoDup_map_filter.
  - rewrite Forall_forall in *. intros d Hd.
    apply filter_In in Hd. apply Hlt. tauto.
Qed.

(** The guards of [appendMessages] passed, this is what it does. *)
Lemma appendMessages_unfold (chatId : jsval) (scope : jsstring)
  (items : list jsval) (w : world) :
  truthy chatId = true -> scope <> [] -> filter Memory.valid items <> [] ->
  Memory.appendMessages chatId scope (JArr items) w
  = Memory.trimHistory (to_String chatId) scope
      (db_note (OpInsertMany (length (filter Memory.valid items)))
               (Memory.insertMany (to_String chatId) scope
                                  (filter Memory.valid items) w)).
Proof.
  intros Hc Hs Hv. unfold Memory.appendMessages.
  destruct items as [|i items]; [simpl in Hv; contradiction|].
  rewrite Hc. simpl negb. destruct scope as [|c scope]; [contradiction|].
  simpl orb. cbv iota.
  destruct (filter Memory.valid (i :: items)); [contradiction | reflexivity].
Qed.

(** C6. When [appendMessages] stores at least one valid turn, then, once
    its trim has run, the partition of that chat and scope holds exactly the
    [maxEntries] = 80 first documents of the newest-first order of what it
    held before together with all the valid turns: at most 80 documents;
    every document that was deleted is no newer than every document that
    stays; and the documents of other chats and scopes are the same as
    before. *)
Theorem appendMessages_keeps_the_most_recent :
  forall (w : world) (chatId : jsval) (scope : jsstring) (items : list jsval),
    sorts_newest_first w ->
    unique_ids w ->
    truthy chatId = true ->
    scope <> [] ->
    filter Memory.valid items <> [] ->
    let id := to_String chatId in
    let added :=
      fresh_docs id scope (filter Memory.valid items)
                 (next_id w) (clock w) (dates_read w) in
    let candidates := Memory.partition id scope w ++ added in
    let w' := Memory.appendMessages chatId scope (JArr items) w in
    Memory.maxEntries = 80%nat
    /\ Permutation (Memory.partition id scope w')
                   (firstn Memory.maxEntries (newest_first w candidates))
    /\ length (Memory.partition id scope w')
       = Nat.min Memory.maxEntries
                 (length (Memory.partition id scope w)
                  + length (filter Memory.valid items))
    /\ (forall kept gone : doc,
           In kept (Memory.partition id scope w') ->
           In gone candidates ->
           ~ In gone (Memory.partition id scope w') ->
           (createdAt gone <= createdAt kept)%Z)
    /\ filter (fun d => negb (Memory.matches id scope d)) (collection w')
       = filter (fun d => negb (Memory.matches id scope d)) (collection w)
    /\ sorts_newest_first w'
    /\ unique_ids w'.
Proof.
  intros w chatId scope items Hsort Hids Hc Hs Hv id added candidates w'.
  set (docs := filter Memory.valid items) in *.
  set (w1 := db_note (OpInsertMany (length docs))
                     (Memory.insertMany id scope docs w)).
  assert (Ew' : w' = Memory.trimHistory id scope w1)
    by (apply appendMessages_unfold; assumption).
  assert (Ecoll : collection w1 = collection w ++ added).
  { unfold w1. simpl. rewrite insertMany_spec. reflexivity. }
  assert (Esort : newest_first w1 = newest_first w).
  { unfold w1. simpl. rewrite insertMany_spec. reflexivity. }
  assert (Hsort1 : sorts_newest_first w1).
  { intros l. rewrite Esort. apply Hsort. }
  assert (Hids1 : unique_ids w1).
  { destruct (insert_unique id scope docs w Hids) as [H1 H2].
    split; assumption. }
  assert (Epart : Memory.partition id scope w1 = candidates).
  { unfold Memory.partition. rewrite Ecoll, filter_app.
    unfold candidates. f_equal. apply filter_all.
    intros d Hd. eapply fresh_match. exact Hd. }
  pose proof (trim_keeps_newest w1 id scope Hsort1 (proj1 Hids1)) as Hperm.
  rewrite Epart, Esort, <- Ew' in Hperm.
  split; [reflexivity|]. split; [exact Hperm|]. split.
  { rewrite (Permutation_length Hperm), length_firstn.
    rewrite (Permutation_length (proj1 (Hsort candidates))).
    unfold candidates, added. now rewrite length_app, fresh_length. }
  split.
  { intros kept gone Hk Hg Hn. rewrite Ew' in Hk, Hn.
    apply (trim_drops_oldest w1 id scope Hsort1 (proj1 Hids1) kept gone Hk);
      [now rewrite Epart | exact Hn]. }
  split.
  { rewrite Ew', (trim_spares_others w1 id scope Hsort1 (proj1 Hids1)).
    rewrite Ecoll, filter_app. rewrite (filter_none _ added).
    - apply app_nil_r.
    - intros d Hd. apply negb_false_iff. eapply fresh_match. exact Hd. }
  split.
  { intros l. rewrite Ew'.
    destruct (trim_other_fields id scope w1) as [_ [E _]]. rewrite E, Esort.
    apply Hsort. }
  rewrite Ew'. apply trim_unique, Hids1.
Qed.

(** The insertion sort of [empty_world] is a sort. *)
Lemma insert_newest_first (x : doc) (l : list doc) :
  StronglySorted no_older l ->
  StronglySorted no_older
    (insert_sorted (fun a b => (createdAt b <=? createdAt a)%Z) x l).
Proof.
  induction 1 as [| h t Hs IH Hall]; simpl.
  - constructor; constructor.
  - destruct (Z.leb_spec (createdAt h) (createdAt x)) as [Hle | Hgt].
    + constructor; [constructor; assumption|].
      constructor; [exact Hle|].
      rewrite Forall_forall in *. intros b Hb.
      specialize (Hall b Hb). unfold no_older in *. lia.
    + constructor; [exact IH|].
      apply (Permutation_Forall
               (Permutation_sym (ChronoFacts.insert_sorted_perm _ x t))).
      constructor; [unfold no_older; lia | exact Hall].
Qed.

Lemma empty_world_sorts (clock : nat -> Z) :
  sorts_newest_first (empty_world clock).
Proof.
  intros l. simpl. split; [apply ChronoFacts.sort_by_perm|].
  induction l as [|x l IH]; simpl; [constructor|].
  now apply insert_newest_first.
Qed.

(** [appendMessages] keeps the database a sorting one with unique
    identifiers, whatever it is given. *)
Lemma appendMessages_sorter chatId scope messages (w : world) :
  newest_first (Memory.appendMessages chatId scope messages w)
  = newest_first w.
Proof.
  unfold Memory.appendMessages.
  destruct messages as [| | | | | | [|i items] |]; try reflexivity.
  destruct (negb (truthy chatId) || negb (truthy (JStr scope)));
    [reflexivity|].
  destruct (filter Memory.valid (i :: items)); [reflexivity|].
  destruct (trim_other_fields (to_String chatId) scope
              (db_note (OpInsertMany (length (j :: l)))
                 (Memory.insertMany (to_String chatId) scope (j :: l) w)))
    as [_ [E _]].
  rewrite E. simpl. now rewrite insertMany_spec.
Qed.

Lemma appendMessages_unique chatId scope messages (w : world) :
  unique_ids w -> unique_ids (Memory.appendMessages chatId scope messages w).
Proof.
  intros H. unfold Memory.appendMessages.
  destruct messages as [| | | | | | [|i items] |]; try exact H.
  destruct (negb (truthy chatId) || negb (truthy (JStr scope))); [exact H|].
  destruct (filter Memory.valid (i :: items)) as [|j l]; [exact H|].
  apply trim_unique.
  destruct (insert_unique (to_String chatId) scope (j :: l) w H) as [H1 H2].
  split; assumption.
Qed.

Lemma after_appends_invariant (n : nat) :
  sorts_newest_first (Scenario.after_appends n)
  /\ unique_ids (Scenario.after_appends n).
Proof.
  unfold Scenario.after_appends.
  assert (H0 : sorts_newest_first Scenario.quiet /\ unique_ids Scenario.quiet).
  { split; [apply empty_world_sorts|]. split; constructor. }
  revert H0. generalize Scenario.quiet. generalize (seq 0 n).
  induction l as [|k l IH]; intros w [Hs Hu]; cbn [fold_left]; [auto|].
  apply IH. split.
  - intros l'. rewrite appendMessages_sorter. apply Hs.
  - now apply appendMessages_unique.
Qed.

(** The example of the specification: after 81 appends of one turn, the
    partition holds 80 turns and the oldest one is gone. *)
Lemma eighty_one_appends :
  sorts_newest_first (Scenario.after_appends 80)
  /\ unique_ids (Scenario.after_appends 80)
  /\ truthy Scenario.chat = true
  /\ Scenario.scope <> []
  /\ filter Memory.valid
            [JObj [("role"%string, JStr (js "user"));
                   ("content"%string, JNum 81)]] <> []
  /\ length (Memory.partition (to_String Scenario.chat) Scenario.scope
                              (Scenario.after_appends 81)) = 80%nat
  /\ map Memory.content
         (snd (Memory.getHistory Scenario.chat Scenario.scope 1000
                                 (Scenario.after_appends 81)))
     = map (fun n => JNum (Z.of_nat n)) (seq 2 80).
Proof.
  destruct (after_appends_invariant 80) as [Hs Hu].
  assert (Hc : truthy Scenario.chat = true) by reflexivity.
  assert (Hsc : Scenario.scope <> []) by discriminate.
  assert (Hv : filter Memory.valid
                 [JObj [("role"%string, JStr (js "user"));
                        ("content"%string, JNum 81)]] <> [])
    by discriminate.
  repeat (split; [assumption|]).
  split; [| vm_compute; reflexivity].
  destruct (appendMessages_keeps_the_most_recent
              (Scenario.after_appends 80) Scenario.chat Scenario.scope
              [JObj [("role"%string, JStr (js "user"));
                     ("content"%string, JNum 81)]]
              Hs Hu Hc Hsc Hv) as [_ [_ [Hlen _]]].
  change (Scenario.after_appends 81)
    with (Memory.appendMessages Scenario.chat Scenario.scope
            (Scenario.one_turn 81) (Scenario.after_appends 80)).
  etransitivity; [exact Hlen|]. vm_compute. reflexivity.
Defined.

(** C7, as the code has it. Every document that [appendMessages] adds to
    the collection carries the role and the content of one and the same
    turn of the list it was given, a turn that is truthy and whose role and
    content are truthy: its content is neither null, nor undefined, nor the
    empty string. A turn that fails this test adds nothing. *)
Theorem appendMessages_stores_truthy_turns :
  forall (chatId : jsval) (scope : jsstring) (messages : jsval) (w : world)
         (d : doc),
    In d (collection (Memory.appendMessages chatId scope messages w)) ->
    In d (collection w)
    \/ exists (items : list jsval) (msg : jsval),
        messages = JArr items
        /\ In msg items
        /\ Memory.valid msg = true
        /\ doc_role d = get msg "role"
        /\ doc_content d = get msg "content"
        /\ truthy (doc_role d) = true
        /\ truthy (doc_content d) = true
        /\ doc_content d <> JNull
        /\ doc_content d <> JUndefined
        /\ doc_content d <> JStr [].
Proof.
  intros chatId scope messages w d. unfold Memory.appendMessages.
  destruct messages as [| | | | | | [|i items] |]; try (intros H; now left).
  destruct (negb (truthy chatId) || negb (truthy (JStr scope)));
    [intros H; now left|].
  destruct (filter Memory.valid (i :: items)) as [|j l] eqn:E;
    [intros H; now left|].
  rewrite trim_collection. unfold Memory.deleteMany_in.
  intros H. apply filter_In in H as [H _].
  unfold db_note in H. cbn [collection] in H.
  rewrite insertMany_spec in H. cbn [collection] in H.
  apply in_app_or in H as [H | H]; [now left | right].
  apply fresh_source in H as [msg [Hmsg [Hr Hc]]].
  rewrite <- E in Hmsg. apply filter_In in Hmsg as [Hin Hvalid].
  exists (i :: items), msg.
  pose proof Hvalid as Hv. unfold Memory.valid in Hv.
  apply andb_true_iff in Hv as [Hv Hcontent].
  apply andb_true_iff in Hv as [_ Hrole].
  rewrite <- Hr in Hrole. rewrite <- Hc in Hcontent.
  repeat (split; [assumption || reflexivity|]).
  repeat split; intros Hbad; rewrite Hbad in Hcontent; discriminate.
Qed.

(** A turn with text is stored; a turn without content and a null are not. *)
Lemma mixed_turns_example :
  In (Doc 0 (js "chat-1") (js "default") (JStr (js "user")) (JStr (js "hi")) 0)
     (collection (Memory.appendMessages Scenario.chat Scenario.scope
                                        Scenario.mixed_turns Scenario.quiet))
  /\ collection (Memory.appendMessages Scenario.chat Scenario.scope
                                       Scenario.mixed_turns Scenario.quiet)
     = [Doc 0 (js "chat-1") (js "default") (JStr (js "user"))
            (JStr (js "hi")) 0]
  /\ truthy (JStr (js "hi")) = true.
Proof.
  assert (H : In (Doc 0 (js "chat-1") (js "default") (JStr (js "user"))
                      (JStr (js "hi")) 0)
                 (collection (Memory.appendMessages Scenario.chat Scenario.scope
                                Scenario.mixed_turns Scenario.quiet)))
    by (left; reflexivity).
  split; [exact H|]. split; [reflexivity|].
  destruct (appendMessages_stores_truthy_turns
              Scenario.chat Scenario.scope Scenario.mixed_turns Scenario.quiet
              _ H) as [Hold | [items [msg [_ [_ [_ [_ [_ [_ [Ht _]]]]]]]]]].
  - destruct Hold.
  - exact Ht.
Defined.

(** C7, as the specification has it, fails: a turn whose content is the
    empty sequence of parts is stored, with that empty content. *)
Lemma hollow_turn_is_stored :
  collection (Memory.appendMessages Scenario.chat Scenario.scope
                                    (JArr [Scenario.hollow_turn]) Scenario.quiet)
  = [Doc 0 (js "chat-1") (js "default") (JStr (js "user")) (JArr []) 0]
  /\ empty_content (JArr []) = true.
Proof. split; reflexivity. Qed.

End MemoryFacts.

(** ** The history-bound classes *)

Module HistoryFacts.

(** C8. Called with a falsy [chatId], the [ask] of each of the four
    history-bound classes throws [chatId is required for <class>] and
    leaves the world as it was: the store has not been read, no request
    has been sent, nothing has been printed or stored. *)
Theorem missing_chatId_fails_fast :
  forall chatId : jsval,
    truthy chatId = false ->
    (forall net format forHistory (this : History.bound client)
            system user attachments (w : world),
        AiWithHistory.ask net format forHistory this chatId
                          system user attachments w
        = (this, w,
           Thrown (Error (js "chatId is required for AiWithHistory"))))
    /\ (forall net format forHistory (this : History.bound client)
               system user attachments (w : world),
           GroqAiWithHistory.ask net format forHistory this chatId
                                 system user attachments w
           = (this, w,
              Thrown (Error (js "chatId is required for GroqAiWithHistory"))))
    /\ (forall net format forHistory (this : History.bound client)
               system user attachments (w : world),
           MistralAiWithHistory.ask net format forHistory this chatId
                                    system user attachments w
           = (this, w,
              Thrown (Error (js "chatId is required for MistralAiWithHistory"))))
    /\ (forall nets format forHistory
               (this : History.bound Multi.MultiProviderAi)
               system user attachments (w : world),
           MultiProviderAiWithHistory.ask nets format forHistory this chatId
                                          system user attachments w
           = (this, w,
              Thrown (Error (js "chatId is required for MultiProviderAiWithHistory")))).
Proof.
  intros chatId H.
  repeat split; intros;
    unfold AiWithHistory.ask, GroqAiWithHistory.ask, MistralAiWithHistory.ask,
      MultiProviderAiWithHistory.ask, History.ask;
    rewrite H; reflexivity.
Qed.

(** A chat identified by the number 0 is refused, and nothing has happened. *)
Lemma chat_zero_example :
  truthy (JNum 0) = false
  /\ AiWithHistory.ask Scenario.third_answers Scenario.stored_content
                       Scenario.user_content Scenario.remembering (JNum 0)
                       JUndefined (JStr (js "hello")) JUndefined Scenario.quiet
     = (Scenario.remembering, Scenario.quiet,
        Thrown (Error (js "chatId is required for AiWithHistory")))
  /\ requests Scenario.quiet = [] /\ db_ops Scenario.quiet = [].
Proof.
  split; [reflexivity|]. split; [| split; reflexivity].
  exact (proj1 (missing_chatId_fails_fast (JNum 0) eq_refl)
               Scenario.third_answers Scenario.stored_content
               Scenario.user_content Scenario.remembering
               JUndefined (JStr (js "hello")) JUndefined Scenario.quiet).
Defined.

End HistoryFacts.

(** ** [MultiProviderAi.classify] *)

Module ClassifyFacts.

Lemma mistral_sends_one (c : client) moderate inputs o (w : world) :
  Mistral.no_inputs inputs = false ->
  requests (fst (Mistral.classify_timed c moderate inputs o w))
  = requests w ++ [moderation_request o].
Proof.
  intros H. unfold Mistral.classify_timed. rewrite H.
  destruct (await_within _ _ _) as [t [e | resp] |]; try reflexivity.
  destruct (Mistral.moderation _ resp); reflexivity.
Qed.

Lemma capable_is_mistral (this : Multi.MultiProviderAi) (p : Multi.provider) :
  Multi.can_classify this p = true ->
  p = Multi.mistral
  /\ exists c, Multi.client_of p (Multi.clients this) = Some c.
Proof.
  unfold Multi.can_classify.
  destruct (Multi.client_of p (Multi.clients this)) as [c|]; [| discriminate].
  destruct p; try discriminate. intros _. split; [reflexivity | now exists c].
Qed.

(** C9, as the code has it. [classify] is never raced and never falls
    back: whatever the configuration and its flag [firstToFinish], it
    sends at most one request. When [inputs] is null, undefined or an
    empty array, or when no configured provider has a [classify], it
    throws and no provider is called. Otherwise exactly one request is
    sent, by the first provider in order that has a [classify], and what
    that one call gives, a failure included, is what [classify] gives. *)
Theorem classify_calls_at_most_one_provider :
  forall (this : Multi.MultiProviderAi) (moderate : jsval -> jsval -> reply)
         (inputs : jsval) (o : Mistral.classify_options) (w : world),
    let capable :=
      filter (Multi.can_classify this) (Multi.getOrderedProviders this) in
    let r := Multi.classify_timed this moderate inputs o w in
    (exists sent,
        requests (snd (fst r)) = requests w ++ sent /\ (length sent <= 1)%nat)
    /\ (Mistral.no_inputs inputs = true ->
        r = (this, w, Settles 0 (inl Mistral.inputs_required)))
    /\ (Mistral.no_inputs inputs = false -> capable = [] ->
        r = (this, w, Settles 0 (inl Multi.no_classifier)))
    /\ (Mistral.no_inputs inputs = false ->
        forall provider others, capable = provider :: others ->
        exists c,
          Multi.client_of provider (Multi.clients this) = Some c
          /\ requests (snd (fst r)) = requests w ++ [moderation_request o]
          /\ snd (fst r) = fst (Mistral.classify_timed c moderate inputs o w)
          /\ snd r = snd (Mistral.classify_timed c moderate inputs o w)).
Proof.
  intros this moderate inputs o w capable r.
  assert (Hnone : Mistral.no_inputs inputs = true ->
                  r = (this, w, Settles 0 (inl Mistral.inputs_required))).
  { intros H. unfold r, Multi.classify_timed. now rewrite H. }
  assert (Hempty : Mistral.no_inputs inputs = false -> capable = [] ->
                   r = (this, w, Settles 0 (inl Multi.no_classifier))).
  { intros H E. unfold r, Multi.classify_timed. rewrite H.
    fold capable. now rewrite E. }
  assert (Hone : Mistral.no_inputs inputs = false ->
    forall provider others, capable = provider :: others ->
    exists c,
      Multi.client_of provider (Multi.clients this) = Some c
      /\ requests (snd (fst r)) = requests w ++ [moderation_request o]
      /\ snd (fst r) = fst (Mistral.classify_timed c moderate inputs o w)
      /\ snd r = snd (Mistral.classify_timed c moderate inputs o w)).
  { intros H provider others E.
    assert (Hcap : Multi.can_classify this provider = true).
    { assert (Hin : In provider capable) by (rewrite E; now left).
      apply filter_In in Hin. tauto. }
    destruct (capable_is_mistral this provider Hcap) as [-> [c Hc]].
    exists c. split; [exact Hc|].
    assert (Er : r = let '(w1, result) :=
                       Mistral.classify_timed c moderate inputs o w in
                     match result with
                     | Settles _ (inr _) =>
                         (Multi.with_lastUsed (Multi.used Multi.mistral c) this,
                          w1, result)
                     | _ => (this, w1, result)
                     end).
    { unfold r, Multi.classify_timed. rewrite H. fold capable.
      rewrite E, Hc. reflexivity. }
    rewrite Er. rewrite <- (mistral_sends_one c moderate inputs o w H).
    destruct (Mistral.classify_timed c moderate inputs o w)
      as [w1 [t [e | res] |]]; simpl; auto. }
  split; [| split; [exact Hnone | split; [exact Hempty | exact Hone]]].
  destruct (Mistral.no_inputs inputs) eqn:Hin.
  - exists []. rewrite (Hnone eq_refl). simpl. rewrite app_nil_r. auto.
  - destruct capable as [|provider others] eqn:E.
    + exists []. rewrite (Hempty eq_refl eq_refl). simpl.
      rewrite app_nil_r. auto.
    + destruct (Hone eq_refl provider others eq_refl) as [c [_ [Hreq _]]].
      exists [moderation_request o]. auto.
Qed.

(** With Groq and Mistral configured and the racing flag set, one request
    goes to Mistral's moderation endpoint. *)
Lemma moderator_example :
  Multi.new Scenario.moderator_keys JUndefined JUndefined None (JBool true)
  = inr Scenario.moderator
  /\ Mistral.no_inputs (JStr (js "some text")) = false
  /\ filter (Multi.can_classify Scenario.moderator)
            (Multi.getOrderedProviders Scenario.moderator) = [Multi.mistral]
  /\ requests (snd (fst (Multi.classify_timed
                           Scenario.moderator Scenario.flags_nothing
                           (JStr (js "some text")) Scenario.moderation_defaults
                           Scenario.quiet)))
     = [Request "mistral:moderation" (JStr (js "mistral-moderation-latest"))].
Proof.
  split; [reflexivity|]. split; [reflexivity|]. split; [reflexivity|].
  destruct (classify_calls_at_most_one_provider
              Scenario.moderator Scenario.flags_nothing
              (JStr (js "some text")) Scenario.moderation_defaults
              Scenario.quiet) as [_ [_ [_ H]]].
  destruct (H eq_refl Multi.mistral [] eq_refl) as [c [_ [Hreq _]]].
  exact Hreq.
Defined.

(** C9, as the specification has it, fails: a call of [classify] with an
    empty array of inputs calls no provider at all. *)
Lemma classify_nothing_calls_nobody :
  Multi.new Scenario.moderator_keys JUndefined JUndefined None (JBool true)
  = inr Scenario.moderator
  /\ Multi.classify Scenario.moderator Scenario.flags_nothing (JArr [])
                    Scenario.moderation_defaults Scenario.quiet
     = (Scenario.moderator, Scenario.quiet, Thrown Mistral.inputs_required)
  /\ requests Scenario.quiet = [].
Proof. repeat split; reflexivity. Qed.

End ClassifyFacts.

(** ** Reading, clearing and filling the history *)

Module StoreFacts.





Lemma turns_of_docs (docs : list doc) :
  filter (fun entry => truthy (Memory.role entry) && truthy (Memory.content entry))
         (map (fun d => Memory.Turn (doc_role d) (doc_content d)) docs)
  = map turn_of (filter readable docs).
Proof.
  induction docs as [|d docs IH]; simpl; [reflexivity|].
  unfold readable at 1. destruct (truthy (doc_role d) && truthy (doc_content d));
    simpl; now rewrite IH.
Qed.

Lemma getHistory_unfold (chatId : jsval) (scope : jsstring) (limit : nat)
  (w : world) :
  truthy chatId = true -> scope <> [] ->
  Memory.getHistory chatId scope limit w
  = (db_note (OpFind (to_String chatId) scope limit) w,
     map turn_of
         (filter readable
            (rev (Memory.limited limit
                    (newest_first w
                       (Memory.partition (to_String chatId) scope w)))))).
Proof.
  intros Hc Hs. unfold Memory.getHistory. rewrite Hc.
  destruct scope as [|c scope]; [contradiction|]. simpl negb. simpl orb.
  cbv iota. now rewrite turns_of_docs.
Qed.



Lemma sorted_nil (w : world) : sorts_newest_first w -> newest_first w [] = [].
Proof.
  intros H. destruct (H []) as [Hp _].
  now apply Permutation_sym, Permutation_nil in Hp.
Qed.

Lemma sorted_one (w : world) (d : doc) :
  sorts_newest_first w -> newest_first w [d] = [d].
Proof.
  intros H. destruct (H [d]) as [Hp _].
  now apply Permutation_sym, Permutation_length_1_inv in Hp.
Qed.

Lemma clear_partition (chatId scope : jsstring) (docs : list doc) :
  filter (Memory.matches chatId scope)
         (filter (fun d => negb (Memory.matches chatId scope d)) docs) = [].
Proof.
  apply MemoryFacts.filter_none. intros d Hd.
  apply filter_In in Hd as [_ Hd]. now apply negb_true_iff.
Qed.

Lemma filter_idem {A : Type} (f : A -> bool) (l : list A) :
  filter f (filter f l) = filter f l.
Proof.
  apply MemoryFacts.filter_all. intros x Hx. apply filter_In in Hx. tauto.
Qed.

(** X2. After [clearHistory] of a chat in a scope, a read of that chat and
    scope returns no turn, whatever the limit; the documents of the other
    chats and scopes are all still there, in the same order. *)
Theorem clearHistory_forgets_one_chat :
  forall (w : world) (chatId : jsval) (scope : jsstring) (limit : nat),
    sorts_newest_first w ->
    truthy chatId = true ->
    scope <> [] ->
    let w' := Memory.clearHistory chatId scope w in
    Memory.partition (to_String chatId) scope w' = []
    /\ snd (Memory.getHistory chatId scope limit w') = []
    /\ collection w'
       = filter (fun d => negb (Memory.matches (to_String chatId) scope d))
                (collection w).
Proof.
  intros w chatId scope limit Hsort Hc Hs w'.
  assert (Ew' : collection w'
                = filter (fun d => negb (Memory.matches (to_String chatId) scope d))
                         (collection w)).
  { unfold w', Memory.clearHistory. rewrite Hc.
    destruct scope; [contradiction | reflexivity]. }
  assert (Es : newest_first w' = newest_first w).
  { unfold w', Memory.clearHistory. rewrite Hc.
    destruct scope; [contradiction | reflexivity]. }
  assert (Ep : Memory.partition (to_String chatId) scope w' = []).
  { unfold Memory.partition. rewrite Ew'. apply clear_partition. }
  split; [exact Ep|]. split; [| exact Ew'].
  rewrite getHistory_unfold by assumption. simpl snd.
  rewrite Ep, Es, (sorted_nil w Hsort).
  destruct limit; reflexivity.
Qed.

(** Three turns are stored, the chat is cleared, and a read returns none. *)
Lemma clear_three_turns :
  sorts_newest_first (Scenario.after_appends 3)
  /\ truthy Scenario.chat = true
  /\ Scenario.scope <> []
  /\ length (collection (Scenario.after_appends 3)) = 3%nat
  /\ snd (Memory.getHistory Scenario.chat Scenario.scope 10
            (Memory.clearHistory Scenario.chat Scenario.scope
                                 (Scenario.after_appends 3))) = [].
Proof.
  pose proof (proj1 (MemoryFacts.after_appends_invariant 3)) as Hs.
  split; [exact Hs|]. split; [reflexivity|]. split; [discriminate|].
  split; [reflexivity|].
  exact (proj1 (proj2 (clearHistory_forgets_one_chat
                         (Scenario.after_appends 3) Scenario.chat
                         Scenario.scope 10 Hs eq_refl
                         ltac:(discriminate)))).
Defined.

Local Opaque Memory.maxEntries.

Lemma maxEntries_is_80 : Memory.maxEntries = 80%nat.
Proof. reflexivity. Qed.

Lemma appendMessages_fits :
  forall (w : world) (chatId : jsval) (scope : jsstring) (items : list jsval),
    sorts_newest_first w ->
    truthy chatId = true ->
    scope <> [] ->
    filter Memory.valid items <> [] ->
    (length (Memory.partition (to_String chatId) scope w)
     + length (filter Memory.valid items) <= 80)%nat ->
    collection (Memory.appendMessages chatId scope (JArr items) w)
    = collection w
      ++ fresh_docs (to_String chatId) scope (filter Memory.valid items)
                    (next_id w) (clock w) (dates_read w).
Proof.
  intros w chatId scope items Hsort Hc Hs Hv Hfit.
  rewrite MemoryFacts.appendMessages_unfold by assumption.
  rewrite MemoryFacts.trim_collection.
  set (id := to_String chatId) in *.
  set (docs := filter Memory.valid items) in *.
  set (w1 := db_note (OpInsertMany (length docs))
                     (Memory.insertMany id scope docs w)).
  assert (Ecoll : collection w1
                  = collection w
                    ++ fresh_docs id scope docs (next_id w) (clock w)
                                  (dates_read w)).
  { unfold w1. simpl. now rewrite MemoryFacts.insertMany_spec. }
  assert (Esort : newest_first w1 = newest_first w).
  { unfold w1. simpl. now rewrite MemoryFacts.insertMany_spec. }
  assert (Estale : Memory.stale_ids id scope w1 = []).
  { unfold Memory.stale_ids. rewrite Esort.
    rewrite skipn_all2; [reflexivity|].
    rewrite (Permutation_length (proj1 (Hsort _))).
    unfold Memory.partition. rewrite Ecoll, filter_app, length_app.
    rewrite maxEntries_is_80.
    fold (Memory.partition id scope w).
    pose proof (filter_length_le (Memory.matches id scope)
                  (fresh_docs id scope docs (next_id w) (clock w)
                              (dates_read w))) as Hle.
    rewrite MemoryFacts.fresh_length in Hle. lia. }
  rewrite Estale, Ecoll. unfold Memory.deleteMany_in. simpl.
  now apply MemoryFacts.filter_all.
Qed.

(** X3. While the partition stays within [maxEntries] = 80 documents,
    [appendMessages] deletes nothing: the collection afterwards is the
    collection before followed by one new document for each valid turn, in
    the order of the turns. *)
Theorem appendMessages_evicts_nothing_below_the_ceiling :
  forall (w : world) (chatId : jsval) (scope : jsstring) (items : list jsval),
    sorts_newest_first w ->
    truthy chatId = true ->
    scope <> [] ->
    filter Memory.valid items <> [] ->
    (length (Memory.partition (to_String chatId) scope w)
     + length (filter Memory.valid items) <= 80)%nat ->
    collection (Memory.appendMessages chatId scope (JArr items) w)
    = collection w
      ++ fresh_docs (to_String chatId) scope (filter Memory.valid items)
                    (next_id w) (clock w) (dates_read w).
Proof. exact appendMessages_fits. Qed.

(** A fourth turn joins three: four documents, the new one last. *)
Lemma fourth_turn_example :
  sorts_newest_first (Scenario.after_appends 3)
  /\ truthy Scenario.chat = true
  /\ Scenario.scope <> []
  /\ filter Memory.valid
            [JObj [("role"%string, JStr (js "user"));
                   ("content"%string, JNum 4)]] <> []
  /\ (length (Memory.partition (to_String Scenario.chat) Scenario.scope
                               (Scenario.after_appends 3))
      + length (filter Memory.valid
                  [JObj [("role"%string, JStr (js "user"));
                         ("content"%string, JNum 4)]]) <= 80)%nat
  /\ map doc_content
         (collection (Memory.appendMessages Scenario.chat Scenario.scope
                        (Scenario.one_turn 4) (Scenario.after_appends 3)))
     = [JNum 1; JNum 2; JNum 3; JNum 4].
Proof.
  pose proof (proj1 (MemoryFacts.after_appends_invariant 3)) as Hs.
  assert (Hv : filter Memory.valid
                 [JObj [("role"%string, JStr (js "user"));
                        ("content"%string, JNum 4)]] <> []) by discriminate.
  assert (Hfit : (length (Memory.partition (to_String Scenario.chat)
                            Scenario.scope (Scenario.after_appends 3))
                  + length (filter Memory.valid
                              [JObj [("role"%string, JStr (js "user"));
                                     ("content"%string, JNum 4)]]) <= 80)%nat)
    by (vm_compute; lia).
  split; [exact Hs|]. split; [reflexivity|]. split; [discriminate|].
  split; [exact Hv|]. split; [exact Hfit|].
  change (Scenario.one_turn 4)
    with (JArr [JObj [("role"%string, JStr (js "user"));
                      ("content"%string, JNum 4)]]).
  rewrite (appendMessages_evicts_nothing_below_the_ceiling
             (Scenario.after_appends 3) Scenario.chat Scenario.scope _
             Hs eq_refl ltac:(discriminate) Hv Hfit).
  reflexivity.
Defined.

(** X4. A valid turn appended to a chat that holds nothing is what a read
    of that chat then returns, alone and unchanged, whatever the limit and
    whatever invalid turns came with it. *)
Theorem first_turn_round_trip :
  forall (w : world) (chatId : jsval) (scope : jsstring)
         (items : list jsval) (msg : jsval) (limit : nat),
    sorts_newest_first w ->
    truthy chatId = true ->
    scope <> [] ->
    Memory.partition (to_String chatId) scope w = [] ->
    filter Memory.valid items = [msg] ->
    snd (Memory.getHistory chatId scope limit
           (Memory.appendMessages chatId scope (JArr items) w))
    = [Memory.Turn (get msg "role") (get msg "content")].
Proof.
  intros w chatId scope items msg limit Hsort Hc Hs Hempty Hone.
  assert (Hmsg : Memory.valid msg = true).
  { assert (Hin : In msg (filter Memory.valid items)) by (rewrite Hone; now left).
    apply filter_In in Hin. tauto. }
  assert (Hcoll := appendMessages_fits w chatId scope items Hsort Hc Hs).
  rewrite Hone, Hempty in Hcoll.
  specialize (Hcoll ltac:(discriminate) ltac:(simpl; lia)).
  cbn [fresh_docs] in Hcoll.
  set (w' := Memory.appendMessages chatId scope (JArr items) w) in *.
  assert (Es : sorts_newest_first w').
  { intros l. unfold w'. rewrite MemoryFacts.appendMessages_sorter. apply Hsort. }
  rewrite getHistory_unfold by assumption. simpl snd.
  assert (Ep : Memory.partition (to_String chatId) scope w'
               = [Doc (next_id w) (to_String chatId) scope (get msg "role")
                      (get msg "content") (clock w (dates_read w))]).
  { unfold Memory.partition. rewrite Hcoll, filter_app.
    fold (Memory.partition (to_String chatId) scope w). rewrite Hempty.
    simpl. unfold Memory.matches. simpl.
    now rewrite !MemoryFacts.str_eqb_refl. }
  rewrite Ep, (sorted_one w' _ Es).
  unfold Memory.valid in Hmsg.
  apply andb_true_iff in Hmsg as [Hm Hcontent].
  apply andb_true_iff in Hm as [_ Hrole].
  assert (El : forall d : doc, Memory.limited limit [d] = [d])
    by (intros d; destruct limit as [|k]; [reflexivity|];
        simpl; now rewrite firstn_nil).
  rewrite El. simpl. unfold readable. simpl. rewrite Hrole, Hcontent.
  reflexivity.
Qed.

(** The example of the documentation: one turn ["hi"] is appended (with a
    turn without content and a null), and a read with limit 10 returns it. *)
Lemma round_trip_example :
  sorts_newest_first Scenario.quiet
  /\ truthy Scenario.chat = true
  /\ Scenario.scope <> []
  /\ Memory.partition (to_String Scenario.chat) Scenario.scope Scenario.quiet = []
  /\ snd (Memory.getHistory Scenario.chat Scenario.scope 10
            (Memory.appendMessages Scenario.chat Scenario.scope
                                   Scenario.mixed_turns Scenario.quiet))
     = [Memory.Turn (JStr (js "user")) (JStr (js "hi"))].
Proof.
  pose proof (MemoryFacts.empty_world_sorts (fun n => Z.of_nat n)) as Hs.
  split; [exact Hs|]. split; [reflexivity|]. split; [discriminate|].
  split; [reflexivity|].
  exact (first_turn_round_trip
           Scenario.quiet Scenario.chat Scenario.scope
           [JObj [("role"%string, JStr (js "user"));
                  ("content"%string, JStr (js "hi"))];
            JObj [("role"%string, JStr (js "assistant"))];
            JNull]
           (JObj [("role"%string, JStr (js "user"));
                  ("content"%string, JStr (js "hi"))])
           10 Hs eq_refl ltac:(discriminate) eq_refl eq_refl).
Defined.

(** X5. A chat identifier that is falsy (0, the empty string, null,
    undefined, NaN) or an empty scope has no memory: [appendMessages] and
    [clearHistory] leave the world as it is, without a word, and
    [getHistory] returns no turn without asking the database. *)
Theorem falsy_chat_has_no_memory :
  forall (chatId : jsval) (scope : jsstring),
    truthy chatId = false \/ scope = [] ->
    forall (messages : jsval) (limit : nat) (w : world),
      Memory.appendMessages chatId scope messages w = w
      /\ Memory.getHistory chatId scope limit w = (w, [])
      /\ Memory.clearHistory chatId scope w = w.
Proof.
  intros chatId scope H messages limit w.
  assert (G : negb (truthy chatId) || negb (truthy (JStr scope)) = true).
  { destruct H as [H | H]; [now rewrite H | subst; apply orb_true_r]. }
  unfold Memory.appendMessages, Memory.getHistory, Memory.clearHistory.
  rewrite G.
  split; [| split; reflexivity].
  destruct messages as [| | | | | | [|i items] |]; reflexivity.
Qed.

(** What is appended under the identifier 0 is not stored. *)
Lemma chat_zero_is_dropped :
  (truthy (JNum 0) = false \/ Scenario.scope = [])
  /\ Memory.appendMessages (JNum 0) Scenario.scope Scenario.mixed_turns
                           Scenario.quiet = Scenario.quiet.
Proof.
  split; [left; reflexivity|].
  exact (proj1 (falsy_chat_has_no_memory (JNum 0) Scenario.scope
                  (or_introl eq_refl) Scenario.mixed_turns 0 Scenario.quiet)).
Defined.

Lemma decimal_not_empty (n : Z) : to_String (JNum n) <> [].
Proof.
  simpl. destruct (Z.to_int n) as [d | d]; [destruct d|]; discriminate.
Qed.

(** X6. A chat identified by a number, a safe integer other than zero,
    and the chat identified by the decimal numeral of that number are one
    and the same chat: appending, reading and clearing do the same under
    both identifiers. *)
Theorem number_and_its_string_name_one_chat :
  forall (n : Z) (scope : jsstring) (messages : jsval) (limit : nat)
         (w : world),
    safe_integer n ->
    n <> 0%Z ->
    let name := JStr (to_String (JNum n)) in
    Memory.appendMessages (JNum n) scope messages w
    = Memory.appendMessages name scope messages w
    /\ Memory.getHistory (JNum n) scope limit w
       = Memory.getHistory name scope limit w
    /\ Memory.clearHistory (JNum n) scope w = Memory.clearHistory name scope w.
Proof.
  intros n scope messages limit w _ Hn name.
  assert (H1 : truthy (JNum n) = true).
  { simpl. now destruct (Z.eqb_spec n 0). }
  assert (H2 : truthy name = true).
  { unfold name. pose proof (decimal_not_empty n) as H.
    unfold truthy. destruct (to_String (JNum n)); [contradiction | reflexivity]. }
  assert (H3 : to_String name = to_String (JNum n)) by reflexivity.
  unfold Memory.appendMessages, Memory.getHistory, Memory.clearHistory,
    Memory.cleared_line.
  rewrite H1, H2, H3. auto.
Qed.

(** The chat 42 and the chat "42". *)
Lemma chat_42_example :
  safe_integer 42
  /\ 42%Z <> 0%Z
  /\ Memory.getHistory (JNum 42) Scenario.scope 10 Scenario.quiet
     = Memory.getHistory (JStr (js "42")) Scenario.scope 10 Scenario.quiet.
Proof.
  assert (Hsafe : safe_integer 42) by (unfold safe_integer; lia).
  split; [exact Hsafe|]. split; [discriminate|].
  exact (proj1 (proj2 (number_and_its_string_name_one_chat
                         42 Scenario.scope JNull 10 Scenario.quiet
                         Hsafe ltac:(discriminate)))).
Defined.

End StoreFacts.

(** ** What the two strategies do in every case *)

Module StrategyFacts.

Lemma failing_nth run (k : nat) (ms : list jsval) (errs : list error) :
  failing run k ms errs ->
  forall i m, nth_error ms i = Some m ->
  exists t e, run (k + i)%nat m = Settles t (inl e).
Proof.
  induction 1 as [k | k m0 ms t e errs Hrun Hrest IH]; intros i m Hi.
  - destruct i; discriminate.
  - destruct i as [|i]; simpl in Hi.
    + injection Hi as <-. rewrite Nat.add_0_r. eauto.
    + destruct (IH i m Hi) as [t' [e' H']]. exists t', e'.
      now rewrite Nat.add_succ_r.
Qed.

(** A list of completions is all failures, or has a first success. *)
Lemma first_success_split (evs : list completion) :
  forallb is_failure evs = true
  \/ exists before now m text later,
      evs = before ++ (now, (m, inr text)) :: later
      /\ forallb is_failure before = true.
Proof.
  induction evs as [|[now [m [e | text]]] evs IH].
  - now left.
  - destruct IH as [H | [before [now' [m' [text [later [E Hb]]]]]]].
    + left. exact H.
    + right. exists ((now, (m, inl e)) :: before), now', m', text, later.
      split; [now rewrite E | exact Hb].
  - right. exists [], now, m, text, evs. auto.
Qed.

Section Strategies.

Variable run : nat -> jsval -> settlement jsstring.
Variable api : string.
Variable failure_line : jsval -> error -> log_line.
Variable all_failed : error.

Local Abbreviation sequential := (sequential run api failure_line all_failed).
Local Abbreviation completions := (completions failure_line all_failed).

(** Sequential mode only prints and sends: one request to each model of a
    prefix of the roster, at most one line for each. *)
Lemma sequential_effects (models : list jsval) :
  forall (k : nat) (lastErr : option error) (elapsed : Z) (c : ctx),
  exists (n : nat) (lines : list log_line),
    (n <= length models)%nat
    /\ (length lines <= n)%nat
    /\ env (fst (sequential k models lastErr elapsed c))
       = after_attempts lines (map (Request api) (firstn n models)) (env c).
Proof.
  induction models as [|m models IH]; intros k lastErr elapsed c.
  - exists 0%nat, []. simpl. rewrite EngineFacts.after_nothing. auto.
  - simpl. destruct (run k m) as [t [e | text] |].
    + destruct (IH (S k) (Some e) (elapsed + t)%Z
                   (caught failure_line m e (started api m c)))
        as [n [lines [Hn [Hl Heq]]]].
      exists (S n), (failure_line m e :: lines).
      split; [lia|]. split; [simpl; lia|]. rewrite Heq. simpl.
      unfold after_attempts. simpl. now rewrite <- !app_assoc.
    + exists 1%nat, []. split; [lia|]. split; [simpl; lia|].
      simpl. unfold after_attempts, send. simpl. now rewrite app_nil_r.
    + exists 1%nat, []. split; [lia|]. split; [simpl; lia|].
      simpl. unfold after_attempts, send. simpl. now rewrite app_nil_r.
Qed.

(** The three ways sequential mode can end. *)
Lemma sequential_outcome (models : list jsval) :
  forall (k : nat) (lastErr : option error) (elapsed : Z) (c : ctx),
    match snd (sequential k models lastErr elapsed c) with
    | Settles _ (inr text) =>
        exists i t,
          nth_error models i
          = Some (Engine.lastUsedModel (fst (sequential k models lastErr elapsed c)))
          /\ run (k + i)%nat
                 (Engine.lastUsedModel (fst (sequential k models lastErr elapsed c)))
             = Settles t (inr text)
    | Settles _ (inl e) =>
        exists errs,
          failing run k models errs
          /\ e = last_or (last_error errs lastErr) all_failed
          /\ Engine.lastUsedModel (fst (sequential k models lastErr elapsed c))
             = Engine.lastUsedModel c
    | Hangs =>
        exists i m, nth_error models i = Some m /\ run (k + i)%nat m = Hangs
    end.
Proof.
  induction models as [|m models IH]; intros k lastErr elapsed c.
  - simpl. exists []. split; [constructor | auto].
  - simpl. destruct (run k m) as [t [e | text] |] eqn:E.
    + specialize (IH (S k) (Some e) (elapsed + t)%Z
                     (caught failure_line m e (started api m c))).
      destruct (snd (sequential (S k) models (Some e) (elapsed + t)%Z
                       (caught failure_line m e (started api m c))))
        as [t' [e' | text'] |].
      * destruct IH as [errs [Hf [He Hl]]]. exists (e :: errs).
        split; [econstructor; eassumption|]. split; [exact He | exact Hl].
      * destruct IH as [i [t'' [Hi Hr]]]. exists (S i), t''. simpl.
        now rewrite Nat.add_succ_r.
      * destruct IH as [i [m' [Hi Hr]]]. exists (S i), m'. simpl.
        now rewrite Nat.add_succ_r.
    + simpl. exists 0%nat, t. rewrite Nat.add_0_r. auto.
    + simpl. exists 0%nat, m. rewrite Nat.add_0_r. auto.
Qed.

(** When every attempt settles within [limit] milliseconds, sequential mode
    settles within that many for each model. *)
Lemma sequential_in_time (limit : Z) (models : list jsval) :
  (0 <= limit)%Z ->
  (forall k m, exists t r, run k m = Settles t r /\ (t <= limit)%Z) ->
  forall (k : nat) (lastErr : option error) (elapsed : Z) (c : ctx),
  exists t r,
    snd (sequential k models lastErr elapsed c) = Settles t r
    /\ (t <= elapsed + Z.of_nat (length models) * limit)%Z.
Proof.
  intros Hlimit Hall.
  induction models as [|m models IH]; intros k lastErr elapsed c.
  - simpl. eexists _, _. split; [reflexivity | lia].
  - cbn [Engine.sequential]. destruct (Hall k m) as [t [r [E Ht]]]. rewrite E.
    destruct r as [e | text].
    + destruct (IH (S k) (Some e) (elapsed + t)%Z
                   (caught failure_line m e (started api m c)))
        as [t' [r' [E' Ht']]].
      exists t', r'. split; [exact E'|].
      cbn [length]. rewrite Nat2Z.inj_succ. nia.
    + eexists _, _. split; [reflexivity|].
      cbn [length]. rewrite Nat2Z.inj_succ. nia.
Qed.

(** A race that starts open and sees as many completions as it has
    attempts is decided by one of them. *)
Lemma race_decided (evs : list completion) (st : race) :
  settled st = false -> promise st = Hangs ->
  evs <> [] ->
  remaining st = Z.of_nat (length evs) ->
  (exists now m text,
      In (now, (m, inr text)) evs
      /\ promise (completions st evs) = Settles now (inr text)
      /\ Engine.lastUsedModel (self (completions st evs)) = m)
  \/ (forallb is_failure evs = true
      /\ exists now m e,
          In (now, (m, inl e)) evs
          /\ promise (completions st evs) = Settles now (inl e)
          /\ Engine.lastUsedModel (self (completions st evs))
             = Engine.lastUsedModel (self st)).
Proof.
  intros Hs Hp Hne Hrem.
  destruct (first_success_split evs)
    as [Hall | [before [now [m [text [later [E Hb]]]]]]].
  - right. split; [exact Hall|].
    destruct (exists_last Hne) as [init [[now [m r]] E]]. subst evs.
    rewrite forallb_app in Hall. apply andb_true_iff in Hall as [Hi Hl].
    destruct r as [e | text]; [| simpl in Hl; discriminate].
    exists now, m, e. split; [apply in_or_app; right; now left|].
    destruct (RaceFacts.completions_exhausted
                failure_line all_failed init now m e st Hs Hp Hi)
      as [H1 [H2 _]].
    + rewrite Hrem, length_app. simpl. f_equal. lia.
    + auto.
  - left. subst evs. exists now, m, text.
    split; [apply in_or_app; right; now left|].
    destruct (RaceFacts.completions_first_success
                failure_line all_failed before later now m text st Hs Hp Hb)
      as [H1 [H2 _]].
    + rewrite Hrem, length_app. cbn [length]. unfold completion in *. lia.
    + auto.
Qed.

(** A race that is won was won by one of the completions it saw. *)
Lemma race_winner (evs : list completion) :
  forall st : race,
    settled st = false -> promise st = Hangs ->
    forall now text,
      promise (completions st evs) = Settles now (inr text) ->
      In (now, (Engine.lastUsedModel (self (completions st evs)), inr text)) evs.
Proof.
  induction evs as [|[t [m [e | tx]]] evs IH]; intros st Hs Hp now text H.
  - simpl in H. rewrite Hp in H. discriminate.
  - cbn [Engine.completions fold_left] in *.
    destruct (Z.eq_dec (remaining st - 1) 0) as [Hr | Hr].
    + rewrite (RaceFacts.complete_failure_last
                 failure_line all_failed st t m e Hs Hr) in *.
      match type of H with
      | promise (fold_left _ _ ?st1) = _ =>
          destruct (RaceFacts.completions_stable
                      failure_line all_failed evs st1 eq_refl)
            as [_ [G _]]
      end.
      unfold Engine.completions in G. rewrite G in H. simpl in H.
      rewrite Hp in H. simpl in H. discriminate.
    + rewrite (RaceFacts.complete_failure_open
                 failure_line all_failed st t m e Hs Hr) in *.
      right. eapply IH in H; [exact H | reflexivity | exact Hp].
  - cbn [Engine.completions fold_left] in *.
    rewrite (RaceFacts.complete_success_open
               failure_line all_failed st t m tx Hs) in *.
    match type of H with
    | promise (fold_left _ _ ?st1) = _ =>
        destruct (RaceFacts.completions_stable
                    failure_line all_failed evs st1 eq_refl)
          as [_ [G [_ G']]]
    end.
    unfold Engine.completions in G, G'. rewrite G in H. rewrite G'.
    simpl in H. rewrite Hp in H. simpl in H. injection H as -> ->.
    left. reflexivity.
Qed.

(** Completions only print: at most one line each. *)
Lemma completions_effects (evs : list completion) :
  forall st : race,
  exists lines : list log_line,
    (length lines <= length evs)%nat
    /\ env (self (completions st evs)) = after_attempts lines [] (env (self st)).
Proof.
  induction evs as [|[t [m r]] evs IH]; intros st.
  - exists []. simpl. now rewrite EngineFacts.after_nothing.
  - cbn [Engine.completions fold_left].
    destruct (IH (complete failure_line all_failed st (t, (m, r))))
      as [lines [Hl Heq]].
    unfold Engine.completions in Heq. rewrite Heq.
    assert (Hstep : exists l1,
               (length l1 <= 1)%nat
               /\ env (self (complete failure_line all_failed st (t, (m, r))))
                  = after_attempts l1 [] (env (self st))).
    { unfold Engine.complete.
      destruct r as [e | tx]; destruct (settled st); simpl;
        repeat match goal with
               | |- context [if ?b then _ else _] => destruct b
               end; simpl;
        first [ exists [failure_line m e]; split; [simpl; lia|];
                unfold say, after_attempts; simpl;
                now rewrite app_nil_r
              | exists []; split; [simpl; lia|];
                now rewrite EngineFacts.after_nothing ]. }
    destruct Hstep as [l1 [H1 E1]]. rewrite E1.
    exists (l1 ++ lines). split; [rewrite length_app; simpl; lia|].
    now rewrite EngineFacts.after_after.
Qed.

(** Launching a race sends one request to each model of the roster. *)
Lemma launch_effects (models : list jsval) :
  forall c : ctx,
    env (self (launch api models c))
    = after_attempts [] (map (Request api) models) (env c).
Proof.
  unfold launch. cbn [self].
  induction models as [|m models IH]; intros c.
  - simpl. now rewrite EngineFacts.after_nothing.
  - cbn [fold_left map]. rewrite IH. unfold started, after_attempts, send.
    simpl. now rewrite <- !app_assoc.
Qed.

Lemma settling_all (l : list jsval) :
  (forall k m, run k m <> Hangs) ->
  forall k, length (settling run (indexed k l)) = length l.
Proof.
  intros Hall. induction l as [|m l IH]; intros k; simpl; [reflexivity|].
  destruct (run k m) eqn:E; [simpl; now rewrite IH | now apply Hall in E].
Qed.

Lemma chronological_In (models : list jsval) (ev : completion) :
  In ev (chronological run models) <-> In ev (settling run (indexed 0 models)).
Proof.
  unfold chronological. split; intros H.
  - eapply Permutation_in; [apply ChronoFacts.sort_by_perm | exact H].
  - eapply Permutation_in;
      [apply Permutation_sym, ChronoFacts.sort_by_perm | exact H].
Qed.

Local Abbreviation resolve := (resolve run api failure_line all_failed).

(** Either strategy only prints and sends: one request to each model of a
    prefix of the roster (all of it when racing), in roster order, and at
    most one line for each model. *)
Lemma resolve_effects (flag : jsval) (models : list jsval) (c : ctx) :
  exists (n : nat) (lines : list log_line),
    (n <= length models)%nat
    /\ (length lines <= n)%nat
    /\ env (fst (resolve flag models c))
       = after_attempts lines (asked api models n) (env c)
    /\ (truthy flag = true -> length models <> 1%nat -> n = length models).
Proof.
  unfold Engine.resolve, asked.
  destruct (negb (truthy flag) || (length models =? 1)%nat) eqn:E.
  - destruct (sequential_effects models 0 None 0%Z c)
      as [n [lines [Hn [Hl Heq]]]].
    exists n, lines. split; [exact Hn|]. split; [lia|]. split; [exact Heq|].
    intros Hf Hlen. rewrite Hf in E. simpl in E.
    apply Nat.eqb_eq in E. contradiction.
  - unfold racing. cbn [fst].
    destruct (completions_effects (chronological run models)
                                  (launch api models c)) as [lines [Hl Heq]].
    exists (length models), lines. split; [lia|].
    split; [pose proof (ChronoFacts.chronological_length run models); lia|].
    split; [| reflexivity].
    rewrite Heq, launch_effects, EngineFacts.after_after, firstn_all.
    now rewrite app_nil_r.
Qed.

(** The model recorded by either strategy when it fulfils is a model of the
    roster whose attempt produced the text. *)
(** Sequential mode asks the models one after the other and goes on to
    the next only after a failure. *)
Lemma sequential_trace (models : list jsval) :
  models <> [] ->
  forall (k : nat) (lastErr : option error) (elapsed : Z) (c : ctx),
  exists (before : list jsval) (m : jsval) (after : list jsval)
         (errs : list error),
    models = before ++ m :: after
    /\ failing run k before errs
    /\ (after = []
        \/ forall t e, run (k + length before)%nat m <> Settles t (inl e))
    /\ requests (env (fst (sequential k models lastErr elapsed c)))
       = requests (env c) ++ map (Request api) (before ++ [m]).
Proof.
  induction models as [|m models IH]; intros Hne k lastErr elapsed c;
    [contradiction|].
  cbn [Engine.sequential].
  destruct (run k m) as [t [e | text] |] eqn:Hrun.
  - destruct models as [|m' rest].
    + exists [], m, [], []. split; [reflexivity|].
      split; [constructor|]. split; [now left|]. reflexivity.
    + destruct (IH ltac:(discriminate) (S k) (Some e) (elapsed + t)%Z
                   (caught failure_line m e (started api m c)))
        as [before [m2 [after [errs [Hm [Hf [Hstop Hreq]]]]]]].
      exists (m :: before), m2, after, (e :: errs).
      split; [simpl; now rewrite Hm|].
      split; [econstructor; eassumption|].
      split.
      * destruct Hstop as [Hstop | Hstop]; [now left | right].
        cbn [length]. now rewrite Nat.add_succ_r.
      * rewrite Hreq. simpl. now rewrite <- app_assoc.
  - exists [], m, models, []. split; [reflexivity|].
    split; [constructor|]. split; [| reflexivity].
    right. intros t' e'. cbn [length]. rewrite Nat.add_0_r, Hrun.
    discriminate.
  - exists [], m, models, []. split; [reflexivity|].
    split; [constructor|]. split; [| reflexivity].
    right. intros t' e'. cbn [length]. rewrite Nat.add_0_r, Hrun.
    discriminate.
Qed.

(** The requests of either strategy. *)
Lemma resolve_tried (flag : jsval) (models : list jsval) (c : ctx) :
  models <> [] ->
  exists sent : list request,
    requests (env (fst (resolve flag models c))) = requests (env c) ++ sent
    /\ tried run api flag models sent.
Proof.
  intros Hne. unfold Engine.resolve, tried.
  destruct (negb (truthy flag) || (length models =? 1)%nat).
  - destruct (sequential_trace models Hne 0 None 0%Z c)
      as [before [m [after [errs [Hm [Hf [Hstop Hreq]]]]]]].
    eexists. split; [exact Hreq|]. exists before, m, after, errs. auto.
  - unfold racing. cbn [fst].
    destruct (completions_effects (chronological run models)
                                  (launch api models c)) as [lines [_ Heq]].
    exists (map (Request api) models). split; [| reflexivity].
    rewrite Heq, launch_effects. simpl. now rewrite app_nil_r.
Qed.

Lemma resolve_winner (flag : jsval) (models : list jsval) (c : ctx)
  (t : Z) (text : jsstring) :
  snd (resolve flag models c) = Settles t (inr text) ->
  exists i t',
    nth_error models i = Some (Engine.lastUsedModel (fst (resolve flag models c)))
    /\ run i (Engine.lastUsedModel (fst (resolve flag models c)))
       = Settles t' (inr text).
Proof.
  unfold Engine.resolve.
  destruct (negb (truthy flag) || (length models =? 1)%nat).
  - intros H. pose proof (sequential_outcome models 0 None 0%Z c) as Ho.
    rewrite H in Ho. exact Ho.
  - unfold racing. cbn [fst snd]. intros H.
    apply race_winner in H; [| reflexivity | reflexivity].
    apply chronological_In, ChronoFacts.settling_In in H.
    destruct H as [i [Hi Hr]]. exists i, t. split; assumption.
Qed.

(** When every attempt settles, either strategy fulfils exactly when the
    attempt of some model of the roster succeeds. *)
Lemma resolve_fulfils_iff (flag : jsval) (models : list jsval) (c : ctx) :
  models <> [] ->
  (forall k m, run k m <> Hangs) ->
  (exists t text, snd (resolve flag models c) = Settles t (inr text))
  <-> (exists i m t text,
          nth_error models i = Some m /\ run i m = Settles t (inr text)).
Proof.
  intros Hne Hall. split.
  - intros [t [text H]]. destruct (resolve_winner _ _ _ _ _ H) as [i [t' [Hi Hr]]].
    eauto 6.
  - intros [i [m [t [text [Hi Hr]]]]]. unfold Engine.resolve.
    destruct (negb (truthy flag) || (length models =? 1)%nat).
    + pose proof (sequential_outcome models 0 None 0%Z c) as Ho.
      destruct (snd (sequential 0 models None 0%Z c)) as [t' [e | text'] |].
      * destruct Ho as [errs [Hf _]].
        destruct (failing_nth _ _ _ _ Hf i m Hi) as [t'' [e' E']].
        simpl in E'. unfold completion in *. congruence.
      * eauto.
      * destruct Ho as [j [m' [_ Hh]]]. now apply Hall in Hh.
    + unfold racing. cbn [snd].
      pose proof (ChronoFacts.In_settling run models 0 i m t (inr text) Hi Hr) as Hin.
      apply chronological_In in Hin.
      assert (Hlen : length (chronological run models) = length models).
      { unfold chronological.
        rewrite (Permutation_length (ChronoFacts.sort_by_perm _ _)).
        now apply settling_all. }
      destruct (race_decided (chronological run models) (launch api models c))
        as [[now [m' [text' [_ [Hp _]]]]] | [Hf _]].
      * reflexivity.
      * reflexivity.
      * intros E. rewrite E in Hin. contradiction.
      * simpl. now rewrite Hlen.
      * eauto.
      * rewrite forallb_forall in Hf. apply Hf in Hin. discriminate.
Qed.

(** When every attempt settles within [limit] milliseconds, either strategy
    settles: within [limit] for each model of the roster, and within
    [limit] when racing. *)
Lemma resolve_in_time (limit : Z) (flag : jsval) (models : list jsval)
  (c : ctx) :
  models <> [] ->
  (0 <= limit)%Z ->
  (forall k m, exists t r, run k m = Settles t r /\ (t <= limit)%Z) ->
  exists t r,
    snd (resolve flag models c) = Settles t r
    /\ (t <= Z.of_nat (length models) * limit)%Z
    /\ (truthy flag = true -> length models <> 1%nat -> (t <= limit)%Z).
Proof.
  intros Hne Hlimit Hall. unfold Engine.resolve.
  destruct (negb (truthy flag) || (length models =? 1)%nat) eqn:E.
  - destruct (sequential_in_time limit models Hlimit Hall 0%nat None 0%Z c)
      as [t [r [H Ht]]].
    exists t, r. split; [exact H|]. split; [lia|].
    intros Hf Hlen. rewrite Hf in E. simpl in E.
    apply Nat.eqb_eq in E. contradiction.
  - unfold racing. cbn [snd].
    assert (Hall' : forall k m, run k m <> Hangs).
    { intros k m. destruct (Hall k m) as [t [r [H _]]]. congruence. }
    assert (Hlen : length (chronological run models) = length models).
    { unfold chronological.
      rewrite (Permutation_length (ChronoFacts.sort_by_perm _ _)).
      now apply settling_all. }
    assert (Hbound : forall now m r,
               In (now, (m, r)) (chronological run models) -> (now <= limit)%Z).
    { intros now m r Hin. apply chronological_In, ChronoFacts.settling_In in Hin.
      destruct Hin as [i [_ Hr]]. simpl in Hr.
      destruct (Hall i m) as [t' [r' [H' Ht']]]. simpl in Hr.
      unfold completion in *. congruence. }
    assert (Hpos : (1 <= Z.of_nat (length models))%Z).
    { destruct models; [contradiction | simpl length; lia]. }
    destruct (race_decided (chronological run models) (launch api models c))
      as [[now [m [text [Hin [Hp _]]]]] | [_ [now [m [e [Hin [Hp _]]]]]]].
    + reflexivity.
    + reflexivity.
    + intros E'. rewrite E' in Hlen. destruct models; [contradiction | discriminate].
    + simpl. now rewrite Hlen.
    + exists now, (inr text). split; [exact Hp|].
      apply Hbound in Hin. split; [nia | auto].
    + exists now, (inl e). split; [exact Hp|].
      apply Hbound in Hin. split; [nia | auto].
Qed.

End Strategies.

End StrategyFacts.

(** ** [GroqAi.transcribe] and [MistralAi.transcribe] *)

Module TranscribeFacts.

(** A roster of one model is tried in sequential mode, whatever the flag:
    one request leaves. *)
Lemma resolve_single run api line failed flag (m : jsval) (c : ctx) :
  requests (env (fst (resolve run api line failed flag [m] c)))
  = requests (env c) ++ [Request api m].
Proof.
  unfold resolve. simpl length. simpl Nat.eqb. rewrite orb_true_r.
  simpl. destruct (run 0%nat m) as [t [e | text] |]; reflexivity.
Qed.

Lemma candidates_single (b : Sdk.brand) (this : client) (model : jsval) :
  given model = false \/ truthy model = true ->
  Sdk.candidates b this
    (default_arg model (JStr (js (Sdk.default_transcription b))))
  = [default_arg model (JStr (js (Sdk.default_transcription b)))]
    \/ Sdk.default_transcription b = ""%string.
Proof.
  intros H. destruct (Sdk.default_transcription b) as [|a rest] eqn:E;
    [now right | left].
  unfold Sdk.candidates, default_arg.
  destruct H as [H | H].
  - rewrite H. reflexivity.
  - destruct model; try discriminate; simpl in *; now rewrite ?H.
Qed.

Lemma transcribe_over_requests (b : Sdk.brand) (this : client) net o w :
  Sdk.default_transcription b <> ""%string ->
  given (model o) = false \/ truthy (model o) = true ->
  requests (snd (fst (Sdk.transcribe_over b this net o w)))
  = requests w
    ++ [Request (Sdk.sdk b ++ ":transcription")
                (default_arg (model o)
                             (JStr (js (Sdk.default_transcription b))))].
Proof.
  intros Hd H. unfold Sdk.transcribe_over, finish. cbn [fst snd].
  destruct (candidates_single b this (model o) H) as [E | E];
    [| contradiction].
  rewrite E. now rewrite resolve_single.
Qed.

Lemma roster_not_empty (this : client) (builtin : string) :
  transcription_roster this builtin <> [].
Proof. unfold transcription_roster. destruct (models this); discriminate. Qed.

(** With a [model] that is given and falsy, the candidates are the roster
    (or the built-in model), tried in the mode the flag asks for. *)
Lemma transcribe_over_tried (b : Sdk.brand) (this : client) net o w :
  given (model o) = true ->
  truthy (model o) = false ->
  exists sent : list request,
    requests (snd (fst (Sdk.transcribe_over b this net o w)))
    = requests w ++ sent
    /\ tried (Sdk.runOnce b (requestTimeoutMs this) (net o))
             (Sdk.sdk b ++ ":transcription") (firstToFinish this)
             (transcription_roster this (Sdk.default_transcription b)) sent.
Proof.
  intros Hg Hf. unfold Sdk.transcribe_over, finish. cbn [fst snd].
  unfold default_arg. rewrite Hg. unfold Sdk.candidates. rewrite Hf.
  change (match models this with
          | [] => [JStr (js (Sdk.default_transcription b))]
          | _ :: _ => models this
          end)
    with (transcription_roster this (Sdk.default_transcription b)).
  exact (StrategyFacts.resolve_tried
           (Sdk.runOnce b (requestTimeoutMs this) (net o))
           (Sdk.sdk b ++ ":transcription")%string
           (fun _ => Sdk.transcription_line b)
           (Sdk.all_transcriptions_failed b)
           (firstToFinish this)
           (transcription_roster this (Sdk.default_transcription b))
           (Ctx (Client.lastUsedModel this) w)
           (roster_not_empty this (Sdk.default_transcription b))).
Qed.

Lemma mistral_requests readFileSync (this : client) net o w (t : Z) :
  audio_given (file o) = true ->
  Mistral.prepare readFileSync (file o) = Settles t (inr tt) ->
  requests (snd (fst (Mistral.transcribe_timed readFileSync this net o w)))
  = requests (snd (fst (Sdk.transcribe_over Mistral.brand this net o w))).
Proof.
  intros Hfile Hprep. unfold Mistral.transcribe_timed.
  rewrite Hfile, Hprep. simpl negb. cbv iota.
  unfold later3. cbn [fst snd]. unfold Mistral.rethrown.
  destruct (Sdk.transcribe_over Mistral.brand this net o w)
    as [[this' w'] [t' [e | text] |]]; reflexivity.
Qed.

(** C10, as the code has it. When the option [model] of [transcribe] is
    omitted or truthy, a call that gets as far as its first attempt sends
    exactly one request, to the model passed or else to the built-in
    default, whatever the roster [this.models] and the flag
    [firstToFinish].  When [model] is passed with a falsy value, the
    candidates are the roster [this.models] (the built-in default when the
    roster is empty): they are raced, one request to each, when the flag is
    truthy and there are several, and otherwise tried in sequence, one
    request to each up to the first whose attempt does not fail.  A call
    refused earlier (no [file], or for Mistral a [file] that cannot be read
    or is of no accepted kind) sends none. *)
Theorem transcribe_attempts_one_model :
  forall (this : client) (net : network transcribe_options)
         (o : transcribe_options) (w : world),
    (given (model o) = false \/ truthy (model o) = true ->
     (audio_given (file o) = true ->
      requests (snd (fst (Groq.transcribe_timed this net o w)))
      = requests w
        ++ [Request "groq:transcription"
                    (default_arg (model o)
                                 (JStr (js "whisper-large-v3-turbo")))])
     /\ (forall readFileSync t,
            audio_given (file o) = true ->
            Mistral.prepare readFileSync (file o) = Settles t (inr tt) ->
            requests (snd (fst (Mistral.transcribe_timed readFileSync
                                                         this net o w)))
            = requests w
              ++ [Request "mistral:transcription"
                          (default_arg (model o)
                                       (JStr (js "voxtral-mini-latest")))]))
    /\ (given (model o) = true ->
        truthy (model o) = false ->
        (audio_given (file o) = true ->
         exists sent : list request,
           requests (snd (fst (Groq.transcribe_timed this net o w)))
           = requests w ++ sent
           /\ tried (Sdk.runOnce Groq.brand (requestTimeoutMs this) (net o))
                    "groq:transcription" (firstToFinish this)
                    (transcription_roster this "whisper-large-v3-turbo")
                    sent)
        /\ (forall readFileSync t,
               audio_given (file o) = true ->
               Mistral.prepare readFileSync (file o) = Settles t (inr tt) ->
               exists sent : list request,
                 requests (snd (fst (Mistral.transcribe_timed readFileSync
                                                              this net o w)))
                 = requests w ++ sent
                 /\ tried (Sdk.runOnce Mistral.brand (requestTimeoutMs this)
                                       (net o))
                          "mistral:transcription" (firstToFinish this)
                          (transcription_roster this "voxtral-mini-latest")
                          sent))
    /\ (audio_given (file o) = false ->
        Groq.transcribe_timed this net o w
        = (this, w, Settles 0 (inl (Sdk.file_required Groq.brand)))
        /\ forall readFileSync,
            Mistral.transcribe_timed readFileSync this net o w
            = (this, w, Settles 0 (inl (Sdk.file_required Mistral.brand))))
    /\ (forall readFileSync,
           audio_given (file o) = true ->
           (forall t, Mistral.prepare readFileSync (file o)
                      <> Settles t (inr tt)) ->
           fst (Mistral.transcribe_timed readFileSync this net o w)
           = (this, w)).
Proof.
  intros this net o w. split; [| split; [| split]].
  - intros Hmodel. split.
    + intros Hfile. unfold Groq.transcribe_timed. rewrite Hfile. simpl negb.
      cbv iota.
      now rewrite (transcribe_over_requests Groq.brand this net o w
                     ltac:(discriminate) Hmodel).
    + intros readFileSync t Hfile Hprep.
      rewrite (mistral_requests readFileSync this net o w t Hfile Hprep).
      exact (transcribe_over_requests Mistral.brand this net o w
               ltac:(discriminate) Hmodel).
  - intros Hg Hf. split.
    + intros Hfile. unfold Groq.transcribe_timed. rewrite Hfile. simpl negb.
      cbv iota.
      exact (transcribe_over_tried Groq.brand this net o w Hg Hf).
    + intros readFileSync t Hfile Hprep.
      rewrite (mistral_requests readFileSync this net o w t Hfile Hprep).
      exact (transcribe_over_tried Mistral.brand this net o w Hg Hf).
  - intros Hfile. unfold Groq.transcribe_timed, Mistral.transcribe_timed.
    rewrite Hfile. split; [reflexivity | intros; reflexivity].
  - intros readFileSync Hfile Hprep. unfold Mistral.transcribe_timed.
    rewrite Hfile. simpl negb. cbv iota.
    destruct (Mistral.prepare readFileSync (file o)) as [t [e | []] |];
      try reflexivity.
    exfalso. now apply (Hprep t).
Qed.

(** With three models configured and the racing flag set, a call without
    [model] sends one request, to the default model; and a call with an
    empty [model] on a roster of two, in sequence, stops at the first
    model, which answers. *)
Lemma default_model_example :
  (given (model (Scenario.recording JUndefined)) = false
   \/ truthy (model (Scenario.recording JUndefined)) = true)
  /\ audio_given (file (Scenario.recording JUndefined)) = true
  /\ requests (snd (fst (Groq.transcribe_timed
                           Scenario.racers Scenario.transcribes
                           (Scenario.recording JUndefined) Scenario.quiet)))
     = [Request "groq:transcription" (JStr (js "whisper-large-v3-turbo"))]
  /\ exists sent : list request,
      requests (snd (fst (Groq.transcribe_timed
                            Scenario.pair Scenario.transcribes
                            (Scenario.recording (JStr [])) Scenario.quiet)))
      = sent
      /\ tried (Sdk.runOnce Groq.brand 20000
                            (Scenario.transcribes
                               (Scenario.recording (JStr []))))
               "groq:transcription" (JBool false)
               [Scenario.A; Scenario.B] sent.
Proof.
  split; [left; reflexivity|]. split; [reflexivity|].
  split.
  - exact (proj1 (proj1 (transcribe_attempts_one_model
                           Scenario.racers Scenario.transcribes
                           (Scenario.recording JUndefined) Scenario.quiet)
                        (or_introl eq_refl)) eq_refl).
  - exact (proj1 (proj1 (proj2 (transcribe_attempts_one_model
                                  Scenario.pair Scenario.transcribes
                                  (Scenario.recording (JStr []))
                                  Scenario.quiet))
                        eq_refl eq_refl) eq_refl).
Defined.

(** C10, as the claim has it, fails: when [model] is passed as the empty
    string, the candidates are the configured roster, and with the racing
    flag set its three models are all attempted. *)
Lemma empty_model_races_the_roster :
  requests (snd (fst (Groq.transcribe
                        Scenario.racers Scenario.transcribes
                        (Scenario.recording (JStr [])) Scenario.quiet)))
  = [Request "groq:transcription" Scenario.A;
     Request "groq:transcription" Scenario.B;
     Request "groq:transcription" Scenario.C].
Proof. reflexivity. Qed.

End TranscribeFacts.

(** ** What [ask] does in every case *)

Module AnswerFacts.

Lemma trimStart_fixed (s : jsstring) :
  match s with [] => True | c :: _ => is_space c = false end ->
  trimStart s = s.
Proof. destruct s as [|c s]; simpl; [reflexivity|]. now intros ->. Qed.

Lemma trimStart_suffix (s : jsstring) : exists p, s = p ++ trimStart s.
Proof.
  induction s as [|c s [p IH]]; simpl; [now exists []|].
  destruct (is_space c).
  - exists (c :: p). simpl. now f_equal.
  - now exists [].
Qed.

(** [s.trim().trim()] is [s.trim()]. *)
Lemma trim_trimmed (s : jsstring) : trimmed (trim s).
Proof.
  unfold trimmed, trim, trimEnd.
  pose proof (JsFacts.trimStart_head s) as Ha.
  set (a := trimStart s) in *.
  pose proof (JsFacts.trimStart_head (rev a)) as Hb.
  destruct (trimStart_suffix (rev a)) as [p Hp].
  set (b := trimStart (rev a)) in *.
  assert (Hrb : trimStart (rev b) = rev b).
  { apply trimStart_fixed.
    assert (E : a = rev b ++ rev p).
    { rewrite <- (rev_involutive a), Hp. apply rev_app_distr. }
    destruct (rev b) as [|c r]; [exact I|].
    rewrite E in Ha. exact Ha. }
  rewrite Hrb, rev_involutive, (trimStart_fixed b Hb). reflexivity.
Qed.

Lemma timer_delay_le (timeoutMs : Z) :
  (0 < timeoutMs)%Z -> (timer_delay timeoutMs <= timeoutMs)%Z.
Proof.
  intros H. unfold timer_delay, TIMEOUT_MAX.
  destruct (Z.ltb_spec 2147483647 timeoutMs); lia.
Qed.

Lemma timer_delay_small (timeoutMs : Z) :
  (timeoutMs <= TIMEOUT_MAX)%Z -> timer_delay timeoutMs = timeoutMs.
Proof.
  intros H. unfold timer_delay.
  destruct (Z.ltb_spec TIMEOUT_MAX timeoutMs); [lia | reflexivity].
Qed.

Lemma await_answers (timeoutMs : Z) (expired : error) (r : reply)
  (t : Z) (resp : jsval) :
  await_within timeoutMs expired r = Settles t (inr resp)
  <-> r = Fulfils t resp
      /\ (timeoutMs <= 0 \/ t < timer_delay timeoutMs)%Z.
Proof.
  unfold await_within.
  destruct (Z.ltb_spec 0 timeoutMs) as [Hpos | Hnon].
  - cbv zeta. destruct r as [l x | l e |].
    + destruct (Z.ltb_spec l (timer_delay timeoutMs)) as [Hlt | Hge]; split.
      * intros E. injection E as -> ->. auto.
      * intros [E _]. injection E as -> ->. reflexivity.
      * discriminate.
      * intros [E [Hc | Hc]]; injection E as -> ->; lia.
    + destruct (Z.ltb_spec l (timer_delay timeoutMs)) as [Hlt | Hge]; split;
        try discriminate; intros [E _]; discriminate.
    + split; [discriminate | intros [E _]; discriminate].
  - destruct r as [l x | l e |]; simpl; split;
      try discriminate; try (intros [E _]; discriminate).
    + intros E. injection E as -> ->. split; [reflexivity | left; lia].
    + intros [E _]. injection E as -> ->. reflexivity.
Qed.

Lemma await_in_time (timeoutMs : Z) (expired : error) (r : reply) :
  (0 < timeoutMs)%Z ->
  exists t res,
    await_within timeoutMs expired r = Settles t res /\ (t <= timeoutMs)%Z.
Proof.
  intros Hpos. pose proof (timer_delay_le timeoutMs Hpos) as Hd.
  unfold await_within.
  destruct (Z.ltb_spec 0 timeoutMs); [| lia]. cbv zeta.
  destruct r as [l x | l e |];
    try destruct (Z.ltb_spec l (timer_delay timeoutMs));
    eexists _, _; (split; [reflexivity | lia]).
Qed.

(** An attempt of [Ai.ask] succeeds exactly with the trimmed text of a
    response that arrived in time and is not blank. *)
Lemma attempt_succeeds (timeoutMs : Z) (net : nat -> jsval -> reply)
  (k : nat) (m : jsval) (t : Z) (text : jsstring) :
  OpenRouter.attempt timeoutMs net k m = Settles t (inr text)
  <-> exists resp,
        net k m = Fulfils t resp
        /\ (timeoutMs <= 0 \/ t < timer_delay timeoutMs)%Z
        /\ blank (OpenRouter.extractText resp) = false
        /\ text = trim (OpenRouter.extractText resp).
Proof.
  unfold OpenRouter.attempt. split.
  - destruct (await_within timeoutMs (timed_out m timeoutMs) (net k m))
      as [t' [e | resp] |] eqn:E; try discriminate.
    apply await_answers in E as [E1 E2].
    destruct (trim (OpenRouter.extractText resp)) as [|c r] eqn:Et;
      [discriminate|].
    intros H. injection H as -> <-. exists resp.
    split; [exact E1|]. split; [exact E2|]. split; [| now rewrite Et].
    destruct (blank (OpenRouter.extractText resp)) eqn:Eb; [| reflexivity].
    apply JsFacts.trim_nil_iff in Eb. rewrite Eb in Et. discriminate.
  - intros [resp [E1 [E2 [Eb ->]]]].
    rewrite (proj2 (await_answers _ _ _ _ _) (conj E1 E2)).
    destruct (trim (OpenRouter.extractText resp)) as [|c r] eqn:Et;
      [| reflexivity].
    apply JsFacts.trim_nil_iff in Et. rewrite Et in Eb. discriminate.
Qed.

Lemma attempt_in_time (timeoutMs : Z) (net : nat -> jsval -> reply)
  (k : nat) (m : jsval) :
  (0 < timeoutMs)%Z ->
  exists t r,
    OpenRouter.attempt timeoutMs net k m = Settles t r /\ (t <= timeoutMs)%Z.
Proof.
  intros Hpos. unfold OpenRouter.attempt.
  destruct (await_in_time timeoutMs (timed_out m timeoutMs) (net k m) Hpos)
    as [t [res [E Ht]]].
  rewrite E. destruct res as [e | resp]; [eauto|].
  destruct (trim (OpenRouter.extractText resp)); eauto.
Qed.

(** An attempt of [GroqAi.ask] or [MistralAi.ask] succeeds exactly with the
    text of a response that arrived in time and has one. *)
Lemma sdk_attempt_succeeds (timeoutMs : Z) (net : nat -> jsval -> reply)
  (k : nat) (m : jsval) (t : Z) (text : jsstring) :
  Sdk.attempt timeoutMs net k m = Settles t (inr text)
  <-> exists resp,
        net k m = Fulfils t resp
        /\ (timeoutMs <= 0 \/ t < timer_delay timeoutMs)%Z
        /\ text <> []
        /\ text = Sdk.extractText resp.
Proof.
  unfold Sdk.attempt. split.
  - destruct (await_within timeoutMs (timed_out m timeoutMs) (net k m))
      as [t' [e | resp] |] eqn:E; try discriminate.
    apply await_answers in E as [E1 E2].
    destruct (Sdk.extractText resp) as [|c r] eqn:Et; [discriminate|].
    intros H. injection H as -> <-. exists resp.
    split; [exact E1|]. split; [exact E2|].
    split; [discriminate | now rewrite Et].
  - intros [resp [E1 [E2 [Hne ->]]]].
    rewrite (proj2 (await_answers _ _ _ _ _) (conj E1 E2)).
    destruct (Sdk.extractText resp) as [|c r]; [contradiction | reflexivity].
Qed.

Lemma sdk_extractText_trimmed (resp : jsval) : trimmed (Sdk.extractText resp).
Proof.
  unfold Sdk.extractText.
  destruct (get (get (Sdk.first_of (get resp "choices")) "message") "content");
    try reflexivity.
  apply trim_trimmed.
Qed.

Lemma forget_returned {A : Type} (s : settlement A) (a : A) :
  forget s = Returned a <-> exists t, s = Settles t (inr a).
Proof.
  destruct s as [t [e | x] |]; simpl; split;
    try discriminate; try (intros [t' H]; discriminate).
  - intros H. injection H as ->. eauto.
  - intros [t' H]. injection H as _ ->. reflexivity.
Qed.

End AnswerFacts.

Module AskCases.

Lemma ask_unfold (this : client) net o w printed :
  models this <> [] ->
  compose "Ai" o w = Composed printed None ->
  OpenRouter.ask this net o w
  = untimed
      (finish this
         (resolve (OpenRouter.attempt (requestTimeoutMs this) (net o))
                  "openrouter:chat" OpenRouter.failure_line
                  OpenRouter.all_failed
                  (firstToFinish this) (models this)
                  (Ctx (Client.lastUsedModel this)
                       (after_attempts printed [] w)))).
Proof.
  intros H Hc. unfold OpenRouter.ask.
  now rewrite (AskFacts.ask_timed_unfold this net o w printed H Hc).
Qed.

Lemma ask_refused (this : client) net o w printed e :
  models this <> [] ->
  compose "Ai" o w = Composed printed (Some e) ->
  OpenRouter.ask this net o w = (this, after_attempts printed [] w, Thrown e).
Proof.
  intros H Hc. unfold OpenRouter.ask.
  now rewrite (AskFacts.ask_timed_refused this net o w printed e H Hc).
Qed.

Lemma length_not_one {A : Type} (l : list A) :
  (1 < length l)%nat -> length l <> 1%nat.
Proof. lia. Qed.

Lemma ask_prints_and_sends (this : client) (net : network ask_options)
  (o : ask_options) (w : world) :
  exists lines sent,
    snd (fst (OpenRouter.ask this net o w)) = after_attempts lines sent w.
Proof.
  destruct (models this) as [|m0 ms] eqn:E.
  - exists [], []. unfold OpenRouter.ask, OpenRouter.ask_timed. rewrite E.
    simpl. now rewrite EngineFacts.after_nothing.
  - assert (Hne : models this <> []) by (rewrite E; discriminate).
    destruct (compose "Ai" o w) as [printed [e |]] eqn:Hc.
    + rewrite (ask_refused this net o w printed e Hne Hc).
      exists printed, []. reflexivity.
    + rewrite (ask_unfold this net o w printed Hne Hc). rewrite E.
      destruct (StrategyFacts.resolve_effects
                  (OpenRouter.attempt (requestTimeoutMs this) (net o))
                  "openrouter:chat" OpenRouter.failure_line
                  OpenRouter.all_failed
                  (firstToFinish this) (m0 :: ms)
                  (Ctx (Client.lastUsedModel this)
                       (after_attempts printed [] w)))
        as [n [lines [_ [_ [Heq _]]]]].
      exists (printed ++ lines), (asked "openrouter:chat" (m0 :: ms) n).
      etransitivity; [exact Heq|].
      exact (EngineFacts.after_after printed lines [] _ w).
Qed.

Lemma ask_text_not_empty (this : client) (net : network ask_options)
  (o : ask_options) (w : world) (text : jsstring) :
  snd (OpenRouter.ask this net o w) = Returned text -> text <> [].
Proof.
  intros H.
  destruct (models this) as [|m0 ms] eqn:E.
  - unfold OpenRouter.ask, OpenRouter.ask_timed in H. rewrite E in H.
    discriminate.
  - assert (Hne : models this <> []) by (rewrite E; discriminate).
    destruct (compose "Ai" o w) as [printed [e |]] eqn:Hc.
    { rewrite (ask_refused this net o w printed e Hne Hc) in H.
      discriminate. }
    rewrite (ask_unfold this net o w printed Hne Hc) in H. rewrite E in H.
    unfold untimed, finish in H. cbn [fst snd] in H.
    apply AnswerFacts.forget_returned in H as [t Hres].
    destruct (StrategyFacts.resolve_winner _ _ _ _ _ _ _ _ _ Hres)
      as [k [t' [Hk Hrun]]].
    apply AnswerFacts.attempt_succeeds in Hrun as [resp [E1 [E2 [Eb Et]]]].
    intros Hnil. rewrite Hnil in Et. symmetry in Et.
    apply JsFacts.trim_nil_iff in Et. rewrite Et in Eb. discriminate.
Qed.

(** X7. Whatever the models answer and in either mode, a call of [Ai.ask]
    only prints and sends chat requests.  With an empty roster it does
    neither.  Otherwise it first prints what building the messages warns
    of; when that building throws, it sends nothing; when it goes through,
    it sends one request to each model of a prefix of the roster, in roster
    order (to the whole roster when racing) and prints at most one failure
    line for each request.  The stored history and the clock are left
    alone, and the roster, the timeout and the racing flag of the object
    are unchanged. *)
Theorem ask_only_prints_and_sends :
  forall (this : client) (net : network ask_options) (o : ask_options)
         (w : world),
  exists (n : nat) (printed lines : list log_line),
    (n <= length (models this))%nat
    /\ (length lines <= n)%nat
    /\ snd (fst (OpenRouter.ask this net o w))
       = after_attempts (printed ++ lines)
                        (asked "openrouter:chat" (models this) n) w
    /\ (models this = [] -> printed = [])
    /\ (models this <> [] -> printed = warned (compose "Ai" o w))
    /\ (forall e, refused (compose "Ai" o w) = Some e -> n = 0%nat)
    /\ (refused (compose "Ai" o w) = None ->
        truthy (firstToFinish this) = true ->
        (1 < length (models this))%nat -> n = length (models this))
    /\ models (fst (fst (OpenRouter.ask this net o w))) = models this
    /\ requestTimeoutMs (fst (fst (OpenRouter.ask this net o w)))
       = requestTimeoutMs this
    /\ firstToFinish (fst (fst (OpenRouter.ask this net o w)))
       = firstToFinish this.
Proof.
  intros this net o w.
  destruct (models this) as [|m0 ms] eqn:E.
  - exists 0%nat, [], []. unfold OpenRouter.ask, OpenRouter.ask_timed.
    rewrite E. simpl. rewrite EngineFacts.after_nothing, E.
    repeat split; auto; try congruence; intros; simpl in *; lia.
  - assert (Hne : models this <> []) by (rewrite E; discriminate).
    destruct (compose "Ai" o w) as [printed [e |]] eqn:Hc.
    + rewrite (ask_refused this net o w printed e Hne Hc).
      exists 0%nat, printed, []. cbn [fst snd warned refused length].
      rewrite app_nil_r, E.
      split; [lia|]. split; [lia|]. split; [reflexivity|].
      split; [discriminate|]. split; [reflexivity|].
      split; [reflexivity|]. split; [discriminate|]. auto.
    + rewrite (ask_unfold this net o w printed Hne Hc). rewrite E.
      destruct (StrategyFacts.resolve_effects
                  (OpenRouter.attempt (requestTimeoutMs this) (net o))
                  "openrouter:chat" OpenRouter.failure_line
                  OpenRouter.all_failed
                  (firstToFinish this) (m0 :: ms)
                  (Ctx (Client.lastUsedModel this)
                       (after_attempts printed [] w)))
        as [n [lines [Hn [Hl [Heq Hall]]]]].
      exists n, printed, lines. split; [exact Hn|]. split; [exact Hl|].
      split.
      { etransitivity; [exact Heq|].
        exact (EngineFacts.after_after printed lines [] _ w). }
      split; [discriminate|]. split; [reflexivity|].
      split; [discriminate|].
      split; [intros _ Hf Hlen; apply Hall;
              [exact Hf | now apply length_not_one]|].
      simpl. auto.
Qed.

(** X8. With a positive [requestTimeoutMs], [Ai.ask] always settles, whatever
    the models do: within one timeout for each model of the roster, and
    within a single timeout when racing. *)
Theorem ask_settles_within_the_timeouts :
  forall (this : client) (net : network ask_options) (o : ask_options)
         (w : world),
    (0 < requestTimeoutMs this)%Z ->
    exists (t : Z) (r : error + jsstring),
      snd (OpenRouter.ask_timed this net o w) = Settles t r
      /\ (t <= Z.of_nat (length (models this)) * requestTimeoutMs this)%Z
      /\ (truthy (firstToFinish this) = true ->
          (1 < length (models this))%nat ->
          (t <= requestTimeoutMs this)%Z).
Proof.
  intros this net o w Hpos.
  destruct (models this) as [|m0 ms] eqn:E.
  - unfold OpenRouter.ask_timed. rewrite E. simpl.
    eexists _, _. split; [reflexivity|]. split; [lia|].
    intros _ H. inversion H.
  - assert (Hne : models this <> []) by (rewrite E; discriminate).
    destruct (compose "Ai" o w) as [printed [e |]] eqn:Hc.
    { rewrite (AskFacts.ask_timed_refused this net o w printed e Hne Hc).
      eexists _, _. split; [reflexivity|]. split; [| lia].
      rewrite <- E. nia. }
    rewrite (AskFacts.ask_timed_unfold this net o w printed Hne Hc).
    rewrite E.
    destruct (StrategyFacts.resolve_in_time
                (OpenRouter.attempt (requestTimeoutMs this) (net o))
                "openrouter:chat" OpenRouter.failure_line OpenRouter.all_failed
                (requestTimeoutMs this) (firstToFinish this) (m0 :: ms)
                (Ctx (Client.lastUsedModel this)
                     (after_attempts printed [] w)))
      as [t [r [H [Ht Hr]]]].
    + discriminate.
    + lia.
    + intros k m. now apply AnswerFacts.attempt_in_time.
    + exists t, r. split; [exact H|]. split; [exact Ht|].
      intros Hf Hlen. apply Hr; [exact Hf | now apply length_not_one].
Qed.

(** With the default timeout a roster of three answers within a minute. *)
Lemma fallback_settles_in_a_minute :
  (0 < requestTimeoutMs Scenario.fallback)%Z
  /\ exists (t : Z) (r : error + jsstring),
      snd (OpenRouter.ask_timed Scenario.fallback Scenario.third_answers
                                Scenario.prompt Scenario.quiet)
      = Settles t r
      /\ (t <= 60000)%Z.
Proof.
  assert (H : (0 < requestTimeoutMs Scenario.fallback)%Z) by (simpl; lia).
  split; [exact H|].
  destruct (ask_settles_within_the_timeouts
              Scenario.fallback Scenario.third_answers Scenario.prompt
              Scenario.quiet H) as [t [r [E [Ht _]]]].
  exists t, r. split; [exact E|]. simpl in Ht. lia.
Defined.

Lemma ask_always_settles (this : client) net o w :
  (0 < requestTimeoutMs this)%Z ->
  exists t r, snd (OpenRouter.ask_timed this net o w) = Settles t r.
Proof.
  intros Hpos.
  destruct (models this) as [|m0 ms] eqn:E.
  - unfold OpenRouter.ask_timed. rewrite E. simpl. eauto.
  - assert (Hne : models this <> []) by (rewrite E; discriminate).
    destruct (compose "Ai" o w) as [printed [e |]] eqn:Hc.
    { rewrite (AskFacts.ask_timed_refused this net o w printed e Hne Hc).
      simpl. eauto. }
    rewrite (AskFacts.ask_timed_unfold this net o w printed Hne Hc).
    rewrite E.
    destruct (StrategyFacts.resolve_in_time
                (OpenRouter.attempt (requestTimeoutMs this) (net o))
                "openrouter:chat" OpenRouter.failure_line OpenRouter.all_failed
                (requestTimeoutMs this) (firstToFinish this) (m0 :: ms)
                (Ctx (Client.lastUsedModel this)
                     (after_attempts printed [] w)))
      as [t [r [H _]]].
    + discriminate.
    + lia.
    + intros k m. now apply AnswerFacts.attempt_in_time.
    + eauto.
Qed.

(** X9. With a positive [requestTimeoutMs], and in either mode, [Ai.ask]
    returns a text exactly when the messages of the call can be built and
    some model of the roster answers its request before the timer fires
    (a timer set beyond 2147483647 ms fires after 1 ms) with a text that is
    not blank; otherwise it throws. *)
Theorem ask_returns_iff_a_model_answers :
  forall (this : client) (net : network ask_options) (o : ask_options)
         (w : world),
    (0 < requestTimeoutMs this)%Z ->
    ((exists text, snd (OpenRouter.ask this net o w) = Returned text)
     <-> (refused (compose "Ai" o w) = None
          /\ exists k m resp,
               nth_error (models this) k = Some m
               /\ answers (requestTimeoutMs this) (net o k m) resp
               /\ blank (OpenRouter.extractText resp) = false))
    /\ ((exists text, snd (OpenRouter.ask this net o w) = Returned text)
        \/ (exists e, snd (OpenRouter.ask this net o w) = Thrown e)).
Proof.
  intros this net o w Hpos.
  assert (Hsettles :
    (exists text, snd (OpenRouter.ask this net o w) = Returned text)
    \/ (exists e, snd (OpenRouter.ask this net o w) = Thrown e)).
  { destruct (ask_always_settles this net o w Hpos)
      as [t [r H]].
    unfold OpenRouter.ask, untimed. cbn [snd]. rewrite H.
    destruct r as [e | text]; simpl; eauto. }
  split; [| exact Hsettles].
  destruct (models this) as [|m0 ms] eqn:E.
  - unfold OpenRouter.ask, OpenRouter.ask_timed. rewrite E. simpl. split.
    + intros [text H]. discriminate.
    + intros [_ [k [m [resp [H _]]]]]. destruct k; discriminate.
  - assert (Hne : models this <> []) by (rewrite E; discriminate).
    destruct (compose "Ai" o w) as [printed [e |]] eqn:Hc.
    { rewrite (ask_refused this net o w printed e Hne Hc). simpl. split.
      + intros [text H]. discriminate.
      + intros [H _]. discriminate. }
    rewrite (ask_unfold this net o w printed Hne Hc). rewrite E.
    unfold untimed, finish. cbn [snd fst refused].
    set (run := OpenRouter.attempt (requestTimeoutMs this) (net o)).
    pose proof (StrategyFacts.resolve_fulfils_iff
                  run "openrouter:chat" OpenRouter.failure_line
                  OpenRouter.all_failed (firstToFinish this) (m0 :: ms)
                  (Ctx (Client.lastUsedModel this)
                       (after_attempts printed [] w))) as Hiff.
    assert (Hall : forall k m, run k m <> Hangs).
    { intros k m.
      destruct (AnswerFacts.attempt_in_time
                  (requestTimeoutMs this) (net o) k m Hpos) as [t [r [H _]]].
      unfold run. rewrite H. discriminate. }
    specialize (Hiff ltac:(discriminate) Hall).
    split.
    + intros [text H]. apply AnswerFacts.forget_returned in H as [t H].
      destruct (proj1 Hiff (ex_intro _ t (ex_intro _ text H)))
        as [i [m [t' [text' [Hi Hr]]]]].
      apply AnswerFacts.attempt_succeeds in Hr
        as [resp [E1 [E2 [Eb _]]]].
      split; [reflexivity|].
      exists i, m, resp. split; [exact Hi|]. split; [| exact Eb].
      exists t'. split; assumption.
    + intros [_ [k [m [resp [Hk [[latency [E1 E2]] Eb]]]]]].
      destruct (proj2 Hiff) as [t [text H]].
      * exists k, m, latency, (trim (OpenRouter.extractText resp)).
        split; [exact Hk|]. apply AnswerFacts.attempt_succeeds.
        exists resp. auto.
      * exists text. apply AnswerFacts.forget_returned. eauto.
Qed.

(** In the sequential scenario C answers ["hi"] after 3 ms, so the call
    returns. *)
Lemma third_model_answers :
  (0 < requestTimeoutMs Scenario.fallback)%Z
  /\ exists text,
      snd (OpenRouter.ask Scenario.fallback Scenario.third_answers
                          Scenario.prompt Scenario.quiet)
      = Returned text.
Proof.
  assert (H : (0 < requestTimeoutMs Scenario.fallback)%Z) by (simpl; lia).
  split; [exact H|].
  apply (proj1 (ask_returns_iff_a_model_answers
                  Scenario.fallback Scenario.third_answers Scenario.prompt
                  Scenario.quiet H)).
  split; [reflexivity|].
  exists 2%nat, Scenario.C, (Scenario.says " hi ").
  split; [reflexivity|]. split; [| reflexivity].
  exists 3%Z. split; [reflexivity | right; vm_compute; reflexivity].
Defined.

(** X10. Whenever [Ai.ask] returns, in either mode and with any timeout, the
    text it returns is not empty, has no white space at either end, and is
    the trimmed text of a response that the model recorded in
    [lastUsedModel], a model of the roster, gave in time to the request of
    this call. *)
Theorem ask_returns_what_lastUsedModel_said :
  forall (this : client) (net : network ask_options) (o : ask_options)
         (w : world) (this' : client) (w' : world) (text : jsstring),
    OpenRouter.ask this net o w = (this', w', Returned text) ->
    text <> []
    /\ trimmed text
    /\ exists (k : nat) (resp : jsval),
        nth_error (models this) k = Some (Client.lastUsedModel this')
        /\ answers (requestTimeoutMs this)
                   (net o k (Client.lastUsedModel this')) resp
        /\ text = trim (OpenRouter.extractText resp).
Proof.
  intros this net o w this' w' text H.
  destruct (models this) as [|m0 ms] eqn:E.
  - unfold OpenRouter.ask, OpenRouter.ask_timed in H. rewrite E in H.
    discriminate.
  - assert (Hne : models this <> []) by (rewrite E; discriminate).
    destruct (compose "Ai" o w) as [printed [e |]] eqn:Hc.
    { rewrite (ask_refused this net o w printed e Hne Hc) in H.
      discriminate. }
    rewrite (ask_unfold this net o w printed Hne Hc) in H. rewrite E in H.
    unfold untimed, finish in H. cbn [fst snd] in H.
    injection H as Hthis _ Hres. subst this'. cbn [Client.lastUsedModel].
    apply AnswerFacts.forget_returned in Hres as [t Hres].
    destruct (StrategyFacts.resolve_winner _ _ _ _ _ _ _ _ _ Hres)
      as [k [t' [Hk Hrun]]].
    apply AnswerFacts.attempt_succeeds in Hrun as [resp [E1 [E2 [Eb Et]]]].
    split.
    { intros Hnil. rewrite Hnil in Et. symmetry in Et.
      apply JsFacts.trim_nil_iff in Et. rewrite Et in Eb. discriminate. }
    split; [rewrite Et; apply AnswerFacts.trim_trimmed|].
    exists k, resp. split; [exact Hk|]. split; [| exact Et].
    exists t'. split; assumption.
Qed.

(** In the racing scenario B wins with ["b"]. *)
Lemma racing_winner_example :
  let r := OpenRouter.ask Scenario.racers Scenario.second_is_fastest
                          Scenario.prompt Scenario.quiet in
  r = (fst (fst r), snd (fst r), Returned (js "b"))
  /\ Client.lastUsedModel (fst (fst r)) = Scenario.B
  /\ exists (k : nat) (resp : jsval),
      nth_error (models Scenario.racers) k
      = Some (Client.lastUsedModel (fst (fst r)))
      /\ answers (requestTimeoutMs Scenario.racers)
                 (Scenario.second_is_fastest Scenario.prompt k
                    (Client.lastUsedModel (fst (fst r)))) resp
      /\ js "b" = trim (OpenRouter.extractText resp).
Proof.
  intros r.
  assert (H : r = (fst (fst r), snd (fst r), Returned (js "b")))
    by (vm_compute; reflexivity).
  split; [exact H|]. split; [vm_compute; reflexivity|].
  exact (proj2 (proj2 (ask_returns_what_lastUsedModel_said
                         Scenario.racers Scenario.second_is_fastest
                         Scenario.prompt Scenario.quiet _ _ _ H))).
Defined.

(** X11. Without a timeout ([requestTimeoutMs] zero or negative) nothing
    bounds an attempt: in sequential mode, once the messages of the call
    are built, when the models before [m] fail and [m] never answers,
    [Ai.ask] never settles, no later model is ever asked, and
    [lastUsedModel] keeps its value. *)
Theorem ask_without_timeout_waits_on_a_silent_model :
  forall (this : client) (net : network ask_options) (o : ask_options)
         (w : world) (before rest : list jsval) (m : jsval)
         (errs : list error) (printed : list log_line),
    (requestTimeoutMs this <= 0)%Z ->
    truthy (firstToFinish this) = false \/ length (models this) = 1%nat ->
    models this = before ++ m :: rest ->
    compose "Ai" o w = Composed printed None ->
    failing (OpenRouter.attempt (requestTimeoutMs this) (net o)) 0 before errs ->
    net o (length before) m = Silent ->
    OpenRouter.ask this net o w
    = (this,
       after_attempts
         (printed ++ lines_for OpenRouter.failure_line before errs)
         (asked "openrouter:chat" (models this) (S (length before))) w,
       Pending).
Proof.
  intros this net o w before rest m errs printed
         Hno Hmode Hm Hc Hfail Hsilent.
  rewrite (ask_unfold this net o w printed)
    by first [exact Hc | rewrite Hm; destruct before; discriminate].
  rewrite AskFacts.resolve_sequential by exact Hmode.
  unfold asked. rewrite Hm.
  destruct (EngineFacts.sequential_skips_failures
              _ "openrouter:chat" OpenRouter.failure_line OpenRouter.all_failed
              before 0 errs Hfail
              (m :: rest) None 0%Z
              (Ctx (Client.lastUsedModel this) (after_attempts printed [] w)))
    as [elapsed Heq].
  rewrite Heq. cbn [Engine.sequential Nat.add].
  assert (Hrun : OpenRouter.attempt (requestTimeoutMs this) (net o)
                                    (length before) m = Hangs).
  { unfold OpenRouter.attempt, await_within. rewrite Hsilent.
    destruct (Z.ltb_spec 0 (requestTimeoutMs this)); [lia | reflexivity]. }
  rewrite Hrun. unfold untimed, finish. cbn [fst snd forget].
  unfold started. cbn [Engine.lastUsedModel env].
  rewrite AskFacts.client_eta.
  f_equal. f_equal.
  replace (firstn (S (length before)) (before ++ m :: rest))
    with (before ++ [m]).
  - rewrite EngineFacts.after_after, EngineFacts.after_send, map_app.
    reflexivity.
  - replace (before ++ m :: rest) with ((before ++ [m]) ++ rest)
      by (now rewrite <- app_assoc).
    assert (Hlen : length (before ++ [m]) = S (length before))
      by (rewrite length_app, Nat.add_comm; reflexivity).
    rewrite <- Hlen, firstn_app, Nat.sub_diag, firstn_all.
    simpl. now rewrite app_nil_r.
Qed.

(** With the timeout switched off, A refused and B silent, the call hangs
    after one failure line and two requests. *)
Lemma unbounded_wait_example :
  let this := Client [Scenario.A; Scenario.B] 0 (JBool false) JNull in
  (requestTimeoutMs this <= 0)%Z
  /\ compose "Ai" Scenario.prompt Scenario.quiet = Composed [] None
  /\ OpenRouter.ask this Scenario.none_answers Scenario.prompt Scenario.quiet
     = (this,
        after_attempts
          [OpenRouter.failure_line Scenario.A (Error (js "x"))]
          (map (Request "openrouter:chat") [Scenario.A; Scenario.B])
          Scenario.quiet,
        Pending).
Proof.
  intros this.
  assert (H : (requestTimeoutMs this <= 0)%Z) by (simpl; lia).
  split; [exact H|]. split; [reflexivity|].
  apply (ask_without_timeout_waits_on_a_silent_model
           this Scenario.none_answers Scenario.prompt Scenario.quiet
           [Scenario.A] [] Scenario.B [Error (js "x")] [] H).
  - left. reflexivity.
  - reflexivity.
  - reflexivity.
  - apply failing_cons with (t := 5%Z); [reflexivity | apply failing_nil].
  - reflexivity.
Defined.

(** X12. An [Ai] built with an API key but only falsy model names (an empty
    primary name and no truthy fallback) is constructed without error and
    has an empty roster; every [ask] on it then throws
    [No AI models configured] at once, sending and printing nothing. *)
Theorem ai_without_model_names_cannot_ask :
  forall (o : options) (net : network ask_options) (q : ask_options)
         (w : world),
    truthy (opt_apiKey o) = true ->
    given (opt_model o) = true ->
    truthy (opt_model o) = false ->
    (forall m, In m (match opt_fallbackModels o with
                     | None => []
                     | Some l => l
                     end) -> truthy m = false) ->
    exists this : client,
      OpenRouter.new o = inr this
      /\ models this = []
      /\ OpenRouter.ask this net q w
         = (this, w, Thrown (Error (js "No AI models configured"))).
Proof.
  intros o net q w Hkey Hgiven Hfalsy Hfb.
  unfold OpenRouter.new, construct. rewrite Hkey. cbn [negb].
  eexists. split; [reflexivity|].
  assert (Hm : build_models OpenRouter.DEFAULT_MODEL (opt_model o)
                            (opt_fallbackModels o) = []).
  { unfold build_models, default_arg. rewrite Hgiven. cbn [filter].
    rewrite Hfalsy. apply MemoryFacts.filter_none. exact Hfb. }
  split; [exact Hm|].
  unfold OpenRouter.ask, OpenRouter.ask_timed. cbn [models]. rewrite Hm.
  reflexivity.
Qed.

(** [new Ai({ apiKey: "k", model: "" })] cannot ask. *)
Lemma nameless_ai_example :
  let o := Options (JStr (js "k")) (JStr []) None None JUndefined in
  exists this : client,
    OpenRouter.new o = inr this
    /\ models this = []
    /\ OpenRouter.ask this Scenario.third_answers Scenario.prompt
                      Scenario.quiet
       = (this, Scenario.quiet, Thrown (Error (js "No AI models configured"))).
Proof.
  intros o.
  apply (ai_without_model_names_cannot_ask
           o Scenario.third_answers Scenario.prompt Scenario.quiet);
    try reflexivity.
  intros m H. destruct H.
Defined.

End AskCases.

(** ** [GroqAi] and [MistralAi] *)

Module SdkCases.

Section Brand.

Variable b : Sdk.brand.

Lemma sdk_ask_unfold (this : client) net o w printed :
  models this <> [] ->
  compose (Sdk.class b) o w = Composed printed None ->
  Sdk.ask b this net o w
  = untimed
      (finish this
         (resolve (Sdk.attempt (requestTimeoutMs this) (net o))
                  (Sdk.sdk b ++ ":chat")%string
                  (Sdk.failure_line b) (Sdk.all_failed b)
                  (firstToFinish this) (models this)
                  (Ctx (Client.lastUsedModel this)
                       (after_attempts printed [] w)))).
Proof.
  intros H Hc. unfold Sdk.ask, Sdk.ask_timed.
  destruct (models this); [contradiction|]. rewrite Hc. simpl.
  now rewrite EngineFacts.print_all_after.
Qed.

Lemma sdk_ask_refused (this : client) net o w printed e :
  models this <> [] ->
  compose (Sdk.class b) o w = Composed printed (Some e) ->
  Sdk.ask b this net o w = (this, after_attempts printed [] w, Thrown e).
Proof.
  intros H Hc. unfold Sdk.ask, Sdk.ask_timed.
  destruct (models this); [contradiction|]. rewrite Hc. simpl.
  now rewrite EngineFacts.print_all_after.
Qed.

Lemma sdk_ask_effects (this : client) (net : network ask_options)
  (o : ask_options) (w : world) :
  exists (n : nat) (printed lines : list log_line),
    (n <= length (models this))%nat
    /\ (length lines <= n)%nat
    /\ snd (fst (Sdk.ask b this net o w))
       = after_attempts (printed ++ lines)
           (asked (Sdk.sdk b ++ ":chat") (models this) n) w
    /\ (models this = [] -> printed = [])
    /\ (models this <> [] -> printed = warned (compose (Sdk.class b) o w))
    /\ (forall e, refused (compose (Sdk.class b) o w) = Some e -> n = 0%nat)
    /\ (refused (compose (Sdk.class b) o w) = None ->
        truthy (firstToFinish this) = true ->
        (1 < length (models this))%nat -> n = length (models this))
    /\ models (fst (fst (Sdk.ask b this net o w))) = models this
    /\ requestTimeoutMs (fst (fst (Sdk.ask b this net o w)))
       = requestTimeoutMs this
    /\ firstToFinish (fst (fst (Sdk.ask b this net o w)))
       = firstToFinish this.
Proof.
  destruct (models this) as [|m0 ms] eqn:E.
  - exists 0%nat, [], []. unfold Sdk.ask, Sdk.ask_timed. rewrite E.
    simpl. rewrite EngineFacts.after_nothing, E.
    repeat split; auto; try congruence; intros; simpl in *; lia.
  - assert (Hne : models this <> []) by (rewrite E; discriminate).
    destruct (compose (Sdk.class b) o w) as [printed [e |]] eqn:Hc.
    + rewrite (sdk_ask_refused this net o w printed e Hne Hc).
      exists 0%nat, printed, []. cbn [fst snd warned refused length].
      rewrite app_nil_r, E.
      split; [lia|]. split; [lia|]. split; [reflexivity|].
      split; [discriminate|]. split; [reflexivity|].
      split; [reflexivity|]. split; [discriminate|]. auto.
    + rewrite (sdk_ask_unfold this net o w printed Hne Hc). rewrite E.
      destruct (StrategyFacts.resolve_effects
                  (Sdk.attempt (requestTimeoutMs this) (net o))
                  (Sdk.sdk b ++ ":chat")%string
                  (Sdk.failure_line b) (Sdk.all_failed b)
                  (firstToFinish this) (m0 :: ms)
                  (Ctx (Client.lastUsedModel this)
                       (after_attempts printed [] w)))
        as [n [lines [Hn [Hl [Heq Hall]]]]].
      exists n, printed, lines. split; [exact Hn|]. split; [exact Hl|].
      split.
      { etransitivity; [exact Heq|].
        exact (EngineFacts.after_after printed lines [] _ w). }
      split; [discriminate|]. split; [reflexivity|].
      split; [discriminate|].
      split; [intros _ Hf Hlen; apply Hall;
              [exact Hf | now apply AskCases.length_not_one]|].
      simpl. auto.
Qed.

Lemma sdk_ask_provenance (this : client) (net : network ask_options)
  (o : ask_options) (w : world) (this' : client) (w' : world)
  (text : jsstring) :
  Sdk.ask b this net o w = (this', w', Returned text) ->
  text <> []
  /\ trimmed text
  /\ exists (k : nat) (resp : jsval),
      nth_error (models this) k = Some (Client.lastUsedModel this')
      /\ answers (requestTimeoutMs this)
                 (net o k (Client.lastUsedModel this')) resp
      /\ text = Sdk.extractText resp.
Proof.
  intros H.
  destruct (models this) as [|m0 ms] eqn:E.
  - unfold Sdk.ask, Sdk.ask_timed in H. rewrite E in H. discriminate.
  - assert (Hroster : models this <> []) by (rewrite E; discriminate).
    destruct (compose (Sdk.class b) o w) as [printed [e |]] eqn:Hc.
    { rewrite (sdk_ask_refused this net o w printed e Hroster Hc) in H.
      discriminate. }
    rewrite (sdk_ask_unfold this net o w printed Hroster Hc) in H.
    rewrite E in H.
    unfold untimed, finish in H. cbn [fst snd] in H.
    injection H as Hthis _ Hres. subst this'. cbn [Client.lastUsedModel].
    apply AnswerFacts.forget_returned in Hres as [t Hres].
    destruct (StrategyFacts.resolve_winner _ _ _ _ _ _ _ _ _ Hres)
      as [k [t' [Hk Hrun]]].
    apply AnswerFacts.sdk_attempt_succeeds in Hrun
      as [resp [E1 [E2 [Hne Et]]]].
    split; [exact Hne|].
    split; [rewrite Et; apply AnswerFacts.sdk_extractText_trimmed|].
    exists k, resp. split; [exact Hk|]. split; [| exact Et].
    exists t'. split; assumption.
Qed.

(** An attempt of [transcribe] succeeds exactly with the trimmed text of a
    response that arrived in time and whose text, before trimming, is a
    non-empty string. *)
Lemma runOnce_succeeds (timeoutMs : Z) (net : nat -> jsval -> reply)
  (k : nat) (m : jsval) (t : Z) (text : jsstring) :
  Sdk.runOnce b timeoutMs net k m = Settles t (inr text)
  <-> exists resp s,
        net k m = Fulfils t resp
        /\ (timeoutMs <= 0 \/ t < timer_delay timeoutMs)%Z
        /\ get resp "text" = JStr s
        /\ s <> []
        /\ text = trim s.
Proof.
  unfold Sdk.runOnce. split.
  - destruct (await_within timeoutMs
                (Sdk.transcription_timed_out b m timeoutMs) (net k m))
      as [t' [e | resp] |] eqn:E; try discriminate.
    apply AnswerFacts.await_answers in E as [E1 E2].
    unfold or_else.
    destruct (get resp "text") as [| | [|] | n | | [|c s] | l | f] eqn:Eg;
      simpl; try discriminate.
    + destruct (n =? 0)%Z eqn:En; simpl; rewrite ?En; simpl; discriminate.
    + intros H. injection H as -> <-. exists resp, (c :: s).
      repeat split; auto. discriminate.
  - intros [resp [s [E1 [E2 [Eg [Hne ->]]]]]].
    rewrite (proj2 (AnswerFacts.await_answers _ _ _ _ _) (conj E1 E2)).
    unfold or_else. rewrite Eg.
    destruct s as [|c s]; [contradiction | reflexivity].
Qed.

End Brand.

(** X13. Whenever [GroqAi.ask] or [MistralAi.ask] returns, in either mode
    and with any timeout, the text is not empty, has no white space at
    either end, and is the [choices[0].message.content] string, trimmed, of
    a response that the model recorded in [lastUsedModel], a model of the
    roster, gave in time to the request of this call. *)
Theorem sdk_ask_returns_what_lastUsedModel_said :
  forall (this : client) (net : network ask_options) (o : ask_options)
         (w : world) (this' : client) (w' : world) (text : jsstring),
    Groq.ask this net o w = (this', w', Returned text)
    \/ Mistral.ask this net o w = (this', w', Returned text) ->
    text <> []
    /\ trimmed text
    /\ exists (k : nat) (resp : jsval),
        nth_error (models this) k = Some (Client.lastUsedModel this')
        /\ answers (requestTimeoutMs this)
                   (net o k (Client.lastUsedModel this')) resp
        /\ text = Sdk.extractText resp.
Proof.
  intros this net o w this' w' text [H | H].
  - exact (sdk_ask_provenance Groq.brand this net o w this' w' text H).
  - exact (sdk_ask_provenance Mistral.brand this net o w this' w' text H).
Qed.

(** With A refusing and B answering [" hi "], [GroqAi.ask] returns ["hi"]
    and records B. *)
Lemma groq_fallback_example :
  let r := Groq.ask Scenario.pair Scenario.second_chooses Scenario.prompt
                    Scenario.quiet in
  r = (fst (fst r), snd (fst r), Returned (js "hi"))
  /\ Client.lastUsedModel (fst (fst r)) = Scenario.B
  /\ js "hi" <> []
  /\ trimmed (js "hi").
Proof.
  intros r.
  assert (H : r = (fst (fst r), snd (fst r), Returned (js "hi")))
    by (vm_compute; reflexivity).
  split; [exact H|]. split; [vm_compute; reflexivity|].
  destruct (sdk_ask_returns_what_lastUsedModel_said
              Scenario.pair Scenario.second_chooses Scenario.prompt
              Scenario.quiet _ _ _ (or_introl H)) as [H1 [H2 _]].
  split; [exact H1 | exact H2].
Defined.

(** X14. Whatever the models answer and in either mode, [GroqAi.ask] and
    [MistralAi.ask] only print and send chat requests to their own SDK.
    With an empty roster they do neither.  Otherwise they first print what
    building the messages warns of; when that building throws, they send
    nothing; when it goes through, they send one request to each model of
    a prefix of the roster, in roster order (the whole roster when
    racing), and print at most one failure line for each request.  The stored history is left alone, and
    the roster, the timeout and the racing flag of the object are
    unchanged. *)
Theorem sdk_ask_only_prints_and_sends :
  forall (this : client) (net : network ask_options) (o : ask_options)
         (w : world),
    (exists (n : nat) (printed lines : list log_line),
        (n <= length (models this))%nat
        /\ (length lines <= n)%nat
        /\ snd (fst (Groq.ask this net o w))
           = after_attempts (printed ++ lines)
                            (asked "groq:chat" (models this) n) w
        /\ (models this = [] -> printed = [])
        /\ (models this <> [] -> printed = warned (compose "GroqAi" o w))
        /\ (forall e, refused (compose "GroqAi" o w) = Some e -> n = 0%nat)
        /\ (refused (compose "GroqAi" o w) = None ->
            truthy (firstToFinish this) = true ->
            (1 < length (models this))%nat -> n = length (models this))
        /\ models (fst (fst (Groq.ask this net o w))) = models this
        /\ requestTimeoutMs (fst (fst (Groq.ask this net o w)))
           = requestTimeoutMs this
        /\ firstToFinish (fst (fst (Groq.ask this net o w)))
           = firstToFinish this)
    /\ (exists (n : nat) (printed lines : list log_line),
          (n <= length (models this))%nat
          /\ (length lines <= n)%nat
          /\ snd (fst (Mistral.ask this net o w))
             = after_attempts (printed ++ lines)
                              (asked "mistral:chat" (models this) n) w
          /\ (models this = [] -> printed = [])
          /\ (models this <> [] ->
              printed = warned (compose "MistralAi" o w))
          /\ (forall e,
                 refused (compose "MistralAi" o w) = Some e -> n = 0%nat)
          /\ (refused (compose "MistralAi" o w) = None ->
              truthy (firstToFinish this) = true ->
              (1 < length (models this))%nat -> n = length (models this))
          /\ models (fst (fst (Mistral.ask this net o w))) = models this
          /\ requestTimeoutMs (fst (fst (Mistral.ask this net o w)))
             = requestTimeoutMs this
          /\ firstToFinish (fst (fst (Mistral.ask this net o w)))
             = firstToFinish this).
Proof.
  intros this net o w.
  pose proof (sdk_ask_effects Groq.brand this net o w) as Hg.
  pose proof (sdk_ask_effects Mistral.brand this net o w) as Hm.
  split; [exact Hg | exact Hm].
Qed.

(** X15. Unlike [ask], [GroqAi.transcribe] tests the text for emptiness
    before it trims it: when the model answers before the timer fires (a
    timer set beyond 2147483647 ms fires after 1 ms) with a text that is
    not empty but made of white space only, the call succeeds and returns
    the empty string, recording the model in [lastUsedModel]. *)
Theorem transcribe_can_return_an_empty_text :
  forall (this : client) (net : network transcribe_options)
         (o : transcribe_options) (w : world) (latency : Z) (resp : jsval)
         (s : jsstring),
    audio_given (file o) = true ->
    truthy (default_arg (model o) (JStr (js "whisper-large-v3-turbo"))) = true ->
    net o 0%nat (default_arg (model o) (JStr (js "whisper-large-v3-turbo")))
    = Fulfils latency resp ->
    (requestTimeoutMs this <= 0
     \/ latency < timer_delay (requestTimeoutMs this))%Z ->
    get resp "text" = JStr s ->
    s <> [] ->
    blank s = true ->
    Groq.transcribe this net o w
    = (Client (models this) (requestTimeoutMs this) (firstToFinish this)
              (default_arg (model o) (JStr (js "whisper-large-v3-turbo"))),
       send (Request "groq:transcription"
                     (default_arg (model o)
                                  (JStr (js "whisper-large-v3-turbo")))) w,
       Returned []).
Proof.
  intros this net o w latency resp s Hfile Hmodel Hnet Htime Htext Hne Hblank.
  unfold Groq.transcribe, Groq.transcribe_timed. rewrite Hfile. cbn [negb].
  unfold Sdk.transcribe_over. cbn [Sdk.default_transcription Groq.brand].
  unfold Sdk.candidates. rewrite Hmodel.
  rewrite AskFacts.resolve_sequential by (right; reflexivity).
  cbn [Engine.sequential].
  assert (Hrun :
    Sdk.runOnce Groq.brand (requestTimeoutMs this) (net o) 0
                (default_arg (model o) (JStr (js "whisper-large-v3-turbo")))
    = Settles latency (inr [])).
  { apply runOnce_succeeds. exists resp, s.
    split; [exact Hnet|]. split; [exact Htime|]. split; [exact Htext|].
    split; [exact Hne|]. symmetry. now apply JsFacts.trim_nil_iff. }
  rewrite Hrun. reflexivity.
Qed.

(** A recording of a pause is transcribed to the empty string. *)
Lemma pause_example :
  Groq.transcribe Scenario.fallback Scenario.hears_a_pause
                  (Scenario.recording JUndefined) Scenario.quiet
  = (Client (models Scenario.fallback) 20000 (JBool false)
            (JStr (js "whisper-large-v3-turbo")),
     send (Request "groq:transcription" (JStr (js "whisper-large-v3-turbo")))
          Scenario.quiet,
     Returned []).
Proof.
  apply (transcribe_can_return_an_empty_text
           Scenario.fallback Scenario.hears_a_pause
           (Scenario.recording JUndefined) Scenario.quiet
           6%Z (JObj [("text"%string, JStr (js "  "))]) (js "  "));
    try reflexivity.
  - right. vm_compute. reflexivity.
  - discriminate.
Defined.

End SdkCases.

(** ** The history-bound classes *)

Module RememberFacts.

Lemma after_attempts_store (lines : list log_line) (sent : list request)
  (w : world) :
  collection (after_attempts lines sent w) = collection w
  /\ next_id (after_attempts lines sent w) = next_id w
  /\ dates_read (after_attempts lines sent w) = dates_read w
  /\ clock (after_attempts lines sent w) = clock w
  /\ newest_first (after_attempts lines sent w) = newest_first w
  /\ db_ops (after_attempts lines sent w) = db_ops w.
Proof. unfold after_attempts. simpl. auto 10. Qed.

Lemma getHistory_store (chatId : jsval) (scope : jsstring) (limit : nat)
  (w : world) :
  let w' := fst (Memory.getHistory chatId scope limit w) in
  collection w' = collection w
  /\ next_id w' = next_id w
  /\ dates_read w' = dates_read w
  /\ clock w' = clock w
  /\ newest_first w' = newest_first w.
Proof.
  unfold Memory.getHistory.
  destruct (negb (truthy chatId) || negb (truthy (JStr scope))); simpl; auto.
Qed.

Lemma sdk_text_not_empty (b : Sdk.brand) (this : client)
  (net : network ask_options) (o : ask_options) (w : world)
  (text : jsstring) :
  snd (Sdk.ask b this net o w) = Returned text -> text <> [].
Proof.
  intros H.
  destruct (Sdk.ask b this net o w) as [[this' w'] res] eqn:E.
  simpl in H. subst res.
  exact (proj1 (SdkCases.sdk_ask_provenance b this net o w this' w' text E)).
Qed.

(** With a truthy content and an answer, both turns pass the filter of
    [appendMessages]. *)
Lemma toPersist_valid (content : jsval) (text : jsstring) :
  truthy content = true -> text <> [] ->
  filter Memory.valid (History.toPersist content text)
  = [JObj [("role"%string, JStr (js "user")); ("content"%string, content)];
     JObj [("role"%string, JStr (js "assistant"));
           ("content"%string, JStr text)]].
Proof.
  intros Hc Ht. unfold History.toPersist.
  destruct text as [|c text]; [contradiction|].
  destruct content; try discriminate;
    simpl; unfold Memory.valid; simpl; simpl in Hc; rewrite ?Hc; reflexivity.
Qed.

Section Bridge.

Variable class : string.
Variable Base : Type.
Variable super_ask
  : Base -> ask_options -> world -> Base * world * outcome jsstring.
Variable format : Memory.turn -> jsval.
Variable forHistory : jsval -> jsval -> jsval.

Hypothesis super_effects :
  forall b o w, exists lines sent,
    snd (fst (super_ask b o w)) = after_attempts lines sent w.

Hypothesis super_text :
  forall b o w text, snd (super_ask b o w) = Returned text -> text <> [].

Local Abbreviation ask := (History.ask class super_ask format forHistory).

(** The world a history-bound [ask] leaves: the one after the read and the
    base call, and what [appendMessages] makes of it when there is an
    answer. *)
Lemma ask_world (this : History.bound Base) (chatId : jsval)
  (system user attachments : jsval) (w : world) :
  truthy chatId = true ->
  exists lines sent,
    let w1 :=
      after_attempts lines sent
        (fst (Memory.getHistory chatId (History.memoryScope this)
                                (History.historyLimit this) w)) in
    snd (fst (ask this chatId system user attachments w))
    = match snd (ask this chatId system user attachments w) with
      | Returned text =>
          Memory.appendMessages chatId (History.memoryScope this)
            (JArr (History.toPersist (forHistory user attachments) text)) w1
      | _ => w1
      end.
Proof.
  intros Hc. unfold History.ask. rewrite Hc. cbn [negb].
  destruct (Memory.getHistory chatId (History.memoryScope this)
                              (History.historyLimit this) w)
    as [w0 hist].
  cbn [fst].
  destruct (composing w0 class system user (map History.entry_value hist)
                      attachments) as [printed [e |]].
  { exists printed, []. cbn [warned refused fst snd].
    now rewrite EngineFacts.print_all_after. }
  cbn [warned refused]. rewrite EngineFacts.print_all_after.
  destruct (super_effects (History.base this)
              (AskOptions system user (map format hist) attachments)
              (after_attempts printed [] w0))
    as [lines [sent Heff]].
  pose proof (super_text (History.base this)
                (AskOptions system user (map format hist) attachments)
                (after_attempts printed [] w0))
    as Htext.
  destruct (super_ask (History.base this)
              (AskOptions system user (map format hist) attachments)
              (after_attempts printed [] w0))
    as [[b w1] res].
  cbn [fst snd] in Heff, Htext. subst w1.
  rewrite EngineFacts.after_after. cbn [app].
  exists (printed ++ lines), sent. cbv zeta.
  destruct res as [text | e |]; cbn [fst snd]; try reflexivity.
  destruct (History.toPersist (forHistory user attachments) text)
    as [|turn turns] eqn:Et;
    [| cbn [fst snd History.memoryScope]; rewrite ?Et; reflexivity].
  exfalso. unfold History.toPersist in Et.
  apply app_eq_nil in Et as [_ Et].
  specialize (Htext text eq_refl).
  destruct text; [contradiction | discriminate].
Qed.

Lemma ask_failure_store (this : History.bound Base) (chatId : jsval)
  (system user attachments : jsval) (w : world) :
  (forall text,
      snd (ask this chatId system user attachments w) <> Returned text) ->
  collection (snd (fst (ask this chatId system user attachments w)))
  = collection w
  /\ next_id (snd (fst (ask this chatId system user attachments w)))
     = next_id w
  /\ dates_read (snd (fst (ask this chatId system user attachments w)))
     = dates_read w.
Proof.
  intros Hfail.
  destruct (truthy chatId) eqn:Hc.
  - destruct (ask_world this chatId system user attachments w Hc)
      as [lines [sent H]]. cbv zeta in H. rewrite H.
    destruct (snd (ask this chatId system user attachments w)) as [text | e |].
    + exfalso. exact (Hfail text eq_refl).
    + destruct (after_attempts_store lines sent
                  (fst (Memory.getHistory chatId (History.memoryScope this)
                                          (History.historyLimit this) w)))
        as [H1 [H2 [H3 _]]].
      destruct (getHistory_store chatId (History.memoryScope this)
                                 (History.historyLimit this) w)
        as [G1 [G2 [G3 _]]].
      cbv zeta in *. rewrite H1, H2, H3. auto.
    + destruct (after_attempts_store lines sent
                  (fst (Memory.getHistory chatId (History.memoryScope this)
                                          (History.historyLimit this) w)))
        as [H1 [H2 [H3 _]]].
      destruct (getHistory_store chatId (History.memoryScope this)
                                 (History.historyLimit this) w)
        as [G1 [G2 [G3 _]]].
      cbv zeta in *. rewrite H1, H2, H3. auto.
  - unfold History.ask. rewrite Hc. simpl. auto.
Qed.

Lemma ask_success_store (this : History.bound Base) (chatId : jsval)
  (system user attachments : jsval) (w : world) (text : jsstring) :
  snd (ask this chatId system user attachments w) = Returned text ->
  truthy (forHistory user attachments) = true ->
  sorts_newest_first w ->
  History.memoryScope this <> [] ->
  (length (Memory.partition (to_String chatId) (History.memoryScope this) w)
   + 2 <= 80)%nat ->
  collection (snd (fst (ask this chatId system user attachments w)))
  = collection w
    ++ [Doc (next_id w) (to_String chatId) (History.memoryScope this)
            (JStr (js "user")) (forHistory user attachments)
            (clock w (dates_read w));
        Doc (S (next_id w)) (to_String chatId) (History.memoryScope this)
            (JStr (js "assistant")) (JStr text)
            (clock w (S (dates_read w)))].
Proof.
  intros Hres Hcontent Hsort Hscope Hfit.
  assert (Hc : truthy chatId = true).
  { destruct (truthy chatId) eqn:E; [reflexivity|].
    unfold History.ask in Hres. rewrite E in Hres. discriminate. }
  assert (Htext : text <> []).
  { unfold History.ask in Hres. rewrite Hc in Hres. cbn [negb] in Hres.
    destruct (Memory.getHistory chatId (History.memoryScope this)
                                (History.historyLimit this) w)
      as [w0 hist].
    destruct (composing w0 class system user (map History.entry_value hist)
                        attachments) as [printed [e |]];
      cbn [warned refused] in Hres; [discriminate|].
    pose proof (super_text (History.base this)
                  (AskOptions system user (map format hist) attachments)
                  (print_all printed w0))
      as Ht.
    destruct (super_ask (History.base this)
                (AskOptions system user (map format hist) attachments)
                (print_all printed w0))
      as [[b w1] res].
    destruct res as [text' | e |]; cbn [snd] in Ht.
    - destruct (History.toPersist (forHistory user attachments) text');
        simpl in Hres; injection Hres as ->; exact (Ht _ eq_refl).
    - discriminate.
    - discriminate. }
  destruct (ask_world this chatId system user attachments w Hc)
    as [lines [sent H]]. cbv zeta in H. rewrite H, Hres.
  set (w1 := after_attempts lines sent
               (fst (Memory.getHistory chatId (History.memoryScope this)
                                       (History.historyLimit this) w))).
  destruct (after_attempts_store lines sent
              (fst (Memory.getHistory chatId (History.memoryScope this)
                                      (History.historyLimit this) w)))
    as [H1 [H2 [H3 [H4 [H5 _]]]]].
  destruct (getHistory_store chatId (History.memoryScope this)
                             (History.historyLimit this) w)
    as [G1 [G2 [G3 [G4 G5]]]].
  cbv zeta in *. fold w1 in H1, H2, H3, H4, H5.
  assert (Hturns :
    filter Memory.valid (History.toPersist (forHistory user attachments) text)
    = [JObj [("role"%string, JStr (js "user"));
             ("content"%string, forHistory user attachments)];
       JObj [("role"%string, JStr (js "assistant"));
             ("content"%string, JStr text)]]).
  { now apply toPersist_valid. }
  rewrite StoreFacts.appendMessages_fits.
  - rewrite Hturns. cbn [fresh_docs get assoc String.eqb].
    rewrite H1, H2, H3, H4, G1, G2, G3, G4. reflexivity.
  - intros l. unfold sorts_newest_first in Hsort. rewrite H5, G5. apply Hsort.
  - exact Hc.
  - exact Hscope.
  - rewrite Hturns. discriminate.
  - rewrite Hturns. unfold Memory.partition. rewrite H1, G1.
    exact Hfit.
Qed.

End Bridge.

Lemma ai_effects (net : network ask_options) (b : client) (o : ask_options)
  (w : world) :
  exists lines sent,
    snd (fst (OpenRouter.ask b net o w)) = after_attempts lines sent w.
Proof.
  exact (AskCases.ask_prints_and_sends b net o w).
Qed.

Lemma sdk_effects (brand : Sdk.brand) (net : network ask_options) (b : client)
  (o : ask_options) (w : world) :
  exists lines sent,
    snd (fst (Sdk.ask brand b net o w)) = after_attempts lines sent w.
Proof.
  destruct (SdkCases.sdk_ask_effects brand b net o w)
    as [n [printed [lines [_ [_ [H _]]]]]].
  eauto.
Qed.

(** X16. When the [ask] of [AiWithHistory], [GroqAiWithHistory] or
    [MistralAiWithHistory] does not return (it throws, or never settles),
    nothing is persisted: the collection holds the documents it held, no
    identifier has been handed out and no date read. *)
Theorem failed_ask_remembers_nothing :
  forall (net : network ask_options) ask,
    In ask [AiWithHistory.ask net; GroqAiWithHistory.ask net;
            MistralAiWithHistory.ask net] ->
    forall (format : Memory.turn -> jsval)
           (forHistory : jsval -> jsval -> jsval)
           (this : History.bound client)
           (chatId system user attachments : jsval) (w : world),
      (forall text,
          snd (ask format forHistory this chatId system user attachments w)
          <> Returned text) ->
      collection
        (snd (fst (ask format forHistory this chatId system user
                       attachments w)))
      = collection w
      /\ next_id
           (snd (fst (ask format forHistory this chatId system user
                          attachments w)))
         = next_id w
      /\ dates_read
           (snd (fst (ask format forHistory this chatId system user
                          attachments w)))
         = dates_read w.
Proof.
  intros net ask [<- | [<- | [<- | []]]] format forHistory this chatId
         system user attachments w Hfail.
  - apply (ask_failure_store "AiWithHistory" client
             (fun b o w => OpenRouter.ask b net o w) format forHistory).
    + intros b o w0. apply ai_effects.
    + intros b o w0 t. apply AskCases.ask_text_not_empty.
    + exact Hfail.
  - apply (ask_failure_store "GroqAiWithHistory" client
             (fun b o w => Groq.ask b net o w) format forHistory).
    + intros b o w0. apply (sdk_effects Groq.brand).
    + intros b o w0 t. apply (sdk_text_not_empty Groq.brand).
    + exact Hfail.
  - apply (ask_failure_store "MistralAiWithHistory" client
             (fun b o w => Mistral.ask b net o w) format forHistory).
    + intros b o w0. apply (sdk_effects Mistral.brand).
    + intros b o w0 t. apply (sdk_text_not_empty Mistral.brand).
    + exact Hfail.
Qed.

(** When no model answers, the chat keeps no trace of the question. *)
Lemma unanswered_question_example :
  let r := AiWithHistory.ask Scenario.none_answers Scenario.stored_content
             Scenario.user_content Scenario.remembering Scenario.chat
             JUndefined (JStr (js "hello")) JUndefined Scenario.quiet in
  (forall text, snd r <> Returned text)
  /\ collection (snd (fst r)) = []
  /\ next_id (snd (fst r)) = 0%nat.
Proof.
  intros r.
  assert (H : forall text, snd r <> Returned text)
    by (intros text; vm_compute; discriminate).
  split; [exact H|].
  destruct (failed_ask_remembers_nothing
              Scenario.none_answers _ (or_introl eq_refl)
              Scenario.stored_content Scenario.user_content
              Scenario.remembering Scenario.chat
              JUndefined (JStr (js "hello")) JUndefined Scenario.quiet H)
    as [H1 [H2 _]].
  split; [exact H1 | exact H2].
Defined.

(** X17. When the [ask] of [AiWithHistory], [GroqAiWithHistory] or
    [MistralAiWithHistory] returns a text, the content kept for the history
    is truthy and the chat is below the ceiling, exactly two documents are
    added to the collection, after those it held: the user's turn, then the
    assistant's turn with the returned text, both under [String(chatId)] and
    the scope of the object, dated by two successive readings of the
    clock. *)
Theorem ask_remembers_the_exchange :
  forall (net : network ask_options) ask,
    In ask [AiWithHistory.ask net; GroqAiWithHistory.ask net;
            MistralAiWithHistory.ask net] ->
    forall (format : Memory.turn -> jsval)
           (forHistory : jsval -> jsval -> jsval)
           (this : History.bound client)
           (chatId system user attachments : jsval) (w : world)
           (text : jsstring),
      snd (ask format forHistory this chatId system user attachments w)
      = Returned text ->
      truthy (forHistory user attachments) = true ->
      sorts_newest_first w ->
      History.memoryScope this <> [] ->
      (length (Memory.partition (to_String chatId)
                                (History.memoryScope this) w)
       + 2 <= 80)%nat ->
      collection
        (snd (fst (ask format forHistory this chatId system user
                       attachments w)))
      = collection w
        ++ [Doc (next_id w) (to_String chatId) (History.memoryScope this)
                (JStr (js "user")) (forHistory user attachments)
                (clock w (dates_read w));
            Doc (S (next_id w)) (to_String chatId) (History.memoryScope this)
                (JStr (js "assistant")) (JStr text)
                (clock w (S (dates_read w)))].
Proof.
  intros net ask [<- | [<- | [<- | []]]] format forHistory this chatId
         system user attachments w text Hres Hcontent Hsort Hscope Hfit.
  - apply (ask_success_store "AiWithHistory" client
             (fun b o w => OpenRouter.ask b net o w) format forHistory);
      try assumption.
    + intros b o w0. apply ai_effects.
    + intros b o w0 t. apply AskCases.ask_text_not_empty.
  - apply (ask_success_store "GroqAiWithHistory" client
             (fun b o w => Groq.ask b net o w) format forHistory);
      try assumption.
    + intros b o w0. apply (sdk_effects Groq.brand).
    + intros b o w0 t. apply (sdk_text_not_empty Groq.brand).
  - apply (ask_success_store "MistralAiWithHistory" client
             (fun b o w => Mistral.ask b net o w) format forHistory);
      try assumption.
    + intros b o w0. apply (sdk_effects Mistral.brand).
    + intros b o w0 t. apply (sdk_text_not_empty Mistral.brand).
Qed.

(** The first exchange of a chat: the question, then the answer. *)
Lemma first_exchange_example :
  let r := AiWithHistory.ask Scenario.third_answers Scenario.stored_content
             Scenario.user_content Scenario.remembering Scenario.chat
             JUndefined (JStr (js "hello")) JUndefined Scenario.quiet in
  snd r = Returned (js "hi")
  /\ collection (snd (fst r))
     = [Doc 0 (js "chat-1") (js "default") (JStr (js "user"))
            (JStr (js "hello")) 0;
        Doc 1 (js "chat-1") (js "default") (JStr (js "assistant"))
            (JStr (js "hi")) 1].
Proof.
  intros r.
  assert (H : snd r = Returned (js "hi")) by (vm_compute; reflexivity).
  split; [exact H|].
  apply (ask_remembers_the_exchange
           Scenario.third_answers _ (or_introl eq_refl)
           Scenario.stored_content Scenario.user_content
           Scenario.remembering Scenario.chat
           JUndefined (JStr (js "hello")) JUndefined Scenario.quiet
           (js "hi") H).
  - reflexivity.
  - apply MemoryFacts.empty_world_sorts.
  - discriminate.
  - simpl. lia.
Defined.

End RememberFacts.

(** ** [MultiProviderAi] *)

Module ProviderFacts.

Lemma provider_eqb_eq (p q : Multi.provider) :
  Multi.provider_eqb p q = true <-> p = q.
Proof. destruct p, q; simpl; split; intros H; congruence. Qed.

Lemma provider_eqb_refl (p : Multi.provider) : Multi.provider_eqb p p = true.
Proof. now destruct p. Qed.

Lemma provider_eqb_neq (p q : Multi.provider) :
  Multi.provider_eqb p q = false <-> p <> q.
Proof. destruct p, q; simpl; split; intros H; congruence. Qed.

Lemma client_of_In (p : Multi.provider) (cs : list (Multi.provider * client)) :
  (exists c, Multi.client_of p cs = Some c) <-> In p (map fst cs).
Proof.
  induction cs as [|[q c] cs IH]; simpl.
  - split; [intros [c H]; discriminate | contradiction].
  - destruct (Multi.provider_eqb q p) eqn:E.
    + apply provider_eqb_eq in E. subst q. split; [auto | eauto].
    + apply provider_eqb_neq in E. rewrite IH. split; [auto|].
      intros [H | H]; [contradiction | exact H].
Qed.

Lemma set_client_same (p : Multi.provider) (c : client)
  (cs : list (Multi.provider * client)) :
  Multi.client_of p (Multi.set_client p c cs) = Some c.
Proof.
  induction cs as [|[q old] cs IH]; simpl.
  - now rewrite provider_eqb_refl.
  - destruct (Multi.provider_eqb q p) eqn:E; simpl; rewrite E; auto.
Qed.

Lemma set_client_other (p q : Multi.provider) (c : client)
  (cs : list (Multi.provider * client)) :
  p <> q ->
  Multi.client_of q (Multi.set_client p c cs) = Multi.client_of q cs.
Proof.
  intros Hne. induction cs as [|[r old] cs IH]; simpl.
  - apply provider_eqb_neq in Hne. now rewrite Hne.
  - destruct (Multi.provider_eqb r p) eqn:E; simpl.
    + apply provider_eqb_eq in E. subst r.
      apply provider_eqb_neq in Hne. now rewrite Hne.
    + now rewrite IH.
Qed.

Lemma set_client_keys (p : Multi.provider) (c : client)
  (cs : list (Multi.provider * client)) :
  map fst (Multi.set_client p c cs)
  = if existsb (Multi.provider_eqb p) (map fst cs)
    then map fst cs else map fst cs ++ [p].
Proof.
  induction cs as [|[q old] cs IH]; simpl; [reflexivity|].
  destruct (Multi.provider_eqb q p) eqn:E.
  - apply provider_eqb_eq in E. subst q. now rewrite provider_eqb_refl.
  - assert (E' : Multi.provider_eqb p q = false).
    { apply provider_eqb_neq. apply provider_eqb_neq in E. congruence. }
    rewrite E'. simpl. rewrite IH.
    now destruct (existsb (Multi.provider_eqb p) (map fst cs)).
Qed.

Lemma set_client_NoDup (p : Multi.provider) (c : client)
  (cs : list (Multi.provider * client)) :
  NoDup (map fst cs) -> NoDup (map fst (Multi.set_client p c cs)).
Proof.
  intros H. rewrite set_client_keys.
  destruct (existsb (Multi.provider_eqb p) (map fst cs)) eqn:E; [exact H|].
  apply NoDup_app; [exact H | repeat constructor; intros [] |].
  intros x Hx [Hp | []]. subst x.
  assert (existsb (Multi.provider_eqb p) (map fst cs) = true).
  { apply existsb_exists. exists p. split; [exact Hx | apply provider_eqb_refl]. }
  congruence.
Qed.

Section Constructor.

Variables model fallbackModels : jsval.
Variable timeout : Z.
Variable flag : jsval.
Hypothesis flag_given : given flag = true.

Local Abbreviation configure :=
  (Multi.configure model fallbackModels timeout flag).

Lemma default_model_truthy (p : Multi.provider) :
  truthy (Multi.default_class_model p) = true.
Proof. now destruct p. Qed.

Lemma inherited_not_provider (name : string) (p : Multi.provider) :
  Multi.config_of name = Some p -> Multi.inherited name = false.
Proof.
  unfold Multi.config_of.
  destruct (String.eqb_spec name "openrouter") as [-> |]; [reflexivity|].
  destruct (String.eqb_spec name "mistral") as [-> |]; [reflexivity|].
  destruct (String.eqb_spec name "groq") as [-> |]; [reflexivity|].
  discriminate.
Qed.

(** One turn of the loop: a falsy key or an unknown name changes nothing,
    unless the name is an inherited one, on which the turn throws;
    otherwise the provider's client is set to a configured one. *)
Lemma configure_step (cs : list (Multi.provider * client))
  (name : string) (apiKey : jsval) :
  (configure cs (name, apiKey) = inr cs
   /\ stumbles (name, apiKey) = false
   /\ (truthy apiKey = false \/ Multi.config_of name = None))
  \/ (configure cs (name, apiKey) = inl TypeError
      /\ stumbles (name, apiKey) = true)
  \/ (exists p c,
        truthy apiKey = true
        /\ stumbles (name, apiKey) = false
        /\ Multi.config_of name = Some p
        /\ configured timeout flag c
        /\ configure cs (name, apiKey) = inr (Multi.set_client p c cs)).
Proof.
  unfold Multi.configure, stumbles. cbn [fst snd].
  destruct (truthy apiKey) eqn:Hk; cbn [negb andb]; [| left; auto].
  destruct (Multi.config_of name) as [p|] eqn:Hp.
  2:{ destruct (Multi.inherited name); [right; left | left]; auto. }
  right. right. unfold construct. cbn [opt_apiKey]. rewrite Hk. cbn [negb].
  eexists p, _. split; [reflexivity|].
  split; [exact (inherited_not_provider name p Hp)|].
  split; [reflexivity|].
  split; [| reflexivity].
  unfold configured. cbn [models Client.requestTimeoutMs Client.firstToFinish
                          Client.lastUsedModel opt_model opt_fallbackModels
                          opt_requestTimeoutMs opt_firstToFinish].
  split; [| split; [reflexivity | split; [| reflexivity]]].
  - unfold build_models, default_arg.
    match goal with
    | |- context [if ?b then get model "name" else JUndefined] =>
        destruct b eqn:Eb
    end.
    + apply andb_true_iff in Eb as [_ Eb].
      destruct (get model "name") as [| | | | | [|ch s] | |];
        discriminate.
    + simpl. rewrite default_model_truthy. discriminate.
  - unfold default_arg. now rewrite flag_given.
Qed.

Local Abbreviation configure_each :=
  (Multi.configure_each model fallbackModels timeout flag).

(** The loop stops with a [TypeError] at the first entry it stumbles on. *)
Lemma configure_stumbles (es : list (string * jsval)) :
  forall cs : list (Multi.provider * client),
    existsb stumbles es = true -> configure_each es cs = inl TypeError.
Proof.
  induction es as [|[name k] es IH]; intros cs H; [discriminate|].
  cbn [Multi.configure_each].
  destruct (configure_step cs name k)
    as [[Heq [Hs _]] | [[Heq Hs] | [p [c [_ [Hs [_ [_ Heq]]]]]]]];
    rewrite Heq; [| reflexivity |];
    cbn [existsb] in H; rewrite Hs in H; apply IH; exact H.
Qed.

Lemma configure_all (es : list (string * jsval)) :
  forall cs : list (Multi.provider * client),
    existsb stumbles es = false ->
    NoDup (map fst cs) ->
    (forall p c, Multi.client_of p cs = Some c -> configured timeout flag c) ->
    exists cs' : list (Multi.provider * client),
      configure_each es cs = inr cs'
      /\ NoDup (map fst cs')
      /\ (forall p c, Multi.client_of p cs' = Some c ->
                      configured timeout flag c)
      /\ (forall p,
            In p (map fst cs')
            <-> In p (map fst cs)
                \/ exists name k,
                    In (name, k) es
                    /\ Multi.config_of name = Some p
                    /\ truthy k = true).
Proof.
  induction es as [|[name k] es IH]; intros cs Hno Hnd Hall.
  - exists cs. simpl. split; [reflexivity|]. split; [exact Hnd|].
    split; [exact Hall|].
    intros p. split; [auto|]. intros [H | [n [k [[] _]]]]. exact H.
  - cbn [Multi.configure_each]. cbn [existsb] in Hno.
    apply orb_false_iff in Hno as [Hhere Hrest].
    destruct (configure_step cs name k)
      as [[Heq [_ Hskip]] | [[_ Hs] | [p [c [Hk [_ [Hp [Hc Heq]]]]]]]];
      [| congruence |]; rewrite Heq.
    + destruct (IH cs Hrest Hnd Hall) as [cs' [H0 [H1 [H2 H3]]]].
      exists cs'. split; [exact H0|].
      split; [exact H1|]. split; [exact H2|].
      intros q. rewrite H3. split.
      * intros [H | [n [k' [Hin Hq]]]]; [auto|].
        right. exists n, k'. split; [now right | exact Hq].
      * intros [H | [n [k' [[Hin | Hin] [Hq Hk']]]]]; [auto | |].
        -- injection Hin as <- <-. destruct Hskip; congruence.
        -- right. eauto.
    + destruct (IH (Multi.set_client p c cs) Hrest)
        as [cs' [H0 [H1 [H2 H3]]]].
      * now apply set_client_NoDup.
      * intros q c' Hq. destruct (Multi.provider_eqb p q) eqn:E.
        -- apply provider_eqb_eq in E. subst q.
           rewrite set_client_same in Hq. injection Hq as <-. exact Hc.
        -- apply provider_eqb_neq in E.
           rewrite (set_client_other _ _ _ _ E) in Hq. eauto.
      * exists cs'. split; [exact H0|].
        split; [exact H1|]. split; [exact H2|].
        intros q. rewrite H3, set_client_keys. split.
        -- intros [H | [n [k' [Hin Hq]]]].
           ++ destruct (existsb (Multi.provider_eqb p) (map fst cs)); [auto|].
              apply in_app_or in H as [H | [<- | []]]; [auto|].
              right. exists name, k. split; [now left | auto].
           ++ right. exists n, k'. split; [now right | exact Hq].
        -- intros [H | [n [k' [[Hin | Hin] [Hq Hk']]]]].
           ++ left. destruct (existsb (Multi.provider_eqb p) (map fst cs));
                [exact H | apply in_or_app; now left].
           ++ injection Hin as <- <-. left.
              assert (q = p) by congruence. subst q.
              destruct (existsb (Multi.provider_eqb p) (map fst cs)) eqn:E.
              ** apply existsb_exists in E as [x [Hx E]].
                 apply provider_eqb_eq in E. now subst x.
              ** apply in_or_app. right. now left.
           ++ right. eauto.
Qed.

End Constructor.

(** The preferred provider followed by the others is the list of providers
    in another order. *)
Lemma preferred_first (p : Multi.provider) (l : list Multi.provider) :
  NoDup l -> In p l ->
  Permutation (p :: filter (fun q => negb (Multi.provider_eqb q p)) l) l.
Proof.
  induction l as [|x l IH]; intros Hnd Hin; [contradiction|].
  inversion Hnd as [|? ? Hx Hl]; subst. simpl.
  destruct (Multi.provider_eqb x p) eqn:E; simpl.
  - apply provider_eqb_eq in E. subst x. apply perm_skip.
    rewrite MemoryFacts.filter_all; [apply Permutation_refl|].
    intros y Hy. apply negb_true_iff, provider_eqb_neq. congruence.
  - destruct Hin as [-> | Hin].
    + now rewrite provider_eqb_refl in E.
    + eapply perm_trans; [apply perm_swap|]. apply perm_skip. now apply IH.
Qed.

Lemma default_arg_given (x d : jsval) :
  given d = true -> given (default_arg x d) = true.
Proof. unfold default_arg. destruct (given x) eqn:E; auto. Qed.

Lemma new_unfold (fields : list (string * jsval))
  (model fallbackModels : jsval) (timeoutMs : option Z) (flag : jsval) :
  exists model' fallbackModels',
    Multi.new (JObj fields) model fallbackModels timeoutMs flag
    = match Multi.configure_each model' fallbackModels'
              (match timeoutMs with None => 20000%Z | Some t => t end)
              (default_arg flag (JBool false)) fields [] with
      | inl e => inl e
      | inr clients =>
          inr (Multi.Make
                 (match timeoutMs with None => 20000%Z | Some t => t end)
                 (default_arg flag (JBool false))
                 (if Multi.is_object model' then get model' "provider"
                  else JUndefined)
                 clients JNull)
      end.
Proof. eexists _, _. reflexivity. Qed.

(** X18. The constructor of [MultiProviderAi], given an object of API
    keys, throws a [TypeError] when some entry has a truthy key under a
    name that every object inherits ([constructor], [toString], ...).
    Otherwise it does not throw; it builds exactly one client for each
    provider that has a truthy key under its name ([openrouter], [mistral]
    or [groq]) and none for any other entry; every client it builds has a
    roster that is not empty and carries the timeout and the
    [firstToFinish] flag of the object; [lastUsedModel] starts as null. *)
Theorem constructor_builds_one_client_per_key :
  forall (fields : list (string * jsval)) (model fallbackModels : jsval)
         (timeoutMs : option Z) (flag : jsval),
    (existsb stumbles fields = true ->
     Multi.new (JObj fields) model fallbackModels timeoutMs flag
     = inl TypeError)
    /\ (existsb stumbles fields = false ->
        exists this : Multi.MultiProviderAi,
          Multi.new (JObj fields) model fallbackModels timeoutMs flag
          = inr this
          /\ NoDup (map fst (Multi.clients this))
          /\ (forall p,
                In p (map fst (Multi.clients this))
                <-> exists name k,
                      In (name, k) fields
                      /\ Multi.config_of name = Some p
                      /\ truthy k = true)
          /\ (forall p c,
                Multi.client_of p (Multi.clients this) = Some c ->
                configured (Multi.requestTimeoutMs this)
                           (Multi.firstToFinish this) c)
          /\ Multi.requestTimeoutMs this
             = match timeoutMs with None => 20000%Z | Some t => t end
          /\ Multi.firstToFinish this = default_arg flag (JBool false)
          /\ Multi.lastUsedModel this = JNull).
Proof.
  intros fields model fallbackModels timeoutMs flag.
  destruct (new_unfold fields model fallbackModels timeoutMs flag)
    as [model' [fb' Hnew]].
  split; intros Hs.
  - rewrite Hnew.
    now rewrite (configure_stumbles model' fb' _ _
                   (default_arg_given flag (JBool false) eq_refl)
                   fields [] Hs).
  - destruct (configure_all model' fb'
                (match timeoutMs with None => 20000%Z | Some t => t end)
                (default_arg flag (JBool false))
                (default_arg_given flag (JBool false) eq_refl)
                fields [] Hs (NoDup_nil _))
      as [cs' [H0 [H1 [H2 H3]]]].
    { intros p c H. discriminate. }
    rewrite H0 in Hnew.
    eexists. split; [exact Hnew|].
    cbn [Multi.clients Multi.requestTimeoutMs Multi.firstToFinish
         Multi.lastUsedModel].
    split; [exact H1|]. split.
    + intros p. rewrite H3. simpl. split; [intros [[] | H]; exact H | auto].
    + split; [exact H2 | auto].
Qed.

(** [new MultiProviderAi({ apiKeys: { groq: "g", constructor: "k" } })]
    throws, and without the second entry it has one client, for Groq. *)
Lemma inherited_key_example :
  Multi.new (JObj [("groq"%string, JStr (js "g"));
                   ("constructor"%string, JStr (js "k"))])
            JUndefined JUndefined None JUndefined
  = inl TypeError
  /\ exists this : Multi.MultiProviderAi,
      Multi.new (JObj [("groq"%string, JStr (js "g"))])
                JUndefined JUndefined None JUndefined
      = inr this
      /\ map fst (Multi.clients this) = [Multi.groq].
Proof.
  split.
  - exact (proj1 (constructor_builds_one_client_per_key
                    [("groq"%string, JStr (js "g"));
                     ("constructor"%string, JStr (js "k"))]
                    JUndefined JUndefined None JUndefined) eq_refl).
  - destruct (proj2 (constructor_builds_one_client_per_key
                       [("groq"%string, JStr (js "g"))]
                       JUndefined JUndefined None JUndefined) eq_refl)
      as [this [Hnew _]].
    exists this. split; [exact Hnew|].
    vm_compute in Hnew. injection Hnew as <-. reflexivity.
Defined.

(** X19. On an object whose clients have distinct providers (as the
    constructor builds them), [getOrderedProviders] lists every configured
    provider exactly once; the primary provider comes first when it is
    configured, followed by the others in configuration order; when it is
    not one of the configured providers the order is the configuration
    order. *)
Theorem ordered_providers_put_the_primary_first :
  forall this : Multi.MultiProviderAi,
    NoDup (map fst (Multi.clients this)) ->
    Permutation (Multi.getOrderedProviders this)
                (map fst (Multi.clients this))
    /\ (forall p,
          Multi.named (Multi.primaryProvider this) = Some p ->
          In p (map fst (Multi.clients this)) ->
          Multi.getOrderedProviders this
          = p :: filter (fun q => negb (Multi.provider_eqb q p))
                        (map fst (Multi.clients this)))
    /\ ((forall p, Multi.named (Multi.primaryProvider this) = Some p ->
                   ~ In p (map fst (Multi.clients this))) ->
        Multi.getOrderedProviders this = map fst (Multi.clients this)).
Proof.
  intros this Hnd. unfold Multi.getOrderedProviders.
  destruct (map fst (Multi.clients this)) as [|first rest] eqn:E.
  - split; [apply perm_nil|]. split; [intros p _ []| reflexivity].
  - assert (Hfirst :
      first :: filter (fun q => negb (Multi.provider_eqb q first))
                      (first :: rest)
      = first :: rest).
    { simpl. rewrite provider_eqb_refl. simpl. f_equal.
      inversion Hnd as [|? ? Hx Hl]; subst.
      apply MemoryFacts.filter_all.
      intros y Hy. apply negb_true_iff, provider_eqb_neq. congruence. }
    destruct (Multi.named (Multi.primaryProvider this)) as [p|] eqn:Hp.
    + destruct (existsb (Multi.provider_eqb p) (first :: rest)) eqn:Hin.
      * assert (Hin' : In p (first :: rest)).
        { apply existsb_exists in Hin as [x [Hx Ex]].
          apply provider_eqb_eq in Ex. now subst x. }
        split; [now apply preferred_first|].
        split.
        -- intros q Hq _. injection Hq as <-. reflexivity.
        -- intros H. exfalso. exact (H p eq_refl Hin').
      * rewrite Hfirst. split; [apply Permutation_refl|].
        split; [| reflexivity].
        intros q Hq Hin'. injection Hq as <-. exfalso.
        assert (existsb (Multi.provider_eqb p) (first :: rest) = true).
        { apply existsb_exists. exists p.
          split; [exact Hin' | apply provider_eqb_refl]. }
        congruence.
    + rewrite Hfirst. split; [apply Permutation_refl|].
      split; [intros q Hq; discriminate | reflexivity].
Qed.

(** With Groq and Mistral configured and Mistral primary, Mistral is asked
    first. *)
Lemma moderator_order_example :
  NoDup (map fst (Multi.clients Scenario.moderator))
  /\ Multi.getOrderedProviders Scenario.moderator
     = [Multi.mistral; Multi.groq].
Proof.
  assert (H : NoDup (map fst (Multi.clients Scenario.moderator))).
  { simpl. repeat constructor; simpl; intuition discriminate. }
  split; [exact H|].
  destruct (ordered_providers_put_the_primary_first Scenario.moderator H)
    as [_ [Hp _]].
  rewrite (Hp Multi.mistral eq_refl); [reflexivity|].
  simpl. auto.
Defined.

Lemma no_clients (model fallbackModels : jsval) (timeout : Z) (flag : jsval)
  (es : list (string * jsval)) :
  (forall name k, In (name, k) es ->
                  truthy k = false
                  \/ (Multi.config_of name = None
                      /\ Multi.inherited name = false)) ->
  Multi.configure_each model fallbackModels timeout flag es [] = inr [].
Proof.
  induction es as [|[name k] es IH]; intros H; [reflexivity|].
  cbn [Multi.configure_each].
  assert (E : Multi.configure model fallbackModels timeout flag [] (name, k)
              = inr []).
  { unfold Multi.configure.
    destruct (H name k (or_introl eq_refl)) as [Hk | [Hn Hi]].
    - now rewrite Hk.
    - rewrite Hn, Hi. now destruct (negb (truthy k)). }
  rewrite E. apply IH. intros n k' Hin. apply H. now right.
Qed.

(** X20. A [MultiProviderAi] built from keys of which none is usable (each
    is falsy, or stands under a name that is neither a provider nor a
    property every object inherits) is constructed without error but has
    no client: every [ask] throws
    [No AI providers configured for MultiProviderAi], and every [classify]
    with inputs throws [No providers with classify() configured for
    MultiProviderAi], without a request or a printed line. *)
Theorem without_usable_key_nothing_can_be_asked :
  forall (fields : list (string * jsval)) (model fallbackModels : jsval)
         (timeoutMs : option Z) (flag : jsval),
    (forall name k, In (name, k) fields ->
                    truthy k = false
                    \/ (Multi.config_of name = None
                        /\ Multi.inherited name = false)) ->
    exists this : Multi.MultiProviderAi,
      Multi.new (JObj fields) model fallbackModels timeoutMs flag = inr this
      /\ Multi.clients this = []
      /\ (forall nets o w,
            Multi.ask this nets o w = (this, w, Thrown Multi.no_providers))
      /\ (forall moderate inputs opts w,
            Mistral.no_inputs inputs = false ->
            Multi.classify this moderate inputs opts w
            = (this, w, Thrown Multi.no_classifier)).
Proof.
  intros fields model fallbackModels timeoutMs flag Hkeys.
  destruct (new_unfold fields model fallbackModels timeoutMs flag)
    as [model' [fb' Hnew]].
  rewrite (no_clients _ _ _ _ fields Hkeys) in Hnew.
  eexists. split; [exact Hnew|]. split; [reflexivity|]. split.
  - intros nets o w. reflexivity.
  - intros moderate inputs opts w Hin.
    unfold Multi.classify, Multi.classify_timed. rewrite Hin. reflexivity.
Qed.

(** [new MultiProviderAi({ apiKeys: { openrouter: "", other: "k" } })]. *)
Lemma keyless_example :
  exists this : Multi.MultiProviderAi,
    Multi.new (JObj [("openrouter"%string, JStr []);
                     ("other"%string, JStr (js "k"))])
              JUndefined JUndefined None JUndefined
    = inr this
    /\ Multi.clients this = []
    /\ Multi.ask this (fun _ => Scenario.third_answers) Scenario.prompt
                 Scenario.quiet
       = (this, Scenario.quiet, Thrown Multi.no_providers).
Proof.
  destruct (without_usable_key_nothing_can_be_asked
              [("openrouter"%string, JStr []); ("other"%string, JStr (js "k"))]
              JUndefined JUndefined None JUndefined)
    as [this [H1 [H2 [H3 _]]]].
  - intros name k [H | [H | []]]; injection H as <- <-;
      [left | right; split]; reflexivity.
  - exists this. split; [exact H1|]. split; [exact H2 | apply H3].
Defined.

End ProviderFacts.

(** ** [MistralAi.classify] *)

Module VerdictFacts.

Lemma verdict_of_verdict (r : jsval) : verdict (verdict_of r).
Proof.
  unfold verdict, verdict_of, or_else. simpl.
  destruct (truthy (get r "categories")) eqn:E1,
           (truthy (get r "category_scores")) eqn:E2; auto.
Qed.

Lemma mapped_result_verdict (r x : jsval) :
  Mistral.mapped_result r = inr x -> x = verdict_of r.
Proof.
  unfold Mistral.mapped_result.
  destruct r; try discriminate; intros H; injection H as <-; reflexivity.
Qed.

Lemma mapped_results_verdicts (rs : list jsval) :
  forall xs, Mistral.mapped_results rs = inr xs -> xs = map verdict_of rs.
Proof.
  induction rs as [|r rs IH]; intros xs H; simpl in H.
  - injection H as <-. reflexivity.
  - destruct (Mistral.mapped_result r) as [e | x] eqn:Er; [discriminate|].
    destruct (Mistral.mapped_results rs) as [e | xs'] eqn:Ers; [discriminate|].
    injection H as <-. simpl.
    now rewrite (mapped_result_verdict r x Er), (IH xs' eq_refl).
Qed.

(** X21. Whenever [MistralAi.classify] returns, it has sent exactly one
    moderation request, the response came before the timer fired, and what
    it returns is made of the results of that response: for an array of
    inputs, the array of their verdicts, in order; for a single input, the
    verdict of the first result, or the empty verdict when there is none.
    The verdict of a result holds its [categories] and its
    [category_scores], an empty object standing for one that is falsy, so
    that both fields of every verdict returned are truthy. *)
Theorem classify_returns_verdicts :
  forall (this : client) (moderate : jsval -> jsval -> reply)
         (inputs : jsval) (o : Mistral.classify_options) (w w' : world)
         (t : Z) (result : jsval),
    Mistral.classify_timed this moderate inputs o w
    = (w', Settles t (inr result)) ->
    w' = send (moderation_request o) w
    /\ (exists (resp : jsval) (rs : list jsval),
          answers (match Mistral.moderation_timeout o with
                   | Some limit => limit
                   | None => requestTimeoutMs this
                   end)
                  (moderate (default_arg (Mistral.moderation_model o)
                                         (JStr (js "mistral-moderation-latest")))
                            (if isArray inputs then inputs else JArr [inputs]))
                  resp
          /\ or_else (get resp "results") (JArr []) = JArr rs
          /\ result = if isArray inputs then JArr (map verdict_of rs)
                      else match rs with
                           | first :: _ => verdict_of first
                           | [] => no_verdict
                           end)
    /\ if isArray inputs
       then exists l, result = JArr l /\ Forall verdict l
       else verdict result.
Proof.
  intros this moderate inputs o w w' t result.
  unfold Mistral.classify_timed.
  destruct (Mistral.no_inputs inputs); [discriminate|]. cbv zeta.
  destruct (await_within _ _ _) as [t' [e | resp] |] eqn:Ea;
    try discriminate.
  apply AnswerFacts.await_answers in Ea.
  destruct (Mistral.moderation (isArray inputs) resp) as [e | res] eqn:Em;
    [discriminate|].
  intros H. injection H as <- _ <-. split; [reflexivity|].
  unfold Mistral.moderation in Em.
  assert (Hcases :
    match or_else (get resp "results") (JArr []) with
    | JArr rs =>
        match Mistral.mapped_results rs with
        | inl e => inl e
        | inr mapped =>
            if isArray inputs then inr (JArr mapped)
            else
              match mapped with
              | first :: _ => inr first
              | [] =>
                  inr (JObj [("categories"%string, Mistral.empty_object);
                             ("scores"%string, Mistral.empty_object)])
              end
        end
    | _ => inl TypeError
    end = inr res).
  { destruct resp; try discriminate; exact Em. }
  clear Em.
  destruct (or_else (get resp "results") (JArr [])) as [| | | | | | rs |]
    eqn:Eres; try discriminate.
  destruct (Mistral.mapped_results rs) as [e | mapped] eqn:Er;
    [discriminate|].
  apply mapped_results_verdicts in Er. subst mapped.
  assert (Hall : Forall verdict (map verdict_of rs)).
  { apply Forall_forall. intros x Hx. apply in_map_iff in Hx as [r [<- _]].
    apply verdict_of_verdict. }
  assert (Hres :
    res = if isArray inputs then JArr (map verdict_of rs)
          else match rs with
               | first :: _ => verdict_of first
               | [] => no_verdict
               end).
  { destruct (isArray inputs); [injection Hcases as <-; reflexivity|].
    destruct rs; simpl in Hcases; injection Hcases as <-; reflexivity. }
  split.
  - exists resp, rs. split; [| split; [exact Eres | exact Hres]].
    exists t'. exact Ea.
  - rewrite Hres. destruct (isArray inputs); [eauto|].
    destruct rs as [|first rest]; [split; reflexivity|].
    apply verdict_of_verdict.
Qed.

(** A single text gets a single verdict with empty categories. *)
Lemma single_verdict_example :
  Mistral.classify_timed Scenario.fallback Scenario.flags_nothing
                         (JStr (js "text")) Scenario.moderation_defaults
                         Scenario.quiet
  = (send (moderation_request Scenario.moderation_defaults) Scenario.quiet,
     Settles 4 (inr (JObj [("categories"%string, JObj []);
                           ("scores"%string, JObj [])])))
  /\ verdict (JObj [("categories"%string, JObj []);
                    ("scores"%string, JObj [])]).
Proof.
  assert (H : Mistral.classify_timed Scenario.fallback Scenario.flags_nothing
                (JStr (js "text")) Scenario.moderation_defaults
                Scenario.quiet
              = (send (moderation_request Scenario.moderation_defaults)
                      Scenario.quiet,
                 Settles 4 (inr (JObj [("categories"%string, JObj []);
                                       ("scores"%string, JObj [])]))))
    by reflexivity.
  split; [exact H|].
  exact (proj2 (proj2 (classify_returns_verdicts _ _ _ _ _ _ _ _ H))).
Defined.

End VerdictFacts.

(** ** What is printed when a call fails *)

Module LogFacts.

Section Lines.

Variable run : nat -> jsval -> settlement jsstring.
Variable api : string.
Variable failure_line : jsval -> error -> log_line.
Variable all_failed : error.

Lemma started_console (m : jsval) (c : ctx) :
  console (env (started api m c)) = console (env c).
Proof. reflexivity. Qed.

(** When sequential mode throws after trying a model, the last line printed
    is the line of the error thrown. *)
Lemma sequential_thrown_line (models : list jsval) :
  forall (k : nat) (lastErr : option error) (elapsed : Z) (c : ctx)
         (t : Z) (e : error),
    snd (sequential run api failure_line all_failed k models lastErr elapsed c)
    = Settles t (inl e) ->
    (models = [] /\ e = last_or lastErr all_failed)
    \/ exists lines m,
        console (env (fst (sequential run api failure_line all_failed
                                      k models lastErr elapsed c)))
        = console (env c) ++ lines ++ [failure_line m e].
Proof.
  induction models as [|m models IH]; intros k lastErr elapsed c t e H.
  - left. simpl in H. injection H as _ <-. auto.
  - right. cbn [Engine.sequential] in *.
    destruct (run k m) as [t0 [e0 | text] |]; try discriminate.
    destruct (IH _ _ _ _ _ _ H) as [[-> ->] | [lines [m' Hl]]].
    + exists [], m. reflexivity.
    + exists (failure_line m e0 :: lines), m'. rewrite Hl.
      unfold caught, started, say, send. simpl. now rewrite <- app_assoc.
Qed.

(** The same when a race is lost: the rejection comes with the last
    completion, whose line has just been printed. *)
Lemma race_thrown_line (evs : list completion) :
  forall (st : race) (t : Z) (e : error),
    settled st = false -> promise st = Hangs ->
    (Z.of_nat (length evs) <= remaining st)%Z ->
    promise (completions failure_line all_failed st evs) = Settles t (inl e) ->
    exists lines m,
      console (env (self (completions failure_line all_failed st evs)))
      = console (env (self st)) ++ lines ++ [failure_line m e].
Proof.
  induction evs as [|[now [m [e0 | text]]] evs IH]; intros st t e Hs Hp Hlen H.
  - simpl in H. rewrite Hp in H. discriminate.
  - cbn [Engine.completions fold_left] in *.
    destruct (Z.eq_dec (remaining st - 1) 0) as [Hr | Hr].
    + assert (evs = []).
      { destruct evs; [reflexivity|]. cbn [length] in Hlen.
        unfold completion in *. lia. }
      subst evs. cbn [fold_left] in *.
      rewrite (RaceFacts.complete_failure_last
                 failure_line all_failed st now m e0 Hs Hr) in *.
      simpl in H. rewrite Hp in H. simpl in H. injection H as _ <-.
      exists [], m. reflexivity.
    + rewrite (RaceFacts.complete_failure_open
                 failure_line all_failed st now m e0 Hs Hr) in *.
      eapply IH in H; [| reflexivity | exact Hp |].
      * destruct H as [lines [m' Hl]].
        exists (failure_line m e0 :: lines), m'.
        unfold Engine.completions in Hl. rewrite Hl.
        unfold caught, say. simpl. now rewrite <- app_assoc.
      * cbn [remaining length] in *. unfold completion in *. lia.
  - cbn [Engine.completions fold_left] in *.
    rewrite (RaceFacts.complete_success_open
               failure_line all_failed st now m text Hs) in H.
    match type of H with
    | promise (fold_left _ _ ?st1) = _ =>
        destruct (RaceFacts.completions_stable
                    failure_line all_failed evs st1 eq_refl)
          as [_ [G _]]
    end.
    unfold Engine.completions in G. rewrite G in H. simpl in H.
    rewrite Hp in H. discriminate.
Qed.

Lemma launch_console (models : list jsval) :
  forall c : ctx, console (env (self (launch api models c))) = console (env c).
Proof.
  intros c. rewrite StrategyFacts.launch_effects. unfold after_attempts.
  simpl. apply app_nil_r.
Qed.

Lemma resolve_thrown_line (flag : jsval) (models : list jsval) (c : ctx)
  (t : Z) (e : error) :
  models <> [] ->
  snd (resolve run api failure_line all_failed flag models c)
  = Settles t (inl e) ->
  exists lines m,
    console (env (fst (resolve run api failure_line all_failed flag models c)))
    = console (env c) ++ lines ++ [failure_line m e].
Proof.
  intros Hne. unfold Engine.resolve.
  destruct (negb (truthy flag) || (length models =? 1)%nat).
  - intros H. destruct (sequential_thrown_line _ _ _ _ _ _ _ H)
      as [[Hnil _] | Hl]; [contradiction | exact Hl].
  - unfold racing. cbn [fst snd]. intros H.
    apply race_thrown_line in H.
    + destruct H as [lines [m Hl]]. exists lines, m.
      now rewrite Hl, launch_console.
    + reflexivity.
    + reflexivity.
    + simpl. pose proof (ChronoFacts.chronological_length run models). lia.
Qed.

End Lines.

Lemma candidates_not_empty (b : Sdk.brand) (this : client) (model : jsval) :
  Sdk.candidates b this model <> [].
Proof.
  unfold Sdk.candidates. destruct (truthy model); [discriminate|].
  destruct (models this); discriminate.
Qed.

(** X22. [MistralAi.transcribe] wraps its strategies in a [try] whose
    [catch] prints the error and throws it again: whenever the call throws
    after the file has been prepared, the error thrown has just been printed
    twice, once by the attempt that failed last and once by the outer
    [catch]. *)
Theorem mistral_prints_a_failed_transcription_twice :
  forall (readFileSync : jsstring -> error + list N) (this : client)
         (net : network transcribe_options) (o : transcribe_options)
         (w : world) (this' : client) (w' : world) (e : error) (t0 : Z),
    audio_given (file o) = true ->
    Mistral.prepare readFileSync (file o) = Settles t0 (inr tt) ->
    Mistral.transcribe readFileSync this net o w = (this', w', Thrown e) ->
    exists lines : list log_line,
      console w'
      = console w ++ lines
        ++ [Sdk.transcription_line Mistral.brand e;
            Sdk.transcription_line Mistral.brand e].
Proof.
  intros readFileSync this net o w this' w' e t0 Hfile Hprep H.
  unfold Mistral.transcribe, Mistral.transcribe_timed in H.
  rewrite Hfile, Hprep in H. cbn [negb] in H.
  unfold Sdk.transcribe_over, finish in H.
  set (model' := default_arg (model o)
                   (JStr (js (Sdk.default_transcription Mistral.brand)))) in *.
  pose proof (resolve_thrown_line
                (Sdk.runOnce Mistral.brand (requestTimeoutMs this) (net o))
                (Sdk.sdk Mistral.brand ++ ":transcription")%string
                (fun _ => Sdk.transcription_line Mistral.brand)
                (Sdk.all_transcriptions_failed Mistral.brand)
                (firstToFinish this)
                (Sdk.candidates Mistral.brand this model')
                (Ctx (Client.lastUsedModel this) w)) as Hline.
  destruct (resolve _ _ _ _ _ _ _) as [c res].
  cbn [fst snd env] in *.
  destruct res as [t [e' | text] |]; unfold Mistral.rethrown, later3, untimed in H;
    cbn [fst snd later forget] in H; try discriminate.
  injection H as _ <- <-.
  destruct (Hline t e' (candidates_not_empty _ _ _) eq_refl) as [lines [m Hl]].
  exists lines. unfold say. cbn [console]. rewrite Hl.
  now rewrite <- !app_assoc.
Qed.

(** A transcription refused by the only model: its error appears twice. *)
Lemma refused_transcription_example :
  let net : network transcribe_options :=
    fun _ _ _ => Rejects 5 (Error (js "x")) in
  let readFileSync : jsstring -> error + list N :=
    fun _ => inl (Error (js "ENOENT")) in
  let r := Mistral.transcribe readFileSync Scenario.fallback net
                              (Scenario.recording JUndefined) Scenario.quiet in
  r = (fst (fst r), snd (fst r), Thrown (Error (js "x")))
  /\ exists lines : list log_line,
      console (snd (fst r))
      = console Scenario.quiet ++ lines
        ++ [Sdk.transcription_line Mistral.brand (Error (js "x"));
            Sdk.transcription_line Mistral.brand (Error (js "x"))].
Proof.
  intros net readFileSync r.
  assert (H : r = (fst (fst r), snd (fst r), Thrown (Error (js "x"))))
    by (vm_compute; reflexivity).
  split; [exact H|].
  exact (mistral_prints_a_failed_transcription_twice
           readFileSync Scenario.fallback net (Scenario.recording JUndefined)
           Scenario.quiet _ _ _ 0%Z eq_refl eq_refl H).
Defined.

End LogFacts.

(** ** [MultiProviderAi.ask] *)

Module MultiAskFacts.

(** A provider's own [ask] never returns an empty text. *)
Lemma client_ask_text (nets : Multi.provider -> network ask_options)
  (p : Multi.provider) (c c' : client) (o : ask_options) (w w' : world)
  (t : Z) (text : jsstring) :
  Multi.client_ask nets p c o w = (c', w', Settles t (inr text)) ->
  text <> [].
Proof.
  intros H. destruct p; simpl in H.
  - apply (AskCases.ask_text_not_empty c (nets Multi.openrouter) o w).
    unfold OpenRouter.ask, untimed. now rewrite H.
  - apply (RememberFacts.sdk_text_not_empty Mistral.brand c
             (nets Multi.mistral) o w).
    unfold Sdk.ask, untimed. unfold Mistral.ask_timed in H. now rewrite H.
  - apply (RememberFacts.sdk_text_not_empty Groq.brand c
             (nets Multi.groq) o w).
    unfold Sdk.ask, untimed. unfold Groq.ask_timed in H. now rewrite H.
Qed.

Lemma ordered_are_configured (this : Multi.MultiProviderAi) (p : Multi.provider) :
  In p (Multi.getOrderedProviders this) -> In p (map fst (Multi.clients this)).
Proof.
  unfold Multi.getOrderedProviders.
  destruct (map fst (Multi.clients this)) as [|first rest]; [contradiction|].
  intros [<- | H].
  - destruct (Multi.named (Multi.primaryProvider this)) as [q|]; [| now left].
    destruct (existsb (Multi.provider_eqb q) (first :: rest)) eqn:E;
      [| now left].
    apply existsb_exists in E as [x [Hx E]].
    apply ProviderFacts.provider_eqb_eq in E. now subst x.
  - apply filter_In in H. tauto.
Qed.

Lemma with_client_keys (p : Multi.provider) (c : client)
  (this : Multi.MultiProviderAi) (q : Multi.provider) :
  In q (map fst (Multi.clients this)) ->
  In q (map fst (Multi.clients (Multi.with_client p c this))).
Proof.
  intros H. unfold Multi.with_client. cbn [Multi.clients].
  rewrite ProviderFacts.set_client_keys.
  destruct (existsb _ _); [exact H | apply in_or_app; now left].
Qed.

Section Ask.

Variable nets : Multi.provider -> network ask_options.
Variable o : ask_options.

Local Abbreviation replied text p c' :=
  (exists (c : client) (w0 w1 : world) (t : Z),
      Multi.client_ask nets p c o w0 = (c', w1, Settles t (inr text))).

Lemma ask_sequential_answer (providers : list Multi.provider) :
  forall (lastErr : option error) (elapsed : Z) (this : Multi.MultiProviderAi)
         (w : world) (this' : Multi.MultiProviderAi) (w' : world) (t : Z)
         (text : jsstring),
    Multi.ask_sequential nets o providers lastErr elapsed this w
    = (this', w', Settles t (inr text)) ->
    exists p c',
      In p providers
      /\ replied text p c'
      /\ Multi.lastUsedModel this' = Multi.used p c'.
Proof.
  induction providers as [|p providers IH];
    intros lastErr elapsed this w this' w' t text H.
  - simpl in H. discriminate.
  - cbn [Multi.ask_sequential] in H.
    destruct (Multi.client_of p (Multi.clients this)) as [c|].
    + destruct (Multi.client_ask nets p c o w) as [[c' w1] res] eqn:E.
      destruct res as [t1 [e | resp] |].
      * destruct (IH _ _ _ _ _ _ _ _ H) as [q [c'' [Hq Hrest]]].
        exists q, c''. split; [now right | exact Hrest].
      * injection H as <- _ _ <-. exists p, c'.
        split; [now left|]. split; [| reflexivity].
        exists c, w, w1, t1. exact E.
      * discriminate.
    + destruct (IH _ _ _ _ _ _ _ _ H) as [q [c'' [Hq Hrest]]].
      exists q, c''. split; [now right | exact Hrest].
Qed.

(** Starting the providers of a race whose clients all exist settles
    nothing, and every completion it schedules is the outcome of a
    provider's own [ask]. *)
Lemma ask_launch_started (providers : list Multi.provider) :
  forall (this : Multi.MultiProviderAi) (st : race)
         (started : list completion),
    (forall p, In p providers -> In p (map fst (Multi.clients this))) ->
    let r := Multi.ask_launch nets o providers this st started in
    settled (snd (fst r)) = settled st
    /\ promise (snd (fst r)) = promise st
    /\ forall now who text,
         In (now, (who, inr text)) (snd r) ->
         In (now, (who, inr text)) started
         \/ exists p c',
             In p providers /\ replied text p c' /\ who = Multi.used p c'.
Proof.
  induction providers as [|p providers IH]; intros this st started Hall.
  - simpl. auto.
  - cbn [Multi.ask_launch].
    destruct (Multi.client_of p (Multi.clients this)) as [c|] eqn:Ec.
    + destruct (Multi.client_ask nets p c o (env (self st)))
        as [[c' w1] res] eqn:E.
      match goal with
      | |- context [Multi.ask_launch nets o providers ?this1 ?st1 ?started1] =>
          destruct (IH this1 st1 started1) as [H1 [H2 H3]]
      end.
      { intros q Hq. apply with_client_keys. apply Hall. now right. }
      cbv zeta in *. split; [exact H1|]. split; [exact H2|].
      intros now who text Hin. apply H3 in Hin.
      destruct Hin as [Hin | [q [c'' [Hq Hrest]]]].
      * destruct res as [t1 r |]; [| now left].
        apply in_app_or in Hin as [Hin | [Hin | []]]; [now left|].
        injection Hin as -> <- ->. right. exists p, c'.
        split; [now left|]. split; [| reflexivity].
        exists c, (env (self st)), w1, now. exact E.
      * right. exists q, c''. split; [now right | exact Hrest].
    + exfalso.
      assert (Hin : In p (map fst (Multi.clients this)))
        by (apply Hall; now left).
      apply ProviderFacts.client_of_In in Hin as [c Hc]. congruence.
Qed.

(** With distinct providers, the sequential loop asks the client the
    object held for the provider at the start, and leaves in the object
    the client of the provider that answered as its own [ask] left it. *)
Lemma ask_sequential_client (providers : list Multi.provider) :
  NoDup providers ->
  forall (lastErr : option error) (elapsed : Z) (this : Multi.MultiProviderAi)
         (w : world) (this' : Multi.MultiProviderAi) (w' : world) (t : Z)
         (text : jsstring),
    Multi.ask_sequential nets o providers lastErr elapsed this w
    = (this', w', Settles t (inr text)) ->
    exists p c',
      In p providers
      /\ answered_by nets o this this' text p c'
      /\ Multi.lastUsedModel this' = Multi.used p c'.
Proof.
  induction providers as [|p providers IH];
    intros Hnd lastErr elapsed this w this' w' t text H.
  - simpl in H. discriminate.
  - inversion Hnd as [| ? ? Hnot Hnd']; subst.
    cbn [Multi.ask_sequential] in H.
    destruct (Multi.client_of p (Multi.clients this)) as [c|] eqn:Ec.
    + destruct (Multi.client_ask nets p c o w) as [[c' w1] res] eqn:E.
      destruct res as [t1 [e | resp] |].
      * destruct (IH Hnd' _ _ _ _ _ _ _ _ H)
          as [q [c'' [Hq [[cq [w0 [w2 [tq [Hcq [Hask Hnow]]]]]] Hl]]]].
        exists q, c''. split; [now right|]. split; [| exact Hl].
        exists cq, w0, w2, tq. split; [| split; assumption].
        unfold Multi.with_client in Hcq. cbn [Multi.clients] in Hcq.
        rewrite ProviderFacts.set_client_other in Hcq; [exact Hcq|].
        intros ->. contradiction.
      * injection H as <- _ _ <-. exists p, c'.
        split; [now left|]. split; [| reflexivity].
        exists c, w, w1, t1. split; [exact Ec|]. split; [exact E|].
        cbn [Multi.with_lastUsed Multi.with_client Multi.clients].
        apply ProviderFacts.set_client_same.
      * discriminate.
    + destruct (IH Hnd' _ _ _ _ _ _ _ _ H) as [q [c'' [Hq Hrest]]].
      exists q, c''. split; [now right | exact Hrest].
Qed.

(** Starting a race leaves alone the client of a provider that is not
    started. *)
Lemma ask_launch_keeps (providers : list Multi.provider) (p : Multi.provider) :
  ~ In p providers ->
  forall (this : Multi.MultiProviderAi) (st : race)
         (started : list completion),
    Multi.client_of p
      (Multi.clients (fst (fst (Multi.ask_launch nets o providers this st
                                                 started))))
    = Multi.client_of p (Multi.clients this).
Proof.
  induction providers as [|q providers IH]; intros Hnot this st started;
    [reflexivity|].
  cbn [Multi.ask_launch].
  assert (Hq : q <> p) by (intros ->; apply Hnot; now left).
  assert (Hrest : ~ In p providers) by (intros H; apply Hnot; now right).
  destruct (Multi.client_of q (Multi.clients this)) as [c|].
  - destruct (Multi.client_ask nets q c o (env (self st)))
      as [[c' w1] res].
    rewrite (IH Hrest). unfold Multi.with_client. cbn [Multi.clients].
    now apply ProviderFacts.set_client_other.
  - apply (IH Hrest).
Qed.

(** With distinct providers, every completion a race schedules is the
    outcome of the own [ask] of the client the object held for a provider,
    which the object holds afterwards as that [ask] left it. *)
Lemma ask_launch_clients (providers : list Multi.provider) :
  NoDup providers ->
  forall (this : Multi.MultiProviderAi) (st : race)
         (started : list completion),
    let r := Multi.ask_launch nets o providers this st started in
    forall now who text,
      In (now, (who, inr text)) (snd r) ->
      In (now, (who, inr text)) started
      \/ exists p c',
          In p providers
          /\ answered_by nets o this (fst (fst r)) text p c'
          /\ who = Multi.used p c'.
Proof.
  induction providers as [|p providers IH]; intros Hnd this st started.
  - simpl. auto.
  - inversion Hnd as [| ? ? Hnot Hnd']; subst.
    cbn [Multi.ask_launch].
    destruct (Multi.client_of p (Multi.clients this)) as [c|] eqn:Ec.
    + destruct (Multi.client_ask nets p c o (env (self st)))
        as [[c' w1] res] eqn:E.
      match goal with
      | |- context [Multi.ask_launch nets o providers ?this1 ?st1 ?started1] =>
          pose proof (IH Hnd' this1 st1 started1) as H3;
          pose proof (ask_launch_keeps providers p Hnot this1 st1 started1)
            as Hkeep
      end.
      cbv zeta in *. intros now who text Hin. apply H3 in Hin.
      destruct Hin
        as [Hin | [q [c'' [Hq [[cq [w0 [w2 [tq [Hcq [Hask Hnow]]]]]] Hw]]]]].
      * destruct res as [t1 r |]; [| now left].
        apply in_app_or in Hin as [Hin | [Hin | []]]; [now left|].
        injection Hin as -> <- ->. right. exists p, c'.
        split; [now left|]. split; [| reflexivity].
        exists c, (env (self st)), w1, now.
        split; [exact Ec|]. split; [exact E|].
        rewrite Hkeep. unfold Multi.with_client. cbn [Multi.clients].
        apply ProviderFacts.set_client_same.
      * right. exists q, c''. split; [now right|]. split; [| exact Hw].
        exists cq, w0, w2, tq. split; [| split; assumption].
        unfold Multi.with_client in Hcq. cbn [Multi.clients] in Hcq.
        rewrite ProviderFacts.set_client_other in Hcq; [exact Hcq|].
        intros ->. contradiction.
    + intros now who text Hin.
      destruct (IH Hnd' this _ started now who text Hin)
        as [H | [q [c'' [Hq Hrest]]]]; [now left|].
      right. exists q, c''. split; [now right | exact Hrest].
Qed.

End Ask.

(** The providers are asked once each when the clients have distinct
    providers. *)
Lemma ordered_NoDup (this : Multi.MultiProviderAi) :
  NoDup (map fst (Multi.clients this)) ->
  NoDup (Multi.getOrderedProviders this).
Proof.
  intros Hnd. unfold Multi.getOrderedProviders.
  destruct (map fst (Multi.clients this)) as [|first rest]; [constructor|].
  constructor; [| now apply NoDup_filter].
  intros Hin. apply filter_In in Hin as [_ Hin].
  now rewrite ProviderFacts.provider_eqb_refl in Hin.
Qed.

Lemma multi_ask_answer (this : Multi.MultiProviderAi)
  (nets : Multi.provider -> network ask_options) (o : ask_options)
  (w : world) (this' : Multi.MultiProviderAi) (w' : world)
  (text : jsstring) :
  Multi.ask this nets o w = (this', w', Returned text) ->
  exists p c',
    In p (Multi.getOrderedProviders this)
    /\ (exists (c : client) (w0 w1 : world) (t : Z),
          Multi.client_ask nets p c o w0 = (c', w1, Settles t (inr text)))
    /\ Multi.lastUsedModel this' = Multi.used p c'.
Proof.
  intros H.
  unfold Multi.ask, Multi.ask_timed, untimed in H.
  destruct (Multi.getOrderedProviders this) as [|p0 ps] eqn:Ep;
    [discriminate|].
  destruct (negb (truthy (Multi.firstToFinish this))
            || (length (p0 :: ps) =? 1)%nat).
  - destruct (Multi.ask_sequential nets o (p0 :: ps) None 0 this w)
      as [[this1 w1] res] eqn:E.
    cbn [fst snd] in H. injection H as <- _ Hres.
    apply AnswerFacts.forget_returned in Hres as [t ->].
    exact (ask_sequential_answer nets o _ _ _ _ _ _ _ _ _ E).
  - unfold Multi.ask_racing in H.
    pose proof (ask_launch_started nets o (p0 :: ps) this
                  (Race false (Z.of_nat (length (p0 :: ps))) None Hangs 0
                        (Ctx (Multi.lastUsedModel this) w)) []) as Hl.
    destruct (Multi.ask_launch nets o (p0 :: ps) this _ [])
      as [[this1 st1] started] eqn:El.
    cbn [fst snd] in H. injection H as <- _ Hres.
    apply AnswerFacts.forget_returned in Hres as [t Hres].
    destruct Hl as [H1 [H2 H3]].
    { intros p Hp. apply ordered_are_configured. now rewrite Ep. }
    cbn [fst snd] in H1, H2, H3.
    apply StrategyFacts.race_winner in Hres; [| exact H1 | exact H2].
    eapply Permutation_in in Hres; [| apply ChronoFacts.sort_by_perm].
    apply H3 in Hres as [[] | Hres]. exact Hres.
Qed.

Lemma multi_ask_text (this : Multi.MultiProviderAi)
  (nets : Multi.provider -> network ask_options) (o : ask_options)
  (w : world) (text : jsstring) :
  snd (Multi.ask this nets o w) = Returned text -> text <> [].
Proof.
  intros H. destruct (Multi.ask this nets o w) as [[this' w'] res] eqn:E.
  cbn [snd] in H. subst res.
  destruct (multi_ask_answer _ _ _ _ _ _ _ E)
    as [p [c' [_ [[c [w0 [w1 [t Ha]]]] _]]]].
  exact (client_ask_text nets p c c' o w0 w1 t text Ha).
Qed.

(** X23. On an object whose clients have distinct providers (as the
    constructor builds them), whenever [MultiProviderAi.ask] returns a
    text, in either mode, the text is not empty and was returned by the own
    [ask] of the client the object held for one of its configured
    providers; the object holds that client as its [ask] left it, and
    [lastUsedModel] names that provider together with the model that
    client used. *)
Theorem multi_ask_records_the_provider_that_answered :
  forall (this : Multi.MultiProviderAi)
         (nets : Multi.provider -> network ask_options) (o : ask_options)
         (w : world) (this' : Multi.MultiProviderAi) (w' : world)
         (text : jsstring),
    NoDup (map fst (Multi.clients this)) ->
    Multi.ask this nets o w = (this', w', Returned text) ->
    text <> []
    /\ exists (p : Multi.provider) (c' : client),
        In p (Multi.getOrderedProviders this)
        /\ answered_by nets o this this' text p c'
        /\ Multi.lastUsedModel this'
           = JObj [("provider"%string, JStr (js (Multi.key p)));
                   ("model"%string, or_else (Client.lastUsedModel c') JNull)].
Proof.
  intros this nets o w this' w' text Hnd H.
  assert (Hstrong :
    exists p c',
      In p (Multi.getOrderedProviders this)
      /\ answered_by nets o this this' text p c'
      /\ Multi.lastUsedModel this' = Multi.used p c').
  { pose proof (ordered_NoDup this Hnd) as Hord.
    unfold Multi.ask, Multi.ask_timed, untimed in H.
    destruct (Multi.getOrderedProviders this) as [|p0 ps] eqn:Ep;
      [discriminate|].
    destruct (negb (truthy (Multi.firstToFinish this))
              || (length (p0 :: ps) =? 1)%nat).
    - destruct (Multi.ask_sequential nets o (p0 :: ps) None 0 this w)
        as [[this1 w1] res] eqn:E.
      cbn [fst snd] in H. injection H as <- _ Hres.
      apply AnswerFacts.forget_returned in Hres as [t ->].
      exact (ask_sequential_client nets o _ Hord _ _ _ _ _ _ _ _ E).
    - unfold Multi.ask_racing in H.
      pose proof (ask_launch_started nets o (p0 :: ps) this
                    (Race false (Z.of_nat (length (p0 :: ps))) None Hangs 0
                          (Ctx (Multi.lastUsedModel this) w)) []) as Hl.
      pose proof (ask_launch_clients nets o (p0 :: ps) Hord this
                    (Race false (Z.of_nat (length (p0 :: ps))) None Hangs 0
                          (Ctx (Multi.lastUsedModel this) w)) []) as Hc.
      destruct (Multi.ask_launch nets o (p0 :: ps) this _ [])
        as [[this1 st1] started] eqn:El.
      cbn [fst snd] in H. injection H as <- _ Hres.
      apply AnswerFacts.forget_returned in Hres as [t Hres].
      destruct Hl as [H1 [H2 _]].
      { intros p Hp. apply ordered_are_configured. now rewrite Ep. }
      cbn [fst snd] in H1, H2, Hc.
      apply StrategyFacts.race_winner in Hres; [| exact H1 | exact H2].
      eapply Permutation_in in Hres; [| apply ChronoFacts.sort_by_perm].
      apply Hc in Hres as [[] | Hres]. exact Hres. }
  destruct Hstrong as [p [c' [Hp [Ha Hl]]]].
  split.
  - destruct Ha as [c [w0 [w1 [t [_ [Ha _]]]]]].
    exact (client_ask_text nets p c c' o w0 w1 t text Ha).
  - exists p, c'. auto.
Qed.

(** Groq and Mistral race and both answer ["hi"] after 7 ms: Mistral, the
    primary provider, is started first and wins. *)
Lemma both_answer_example :
  let nets : Multi.provider -> network ask_options :=
    fun _ _ _ _ => Fulfils 7 (Scenario.chooses " hi ") in
  let r := Multi.ask Scenario.moderator nets Scenario.prompt Scenario.quiet in
  NoDup (map fst (Multi.clients Scenario.moderator))
  /\ r = (fst (fst r), snd (fst r), Returned (js "hi"))
  /\ js "hi" <> []
  /\ Multi.lastUsedModel (fst (fst r))
     = JObj [("provider"%string, JStr (js "mistral"));
             ("model"%string, JStr (js "mistral-small-latest"))].
Proof.
  intros nets r.
  assert (Hnd : NoDup (map fst (Multi.clients Scenario.moderator))).
  { simpl. repeat constructor; simpl; intuition discriminate. }
  assert (H : r = (fst (fst r), snd (fst r), Returned (js "hi")))
    by (vm_compute; reflexivity).
  split; [exact Hnd|]. split; [exact H|].
  split; [| vm_compute; reflexivity].
  exact (proj1 (multi_ask_records_the_provider_that_answered
                  Scenario.moderator nets Scenario.prompt Scenario.quiet
                  _ _ _ Hnd H)).
Defined.

End MultiAskFacts.

(** ** Attachments *)

Module AttachmentFacts.

Import Attachment.

Lemma b64_char_ok (n : N) : is_base64_char (b64_char n) = true.
Proof.
  unfold b64_char, is_base64_char.
  destruct (N.ltb_spec n 26);
    [| destruct (N.ltb_spec n 52);
       [| destruct (N.ltb_spec n 62); [| destruct (N.eqb_spec n 62)]]];
    repeat rewrite ?orb_true_iff, ?andb_true_iff, ?N.leb_le, ?N.eqb_eq; lia.
Qed.

Lemma equals_sign_not_base64 : is_base64_char equals_sign = false.
Proof. reflexivity. Qed.

Lemma base64_like_unfold (s : jsstring) :
  base64_like s
  = match s with
    | [] => false
    | c :: _ => is_base64_char c && padding_ok (after_body s)
    end.
Proof.
  destruct s as [|c s]; [reflexivity|]. unfold base64_like, padding_ok.
  destruct (after_body (c :: s)) as [|p [|q [|r t]]]; reflexivity.
Qed.

Lemma base64_padding (n : nat) :
  forall bytes : list N,
    (length bytes <= n)%nat -> padding_ok (after_body (base64 bytes)) = true.
Proof.
  induction n as [|n IH]; intros bytes Hlen.
  - destruct bytes; [reflexivity | simpl in Hlen; lia].
  - destruct bytes as [|a [|b [|c rest]]].
    + reflexivity.
    + simpl. rewrite !b64_char_ok. reflexivity.
    + simpl. rewrite !b64_char_ok. reflexivity.
    + cbn [base64 app after_body]. rewrite !b64_char_ok.
      apply IH. simpl in Hlen. lia.
Qed.

(** The base64 encoding of at least one byte has the shape the regular
    expression of [toBase64] tests. *)
Lemma base64_is_base64_like (bytes : list N) :
  bytes <> [] -> base64_like (base64 bytes) = true.
Proof.
  intros Hne. rewrite base64_like_unfold.
  pose proof (base64_padding (length bytes) bytes (le_n _)) as Hp.
  destruct bytes as [|a [|b [|c rest]]]; [contradiction | | |];
    cbn [base64 app] in *; rewrite b64_char_ok; exact Hp.
Qed.

Lemma utf8_not_empty (s : jsstring) : s <> [] -> utf8 s <> [].
Proof.
  destruct s as [|c rest]; [contradiction|]. intros _. cbn [utf8].
  destruct (c <? 128)%N; [discriminate|].
  destruct (c <? 2048)%N; [discriminate|].
  destruct ((55296 <=? c) && (c <? 56320))%N.
  - destruct rest as [|d rest']; [discriminate|].
    destruct ((56320 <=? d) && (d <? 57344))%N; discriminate.
  - destruct ((56320 <=? c) && (c <? 57344))%N; discriminate.
Qed.

Lemma plain_char_no_space (c : N) : plain_char c = true -> is_space c = false.
Proof.
  intros H. destruct (is_space c) eqn:E; [exfalso | reflexivity].
  unfold plain_char, is_base64_char, equals_sign in H. unfold is_space in E.
  repeat rewrite ?orb_true_iff, ?andb_true_iff, ?N.leb_le, ?N.eqb_eq in H.
  repeat rewrite ?orb_true_iff, ?andb_true_iff, ?N.leb_le, ?N.eqb_eq in E.
  lia.
Qed.

Lemma after_body_plain (s : jsstring) :
  padding_ok (after_body s) = true -> forallb plain_char s = true.
Proof.
  induction s as [|c s IH]; [reflexivity|]. cbn [after_body].
  destruct (is_base64_char c) eqn:E.
  - intros H. cbn [forallb]. unfold plain_char at 1. rewrite E. simpl. auto.
  - unfold padding_ok.
    destruct s as [|q [|r t]]; try discriminate.
    + intros H. simpl. unfold plain_char. now rewrite H, orb_true_r.
    + intros H. apply andb_true_iff in H as [H1 H2]. simpl.
      unfold plain_char. now rewrite H1, H2, !orb_true_r.
Qed.

Lemma base64_like_plain (s : jsstring) :
  base64_like s = true -> s <> [] /\ forallb plain_char s = true.
Proof.
  rewrite base64_like_unfold. destruct s as [|c s]; [discriminate|].
  intros H. apply andb_true_iff in H as [_ H].
  split; [discriminate | now apply after_body_plain].
Qed.

Lemma no_space_trimStart (s : jsstring) :
  forallb (fun c => negb (is_space c)) s = true -> trimStart s = s.
Proof.
  destruct s as [|c s]; [reflexivity|]. simpl.
  intros H. apply andb_true_iff in H as [H _].
  apply negb_true_iff in H. now rewrite H.
Qed.

Lemma no_space_trim (s : jsstring) :
  forallb (fun c => negb (is_space c)) s = true -> trim s = s.
Proof.
  intros H. unfold trim, trimEnd. rewrite (no_space_trimStart s H).
  rewrite no_space_trimStart; [apply rev_involutive|].
  rewrite forallb_forall in *. intros c Hc. apply H. now apply in_rev.
Qed.

Lemma plain_no_space (s : jsstring) :
  forallb plain_char s = true ->
  forallb (fun c => negb (is_space c)) s = true.
Proof.
  rewrite !forallb_forall. intros H c Hc.
  apply negb_true_iff, plain_char_no_space. auto.
Qed.

Lemma str_eqb_eq (a b : jsstring) : Memory.str_eqb a b = true -> a = b.
Proof.
  revert b. induction a as [|x a IH]; intros [|y b]; simpl;
    try discriminate; [reflexivity|].
  intros H. apply andb_true_iff in H as [H1 H2].
  apply N.eqb_eq in H1. subst y. f_equal. auto.
Qed.

Lemma plain_not_data (s : jsstring) :
  forallb plain_char s = true -> startsWith_data s = false.
Proof.
  intros H. unfold startsWith_data.
  destruct (Memory.str_eqb (firstn 5 s) (js "data:")) eqn:E; [| reflexivity].
  apply str_eqb_eq in E. exfalso.
  assert (Hin : In 58%N s).
  { rewrite <- (firstn_skipn 5 s). apply in_or_app. left.
    rewrite E. simpl. auto 10. }
  rewrite forallb_forall in H. apply H in Hin. discriminate.
Qed.

(** A string of the base64 shape is returned as it is. *)
Lemma toBase64_fixed (s : jsstring) :
  base64_like s = true -> toBase64 (Value (JStr s)) = Some s.
Proof.
  intros H. destruct (base64_like_plain s H) as [Hne Hp].
  pose proof (plain_no_space s Hp) as Hs.
  unfold toBase64. cbn [provided truthy].
  destruct s as [|c s]; [contradiction|]. cbn [negb].
  rewrite (no_space_trim _ Hs), (plain_not_data _ Hp).
  unfold without_spaces. rewrite (MemoryFacts.filter_all _ _).
  - now rewrite H.
  - rewrite forallb_forall in Hs. exact Hs.
Qed.

(** Outside the [data:] branch, what [toBase64] returns for a string has
    the base64 shape. *)
Lemma toBase64_shape (s e : jsstring) :
  startsWith_data (trim s) = false ->
  toBase64 (Value (JStr s)) = Some e ->
  base64_like e = true.
Proof.
  intros Hd. unfold toBase64. cbn [provided truthy].
  destruct s as [|c s]; [discriminate|]. cbn [negb].
  destruct (trim (c :: s)) as [|c' s'] eqn:Et; [discriminate|].
  rewrite Hd.
  destruct (base64_like (without_spaces (c' :: s'))) eqn:Eb.
  - intros H. injection H as <-. exact Eb.
  - intros H. injection H as <-. apply base64_is_base64_like.
    apply (utf8_not_empty (c' :: s')). discriminate.
Qed.

Lemma toBase64_none_iff (s : jsstring) :
  startsWith_data (trim s) = false ->
  (toBase64 (Value (JStr s)) = None <-> blank s = true).
Proof.
  intros Hd. unfold toBase64. cbn [provided truthy].
  destruct s as [|c s]; [simpl; tauto|]. cbn [negb].
  rewrite <- JsFacts.trim_nil_iff.
  destruct (trim (c :: s)) as [|c' s'] eqn:Et; [tauto|].
  rewrite Hd.
  destruct (base64_like (without_spaces (c' :: s')));
    split; discriminate.
Qed.

(** X24. For a string that is not a data URI (trimmed, it does not start
    with [data:]), [toBase64] returns null exactly when the string is blank;
    otherwise what it returns has the shape of base64 (characters of the
    alphabet, then at most two equals signs) and is a fixed point:
    [toBase64] applied to it returns it unchanged. *)
Theorem toBase64_yields_base64_and_keeps_it :
  forall s : jsstring,
    startsWith_data (trim s) = false ->
    (toBase64 (Value (JStr s)) = None <-> blank s = true)
    /\ forall e : jsstring,
        toBase64 (Value (JStr s)) = Some e ->
        base64_like e = true
        /\ toBase64 (Value (JStr e)) = Some e.
Proof.
  intros s Hd. split; [now apply toBase64_none_iff|].
  intros e He. pose proof (toBase64_shape s e Hd He) as Hshape.
  split; [exact Hshape | now apply toBase64_fixed].
Qed.

(** A sentence is encoded, and its encoding is then left alone. *)
Lemma sentence_example :
  startsWith_data (trim (js "hello world!")) = false
  /\ toBase64 (Value (JStr (js "hello world!"))) = Some (js "aGVsbG8gd29ybGQh")
  /\ toBase64 (Value (JStr (js "aGVsbG8gd29ybGQh")))
     = Some (js "aGVsbG8gd29ybGQh").
Proof.
  assert (H : startsWith_data (trim (js "hello world!")) = false)
    by reflexivity.
  split; [exact H|].
  assert (He : toBase64 (Value (JStr (js "hello world!")))
               = Some (js "aGVsbG8gd29ybGQh")) by reflexivity.
  split; [exact He|].
  exact (proj2 (proj2 (toBase64_yields_base64_and_keeps_it _ H) _ He)).
Defined.

Lemma no_comma_after (p r : jsstring) :
  (forall c, In c p -> c <> comma) ->
  after_first_comma (p ++ comma :: r) = Some r.
Proof.
  induction p as [|c p IH]; intros H; simpl.
  - reflexivity.
  - destruct (N.eqb_spec c comma) as [E | E].
    + exfalso. exact (H c (or_introl eq_refl) E).
    + apply IH. intros x Hx. apply H. now right.
Qed.

Lemma trim_fixed (s : jsstring) (x : N) (init : jsstring) :
  s = init ++ [x] ->
  match s with [] => True | c :: _ => is_space c = false end ->
  is_space x = false ->
  trim s = s.
Proof.
  intros Hs Hhead Hlast. unfold trim, trimEnd.
  rewrite (AnswerFacts.trimStart_fixed s Hhead).
  rewrite AnswerFacts.trimStart_fixed; [apply rev_involutive|].
  rewrite Hs, rev_app_distr. simpl. exact Hlast.
Qed.

Lemma base64_like_last (e : jsstring) :
  base64_like e = true ->
  exists init x, e = init ++ [x] /\ is_space x = false
                 /\ match e with [] => True | c :: _ => is_space c = false end.
Proof.
  intros H. destruct (base64_like_plain e H) as [Hne Hp].
  destruct (exists_last Hne) as [init [x Hx]]. exists init, x.
  rewrite forallb_forall in Hp.
  split; [exact Hx|]. split.
  - apply plain_char_no_space, Hp. rewrite Hx. apply in_or_app. right. now left.
  - destruct e as [|c e]; [exact I|].
    apply plain_char_no_space, Hp. now left.
Qed.

Lemma encoded_shape (data : payload) (e : jsstring) :
  not_a_data_uri data -> toBase64 data = Some e -> e <> [] ->
  base64_like e = true.
Proof.
  intros Hd He Hne. destruct data as [b | v].
  - unfold toBase64 in He. simpl in He. injection He as <-.
    apply base64_is_base64_like. intros ->. now apply Hne.
  - destruct v; try (unfold toBase64 in He; simpl in He;
                     repeat match type of He with
                            | (if ?b then _ else _) = _ => destruct b
                            end; discriminate).
    exact (toBase64_shape _ _ Hd He).
Qed.

(** X25. Round trip through a data URI: when [toBase64] encodes a payload
    that is not itself a data URI to a non-empty string [e], and the MIME
    type has no comma, [toDataUri] builds [data:<mimeType>;base64,<e>];
    [toBase64] of that URI gives [e] back, and [toDataUri] of that URI
    returns it unchanged whatever MIME type comes with it. *)
Theorem data_uri_round_trip :
  forall (data : payload) (mimeType : jsval) (e : jsstring),
    not_a_data_uri data ->
    toBase64 data = Some e ->
    e <> [] ->
    (forall c, In c (to_String mimeType) -> c <> comma) ->
    toDataUri data mimeType = Some (data_uri mimeType e)
    /\ toBase64 (Value (JStr (data_uri mimeType e))) = Some e
    /\ forall other : jsval,
        toDataUri (Value (JStr (data_uri mimeType e))) other
        = Some (data_uri mimeType e).
Proof.
  intros data mimeType e Hd He Hne Hmime.
  pose proof (encoded_shape data e Hd He Hne) as Hshape.
  destruct (base64_like_last e Hshape) as [init [x [Hx [Hlast Hhead]]]].
  assert (Hprovided : provided data = true).
  { unfold toBase64 in He. destruct (provided data); [reflexivity|].
    discriminate. }
  assert (Htrim : trim (data_uri mimeType e) = data_uri mimeType e).
  { apply (trim_fixed _ x
             (js "data:" ++ to_String mimeType ++ js ";base64," ++ init)).
    - unfold data_uri. rewrite Hx. now rewrite <- !app_assoc.
    - reflexivity.
    - exact Hlast. }
  assert (Hstarts : startsWith_data (data_uri mimeType e) = true)
    by reflexivity.
  assert (Hafter : substring_after_comma (data_uri mimeType e) = e).
  { unfold substring_after_comma, data_uri.
    change (js ";base64,") with (js ";base64" ++ [comma]).
    replace (js "data:" ++ to_String mimeType ++ (js ";base64" ++ [comma]) ++ e)
      with ((js "data:" ++ to_String mimeType ++ js ";base64") ++ comma :: e)
      by (now rewrite <- !app_assoc).
    rewrite no_comma_after; [reflexivity|].
    intros c Hc. apply in_app_or in Hc as [Hc | Hc].
    - simpl in Hc. intros ->. unfold comma in Hc.
      repeat destruct Hc as [Hc | Hc]; try discriminate. exact Hc.
    - apply in_app_or in Hc as [Hc | Hc]; [now apply Hmime|].
      simpl in Hc. intros ->. unfold comma in Hc.
      repeat destruct Hc as [Hc | Hc]; try discriminate. exact Hc. }
  assert (Hnil : trim e = e).
  { apply no_space_trim, plain_no_space.
    exact (proj2 (base64_like_plain e Hshape)). }
  split; [| split].
  - unfold toDataUri. rewrite Hprovided. cbn [negb].
    destruct data as [b | v].
    + rewrite He. destruct e; [contradiction | reflexivity].
    + destruct v; try (rewrite He; destruct e; [contradiction | reflexivity]).
      simpl in Hd. rewrite Hd, He.
      destruct e; [contradiction | reflexivity].
  - unfold toBase64. cbn [provided truthy].
    change (data_uri mimeType e) with (100%N :: skipn 1 (data_uri mimeType e)).
    cbn [negb]. change (100%N :: skipn 1 (data_uri mimeType e))
                  with (data_uri mimeType e).
    rewrite Htrim.
    change (data_uri mimeType e) with (100%N :: skipn 1 (data_uri mimeType e))
      at 1.
    cbv iota.
    rewrite Hstarts, Hafter.
    destruct e as [|c0 e0]; [contradiction | now rewrite Hnil].
  - intros other. unfold toDataUri. cbn [provided truthy].
    change (data_uri mimeType e) with (100%N :: skipn 1 (data_uri mimeType e))
      at 1.
    cbn [negb]. now rewrite Htrim, Hstarts.
Qed.

(** One byte of a PNG travels through a data URI and back. *)
Lemma one_byte_example :
  toDataUri (Bytes [77%N]) (JStr (js "image/png"))
  = Some (js "data:image/png;base64,TQ==")
  /\ toBase64 (Value (JStr (js "data:image/png;base64,TQ=="))) = Some (js "TQ==").
Proof.
  destruct (data_uri_round_trip (Bytes [77%N]) (JStr (js "image/png"))
                                (js "TQ==") I eq_refl)
    as [H1 [H2 _]].
  - discriminate.
  - intros c Hc ->. simpl in Hc. unfold comma in Hc.
    repeat destruct Hc as [Hc | Hc]; try discriminate. exact Hc.
  - split; [exact H1 | exact H2].
Defined.

Lemma before_first_spec (sep : N) (s : jsstring) :
  ~ In sep (before_first sep s)
  /\ (s = before_first sep s
      \/ exists rest, s = before_first sep s ++ sep :: rest).
Proof.
  induction s as [|c s [IH1 IH2]]; simpl.
  - split; [tauto | now left].
  - destruct (N.eqb_spec c sep) as [E | E].
    + subst c. split; [simpl; tauto|]. right. now exists s.
    + split.
      * simpl. intros [H | H]; [congruence | contradiction].
      * destruct IH2 as [H | [rest H]].
        -- left. now f_equal.
        -- right. exists rest. simpl. now f_equal.
Qed.

Lemma after_first_spec (sep : N) (s rest : jsstring) :
  after_first sep s = Some rest ->
  s = before_first sep s ++ sep :: rest.
Proof.
  induction s as [|c s IH]; simpl; [discriminate|].
  destruct (N.eqb_spec c sep) as [E | E].
  - intros H. injection H as <-. now subst c.
  - intros H. simpl. f_equal. auto.
Qed.

Lemma before_first_twice (sep other : N) (s : jsstring) :
  ~ In sep s -> ~ In sep (before_first other s).
Proof.
  induction s as [|c s IH]; simpl; [tauto|].
  intros H. destruct (c =? other)%N; simpl; [tauto|].
  intros [E | E]; [tauto|]. apply IH; tauto.
Qed.

(** X26. When [mimeTypeToFormat] returns a format for a MIME type, the
    format is not empty, contains neither a slash nor a semicolon, and is
    the text that follows the first slash of the MIME type up to the next
    slash, semicolon or the end. *)
Theorem mimeTypeToFormat_extracts_the_subtype :
  forall (s f : jsstring),
    mimeTypeToFormat (JStr s) = inr (Some f) ->
    f <> []
    /\ ~ In slash f
    /\ ~ In semicolon f
    /\ exists before rest,
        s = before ++ slash :: f ++ rest
        /\ ~ In slash before
        /\ match rest with
           | [] => True
           | c :: _ => c = slash \/ c = semicolon
           end.
Proof.
  intros s f. unfold mimeTypeToFormat.
  destruct (truthy (JStr s)); cbn [negb]; [| discriminate].
  destruct (after_first slash s) as [rest|] eqn:Ea; [| discriminate].
  destruct (before_first slash rest) as [|c0 sub] eqn:Es; [discriminate|].
  destruct (before_first semicolon (c0 :: sub)) as [|c1 fmt] eqn:Ef;
    [discriminate|].
  intros H. injection H as <-.
  pose proof (after_first_spec slash s rest Ea) as Hs.
  destruct (before_first_spec slash s) as [Hb _].
  destruct (before_first_spec slash rest) as [Hsub1 Hsub2].
  destruct (before_first_spec semicolon (c0 :: sub)) as [Hf1 Hf2].
  rewrite Es in Hsub1, Hsub2. rewrite Ef in Hf1, Hf2.
  split; [discriminate|]. split.
  { rewrite <- Ef. now apply before_first_twice. }
  split; [exact Hf1|].
  exists (before_first slash s).
  destruct Hf2 as [Hf2 | [r2 Hf2]]; destruct Hsub2 as [Hr | [r1 Hr]].
  - exists []. rewrite app_nil_r. split; [| split; [exact Hb | exact I]].
    rewrite Hs at 1. now rewrite Hr, Hf2.
  - exists (slash :: r1). split; [| split; [exact Hb | now left]].
    rewrite Hs at 1. now rewrite Hr, Hf2.
  - exists (semicolon :: r2). split; [| split; [exact Hb | now right]].
    rewrite Hs at 1. now rewrite Hr, Hf2.
  - exists (semicolon :: r2 ++ slash :: r1).
    split; [| split; [exact Hb | now right]].
    rewrite Hs at 1. rewrite Hr, Hf2. now rewrite <- !app_assoc.
Qed.

(** The format of [video/mp4; codecs=avc1] is [mp4]. *)
Lemma mp4_example :
  mimeTypeToFormat (JStr (js "video/mp4; codecs=avc1")) = inr (Some (js "mp4"))
  /\ js "mp4" <> []
  /\ ~ In slash (js "mp4")
  /\ ~ In semicolon (js "mp4").
Proof.
  assert (H : mimeTypeToFormat (JStr (js "video/mp4; codecs=avc1"))
              = inr (Some (js "mp4"))) by reflexivity.
  split; [exact H|].
  destruct (mimeTypeToFormat_extracts_the_subtype _ _ H) as [H1 [H2 [H3 _]]].
  auto.
Defined.

(** X27. Whatever the attachment, [normalizeAttachment] throws only when a
    video without [format] comes with a truthy [mimeType] that is not a
    string; otherwise it returns null or a chunk that carries a source: an
    [image_url] chunk with a truthy [url], for an attachment whose type is
    [image] in any letter case, or an [input_video] chunk with a truthy
    [url] or truthy [data], for one whose type is [video]; when the
    attachment has a truthy [url], that URL is the one in the chunk and the
    data are not looked at. *)
Theorem normalizeAttachment_gives_null_or_a_source :
  forall a : attachment,
    match normalizeAttachment a with
    | inl e =>
        e = TypeError
        /\ type_is a "video" = true
        /\ truthy (format a) = false
        /\ truthy (mimeType a) = true
        /\ (forall s, mimeType a <> JStr s)
    | inr chunk =>
        chunk = JNull
        \/ (has_source chunk
            /\ (type_is a "image" = true \/ type_is a "video" = true)
            /\ (truthy (url a) = true ->
                get (get chunk "image_url") "url" = url a
                \/ get (get chunk "video") "url" = url a))
    end.
Proof.
  intros a. unfold normalizeAttachment.
  destruct (truthy (type a)); cbn [negb]; [| now left].
  destruct (type_is a "image") eqn:Ei.
  - destruct (truthy (url a)) eqn:Eu.
    + right. split; [left; split; [reflexivity | exact Eu]|].
      split; [now left | intros _; now left].
    + destruct (toDataUri (data a) _) as [[|c uri]|]; try (now left).
      right. split; [left; split; reflexivity|].
      split; [now left | discriminate].
  - destruct (type_is a "video") eqn:Ev; [| now left].
    destruct (truthy (url a)) eqn:Eu.
    + right. split; [right; split; [reflexivity | left; exact Eu]|].
      split; [now right | intros _; now right].
    + destruct (toBase64 (data a)) as [[|c enc]|]; try (now left).
      destruct (truthy (format a)) eqn:Ef.
      * right. split; [right; split; [reflexivity | right; reflexivity]|].
        split; [now right | discriminate].
      * destruct (truthy (mimeType a)) eqn:Em.
        -- destruct (mimeTypeToFormat (mimeType a)) as [e | [f|]] eqn:Emt.
           ++ unfold mimeTypeToFormat in Emt. rewrite Em in Emt.
              cbn [negb] in Emt.
              destruct (mimeType a) eqn:Emime;
                try (injection Emt as <-; repeat split; auto; discriminate).
              exfalso.
              destruct (after_first slash s) as [r|]; [| discriminate].
              destruct (before_first slash r) as [|c0 sub]; [discriminate|].
              destruct (before_first semicolon (c0 :: sub)); discriminate.
           ++ right. split; [right; split; [reflexivity | right; reflexivity]|].
              split; [now right | discriminate].
           ++ right. split; [right; split; [reflexivity | right; reflexivity]|].
              split; [now right | discriminate].
        -- right. split; [right; split; [reflexivity | right; reflexivity]|].
           split; [now right | discriminate].
Qed.

End AttachmentFacts.

(** ** The connection of the store *)

Module ConnectionFacts.

Import Connection.

Lemma connect_consistent (this : AiMemoryStore) (d : driver) :
  consistent this -> consistent (fst (fst (connect this d))).
Proof.
  unfold consistent, connect.
  destruct (connectionPromise this) eqn:Ep; [simpl; now rewrite Ep|].
  intros Hi. unfold call.
  destruct (verdicts d (length (received d))); cbn [fst snd];
    [cbn; exact Hi|].
  cbn [received verdicts].
  destruct (verdicts d (length (received d ++ [NewMongoClient])));
    cbn [fst snd]; [cbn; exact Hi|].
  rewrite Hi. cbn [received verdicts].
  destruct (verdicts d _); cbn; auto.
Qed.

Lemma disconnect_consistent (this : AiMemoryStore) (d : driver) :
  consistent this -> consistent (fst (fst (disconnect this d))).
Proof.
  unfold disconnect. destruct (client this); [| auto].
  unfold call. destruct (verdicts d (length (received d))); cbn; auto.
Qed.

Lemma after_consistent (actions : list action) :
  forall s : AiMemoryStore * driver,
    consistent (fst s) -> consistent (fst (after actions s)).
Proof.
  induction actions as [|a actions IH]; intros s Hs; [exact Hs|].
  unfold after. cbn [fold_left]. apply IH.
  destruct a; unfold perform; cbn [fst].
  - now apply connect_consistent.
  - now apply disconnect_consistent.
Qed.

(** X28. Whatever sequence of [connect] and [disconnect] calls a store has
    gone through since it was constructed, and whatever the driver threw,
    its fields agree: a cached connection comes with a client, a collection
    and the index; without one, [indexEnsured] is false. So a [connect]
    that finds a cached connection calls the driver for nothing, and a
    [connect] that finds none, on a driver that accepts its calls, creates a
    client, connects and always creates the index again. *)
Theorem reconnecting_always_creates_the_index :
  forall (uri dbName : jsval) (this : AiMemoryStore) (d : driver)
         (actions : list action),
    new uri dbName = inr this ->
    let this' := fst (after actions (this, d)) in
    let d' := snd (after actions (this, d)) in
    consistent this'
    /\ (connectionPromise this' = true -> connect this' d' = (this', d', None))
    /\ (connectionPromise this' = false ->
        accepts d' 3 ->
        connect this' d'
        = (Store true true true true,
           Driver (received d' ++ [NewMongoClient; ClientConnect; CreateIndex])
                  (verdicts d'),
           None)).
Proof.
  intros uri dbName this d actions Hnew this' d'.
  assert (Hc : consistent this').
  { apply (after_consistent actions (this, d)). unfold new in Hnew.
    destruct (negb (truthy uri) || negb (truthy dbName)); [discriminate|].
    injection Hnew as <-. reflexivity. }
  split; [exact Hc|]. split.
  - intros Hp. unfold connect. now rewrite Hp.
  - intros Hp Hacc. unfold consistent in Hc. rewrite Hp in Hc.
    unfold connect. rewrite Hp, Hc. unfold call.
    pose proof (Hacc 0%nat ltac:(lia)) as H0.
    pose proof (Hacc 1%nat ltac:(lia)) as H1.
    pose proof (Hacc 2%nat ltac:(lia)) as H2.
    rewrite Nat.add_0_r in H0. rewrite H0. cbn [received verdicts].
    rewrite length_app. cbn [length]. rewrite H1.
    rewrite !length_app. cbn [length].
    rewrite <- Nat.add_assoc. cbn [Nat.add]. rewrite H2.
    now rewrite <- !app_assoc.
Qed.

(** A store connects, disconnects and connects again on a driver that
    accepts every call: the index is created twice. *)
Lemma reconnect_example :
  let d := Driver [] (fun _ => None) in
  new (JStr (js "mongodb://h")) (JStr (js "db")) = inr (Store false false false false)
  /\ received
       (snd (fst (connect
                    (fst (after [Connects; Disconnects]
                                (Store false false false false, d)))
                    (snd (after [Connects; Disconnects]
                                (Store false false false false, d))))))
     = [NewMongoClient; ClientConnect; CreateIndex; ClientClose;
        NewMongoClient; ClientConnect; CreateIndex].
Proof.
  intros d.
  assert (Hnew : new (JStr (js "mongodb://h")) (JStr (js "db"))
                 = inr (Store false false false false)) by reflexivity.
  split; [exact Hnew|].
  destruct (reconnecting_always_creates_the_index
              _ _ _ d [Connects; Disconnects] Hnew) as [_ [_ H]].
  rewrite H; [reflexivity | reflexivity |].
  intros k Hk. reflexivity.
Defined.

End ConnectionFacts.

(** ** [MultiProviderAi.transcribe] *)

Module MultiTranscribeFacts.

Lemma transcribing_refl (o : transcribe_options) (w : world) :
  transcribing o w w.
Proof. exists []. rewrite app_nil_r. auto. Qed.

Lemma transcribing_trans (o : transcribe_options) (w1 w2 w3 : world) :
  transcribing o w1 w2 -> transcribing o w2 w3 -> transcribing o w1 w3.
Proof.
  intros [s1 [E1 [F1 N1]]] [s2 [E2 [F2 N2]]]. exists (s1 ++ s2).
  split; [now rewrite E2, E1, app_assoc|].
  split; [now apply Forall_app|].
  intros H. now rewrite (N1 H), (N2 H).
Qed.

Lemma transcribing_same (o : transcribe_options) (w w' : world) :
  requests w' = requests w -> transcribing o w w'.
Proof. intros H. exists []. rewrite app_nil_r. auto. Qed.

Lemma model_given (v d : jsval) : truthy v = true -> default_arg v d = v.
Proof. unfold default_arg. destruct v; try discriminate; reflexivity. Qed.

(** The strategies of one provider's [transcribe] send transcription
    requests only, to the model the caller named if any. *)
Lemma transcribe_over_sends (b : Sdk.brand) (this : client)
  (net : network transcribe_options) (o : transcribe_options) (w : world) :
  Sdk.sdk b = "groq"%string \/ Sdk.sdk b = "mistral"%string ->
  audio_given (file o) = true ->
  transcribing o w (snd (fst (Sdk.transcribe_over b this net o w))).
Proof.
  intros Hb Hfile. unfold Sdk.transcribe_over, finish. cbn [fst snd].
  set (model' := default_arg (model o)
                   (JStr (js (Sdk.default_transcription b)))).
  destruct (StrategyFacts.resolve_effects
              (Sdk.runOnce b (requestTimeoutMs this) (net o))
              (Sdk.sdk b ++ ":transcription")%string
              (fun _ => Sdk.transcription_line b)
              (Sdk.all_transcriptions_failed b)
              (firstToFinish this) (Sdk.candidates b this model')
              (Ctx (Client.lastUsedModel this) w))
    as [n [lines [_ [_ [Heq _]]]]].
  rewrite Heq. cbn [env].
  exists (asked (Sdk.sdk b ++ ":transcription") (Sdk.candidates b this model') n).
  split; [reflexivity|]. split; [| congruence].
  unfold asked. apply Forall_forall. intros r Hr.
  apply in_map_iff in Hr as [m [<- Hm]]. split.
  - cbn [endpoint]. destruct Hb as [-> | ->]; auto.
  - intros Ht. cbn [target]. unfold model' in Hm.
    rewrite (model_given _ _ Ht) in Hm. unfold Sdk.candidates in Hm.
    rewrite Ht in Hm.
    assert (Hin : In m [model o]).
    { rewrite <- (firstn_skipn n [model o]). apply in_or_app. now left. }
    destruct Hin as [<- | []]. reflexivity.
Qed.

Lemma groq_transcribe_sends (this : client)
  (net : network transcribe_options) (o : transcribe_options) (w : world) :
  transcribing o w (snd (fst (Groq.transcribe_timed this net o w))).
Proof.
  unfold Groq.transcribe_timed.
  destruct (audio_given (file o)) eqn:Hfile; cbn [negb].
  - now apply transcribe_over_sends; [left|].
  - apply transcribing_refl.
Qed.

Lemma mistral_transcribe_sends (readFileSync : jsstring -> error + list N)
  (this : client) (net : network transcribe_options)
  (o : transcribe_options) (w : world) :
  transcribing o w
    (snd (fst (Mistral.transcribe_timed readFileSync this net o w))).
Proof.
  unfold Mistral.transcribe_timed.
  destruct (audio_given (file o)) eqn:Hfile; cbn [negb];
    [| apply transcribing_refl].
  destruct (Mistral.prepare readFileSync (file o)) as [t [e | u] |];
    try apply transcribing_refl.
  unfold later3. cbn [fst snd].
  pose proof (transcribe_over_sends Mistral.brand this net o w
                (or_intror eq_refl) Hfile) as H.
  destruct (Sdk.transcribe_over Mistral.brand this net o w)
    as [[this' w'] res].
  cbn [fst snd] in H. unfold Mistral.rethrown.
  destruct res as [t' [e | text] |]; cbn [fst snd]; exact H.
Qed.

Section Transcribe.

Variable readFileSync : jsstring -> error + list N.
Variable nets : Multi.provider -> network transcribe_options.
Variable o : transcribe_options.

Lemma client_transcribe_sends (p : Multi.provider) (c : client) (w : world) :
  transcribing o w
    (snd (fst (MultiTranscribe.client_transcribe readFileSync nets p c o w))).
Proof.
  destruct p; simpl.
  - apply transcribing_refl.
  - apply mistral_transcribe_sends.
  - apply groq_transcribe_sends.
Qed.

Lemma sequential_sends (providers : list Multi.provider) :
  forall (lastErr : option error) (elapsed : Z) (this : Multi.MultiProviderAi)
         (w : world),
    transcribing o w
      (snd (fst (MultiTranscribe.transcribe_sequential
                   readFileSync nets o providers lastErr elapsed this w))).
Proof.
  induction providers as [|p providers IH]; intros lastErr elapsed this w.
  - apply transcribing_refl.
  - cbn [MultiTranscribe.transcribe_sequential].
    destruct (Multi.client_of p (Multi.clients this)) as [c|].
    + pose proof (client_transcribe_sends p c w) as H.
      destruct (MultiTranscribe.client_transcribe readFileSync nets p c o w)
        as [[c' w1] res].
      cbn [fst snd] in H.
      destruct res as [t [e | text] |]; cbn [fst snd]; try exact H.
      eapply transcribing_trans; [exact H|].
      eapply transcribing_trans; [| apply IH].
      now apply transcribing_same.
    + eapply transcribing_trans; [| apply IH]. now apply transcribing_same.
Qed.

Lemma launch_sends (providers : list Multi.provider) :
  forall (this : Multi.MultiProviderAi) (w : world)
         (started : list completion),
    transcribing o w
      (snd (fst (MultiTranscribe.transcribe_launch
                   readFileSync nets o providers this w started))).
Proof.
  induction providers as [|p providers IH]; intros this w started.
  - apply transcribing_refl.
  - cbn [MultiTranscribe.transcribe_launch].
    destruct (Multi.client_of p (Multi.clients this)) as [c|]; [| apply IH].
    pose proof (client_transcribe_sends p c w) as H.
    destruct (MultiTranscribe.client_transcribe readFileSync nets p c o w)
      as [[c' w1] res].
    cbn [fst snd] in H.
    eapply transcribing_trans; [exact H | apply IH].
Qed.

Lemma racing_sends (providers : list Multi.provider)
  (this : Multi.MultiProviderAi) (w : world) :
  transcribing o w
    (snd (fst (MultiTranscribe.transcribe_racing
                 readFileSync nets o providers this w))).
Proof.
  unfold MultiTranscribe.transcribe_racing.
  pose proof (launch_sends providers this w []) as H.
  destruct (MultiTranscribe.transcribe_launch
              readFileSync nets o providers this w [])
    as [[this1 w1] started].
  cbn [fst snd] in *.
  eapply transcribing_trans; [exact H|]. apply transcribing_same.
  match goal with
  | |- context [completions ?line ?failed ?st ?evs] =>
      destruct (StrategyFacts.completions_effects line failed evs st)
        as [lines [_ Heq]]
  end.
  rewrite Heq. unfold after_attempts. cbn [requests self env].
  apply app_nil_r.
Qed.

End Transcribe.

(** X29. Whatever the providers answer and in either mode,
    [MultiProviderAi.transcribe] sends transcription requests to Groq and
    Mistral only, never a request to OpenRouter nor a chat request; when the
    caller names a model, every request asks for that model, whichever
    provider it goes to; and when [file] is missing no request is sent at
    all. *)
Theorem multi_transcribe_asks_groq_and_mistral_only :
  forall (readFileSync : jsstring -> error + list N)
         (this : Multi.MultiProviderAi)
         (nets : Multi.provider -> network transcribe_options)
         (o : transcribe_options) (w : world),
  exists sent : list request,
    requests (snd (fst (MultiTranscribe.transcribe readFileSync this nets o w)))
    = requests w ++ sent
    /\ Forall (transcription_request o) sent
    /\ (audio_given (file o) = false -> sent = []).
Proof.
  intros readFileSync this nets o w.
  change (transcribing o w
            (snd (fst (MultiTranscribe.transcribe readFileSync this nets o w)))).
  unfold MultiTranscribe.transcribe, untimed, MultiTranscribe.transcribe_timed.
  cbn [fst].
  destruct (filter (MultiTranscribe.can_transcribe this)
                   (Multi.getOrderedProviders this)) as [|p ps];
    [apply transcribing_refl|].
  destruct (negb (truthy (Multi.firstToFinish this))
            || (length (p :: ps) =? 1)%nat).
  - apply sequential_sends.
  - apply racing_sends.
Qed.

End MultiTranscribeFacts.

(** ** [MultiProviderAiWithHistory] *)

Module MultiRememberFacts.

Lemma chatting_refl (w : world) : chatting w w.
Proof. exists [], []. now rewrite EngineFacts.after_nothing. Qed.

Lemma chatting_trans (w1 w2 w3 : world) :
  chatting w1 w2 -> chatting w2 w3 -> chatting w1 w3.
Proof.
  intros [l1 [s1 ->]] [l2 [s2 ->]]. exists (l1 ++ l2), (s1 ++ s2).
  apply EngineFacts.after_after.
Qed.

Lemma chatting_say (l : log_line) (w : world) : chatting w (say l w).
Proof.
  exists [l], []. unfold say, after_attempts. simpl. now rewrite app_nil_r.
Qed.

Section Ask.

Variable nets : Multi.provider -> network ask_options.
Variable o : ask_options.

Lemma client_ask_chats (p : Multi.provider) (c : client) (w : world) :
  chatting w (snd (fst (Multi.client_ask nets p c o w))).
Proof.
  destruct p; simpl.
  - exact (AskCases.ask_prints_and_sends c (nets Multi.openrouter) o w).
  - exact (RememberFacts.sdk_effects Mistral.brand (nets Multi.mistral) c o w).
  - exact (RememberFacts.sdk_effects Groq.brand (nets Multi.groq) c o w).
Qed.

Lemma ask_sequential_chats (providers : list Multi.provider) :
  forall (lastErr : option error) (elapsed : Z) (this : Multi.MultiProviderAi)
         (w : world),
    chatting w
      (snd (fst (Multi.ask_sequential nets o providers lastErr elapsed
                                      this w))).
Proof.
  induction providers as [|p providers IH]; intros lastErr elapsed this w.
  - apply chatting_refl.
  - cbn [Multi.ask_sequential].
    destruct (Multi.client_of p (Multi.clients this)) as [c|]; [| apply IH].
    pose proof (client_ask_chats p c w) as H.
    destruct (Multi.client_ask nets p c o w) as [[c' w1] res].
    cbn [fst snd] in H.
    destruct res as [t [e | text] |]; cbn [fst snd]; try exact H.
    eapply chatting_trans; [exact H|].
    eapply chatting_trans; [apply chatting_say | apply IH].
Qed.

Lemma ask_launch_chats (providers : list Multi.provider) :
  forall (this : Multi.MultiProviderAi) (st : race)
         (started : list completion),
    chatting (env (self st))
      (env (self (snd (fst (Multi.ask_launch nets o providers this st
                                             started))))).
Proof.
  induction providers as [|p providers IH]; intros this st started.
  - apply chatting_refl.
  - cbn [Multi.ask_launch].
    destruct (Multi.client_of p (Multi.clients this)) as [c|].
    + pose proof (client_ask_chats p c (env (self st))) as H.
      destruct (Multi.client_ask nets p c o (env (self st)))
        as [[c' w1] res].
      cbn [fst snd] in H.
      eapply chatting_trans; [exact H|].
      match goal with
      | |- context [Multi.ask_launch nets o providers ?this1 ?st1 ?started1] =>
          exact (IH this1 st1 started1)
      end.
    + match goal with
      | |- context [Multi.ask_launch nets o providers ?this1 ?st1 ?started1] =>
          pose proof (IH this1 st1 started1) as H
      end.
      destruct (negb (settled st) && (remaining st - 1 =? 0)%Z); exact H.
Qed.

Lemma multi_ask_chats (this : Multi.MultiProviderAi) (w : world) :
  chatting w (snd (fst (Multi.ask this nets o w))).
Proof.
  unfold Multi.ask, Multi.ask_timed, untimed. cbn [fst].
  destruct (Multi.getOrderedProviders this) as [|p ps];
    [apply chatting_refl|].
  destruct (negb (truthy (Multi.firstToFinish this))
            || (length (p :: ps) =? 1)%nat).
  - apply ask_sequential_chats.
  - unfold Multi.ask_racing.
    pose proof (ask_launch_chats (p :: ps) this
                  (Race false (Z.of_nat (length (p :: ps))) None Hangs 0
                        (Ctx (Multi.lastUsedModel this) w)) []) as H.
    destruct (Multi.ask_launch nets o (p :: ps) this _ [])
      as [[this1 st1] started].
    cbn [fst snd self env] in *.
    eapply chatting_trans; [exact H|].
    match goal with
    | |- context [completions ?line ?failed ?st ?evs] =>
        destruct (StrategyFacts.completions_effects line failed evs st)
          as [lines [_ Heq]]
    end.
    rewrite Heq. now exists lines, [].
Qed.

End Ask.

(** X30. [MultiProviderAiWithHistory.ask] persists answers only. When the
    call does not return (it throws or never settles), the collection holds
    the documents it held and no identifier or date has been used. When it
    returns a text, with a truthy content kept for the history, a scope
    that is not empty and a chat below the ceiling, exactly two documents
    are appended: the user's turn, then the assistant's turn holding the
    returned text. *)
Theorem multi_history_persists_answers_only :
  forall (nets : Multi.provider -> network ask_options)
         (format : Memory.turn -> jsval)
         (forHistory : jsval -> jsval -> jsval)
         (this : History.bound Multi.MultiProviderAi)
         (chatId system user attachments : jsval) (w : world),
    ((forall text,
         snd (MultiProviderAiWithHistory.ask nets format forHistory this
                chatId system user attachments w) <> Returned text) ->
     collection
       (snd (fst (MultiProviderAiWithHistory.ask nets format forHistory this
                    chatId system user attachments w)))
     = collection w
     /\ next_id
          (snd (fst (MultiProviderAiWithHistory.ask nets format forHistory
                       this chatId system user attachments w)))
        = next_id w
     /\ dates_read
          (snd (fst (MultiProviderAiWithHistory.ask nets format forHistory
                       this chatId system user attachments w)))
        = dates_read w)
    /\ (forall text,
          snd (MultiProviderAiWithHistory.ask nets format forHistory this
                 chatId system user attachments w) = Returned text ->
          truthy (forHistory user attachments) = true ->
          sorts_newest_first w ->
          History.memoryScope this <> [] ->
          (length (Memory.partition (to_String chatId)
                                    (History.memoryScope this) w)
           + 2 <= 80)%nat ->
          collection
            (snd (fst (MultiProviderAiWithHistory.ask nets format forHistory
                         this chatId system user attachments w)))
          = collection w
            ++ [Doc (next_id w) (to_String chatId) (History.memoryScope this)
                    (JStr (js "user")) (forHistory user attachments)
                    (clock w (dates_read w));
                Doc (S (next_id w)) (to_String chatId)
                    (History.memoryScope this)
                    (JStr (js "assistant")) (JStr text)
                    (clock w (S (dates_read w)))]).
Proof.
  intros nets format forHistory this chatId system user attachments w.
  split.
  - intros Hfail.
    apply (RememberFacts.ask_failure_store "MultiProviderAiWithHistory"
             Multi.MultiProviderAi
             (fun b o w => Multi.ask b nets o w) format forHistory).
    + intros b o w0. apply multi_ask_chats.
    + intros b o w0 t. apply MultiAskFacts.multi_ask_text.
    + exact Hfail.
  - intros text Hres Hcontent Hsort Hscope Hfit.
    apply (RememberFacts.ask_success_store "MultiProviderAiWithHistory"
             Multi.MultiProviderAi
             (fun b o w => Multi.ask b nets o w) format forHistory);
      try assumption.
    + intros b o w0. apply multi_ask_chats.
    + intros b o w0 t. apply MultiAskFacts.multi_ask_text.
Qed.

(** Groq and Mistral both answer the first question of a chat: the
    question and the answer are stored, in this order. *)
Lemma multi_first_exchange_example :
  let nets : Multi.provider -> network ask_options :=
    fun _ _ _ _ => Fulfils 7 (Scenario.chooses " hi ") in
  let r := MultiProviderAiWithHistory.ask nets Scenario.stored_content
             Scenario.user_content
             (History.Bound Scenario.moderator (js "default") 10)
             Scenario.chat JUndefined (JStr (js "hello")) JUndefined
             Scenario.quiet in
  snd r = Returned (js "hi")
  /\ collection (snd (fst r))
     = [Doc 0 (js "chat-1") (js "default") (JStr (js "user"))
            (JStr (js "hello")) 0;
        Doc 1 (js "chat-1") (js "default") (JStr (js "assistant"))
            (JStr (js "hi")) 1].
Proof.
  intros nets r.
  assert (H : snd r = Returned (js "hi")) by (vm_compute; reflexivity).
  split; [exact H|].
  apply (proj2 (multi_history_persists_answers_only
                  nets Scenario.stored_content Scenario.user_content
                  (History.Bound Scenario.moderator (js "default") 10)
                  Scenario.chat JUndefined (JStr (js "hello")) JUndefined
                  Scenario.quiet) (js "hi") H).
  - reflexivity.
  - apply MemoryFacts.empty_world_sorts.
  - discriminate.
  - simpl. lia.
Defined.

End MultiRememberFacts.
